(** * Higra hierarchy core: canonical binary partition tree, tree
    simplification, quasi-flat zones, saliency maps and binary partition
    trees by fusion.

    Shallow embedding of [include/higra/hierarchy/hierarchy_core.hpp] and of
    the binary partition tree header, with the collaborating structures
    (graph, union-find, tree, LCA, heap) modelled next to them.

    Conventions.  Indices ([index_t], [size_t]) are [nat]: the arrays of a
    run never approach the 64-bit range.  Edge weights and altitudes are
    integers ([Z]).  An xtensor 1-d array is a [list], read with [!!!] and
    written with [<[i:=x]>]; reads and writes out of range are undefined
    behaviour in the source and every theorem keeps indices in range. *)

From Stdlib Require Import ZArith Lia.
From stdpp Require Import base tactics option list numbers sorting relations.

Local Open Scope nat_scope.

(* ================================================================== *)
(** * Graph model *)
(* ================================================================== *)

(** Modelled from the spec: the undirected graph [ugraph] (section 4.1).
    Vertices are [0..n), an edge id is the position of the edge in the edge
    list, and an edge descriptor gives its two endpoints. *)
Record ugraph := Ugraph {
  num_vertices : nat;
  edge_list : list (nat * nat)
}.

Definition num_edges (g : ugraph) : nat := length (edge_list g).
Definition edge_from_index (ei : nat) (g : ugraph) : nat * nat := edge_list g !!! ei.
Definition source (e : nat * nat) : nat := fst e.
Definition target (e : nat * nat) : nat := snd e.

(** [ugraph mst(num_points)] and [mst.add_edge(e)]: the new edge takes the
    next free edge id. *)
Definition empty_graph (n : nat) : ugraph := Ugraph n [].
Definition add_edge (e : nat * nat) (g : ugraph) : ugraph :=
  Ugraph (num_vertices g) (edge_list g ++ [e]).

(** Every endpoint names a vertex. *)
Definition graph_wf (g : ugraph) : Prop :=
  Forall (λ e, source e < num_vertices g ∧ target e < num_vertices g) (edge_list g).

(* ================================================================== *)
(** * Stable sort *)
(* ================================================================== *)

(** [std::stable_sort(first, last, comp)]: insertion into the sorted tail,
    in front of the first element that is not strictly smaller.  The front
    element of the input stays in front of every element it ties with. *)
Section StableSort.
Context {A : Type} (lt : A → A → bool).

Fixpoint insert_sorted (x : A) (l : list A) : list A :=
  match l with
  | [] => [x]
  | y :: l' => if lt y x then y :: insert_sorted x l' else x :: l
  end.

Fixpoint stable_sort (l : list A) : list A :=
  match l with
  | [] => []
  | x :: l' => insert_sorted x (stable_sort l')
  end.
End StableSort.

(** Lines 79-81 of hierarchy_core.hpp: the comparator reads the weights. *)
Definition weight_lt (edge_weights : list Z) (i j : nat) : bool :=
  (edge_weights !!! i <? edge_weights !!! j)%Z.

Definition sorted_edges_indices (g : ugraph) (edge_weights : list Z) : list nat :=
  stable_sort (weight_lt edge_weights) (seq 0 (num_edges g)).

(* ================================================================== *)
(** * Union-find *)
(* ================================================================== *)

(** Modelled from the spec: [union_find] (sections 3 and 4.2), a parent
    array and a rank array; [find] walks to the root and then compresses
    the path, [link] attaches the root of smaller rank under the other one
    and returns the new root.  The two loops of [find] are bounded by the
    size of the structure. *)
Record union_find := UnionFind {
  uf_parent : list nat;
  uf_rank : list nat
}.

Definition uf_make (n : nat) : union_find :=
  UnionFind (seq 0 n) (replicate n 0).

Fixpoint find_root (fuel : nat) (parent : list nat) (i : nat) : nat :=
  match fuel with
  | 0 => i
  | S fuel' =>
      let p := parent !!! i in
      if p =? i then i else find_root fuel' parent p
  end.

Fixpoint compress (fuel : nat) (parent : list nat) (element root : nat) : list nat :=
  match fuel with
  | 0 => parent
  | S fuel' =>
      let p := parent !!! element in
      if p =? root then parent
      else compress fuel' (<[element := root]> parent) p root
  end.

Definition uf_find (uf : union_find) (element : nat) : nat * union_find :=
  let n := length (uf_parent uf) in
  let r := find_root n (uf_parent uf) element in
  (r, UnionFind (compress n (uf_parent uf) element r) (uf_rank uf)).

Definition uf_link (uf : union_find) (i j : nat) : nat * union_find :=
  let '(i, j) := if uf_rank uf !!! j <? uf_rank uf !!! i then (j, i) else (i, j) in
  let rank' :=
    if uf_rank uf !!! i =? uf_rank uf !!! j
    then <[j := S (uf_rank uf !!! j)]> (uf_rank uf)
    else uf_rank uf in
  (j, UnionFind (<[i := j]> (uf_parent uf)) rank').

(* ================================================================== *)
(** * Trees *)
(* ================================================================== *)

(** Modelled from the spec: the [tree] class (sections 3 and 4.4), a parent
    vector in which every non-root node maps to a strictly greater index;
    the root is therefore the last node and is its own parent. *)
Record tree := Tree { parents : list nat }.

Definition num_vertices_tree (t : tree) : nat := length (parents t).
Definition parent (i : nat) (t : tree) : nat := parents t !!! i.
Definition root (t : tree) : nat := num_vertices_tree t - 1.

Definition children (i : nat) (t : tree) : list nat :=
  filter (λ c, parent c t = i ∧ c ≠ i) (seq 0 (num_vertices_tree t)).

Definition is_leaf (i : nat) (t : tree) : bool :=
  bool_decide (children i t = []).

Definition num_leaves (t : tree) : nat :=
  length (filter (λ i, is_leaf i t = true) (seq 0 (num_vertices_tree t))).

(** The validation done by the constructor. *)
Definition tree_valid (t : tree) : Prop :=
  0 < num_vertices_tree t ∧
  parent (root t) t = root t ∧
  ∀ i, i < root t → i < parent i t ∧ parent i t < num_vertices_tree t.

(** The same validation as a test, the form in which the constructor
    runs it on a parent vector. *)
Definition tree_valid_b (t : tree) : bool :=
  (0 <? num_vertices_tree t) && (parent (root t) t =? root t) &&
  forallb (λ i, (i <? parent i t) && (parent i t <? num_vertices_tree t)) (seq 0 (root t)).

Inductive leaves_it := leaves_include | leaves_exclude.
Inductive root_it := root_include | root_exclude.

Definition keep_node (t : tree) (lo : leaves_it) (ro : root_it) (i : nat) : bool :=
  match lo with leaves_include => true | leaves_exclude => negb (is_leaf i t) end &&
  match ro with root_include => true | root_exclude => negb (i =? root t) end.

(** Leaves-to-root traversal is a linear scan by increasing index,
    root-to-leaves is the same scan backwards. *)
Definition leaves_to_root_iterator (t : tree) (lo : leaves_it) (ro : root_it) : list nat :=
  filter (λ i, keep_node t lo ro i = true) (seq 0 (num_vertices_tree t)).

Definition root_to_leaves_iterator (t : tree) (lo : leaves_it) (ro : root_it) : list nat :=
  reverse (leaves_to_root_iterator t lo ro).

(** Modelled from the spec: [propagate_parallel] (section 4.10, step 2),
    [parent_alt[v] = alt[parent(v)]]. *)
Definition propagate_parallel (t : tree) (altitudes : list Z) : list Z :=
  fmap (λ v, altitudes !!! parent v t) (seq 0 (num_vertices_tree t)).

(** [xt::index_view(a, idx)]. *)
Definition index_view {A} `{Inhabited A} (a : list A) (idx : list nat) : list A :=
  fmap (λ i, a !!! i) idx.

(* ================================================================== *)
(** * bpt_canonical *)
(* ================================================================== *)

Inductive error :=
| InvalidInput        (* hg_assert_edge_weights *)
| BadAlloc            (* arrays of size_t(0) - 1 elements *)
| DisconnectedGraph   (* hg_assert(num_edge_found == num_edge_mst) *)
| InvalidTree.        (* tree(parents) refuses the parent vector *)

(** Modelled from the spec: the constructor [tree(parents)] (section 4.4)
    validates the parent vector and fails when a non-root node does not
    map to a strictly greater index.  [binary_partition_tree] can hand it
    a vector that it refuses; the vectors of [bpt_canonical] and
    [simplify_tree] are always accepted ([bpt_canonical_make_tree],
    [simplify_tree_make_tree]), and these build their tree directly. *)
Definition make_tree (parents : list nat) : error + tree :=
  if tree_valid_b (Tree parents) then inr (Tree parents) else inl InvalidTree.

Record node_weighted_tree_and_mst := NodeWeightedTreeAndMst {
  nwt_tree : tree;
  nwt_altitudes : list Z;
  nwt_mst : ugraph;
  nwt_mst_edge_map : list nat
}.

(** The variables that the loop of lines 100-117 reads and writes. *)
Record kruskal_state := KruskalState {
  k_uf : union_find;
  k_roots : list nat;
  k_parents : list nat;
  k_levels : list Z;
  k_mst : ugraph;
  k_mst_edge_map : list nat;
  k_num_nodes : nat;
  k_num_edge_found : nat;
  k_i : nat
}.

Definition kruskal_init (g : ugraph) : kruskal_state :=
  let num_points := num_vertices g in
  KruskalState (uf_make num_points)
               (seq 0 num_points)
               (seq 0 (num_points * 2 - 1))
               (replicate (num_points * 2 - 1) 0%Z)
               (empty_graph num_points)
               (replicate (num_points - 1) 0)
               num_points 0 0.

(** The body of the loop, lines 101-116, for the edge id [ei]. *)
Definition kruskal_step (g : ugraph) (edge_weights : list Z) (ei : nat)
    (st : kruskal_state) : kruskal_state :=
  let e := edge_from_index ei g in
  let '(c1, uf) := uf_find (k_uf st) (source e) in
  let '(c2, uf) := uf_find uf (target e) in
  if c1 =? c2 then
    KruskalState uf (k_roots st) (k_parents st) (k_levels st) (k_mst st)
                 (k_mst_edge_map st) (k_num_nodes st) (k_num_edge_found st) (S (k_i st))
  else
    let num_nodes := k_num_nodes st in
    let levels := <[num_nodes := edge_weights !!! ei]> (k_levels st) in
    let parents := <[k_roots st !!! c1 := num_nodes]> (k_parents st) in
    let parents := <[k_roots st !!! c2 := num_nodes]> parents in
    let '(newRoot, uf) := uf_link uf c1 c2 in
    let roots := <[newRoot := num_nodes]> (k_roots st) in
    KruskalState uf roots parents levels (add_edge e (k_mst st))
                 (<[k_num_edge_found st := ei]> (k_mst_edge_map st))
                 (S num_nodes) (S (k_num_edge_found st)) (S (k_i st)).

(** The [while] of line 100 over the edges that are still to be scanned:
    it stops when [num_edge_mst] merges are done or the edges run out. *)
Fixpoint kruskal_loop (g : ugraph) (edge_weights : list Z) (num_edge_mst : nat)
    (todo : list nat) (st : kruskal_state) : kruskal_state :=
  match todo with
  | [] => st
  | ei :: todo' =>
      if k_num_edge_found st <? num_edge_mst
      then kruskal_loop g edge_weights num_edge_mst todo' (kruskal_step g edge_weights ei st)
      else st
  end.

Definition bpt_canonical (g : ugraph) (edge_weights : list Z)
    : error + node_weighted_tree_and_mst :=
  if negb (length edge_weights =? num_edges g) then inl InvalidInput
  else if num_vertices g =? 0 then inl BadAlloc
  else
    let num_edge_mst := num_vertices g - 1 in
    let st := kruskal_loop g edge_weights num_edge_mst
                (sorted_edges_indices g edge_weights) (kruskal_init g) in
    if k_num_edge_found st =? num_edge_mst
    then inr (NodeWeightedTreeAndMst (Tree (k_parents st)) (k_levels st)
                (k_mst st) (k_mst_edge_map st))
    else inl DisconnectedGraph.

(* ================================================================== *)
(** * simplify_tree *)
(* ================================================================== *)

Record remapped_tree := RemappedTree {
  rt_tree : tree;
  rt_node_map : list nat
}.

(** First loop (lines 155-165): from the root to the leaves, both
    excluded; state [(copy_parent, deleted_map, count)]. *)
Definition simplify_mark (t : tree) (criterion : nat → bool)
    (st : list nat * list nat * nat) (i : nat) : list nat * list nat * nat :=
  let '(copy_parent, deleted_map, count) := st in
  let parent := copy_parent !!! i in
  let '(copy_parent, count) :=
    if criterion i
    then (foldl (λ cp c, <[c := parent]> cp) copy_parent (children i t), S count)
    else (copy_parent, count) in
  (copy_parent, <[i := count]> deleted_map, count).

(** Second loop (lines 175-183): from the leaves to the root, root
    excluded; state [(new_parent, node_map, count)]. *)
Definition simplify_emit (t : tree) (criterion : nat → bool)
    (copy_parent deleted_map : list nat)
    (st : list nat * list nat * nat) (i : nat) : list nat * list nat * nat :=
  let '(new_parent, node_map, count) := st in
  if is_leaf i t || negb (criterion i) then
    let par := copy_parent !!! i in
    let new_par := par - deleted_map !!! par in
    (<[count := new_par]> new_parent, <[count := i]> node_map, S count)
  else st.

Definition simplify_tree (t : tree) (criterion : nat → bool) : remapped_tree :=
  let n_nodes := num_vertices_tree t in
  let '(copy_parent, deleted_map, count) :=
    foldl (simplify_mark t criterion)
          (parents t, replicate n_nodes 0, 0)
          (root_to_leaves_iterator t leaves_exclude root_exclude) in
  let deleted_map := fmap (λ d, count - d) deleted_map in
  let '(new_parent, node_map, _) :=
    foldl (simplify_emit t criterion copy_parent deleted_map)
          (seq 0 (n_nodes - count), replicate (n_nodes - count) 0, 0)
          (leaves_to_root_iterator t leaves_include root_exclude) in
  let node_map := <[length node_map - 1 := root t]> node_map in
  RemappedTree (Tree new_parent) node_map.

(* ================================================================== *)
(** * quasi_flat_zones_hierarchy *)
(* ================================================================== *)

Record node_weighted_tree := NodeWeightedTree {
  nw_tree : tree;
  nw_altitudes : list Z
}.

(** [xt::equal(altitudes, altitude_parents)] read at node [i]. *)
Definition plateau_criterion (altitudes altitude_parents : list Z) (i : nat) : bool :=
  (altitudes !!! i =? altitude_parents !!! i)%Z.

Definition quasi_flat_zones_hierarchy (g : ugraph) (edge_weights : list Z)
    : error + node_weighted_tree :=
  if negb (length edge_weights =? num_edges g) then inl InvalidInput
  else
    match bpt_canonical g edge_weights with
    | inl err => inl err
    | inr bpt =>
        let tree := nwt_tree bpt in
        let altitudes := nwt_altitudes bpt in
        let altitude_parents := propagate_parallel tree altitudes in
        let qfz := simplify_tree tree (plateau_criterion altitudes altitude_parents) in
        let qfz_altitude := index_view altitudes (rt_node_map qfz) in
        inr (NodeWeightedTree (rt_tree qfz) qfz_altitude)
    end.

(* ================================================================== *)
(** * saliency_map *)
(* ================================================================== *)

(** Modelled from the spec: [lca_fast] (section 4.5) answers lowest common
    ancestor queries.  With parents at greater indices than their children
    the lowest common ancestor is reached by moving the node of smaller
    index to its parent until both nodes meet. *)
Fixpoint lca_fuel (fuel : nat) (t : tree) (u v : nat) : nat :=
  match fuel with
  | 0 => u
  | S fuel' =>
      if u =? v then u
      else if u <? v then lca_fuel fuel' t (parent u t) v
      else lca_fuel fuel' t u (parent v t)
  end.

Definition lca (t : tree) (u v : nat) : nat :=
  lca_fuel (2 * num_vertices_tree t) t u v.

(** The batch entry point [lca(edge_iterator(graph))]. *)
Definition lca_edges (t : tree) (g : ugraph) : list nat :=
  fmap (λ e, lca t (source e) (target e)) (edge_list g).

Definition saliency_map (g : ugraph) (t : tree) (altitudes : list Z) : list Z :=
  index_view altitudes (lca_edges t g).

(* ================================================================== *)
(** * binary_partition_tree: collaborators *)
(* ================================================================== *)

(** Modelled from the spec: the working graph [undirected_graph<hash_setS>]
    (sections 3 and 4.1).  Edge ids are stable and never reused, so a
    removed edge leaves a hole.  The out-edges of a vertex are read by
    increasing edge id. *)
Record undirected_graph := UndirectedGraph {
  ug_num_vertices : nat;
  ug_edges : list (option (nat * nat))
}.

Definition copy_graph (g : ugraph) : undirected_graph :=
  UndirectedGraph (num_vertices g) (fmap Some (edge_list g)).

Definition ug_num_edges (g : undirected_graph) : nat := length (ug_edges g).

Definition ug_add_vertex (g : undirected_graph) : nat * undirected_graph :=
  (ug_num_vertices g, UndirectedGraph (S (ug_num_vertices g)) (ug_edges g)).

Definition ug_remove_edge (ei : nat) (g : undirected_graph) : undirected_graph :=
  UndirectedGraph (ug_num_vertices g) (<[ei := None]> (ug_edges g)).

Definition ug_set_edge (ei v1 v2 : nat) (g : undirected_graph) : undirected_graph :=
  UndirectedGraph (ug_num_vertices g) (<[ei := Some (v1, v2)]> (ug_edges g)).

Definition ug_edge_from_index (ei : nat) (g : undirected_graph) : nat * nat :=
  default (0, 0) (ug_edges g !!! ei).

Definition incident (v : nat) (oe : option (nat * nat)) : bool :=
  match oe with
  | Some (s, t) => (s =? v) || (t =? v)
  | None => false
  end.

Definition out_edges (v : nat) (g : undirected_graph) : list nat :=
  filter (λ ei, incident v (ug_edges g !!! ei) = true) (seq 0 (ug_num_edges g)).

Definition other_vertex (ei v : nat) (g : undirected_graph) : nat :=
  let e := ug_edge_from_index ei g in
  if source e =? v then target e else source e.

(** Modelled from the spec: the mergeable priority queue (section 4.3), a
    min-heap of [(value, index)] elements with stable handles.  The
    elements are kept in insertion order with their handle.  The contract
    leaves the choice among elements of equal minimal key open: a tie rule
    [pick] reads the whole heap, with the keys, the payloads and the
    handles of its elements, and its value, taken modulo the number of tied
    minima, selects one of them, counted in insertion order.  The rule may
    therefore choose by edge id, by handle or by any structure of its own,
    and differently at two ties of the same size.  In the main loop of
    [binary_partition_tree] every turn removes one element and none is
    pushed, so that the number of elements tells the turn: the run of a
    heap that chooses by all that it has met is the run of some tie rule
    ([binary_partition_tree_history_tie_rule]). *)
Record heap_element := HeapElement { he_value : Z; he_index : nat }.

Record heap := Heap {
  heap_entries : list (nat * heap_element);
  heap_next : nat
}.

Definition heap_new : heap := Heap [] 0.
Definition heap_empty (h : heap) : bool := bool_decide (heap_entries h = []).

Definition heap_push (x : heap_element) (h : heap) : nat * heap :=
  (heap_next h, Heap (heap_entries h ++ [(heap_next h, x)]) (S (heap_next h))).

Definition heap_min_value (h : heap) : option Z :=
  match heap_entries h with
  | [] => None
  | e :: l => Some (foldl (λ m e', Z.min m (he_value e'.2)) (he_value e.2) l)
  end.

Definition tie_rule : Type := heap → nat.

Definition heap_top (pick : tie_rule) (h : heap) : option (nat * heap_element) :=
  match heap_min_value h with
  | None => None
  | Some m =>
      let ties := filter (λ e, he_value e.2 = m) (heap_entries h) in
      ties !! (pick h `mod` length ties)
  end.

Definition heap_erase (hd : nat) (h : heap) : heap :=
  Heap (filter (λ e, e.1 ≠ hd) (heap_entries h)) (heap_next h).

Definition heap_update (hd : nat) (x : heap_element) (h : heap) : heap :=
  Heap (fmap (λ e, if e.1 =? hd then (hd, x) else e) (heap_entries h)) (heap_next h).

(** The descriptor handed to the linkage rule; [invalid_index] is [None]. *)
Record new_neighbour (T : Type) := NewNeighbour {
  neighbour_vertex : nat;
  first_edge_index : nat;
  second_edge_index : option nat;
  new_edge_weight : T
}.
Arguments NewNeighbour {T}.
Arguments neighbour_vertex {T}.
Arguments first_edge_index {T}.
Arguments second_edge_index {T}.
Arguments new_edge_weight {T}.

Definition nn_num_edges {T} (n : new_neighbour T) : nat :=
  match second_edge_index n with None => 1 | Some _ => 2 end.
Definition new_edge_index {T} (n : new_neighbour T) : nat := first_edge_index n.
Definition set_second_edge_index {T} (e : nat) (n : new_neighbour T) : new_neighbour T :=
  NewNeighbour (neighbour_vertex n) (first_edge_index n) (Some e) (new_edge_weight n).
Definition set_new_edge_weight {T} (x : T) (n : new_neighbour T) : new_neighbour T :=
  NewNeighbour (neighbour_vertex n) (first_edge_index n) (second_edge_index n) x.

(* ================================================================== *)
(** * Linkage rules *)
(* ================================================================== *)

(** A weighting function owns a state [W] (its side tables) and rewrites
    the [new_edge_weight] of every descriptor. *)
Definition weighter (W T : Type) : Type :=
  W → undirected_graph → nat → nat → nat → nat → list (new_neighbour T)
    → W * list (new_neighbour T).

(** The loop [for (auto &n: new_neighbours)] of a rule: the side tables
    are threaded through the descriptors in order. *)
Definition for_each_neighbour {W T} (body : W → new_neighbour T → W * new_neighbour T)
    (w : W) (new_neighbours : list (new_neighbour T)) : W * list (new_neighbour T) :=
  foldl (λ '(w, done) n, let '(w, n') := body w n in (w, done ++ [n']))
        (w, []) new_neighbours.

(** [binary_partition_tree_min_linkage::operator()], one descriptor. *)
Definition min_linkage_body (m_weights : list Z) (n : new_neighbour Z)
    : list Z * new_neighbour Z :=
  let min_value := m_weights !!! first_edge_index n in
  let min_value :=
    match second_edge_index n with
    | Some e2 => if (m_weights !!! e2 <? min_value)%Z then m_weights !!! e2 else min_value
    | None => min_value
    end in
  (<[new_edge_index n := min_value]> m_weights, set_new_edge_weight min_value n).

Definition binary_partition_tree_min_linkage : weighter (list Z) Z :=
  λ m_weights _ _ _ _ _ new_neighbours,
    for_each_neighbour min_linkage_body m_weights new_neighbours.

(** [binary_partition_tree_complete_linkage::operator()], one descriptor. *)
Definition complete_linkage_body (m_weights : list Z) (n : new_neighbour Z)
    : list Z * new_neighbour Z :=
  let max_value := m_weights !!! first_edge_index n in
  let max_value :=
    match second_edge_index n with
    | Some e2 => if (max_value <? m_weights !!! e2)%Z then m_weights !!! e2 else max_value
    | None => max_value
    end in
  (<[new_edge_index n := max_value]> m_weights, set_new_edge_weight max_value n).

Definition binary_partition_tree_complete_linkage : weighter (list Z) Z :=
  λ m_weights _ _ _ _ _ new_neighbours,
    for_each_neighbour complete_linkage_body m_weights new_neighbours.

(** The arithmetic of the value type of a rule: [+], [*] and [/] of the
    template parameter. *)
Class Arith (T : Type) := {
  arith_add : T → T → T;
  arith_mul : T → T → T;
  arith_div : T → T → T
}.

(** Integer values: [/] truncates towards zero. *)
#[global] Instance Z_arith : Arith Z := {
  arith_add := Z.add;
  arith_mul := Z.mul;
  arith_div := Z.quot
}.

(** The side tables [m_values] and [m_weights] of the average linkage. *)
Record average_linkage_tables (T : Type) := AverageLinkageTables {
  m_values : list T;
  m_weights : list T
}.
Arguments AverageLinkageTables {T}.
Arguments m_values {T}.
Arguments m_weights {T}.

(** [binary_partition_tree_average_linkage::operator()], one descriptor. *)
Definition average_linkage_body {T} `{Arith T, Inhabited T}
    (tb : average_linkage_tables T) (n : new_neighbour T)
    : average_linkage_tables T * new_neighbour T :=
  let '(new_value, new_weight) :=
    match second_edge_index n with
    | Some e2 =>
        let new_weight := arith_add (m_weights tb !!! first_edge_index n) (m_weights tb !!! e2) in
        let new_value :=
          arith_div
            (arith_add
               (arith_mul (m_values tb !!! first_edge_index n) (m_weights tb !!! first_edge_index n))
               (arith_mul (m_values tb !!! e2) (m_weights tb !!! e2)))
            new_weight in
        (new_value, new_weight)
    | None => (m_values tb !!! first_edge_index n, m_weights tb !!! first_edge_index n)
    end in
  (AverageLinkageTables (<[new_edge_index n := new_value]> (m_values tb))
                        (<[new_edge_index n := new_weight]> (m_weights tb)),
   set_new_edge_weight new_value n).

Definition binary_partition_tree_average_linkage {T} `{Arith T, Inhabited T}
    : weighter (average_linkage_tables T) T :=
  λ tb _ _ _ _ _ new_neighbours,
    for_each_neighbour average_linkage_body tb new_neighbours.

(* ================================================================== *)
(** * binary_partition_tree *)
(* ================================================================== *)

(** The variables of the main loop (lines 329-396 of the header). *)
Record bpt_state (W : Type) := BptState {
  b_g : undirected_graph;
  b_parents : list nat;
  b_levels : list Z;
  b_new_neighbour_indices : list (option nat);
  b_active : list bool;
  b_heap : heap;
  b_heap_handles : list (option nat);
  b_weighter : W;
  b_current_num_nodes_tree : nat
}.
Arguments BptState {W}.
Arguments b_g {W}.
Arguments b_parents {W}.
Arguments b_levels {W}.
Arguments b_new_neighbour_indices {W}.
Arguments b_active {W}.
Arguments b_heap {W}.
Arguments b_heap_handles {W}.
Arguments b_weighter {W}.
Arguments b_current_num_nodes_tree {W}.

(** Lines 319-326: every edge enters the heap once, in the order in which
    the vertices meet it. *)
Definition bpt_init_heap (graph : ugraph) (g : undirected_graph) (edge_weights : list Z)
    : list bool * heap * list (option nat) :=
  foldl (λ st v,
           foldl (λ '(active, hp, handles) e,
                    if active !!! e : bool then (active, hp, handles)
                    else
                      let '(hd, hp) := heap_push (HeapElement (edge_weights !!! e) e) hp in
                      (<[e := true]> active, hp, <[e := Some hd]> handles))
                 st (out_edges v g))
        (replicate (ug_num_edges g) false, heap_new, replicate (ug_num_edges g) None)
        (seq 0 (num_vertices graph)).

(** The lambda [explore_region] of lines 359-370. *)
Definition explore_region (g : undirected_graph) (region : nat)
    (st : list (new_neighbour Z) * list (option nat))
    : list (new_neighbour Z) * list (option nat) :=
  foldl (λ '(new_neighbours, new_neighbour_indices) e,
           let n := other_vertex e region g in
           match new_neighbour_indices !!! n with
           | Some k => (alter (set_second_edge_index e) k new_neighbours, new_neighbour_indices)
           | None => (new_neighbours ++ [NewNeighbour n e None 0%Z],
                      <[n := Some (length new_neighbours)]> new_neighbour_indices)
           end)
        st (out_edges region g).

(** Lines 384-393: the new weights go to the graph and to the heap. *)
Definition bpt_process_neighbour (new_parent : nat)
    (st : undirected_graph * list bool * heap) (handles : list (option nat))
    (nn : new_neighbour Z) : undirected_graph * list bool * heap :=
  let '(g, active, hp) := st in
  let '(g, active) :=
    match second_edge_index nn with
    | Some e2 => (ug_remove_edge e2 g, <[e2 := false]> active)
    | None => (g, active)
    end in
  let g := ug_set_edge (first_edge_index nn) (neighbour_vertex nn) new_parent g in
  let hp :=
    match handles !!! first_edge_index nn with
    | Some hd => heap_update hd (HeapElement (new_edge_weight nn) (first_edge_index nn)) hp
    | None => hp
    end in
  (g, <[first_edge_index nn := true]> active, hp).

(** One turn of the main loop, entered with the popped element. *)
Definition bpt_fuse {W} (weight_function : weighter W Z)
    (fusion_edge_index : nat) (fusion_edge_weight : Z) (st : bpt_state W) : bpt_state W :=
  let active := <[fusion_edge_index := false]> (b_active st) in
  let '(new_parent, g) := ug_add_vertex (b_g st) in
  let fusion_edge := ug_edge_from_index fusion_edge_index g in
  let region1 := source fusion_edge in
  let region2 := target fusion_edge in
  let parents := <[region1 := new_parent]> (b_parents st) in
  let parents := <[region2 := new_parent]> parents in
  let levels := <[new_parent := fusion_edge_weight]> (b_levels st) in
  let current_num_nodes_tree := S (b_current_num_nodes_tree st) in
  let g := ug_remove_edge fusion_edge_index g in
  let active := <[fusion_edge_index := false]> active in
  let '(new_neighbours, new_neighbour_indices) :=
    explore_region g region2
      (explore_region g region1 ([], b_new_neighbour_indices st)) in
  let new_neighbour_indices :=
    foldl (λ idx n, <[neighbour_vertex n := None]> idx) new_neighbour_indices new_neighbours in
  match new_neighbours with
  | [] =>
      BptState g parents levels new_neighbour_indices active (b_heap st)
               (b_heap_handles st) (b_weighter st) current_num_nodes_tree
  | _ =>
      let '(w, new_neighbours) :=
        weight_function (b_weighter st) g fusion_edge_index new_parent region1 region2
                        new_neighbours in
      let '(g, active, hp) :=
        foldl (λ s nn, bpt_process_neighbour new_parent s (b_heap_handles st) nn)
              (g, active, b_heap st) new_neighbours in
      BptState g parents levels new_neighbour_indices active hp
               (b_heap_handles st) w current_num_nodes_tree
  end.

Definition bpt_iteration {W} (pick : tie_rule) (weight_function : weighter W Z)
    (st : bpt_state W) : bpt_state W :=
  match heap_top pick (b_heap st) with
  | None => st
  | Some (heap_handle, min_element) =>
      let fusion_edge_index := he_index min_element in
      let fusion_edge_weight := he_value min_element in
      let st := BptState (b_g st) (b_parents st) (b_levels st) (b_new_neighbour_indices st)
                         (b_active st) (heap_erase heap_handle (b_heap st))
                         (<[fusion_edge_index := None]> (b_heap_handles st))
                         (b_weighter st) (b_current_num_nodes_tree st) in
      if b_active st !!! fusion_edge_index : bool
      then bpt_fuse weight_function fusion_edge_index fusion_edge_weight st
      else st
  end.

(** The [while] of line 330.  Every turn pops one element and no turn
    pushes one, so the number of turns is bounded by the elements pushed
    at initialisation. *)
Fixpoint bpt_loop {W} (fuel : nat) (pick : tie_rule) (weight_function : weighter W Z)
    (num_nodes_tree : nat) (st : bpt_state W) : bpt_state W :=
  match fuel with
  | 0 => st
  | S fuel' =>
      if negb (heap_empty (b_heap st)) && (b_current_num_nodes_tree st <? num_nodes_tree)
      then bpt_loop fuel' pick weight_function num_nodes_tree
             (bpt_iteration pick weight_function st)
      else st
  end.

Definition binary_partition_tree {W} (pick : tie_rule) (graph : ugraph)
    (edge_weights : list Z) (weight_function : weighter W Z) (w0 : W)
    : error + node_weighted_tree :=
  if negb (length edge_weights =? num_edges graph) then inl InvalidInput
  else if num_vertices graph =? 0 then inl BadAlloc
  else
    let g := copy_graph graph in
    let num_points := ug_num_vertices g in
    let num_nodes_tree := num_points * 2 - 1 in
    let '(active, hp, handles) := bpt_init_heap graph g edge_weights in
    let st := BptState g (seq 0 num_nodes_tree) (replicate num_nodes_tree 0%Z)
                       (replicate num_nodes_tree None) active hp handles w0 num_points in
    let st := bpt_loop (ug_num_edges g) pick weight_function num_nodes_tree st in
    match make_tree (b_parents st) with
    | inl err => inl err
    | inr t => inr (NodeWeightedTree t (b_levels st))
    end.

(** [binary_partition_tree(graph, w, make_binary_partition_tree_min_linkage(w))]. *)
Definition bpt_min_linkage (pick : tie_rule) (graph : ugraph) (edge_weights : list Z)
    : error + node_weighted_tree :=
  binary_partition_tree pick graph edge_weights binary_partition_tree_min_linkage edge_weights.

(* ================================================================== *)
(** * Scenarios of the test suite *)
(* ================================================================== *)

Definition grid_1x2 : ugraph := Ugraph 2 [(0, 1)].
Definition grid_2x3 : ugraph :=
  Ugraph 6 [(0, 1); (0, 3); (1, 2); (1, 4); (2, 5); (3, 4); (4, 5)].
Definition grid_2x4 : ugraph :=
  Ugraph 8 [(0, 1); (0, 4); (1, 2); (1, 5); (2, 3); (2, 6); (3, 7);
            (4, 5); (5, 6); (6, 7)].

Example testBPTtrivial :
  bpt_canonical grid_1x2 [2%Z] =
  inr (NodeWeightedTreeAndMst (Tree [2; 2; 2]) [0; 0; 2]%Z (Ugraph 2 [(0, 1)]) [0]).
Proof. vm_compute. reflexivity. Qed.

Example testBPT :
  bpt_canonical grid_2x3 [1; 0; 2; 1; 1; 1; 2]%Z =
  inr (NodeWeightedTreeAndMst
         (Tree [6; 7; 9; 6; 8; 9; 7; 8; 10; 10; 10])
         [0; 0; 0; 0; 0; 0; 0; 1; 1; 1; 2]%Z
         (Ugraph 6 [(0, 3); (0, 1); (1, 4); (2, 5); (1, 2)])
         [1; 0; 3; 4; 2]).
Proof. vm_compute. reflexivity. Qed.

Example testTreeSimplification :
  let t := Tree [5; 5; 6; 6; 6; 7; 7; 7] in
  let altitudes := [0; 0; 0; 0; 0; 1; 2; 2]%Z in
  simplify_tree t (plateau_criterion altitudes (index_view altitudes (parents t))) =
  RemappedTree (Tree [5; 5; 6; 6; 6; 6; 6]) [0; 1; 2; 3; 4; 5; 7].
Proof. vm_compute. reflexivity. Qed.

Example testQuasiFlatZoneHierarchy :
  quasi_flat_zones_hierarchy grid_2x3 [1; 0; 2; 1; 1; 1; 2]%Z =
  inr (NodeWeightedTree (Tree [6; 7; 8; 6; 7; 8; 7; 9; 9; 9])
                        [0; 0; 0; 0; 0; 0; 0; 1; 1; 2]%Z).
Proof. vm_compute. reflexivity. Qed.

Example testSaliencyMap :
  saliency_map grid_2x4
    (Tree [8; 8; 9; 9; 10; 10; 11; 11; 12; 13; 12; 14; 13; 14; 14])
    [0; 0; 0; 0; 0; 0; 0; 0; 0; 0; 0; 0; 1; 2; 3]%Z =
  [0; 1; 2; 1; 0; 3; 3; 0; 3; 0]%Z.
Proof. vm_compute. reflexivity. Qed.

Example testBinaryPartitionTreeMinLinkage :
  bpt_min_linkage (λ _, 0) grid_2x3 [1; 0; 2; 1; 1; 1; 2]%Z =
  inr (NodeWeightedTree (Tree [6; 7; 9; 6; 8; 9; 7; 8; 10; 10; 10])
                        [0; 0; 0; 0; 0; 0; 0; 1; 1; 1; 2]%Z).
Proof. vm_compute. reflexivity. Qed.

(* ================================================================== *)
(** * The order in which bpt_canonical scans the edges *)
(* ================================================================== *)

(** Lexicographic order on edge ids: by weight, then by id. *)
Definition edge_before (w : list Z) (a b : nat) : Prop :=
  (w !!! a < w !!! b)%Z ∨ (w !!! a = w !!! b ∧ a < b).

Section StableSortFacts.
Context (w : list Z).

Lemma insert_sorted_perm x l :
  insert_sorted (weight_lt w) x l ≡ₚ x :: l.
Proof.
  induction l as [|y l IH]; simpl; [done|].
  destruct (weight_lt w y x); [|done].
  rewrite IH. apply Permutation_swap.
Qed.

Lemma stable_sort_perm l : stable_sort (weight_lt w) l ≡ₚ l.
Proof.
  induction l as [|x l IH]; simpl; [done|].
  rewrite insert_sorted_perm. by rewrite IH.
Qed.

Lemma edge_before_trans a b c :
  edge_before w a b → edge_before w b c → edge_before w a c.
Proof. unfold edge_before. intros [?|[??]] [?|[??]]; [left|left|left|right]; lia. Qed.

Lemma insert_sorted_sorted x l :
  StronglySorted (edge_before w) l →
  Forall (λ y, x < y) l →
  StronglySorted (edge_before w) (insert_sorted (weight_lt w) x l).
Proof.
  induction 1 as [|y l Hl IH Hy]; intros Hx; simpl.
  { repeat constructor. }
  apply Forall_cons in Hx as [Hxy Hx].
  unfold weight_lt at 1. destruct (Z.ltb_spec (w !!! y) (w !!! x)) as [Hlt|Hge].
  - constructor; [by apply IH|].
    rewrite insert_sorted_perm. constructor; [by left|done].
  - assert (edge_before w x y) as Hb by (unfold edge_before; lia).
    constructor; [by constructor|].
    constructor; [done|].
    eapply Forall_impl; [exact Hy|]. intros z Hz. by eapply edge_before_trans.
Qed.

Lemma stable_sort_seq_sorted s n :
  StronglySorted (edge_before w) (stable_sort (weight_lt w) (seq s n)).
Proof.
  revert s. induction n as [|n IH]; intros s; simpl; [constructor|].
  apply insert_sorted_sorted; [apply IH|].
  rewrite stable_sort_perm. apply Forall_forall. intros y Hy.
  apply elem_of_seq in Hy. lia.
Qed.

Lemma edge_before_asym a b : edge_before w a b → edge_before w b a → a = b.
Proof. unfold edge_before. intros [?|[??]] [?|[??]]; lia. Qed.

Lemma strongly_sorted_lookup {A} (R : relation A) (l : list A) i j a b :
  StronglySorted R l → i < j → l !! i = Some a → l !! j = Some b → R a b.
Proof.
  intros Hs. revert i j. induction Hs as [|x l Hl IH Hx]; intros i j Hij Hi Hj.
  { by rewrite lookup_nil in Hi. }
  destruct j as [|j]; [lia|]. simpl in Hj.
  destruct i as [|i]; simpl in Hi.
  - simplify_eq. rewrite Forall_forall in Hx. apply Hx.
    by eapply list_elem_of_lookup_2.
  - apply (IH i j); [lia|done..].
Qed.
End StableSortFacts.

Lemma sorted_edges_indices_perm g w :
  sorted_edges_indices g w ≡ₚ seq 0 (num_edges g).
Proof. apply stable_sort_perm. Qed.

Lemma sorted_edges_indices_sorted g w :
  StronglySorted (edge_before w) (sorted_edges_indices g w).
Proof. apply stable_sort_seq_sorted. Qed.

Lemma sorted_edges_indices_NoDup g w : NoDup (sorted_edges_indices g w).
Proof. rewrite sorted_edges_indices_perm. apply NoDup_seq. Qed.

Lemma sorted_edges_indices_elem g w ei :
  ei ∈ sorted_edges_indices g w ↔ ei < num_edges g.
Proof. rewrite sorted_edges_indices_perm, elem_of_seq. lia. Qed.

(** The loop is a run of [kruskal_step] over a prefix of its work list. *)
Lemma kruskal_loop_prefix g w nm todo st :
  ∃ k, k ≤ length todo ∧
       kruskal_loop g w nm todo st = foldl (λ s ei, kruskal_step g w ei s) st (take k todo) ∧
       k_i (kruskal_loop g w nm todo st) = k_i st + k.
Proof.
  revert st. induction todo as [|ei todo IH]; intros st; simpl.
  { exists 0. simpl. split; [lia|]. split; [done|lia]. }
  destruct (k_num_edge_found st <? nm).
  - destruct (IH (kruskal_step g w ei st)) as (k & Hk & -> & Hi).
    exists (S k). simpl. split; [lia|]. split; [done|].
    rewrite Hi. unfold kruskal_step.
    destruct (uf_find _ _) as [c1 uf1]. destruct (uf_find uf1 _) as [c2 uf2].
    destruct (c1 =? c2); [simpl; lia|].
    destruct (uf_link _ _ _). simpl. lia.
  - exists 0. simpl. split; [lia|]. split; [done|lia].
Qed.

(* ================================================================== *)
(** * Linkage rules *)
(* ================================================================== *)

Section ForEachNeighbour.
Context {W T : Type} (body : W → new_neighbour T → W * new_neighbour T).

Lemma for_each_neighbour_acc w acc l :
  foldl (λ '(w, done) n, let '(w, n') := body w n in (w, done ++ [n'])) (w, acc) l =
  ((for_each_neighbour body w l).1, acc ++ (for_each_neighbour body w l).2).
Proof.
  unfold for_each_neighbour. revert w acc.
  induction l as [|n l IH]; intros w acc; simpl.
  { by rewrite app_nil_r. }
  destruct (body w n) as [w' n'] eqn:Hb. simpl.
  rewrite (IH w' [n']), (IH w' (acc ++ [n'])). simpl.
  by rewrite <-app_assoc.
Qed.

Lemma for_each_neighbour_nil w : for_each_neighbour body w [] = (w, []).
Proof. done. Qed.

Lemma for_each_neighbour_cons w n l :
  for_each_neighbour body w (n :: l) =
  ((for_each_neighbour body (body w n).1 l).1,
   (body w n).2 :: (for_each_neighbour body (body w n).1 l).2).
Proof.
  unfold for_each_neighbour at 1. simpl.
  destruct (body w n) as [w' n']. simpl.
  by rewrite for_each_neighbour_acc.
Qed.

Lemma for_each_neighbour_length w l :
  length (for_each_neighbour body w l).2 = length l.
Proof.
  revert w. induction l as [|n l IH]; intros w; [done|].
  rewrite for_each_neighbour_cons. simpl. by rewrite IH.
Qed.

(** The descriptor at position [k] is rewritten by [body] with the side
    tables left by the first [k] descriptors. *)
Lemma for_each_neighbour_lookup w l k n :
  l !! k = Some n →
  (for_each_neighbour body w l).2 !! k =
    Some (body (for_each_neighbour body w (take k l)).1 n).2 ∧
  (for_each_neighbour body w (take (S k) l)).1 =
    (body (for_each_neighbour body w (take k l)).1 n).1.
Proof.
  revert w k. induction l as [|n0 l IH]; intros w k Hk.
  { by rewrite lookup_nil in Hk. }
  destruct k as [|k]; simpl in Hk.
  - simplify_eq. rewrite firstn_cons, take_0.
    rewrite !for_each_neighbour_cons, !for_each_neighbour_nil. done.
  - rewrite !firstn_cons, !for_each_neighbour_cons. simpl.
    by apply IH.
Qed.
End ForEachNeighbour.

Lemma average_linkage_body_length {T} `{Arith T, Inhabited T}
    (tb : average_linkage_tables T) n :
  length (m_values (average_linkage_body tb n).1) = length (m_values tb) ∧
  length (m_weights (average_linkage_body tb n).1) = length (m_weights tb).
Proof.
  unfold average_linkage_body.
  destruct (second_edge_index n); simpl; by rewrite !length_insert.
Qed.

Lemma average_linkage_length {T} `{Arith T, Inhabited T}
    (tb : average_linkage_tables T) l :
  length (m_values (for_each_neighbour average_linkage_body tb l).1) = length (m_values tb) ∧
  length (m_weights (for_each_neighbour average_linkage_body tb l).1) = length (m_weights tb).
Proof.
  revert tb. induction l as [|n l IH]; intros tb; [done|].
  rewrite for_each_neighbour_cons. simpl.
  destruct (IH (average_linkage_body tb n).1) as [-> ->].
  apply average_linkage_body_length.
Qed.

(** The merged mass and the merged value of a descriptor, read from the
    side tables [v] (values) and [m] (masses). *)
Definition merged_mass {T} `{Arith T, Inhabited T} (m : list T) (n : new_neighbour T) : T :=
  match second_edge_index n with
  | Some e2 => arith_add (m !!! first_edge_index n) (m !!! e2)
  | None => m !!! first_edge_index n
  end.

Definition merged_value {T} `{Arith T, Inhabited T} (v m : list T) (n : new_neighbour T) : T :=
  match second_edge_index n with
  | Some e2 =>
      arith_div (arith_add (arith_mul (v !!! first_edge_index n) (m !!! first_edge_index n))
                           (arith_mul (v !!! e2) (m !!! e2)))
                (merged_mass m n)
  | None => v !!! first_edge_index n
  end.

(** C9. The weighted average rule, descriptor by descriptor: with [v] and
    [m] the side tables at the moment the descriptor at position [k] is
    reached, the rule stores the merged value and the merged mass in the
    slot of the first edge and hands the merged value back as the new edge
    weight; nothing else changes. *)
Theorem C9_average_linkage {T} `{Arith T, Inhabited T}
    (tb : average_linkage_tables T) (g : undirected_graph)
    (fusion_edge_index new_region merged_region1 merged_region2 : nat)
    (new_neighbours : list (new_neighbour T)) (k : nat) (n : new_neighbour T) :
  new_neighbours !! k = Some n →
  first_edge_index n < length (m_values tb) →
  first_edge_index n < length (m_weights tb) →
  let rule := binary_partition_tree_average_linkage tb g fusion_edge_index
                new_region merged_region1 merged_region2 in
  let v := m_values (rule (take k new_neighbours)).1 in
  let m := m_weights (rule (take k new_neighbours)).1 in
  let e1 := first_edge_index n in
  let m' := merged_mass m n in
  let v' := merged_value v m n in
  (nn_num_edges n = 2 →
     ∃ e2, second_edge_index n = Some e2 ∧
       m' = arith_add (m !!! e1) (m !!! e2) ∧
       v' = arith_div (arith_add (arith_mul (v !!! e1) (m !!! e1))
                                 (arith_mul (v !!! e2) (m !!! e2))) m') ∧
  (nn_num_edges n = 1 → m' = m !!! e1 ∧ v' = v !!! e1) ∧
  m_values (rule (take (S k) new_neighbours)).1 = <[e1 := v']> v ∧
  m_weights (rule (take (S k) new_neighbours)).1 = <[e1 := m']> m ∧
  m_values (rule (take (S k) new_neighbours)).1 !!! e1 = v' ∧
  m_weights (rule (take (S k) new_neighbours)).1 !!! e1 = m' ∧
  (rule new_neighbours).2 !! k =
    Some (NewNeighbour (neighbour_vertex n) e1 (second_edge_index n) v').
Proof.
  intros Hk Hv Hm rule v m e1 m' v'.
  subst rule. unfold binary_partition_tree_average_linkage in *.
  destruct (for_each_neighbour_lookup average_linkage_body tb _ _ _ Hk) as [Hout Htb].
  destruct (average_linkage_length tb (take k new_neighbours)) as [Hlv Hlm].
  fold v in Hlv. fold m in Hlm.
  assert (average_linkage_body (for_each_neighbour average_linkage_body tb
                                  (take k new_neighbours)).1 n =
          (AverageLinkageTables (<[e1 := v']> v) (<[e1 := m']> m),
           NewNeighbour (neighbour_vertex n) e1 (second_edge_index n) v')) as Hbody.
  { unfold average_linkage_body, v', m', merged_value, merged_mass, v, m, e1,
      set_new_edge_weight, new_edge_index.
    by destruct (second_edge_index n). }
  rewrite Hbody in Hout, Htb. simpl in Hout, Htb.
  split; [|split].
  - unfold nn_num_edges, m', v', merged_value, merged_mass.
    destruct (second_edge_index n) as [e2|]; [|done]. intros _. by exists e2.
  - unfold nn_num_edges, m', v', merged_value, merged_mass.
    by destruct (second_edge_index n).
  - rewrite Htb. simpl.
    rewrite !list_lookup_total_insert_eq by (unfold e1; lia). done.
Qed.

Lemma C9_average_linkage_witness :
  let tb := AverageLinkageTables [10; 20; 30]%Z [1; 3; 5]%Z in
  let n := NewNeighbour 7 0 (Some 1) 0%Z in
  let rule := binary_partition_tree_average_linkage tb (UndirectedGraph 0 []) 0 0 0 0 in
  m_values (rule [n]).1 = [17; 20; 30]%Z ∧
  m_weights (rule [n]).1 = [4; 3; 5]%Z ∧
  (rule [n]).2 !! 0 = Some (NewNeighbour 7 0 (Some 1) 17%Z).
Proof.
  intros tb n rule.
  destruct (C9_average_linkage tb (UndirectedGraph 0 []) 0 0 0 0 [n] 0 n)
    as (_ & _ & Hv & Hm & _ & _ & Hn).
  - reflexivity.
  - simpl. lia.
  - simpl. lia.
  - split; [exact Hv|]. split; [exact Hm|exact Hn].
Defined.

(* ================================================================== *)
(** * Union-find: invariant and abstraction *)
(* ================================================================== *)

(** Counting the indices below [n] that satisfy a predicate. *)
Lemma filter_seq_remove (P Q : nat → Prop) `{∀ x, Decision (P x)} `{∀ x, Decision (Q x)}
    (a n : nat) :
  a < n → P a → ¬ Q a → (∀ i, i ≠ a → P i ↔ Q i) →
  length (filter P (seq 0 n)) = S (length (filter Q (seq 0 n))).
Proof.
  intros Ha HPa HQa Hiff.
  replace n with (a + S (n - S a)) by lia.
  rewrite seq_app, !filter_app. simpl.
  rewrite (filter_cons_True P), (filter_cons_False Q) by done.
  rewrite !length_app. simpl.
  assert (∀ l : list nat, a ∉ l → filter P l = filter Q l) as Hext.
  { induction l as [|x l IH]; [done|]. intros Hnot.
    apply not_elem_of_cons in Hnot as [Hx Hl].
    destruct (Hiff x (not_eq_sym Hx)) as [H1 H2].
    rewrite !filter_cons. destruct (decide (P x)), (decide (Q x)); rewrite ?IH by done;
      try done; exfalso; tauto. }
  rewrite (Hext (seq 0 a)), (Hext (seq (S a) _)); [lia|..];
    rewrite elem_of_seq; lia.
Qed.

Definition roots_list (p : list nat) : list nat :=
  filter (λ i, p !!! i = i) (seq 0 (length p)).

Definition count_roots (uf : union_find) : nat := length (roots_list (uf_parent uf)).

Definition uf_size (uf : union_find) : nat := length (uf_parent uf).

(** Parents stay inside the structure, ranks grow strictly along parent
    links and are bounded by the number of links done so far. *)
Record uf_inv (uf : union_find) : Prop := UfInv {
  uf_rank_length : length (uf_rank uf) = uf_size uf;
  uf_parent_lt : ∀ i, i < uf_size uf → uf_parent uf !!! i < uf_size uf;
  uf_rank_lt : ∀ i, i < uf_size uf → uf_parent uf !!! i ≠ i →
               uf_rank uf !!! i < uf_rank uf !!! (uf_parent uf !!! i);
  uf_rank_bound : ∀ i, i < uf_size uf → uf_rank uf !!! i + count_roots uf ≤ uf_size uf;
  uf_has_root : 0 < uf_size uf → 0 < count_roots uf
}.

(** The representative of [x]. *)
Definition uf_rep (uf : union_find) (x : nat) : nat :=
  find_root (uf_size uf) (uf_parent uf) x.

Definition uf_is_root (uf : union_find) (x : nat) : Prop :=
  x < uf_size uf ∧ uf_parent uf !!! x = x.

Lemma elem_of_roots_list uf x : x ∈ roots_list (uf_parent uf) ↔ uf_is_root uf x.
Proof.
  unfold roots_list, uf_is_root, uf_size. rewrite list_elem_of_filter, elem_of_seq.
  split; intros [H1 H2]; split; try done; lia.
Qed.

Lemma NoDup_roots_list p : NoDup (roots_list p).
Proof. apply NoDup_filter, NoDup_seq. Qed.

Lemma uf_make_size n : uf_size (uf_make n) = n.
Proof. unfold uf_size. simpl. apply length_seq. Qed.

Lemma uf_make_parent n i : i < n → uf_parent (uf_make n) !!! i = i.
Proof. intros. simpl. by rewrite lookup_total_seq_lt. Qed.

Lemma uf_make_count_roots n : count_roots (uf_make n) = n.
Proof.
  unfold count_roots, roots_list. simpl. rewrite length_seq.
  assert (∀ s k, s + k ≤ n → filter (λ i, seq 0 n !!! i = i) (seq s k) = seq s k) as Hf.
  { intros s k. revert s. induction k as [|k IH]; intros s Hle; [done|]. simpl.
    rewrite filter_cons_True by (rewrite lookup_total_seq_lt; lia).
    rewrite IH by lia. done. }
  rewrite Hf by lia. apply length_seq.
Qed.

Lemma uf_make_inv n : uf_inv (uf_make n).
Proof.
  split.
  - rewrite uf_make_size. simpl. apply length_replicate.
  - intros i. rewrite uf_make_size. intros Hi. by rewrite uf_make_parent.
  - intros i. rewrite uf_make_size. intros Hi. by rewrite uf_make_parent.
  - intros i. rewrite uf_make_size, uf_make_count_roots. intros Hi. simpl.
    rewrite lookup_total_replicate_2 by done. lia.
  - by rewrite uf_make_size, uf_make_count_roots.
Qed.

Section UnionFindFind.
Context (uf : union_find) (Hinv : uf_inv uf).
Let n := uf_size uf.
Let p := uf_parent uf.
Let rk := uf_rank uf.

Lemma find_root_root f i :
  i < n → n - count_roots uf - rk !!! i < f →
  find_root f p i < n ∧ p !!! find_root f p i = find_root f p i.
Proof.
  revert i. induction f as [|f IH]; intros i Hi Hf; [lia|].
  simpl. destruct (Nat.eqb_spec (p !!! i) i) as [Heq|Hne]; [done|].
  pose proof (uf_parent_lt uf Hinv i Hi) as Hp.
  pose proof (uf_rank_lt uf Hinv i Hi Hne) as Hr.
  pose proof (uf_rank_bound uf Hinv _ Hp) as Hb.
  apply IH; [done|]. fold rk p n in Hr, Hb |- *. lia.
Qed.

Lemma find_root_fuel f f' i :
  i < n → n - count_roots uf - rk !!! i < f → n - count_roots uf - rk !!! i < f' →
  find_root f p i = find_root f' p i.
Proof.
  revert f' i. induction f as [|f IH]; intros f' i Hi Hf Hf'; [lia|].
  destruct f' as [|f']; [lia|].
  simpl. destruct (Nat.eqb_spec (p !!! i) i) as [Heq|Hne]; [done|].
  pose proof (uf_parent_lt uf Hinv i Hi) as Hp.
  pose proof (uf_rank_lt uf Hinv i Hi Hne) as Hr.
  pose proof (uf_rank_bound uf Hinv _ Hp) as Hb.
  fold rk p n in Hr, Hb. apply IH; [done|lia..].
Qed.

Lemma uf_fuel_enough i : i < n → n - count_roots uf - rk !!! i < n.
Proof.
  intros Hi. pose proof (uf_has_root uf Hinv). fold n in H. lia.
Qed.

Lemma uf_rep_lt i : i < n → uf_rep uf i < n.
Proof. intros Hi. apply find_root_root; [done|]. by apply uf_fuel_enough. Qed.

Lemma uf_rep_is_root i : i < n → uf_is_root uf (uf_rep uf i).
Proof.
  intros Hi. destruct (find_root_root n i Hi (uf_fuel_enough i Hi)). by split.
Qed.

Lemma uf_rep_root i : uf_is_root uf i → uf_rep uf i = i.
Proof.
  intros [Hi Hp]. unfold uf_rep.
  rewrite (find_root_fuel _ (S n)); [|done|by apply uf_fuel_enough|lia].
  simpl. fold p in Hp. rewrite Hp. by rewrite Nat.eqb_refl.
Qed.

Lemma uf_rep_step i :
  i < n → p !!! i ≠ i → uf_rep uf i = uf_rep uf (p !!! i).
Proof.
  intros Hi Hne. unfold uf_rep. fold n p.
  pose proof (uf_parent_lt uf Hinv i Hi) as Hp.
  pose proof (uf_rank_lt uf Hinv i Hi Hne) as Hr.
  pose proof (uf_rank_bound uf Hinv _ Hp) as Hb.
  pose proof (uf_has_root uf Hinv) as Hroot.
  fold rk p n in Hp, Hr, Hb, Hroot.
  rewrite (find_root_fuel _ (S n)); [|done|by apply uf_fuel_enough|lia].
  simpl. destruct (Nat.eqb_spec (p !!! i) i) as [Heq|_]; [done|]. done.
Qed.

(** Induction along parent links. *)
Lemma uf_path_ind (P : nat → Prop) :
  (∀ i, uf_is_root uf i → P i) →
  (∀ i, i < n → p !!! i ≠ i → P (p !!! i) → P i) →
  ∀ i, i < n → P i.
Proof.
  intros Hroot Hstep.
  assert (∀ k i, i < n → n - rk !!! i < k → P i) as Hk.
  { induction k as [|k IH]; intros i Hi Hk; [lia|].
    destruct (decide (p !!! i = i)) as [Heq|Hne]; [by apply Hroot|].
    apply Hstep; [done..|].
    pose proof (uf_parent_lt uf Hinv i Hi) as Hp.
    pose proof (uf_rank_lt uf Hinv i Hi Hne) as Hr.
    pose proof (uf_rank_bound uf Hinv _ Hp) as Hb.
    fold rk p n in Hp, Hr, Hb. apply IH; [done|lia]. }
  intros i Hi. apply (Hk (S n)); [done|lia].
Qed.

Lemma uf_rep_idem i : i < n → uf_rep uf (uf_rep uf i) = uf_rep uf i.
Proof. intros Hi. by apply uf_rep_root, uf_rep_is_root. Qed.

Lemma uf_rank_le_rep i : i < n → rk !!! i ≤ rk !!! uf_rep uf i.
Proof.
  revert i. apply uf_path_ind.
  - intros i Hi. by rewrite uf_rep_root.
  - intros i Hi Hne IH. rewrite uf_rep_step by done.
    pose proof (uf_rank_lt uf Hinv i Hi Hne). fold rk p in H. lia.
Qed.

Lemma uf_rank_lt_rep i : i < n → p !!! i ≠ i → rk !!! i < rk !!! uf_rep uf i.
Proof.
  intros Hi Hne. rewrite uf_rep_step by done.
  pose proof (uf_rank_lt uf Hinv i Hi Hne).
  pose proof (uf_rank_le_rep (p !!! i) (uf_parent_lt uf Hinv i Hi)).
  fold rk p in H. lia.
Qed.
End UnionFindFind.

(** Redirecting a node to its representative changes neither the
    representatives nor the roots: one step of path compression. *)
Lemma uf_shortcut uf e :
  uf_inv uf → e < uf_size uf →
  let uf' := UnionFind (<[e := uf_rep uf e]> (uf_parent uf)) (uf_rank uf) in
  uf_inv uf' ∧ uf_size uf' = uf_size uf ∧
  roots_list (uf_parent uf') = roots_list (uf_parent uf) ∧
  ∀ y, y < uf_size uf → uf_rep uf' y = uf_rep uf y.
Proof.
  intros Hinv He uf'.
  assert (uf_size uf' = uf_size uf) as Hsize.
  { unfold uf_size, uf'. simpl. apply length_insert. }
  assert (∀ x, uf_parent uf' !!! x = x ↔ uf_parent uf !!! x = x) as Hroots.
  { intros x. unfold uf'. simpl. destruct (decide (x = e)) as [->|Hne].
    - rewrite list_lookup_total_insert_eq by done. split.
      + intros Hr. pose proof (uf_rep_is_root uf Hinv e He) as [_ Hp].
        by rewrite Hr in Hp.
      + intros Hp. by apply uf_rep_root.
    - by rewrite list_lookup_total_insert_ne. }
  assert (roots_list (uf_parent uf') = roots_list (uf_parent uf)) as Hrl.
  { unfold roots_list. fold (uf_size uf') (uf_size uf). rewrite Hsize.
    by apply list_filter_iff. }
  assert (uf_inv uf') as Hinv'.
  { split.
    - rewrite Hsize. apply (uf_rank_length uf Hinv).
    - rewrite Hsize. intros i Hi. unfold uf'. simpl.
      destruct (decide (i = e)) as [->|Hne].
      + rewrite list_lookup_total_insert_eq by done. by apply uf_rep_lt.
      + rewrite list_lookup_total_insert_ne by done. by apply uf_parent_lt.
    - rewrite Hsize. intros i Hi Hp. pose proof Hp as Hp'. rewrite Hroots in Hp'.
      unfold uf' in *. simpl in *. destruct (decide (i = e)) as [->|Hne].
      + rewrite list_lookup_total_insert_eq by done. by apply uf_rank_lt_rep.
      + rewrite list_lookup_total_insert_ne by done. by apply uf_rank_lt.
    - rewrite Hsize. unfold count_roots. rewrite Hrl. apply (uf_rank_bound uf Hinv).
    - rewrite Hsize. unfold count_roots. rewrite Hrl. apply (uf_has_root uf Hinv). }
  split; [done|]. split; [done|]. split; [done|].
  rewrite <-Hsize. apply (uf_path_ind uf' Hinv').
  - intros i [Hi Hp]. rewrite uf_rep_root by done.
    symmetry. apply uf_rep_root; [done|]. split; [lia|]. by apply Hroots.
  - intros i Hi Hp IH. rewrite (uf_rep_step uf' Hinv') by done. rewrite IH.
    rewrite Hsize in Hi. unfold uf' in *. simpl in *.
    destruct (decide (i = e)) as [->|Hne].
    + rewrite list_lookup_total_insert_eq by done. by apply uf_rep_idem.
    + rewrite list_lookup_total_insert_ne in * by done.
      symmetry. by apply uf_rep_step.
Qed.

Lemma compress_spec fuel uf e :
  uf_inv uf → e < uf_size uf →
  let uf' := UnionFind (compress fuel (uf_parent uf) e (uf_rep uf e)) (uf_rank uf) in
  uf_inv uf' ∧ uf_size uf' = uf_size uf ∧
  roots_list (uf_parent uf') = roots_list (uf_parent uf) ∧
  ∀ y, y < uf_size uf → uf_rep uf' y = uf_rep uf y.
Proof.
  revert uf e. induction fuel as [|fuel IH]; intros uf e Hinv He; simpl.
  { by destruct uf. }
  destruct (Nat.eqb_spec (uf_parent uf !!! e) (uf_rep uf e)) as [Heq|Hne].
  { by destruct uf. }
  destruct (uf_shortcut uf e Hinv He) as (Hinv1 & Hsize1 & Hroots1 & Hrep1).
  set (uf1 := UnionFind (<[e := uf_rep uf e]> (uf_parent uf)) (uf_rank uf)) in *.
  assert (uf_parent uf !!! e ≠ e) as Hpe.
  { intros Hp. apply Hne. rewrite Hp. symmetry. by apply uf_rep_root. }
  pose proof (uf_parent_lt uf Hinv e He) as Hlt.
  assert (uf_rep uf e = uf_rep uf1 (uf_parent uf !!! e)) as Hr.
  { rewrite Hrep1 by done. by apply uf_rep_step. }
  assert (uf_parent uf !!! e < uf_size uf1) as Hlt1 by (by rewrite Hsize1).
  pose proof (IH uf1 (uf_parent uf !!! e) Hinv1 Hlt1) as IH'.
  rewrite <-Hr in IH'. destruct IH' as (Hinv2 & Hsize2 & Hroots2 & Hrep2).
  split; [exact Hinv2|].
  split; [rewrite <-Hsize1; exact Hsize2|].
  split; [rewrite <-Hroots1; exact Hroots2|].
  intros y Hy. transitivity (uf_rep uf1 y); [|by apply Hrep1].
  apply Hrep2. by rewrite Hsize1.
Qed.

(** [find] returns the representative and leaves the partition alone. *)
Lemma uf_find_spec uf x :
  uf_inv uf → x < uf_size uf →
  (uf_find uf x).1 = uf_rep uf x ∧
  uf_inv (uf_find uf x).2 ∧
  uf_size (uf_find uf x).2 = uf_size uf ∧
  count_roots (uf_find uf x).2 = count_roots uf ∧
  (∀ y, uf_is_root (uf_find uf x).2 y ↔ uf_is_root uf y) ∧
  ∀ y, y < uf_size uf → uf_rep (uf_find uf x).2 y = uf_rep uf y.
Proof.
  intros Hinv Hx. unfold uf_find. simpl. fold (uf_size uf). fold (uf_rep uf x).
  destruct (compress_spec (uf_size uf) uf x Hinv Hx) as (Hinv' & Hsize & Hroots & Hrep).
  split; [done|]. split; [done|]. split; [done|].
  split; [unfold count_roots; by rewrite Hroots|]. split; [|done].
  intros y. by rewrite <-!elem_of_roots_list, Hroots.
Qed.

(** [link] of two distinct roots joins their classes under the returned
    root and removes one root. *)
Lemma uf_link_spec uf a b :
  uf_inv uf → uf_is_root uf a → uf_is_root uf b → a ≠ b →
  let r := (uf_link uf a b).1 in
  let uf' := (uf_link uf a b).2 in
  (r = a ∨ r = b) ∧
  uf_inv uf' ∧
  uf_size uf' = uf_size uf ∧
  S (count_roots uf') = count_roots uf ∧
  (∀ y, uf_is_root uf' y ↔ uf_is_root uf y ∧ (y = r ∨ (y ≠ a ∧ y ≠ b))) ∧
  ∀ y, y < uf_size uf →
    uf_rep uf' y = if decide (uf_rep uf y = a ∨ uf_rep uf y = b) then r else uf_rep uf y.
Proof.
  intros Hinv [Ha Hpa] [Hb Hpb] Hab.
  unfold uf_link.
  set (ij := if uf_rank uf !!! b <? uf_rank uf !!! a then (b, a) else (a, b)).
  assert (∃ i j, ij = (i, j) ∧ uf_is_root uf i ∧ uf_is_root uf j ∧ i ≠ j ∧
                 uf_rank uf !!! i ≤ uf_rank uf !!! j ∧
                 ((i = a ∧ j = b) ∨ (i = b ∧ j = a))) as (i & j & -> & Hi & Hj & Hij & Hrk & Hcase).
  { unfold ij. destruct (Nat.ltb_spec (uf_rank uf !!! b) (uf_rank uf !!! a)).
    - exists b, a. repeat split; try done; try lia; try (by right).
    - exists a, b. repeat split; try done; try lia; try (by left). }
  destruct Hi as [Hi Hpi], Hj as [Hj Hpj].
  set (rank' := if uf_rank uf !!! i =? uf_rank uf !!! j
                then <[j := S (uf_rank uf !!! j)]> (uf_rank uf) else uf_rank uf).
  simpl. set (uf' := UnionFind (<[i := j]> (uf_parent uf)) rank').
  assert (uf_size uf' = uf_size uf) as Hsize.
  { unfold uf_size, uf'. simpl. apply length_insert. }
  assert (length rank' = uf_size uf) as Hlen.
  { unfold rank'. destruct (_ =? _); rewrite ?length_insert; apply (uf_rank_length uf Hinv). }
  assert (∀ y, uf_rank uf !!! y ≤ rank' !!! y) as Hmono.
  { intros y. unfold rank'. destruct (_ =? _); [|done].
    destruct (decide (y = j)) as [->|Hne].
    - rewrite list_lookup_total_insert_eq; [lia|]. by rewrite (uf_rank_length uf Hinv).
    - by rewrite list_lookup_total_insert_ne. }
  assert (∀ y, y ≠ j → rank' !!! y = uf_rank uf !!! y) as Hsame.
  { intros y Hy. unfold rank'. destruct (_ =? _); [|done].
    by rewrite list_lookup_total_insert_ne. }
  assert (rank' !!! j ≤ S (uf_rank uf !!! j)) as Hj_le.
  { unfold rank'. destruct (_ =? _); [|lia].
    rewrite list_lookup_total_insert_eq; [lia|]. by rewrite (uf_rank_length uf Hinv). }
  assert (uf_rank uf !!! i < rank' !!! j) as Hij_lt.
  { unfold rank'. destruct (Nat.eqb_spec (uf_rank uf !!! i) (uf_rank uf !!! j)).
    - rewrite list_lookup_total_insert_eq; [lia|]. by rewrite (uf_rank_length uf Hinv).
    - lia. }
  assert (∀ y, uf_parent uf' !!! y = y ↔ uf_parent uf !!! y = y ∧ y ≠ i) as Hroots.
  { intros y. unfold uf'. simpl. destruct (decide (y = i)) as [->|Hne].
    - rewrite list_lookup_total_insert_eq by done. split; [lia|by intros [_ ?]].
    - rewrite list_lookup_total_insert_ne by done. split; [done|by intros [? _]]. }
  assert (count_roots uf = S (count_roots uf')) as Hcount.
  { unfold count_roots, roots_list. fold (uf_size uf') (uf_size uf). rewrite Hsize.
    apply (filter_seq_remove _ _ i); [done|done|..].
    - rewrite Hroots. by intros [_ ?].
    - intros y Hy. rewrite Hroots. tauto. }
  assert (uf_is_root uf' j) as Hjroot.
  { split; [by rewrite Hsize|]. apply Hroots. done. }
  assert (uf_inv uf') as Hinv'.
  { split.
    - by rewrite Hsize.
    - rewrite Hsize. intros y Hy. unfold uf'. simpl.
      destruct (decide (y = i)) as [->|Hne].
      + by rewrite list_lookup_total_insert_eq.
      + rewrite list_lookup_total_insert_ne by done. by apply uf_parent_lt.
    - rewrite Hsize. intros y Hy Hp. unfold uf' in *. simpl in *.
      destruct (decide (y = i)) as [->|Hne].
      + rewrite list_lookup_total_insert_eq by done.
        rewrite Hsame by done. done.
      + rewrite list_lookup_total_insert_ne in * by done.
        assert (y ≠ j) by (intros ->; done).
        rewrite (Hsame y) by done.
        pose proof (uf_rank_lt uf Hinv y Hy Hp).
        pose proof (Hmono (uf_parent uf !!! y)). lia.
    - rewrite Hsize. intros y Hy. simpl.
      pose proof (uf_rank_bound uf Hinv y Hy).
      pose proof (uf_rank_bound uf Hinv j Hj).
      destruct (decide (y = j)) as [->|Hne]; [lia|].
      rewrite Hsame by done. lia.
    - intros _. unfold count_roots.
      apply elem_of_roots_list in Hjroot.
      destruct (roots_list (uf_parent uf')); [by apply elem_of_nil in Hjroot|simpl; lia]. }
  split. { destruct Hcase as [[-> ->]|[-> ->]]; auto. }
  split; [done|]. split; [done|]. split; [done|]. split.
  - intros y. unfold uf_is_root. rewrite Hsize, Hroots.
    destruct Hcase as [[-> ->]|[-> ->]]; split.
    + intros (H1 & H2 & H3). split; [done|]. destruct (decide (y = b)); auto.
    + intros ((H1 & H2) & [->|[H3 H4]]); repeat split; done.
    + intros (H1 & H2 & H3). split; [done|]. destruct (decide (y = a)); auto.
    + intros ((H1 & H2) & [->|[H3 H4]]); repeat split; done.
  - assert (∀ y, y < uf_size uf' →
              uf_rep uf' y = if decide (uf_rep uf y = i) then j else uf_rep uf y) as Hrep.
    { apply (uf_path_ind uf' Hinv').
      - intros y [Hy Hp]. rewrite uf_rep_root by done.
        apply Hroots in Hp as [Hp Hyi]. rewrite Hsize in Hy.
        rewrite (uf_rep_root uf Hinv y) by done. by rewrite decide_False.
      - intros y Hy Hp IH. rewrite (uf_rep_step uf' Hinv') by done. rewrite IH.
        rewrite Hsize in Hy. unfold uf' in *. simpl in *.
        destruct (decide (y = i)) as [->|Hne].
        + rewrite list_lookup_total_insert_eq by done.
          rewrite !(uf_rep_root uf Hinv) by done.
          rewrite decide_False by done. by rewrite decide_True.
        + rewrite list_lookup_total_insert_ne in * by done.
          by rewrite <-(uf_rep_step uf Hinv y). }
    intros y Hy. rewrite Hrep by (by rewrite Hsize).
    destruct Hcase as [[-> ->]|[-> ->]].
    + destruct (decide (uf_rep uf y = a)) as [Hya|Hya].
      * by rewrite decide_True by auto.
      * destruct (decide (uf_rep uf y = b)) as [Hyb|Hyb].
        -- by rewrite decide_True by auto.
        -- by rewrite decide_False by tauto.
    + destruct (decide (uf_rep uf y = b)) as [Hyb|Hyb].
      * by rewrite decide_True by auto.
      * destruct (decide (uf_rep uf y = a)) as [Hya|Hya].
        -- by rewrite decide_True by auto.
        -- by rewrite decide_False by tauto.
Qed.

(* ================================================================== *)
(** * Connectivity and spanning trees *)
(* ================================================================== *)

(** Two vertices are connected by a list of edges when a path of these
    edges, taken in either direction, joins them. *)
Definition adjacent (es : list (nat * nat)) (u v : nat) : Prop := (u, v) ∈ es.
Definition conn (es : list (nat * nat)) : relation nat := rtsc (adjacent es).

Definition edges_of (g : ugraph) (ids : list nat) : list (nat * nat) :=
  fmap (λ ei, edge_from_index ei g) ids.

Definition connected (g : ugraph) : Prop :=
  0 < num_vertices g ∧
  ∀ u v, u < num_vertices g → v < num_vertices g → conn (edge_list g) u v.

(** A spanning tree of [g], as a set of edge ids: [n - 1] distinct edges
    that connect all the vertices. *)
Definition spanning_tree (g : ugraph) (T : list nat) : Prop :=
  NoDup T ∧
  (∀ ei, ei ∈ T → ei < num_edges g) ∧
  length T = num_vertices g - 1 ∧
  ∀ u v, u < num_vertices g → v < num_vertices g → conn (edges_of g T) u v.

(** The total weight of a list of edge ids. *)
Definition total_weight (w : list Z) (ids : list nat) : Z :=
  foldr (λ ei acc, (w !!! ei + acc)%Z) 0%Z ids.

(** Minimum spanning tree: a spanning tree that no spanning tree beats. *)
Definition minimum_spanning_tree (g : ugraph) (w : list Z) (T : list nat) : Prop :=
  spanning_tree g T ∧
  ∀ T', spanning_tree g T' → (total_weight w T ≤ total_weight w T')%Z.

Lemma conn_refl es x : conn es x x.
Proof. apply rtc_refl. Qed.

Lemma conn_sym es x y : conn es x y → conn es y x.
Proof. intros H. by apply (symmetry (R := rtsc (adjacent es))). Qed.

Lemma conn_trans es x y z : conn es x y → conn es y z → conn es x z.
Proof. intros H1 H2. by apply (transitivity (R := rtsc (adjacent es)) H1). Qed.

Lemma conn_edge es u v : (u, v) ∈ es → conn es u v.
Proof. intros H. by apply rtsc_lr. Qed.

Lemma conn_mono es es' x y :
  (∀ e, e ∈ es → e ∈ es') → conn es x y → conn es' x y.
Proof.
  intros Hsub. unfold conn, rtsc. apply rtc_subrel.
  intros a b [H|H]; [left|right]; by apply Hsub.
Qed.

Lemma edges_of_elem g ids ei : ei ∈ ids → edge_from_index ei g ∈ edges_of g ids.
Proof. intros H. unfold edges_of. by apply (list_elem_of_fmap_2 (λ ei, edge_from_index ei g)). Qed.

Lemma edges_of_all g :
  edges_of g (seq 0 (num_edges g)) = edge_list g.
Proof.
  unfold edges_of, edge_from_index, num_edges.
  apply list_eq. intros i. rewrite list_lookup_fmap.
  destruct (decide (i < length (edge_list g))) as [Hi|Hi].
  - rewrite lookup_seq_lt by done. simpl.
    by rewrite list_lookup_lookup_total_lt.
  - rewrite lookup_seq_ge by lia. simpl. symmetry. apply lookup_ge_None. lia.
Qed.

Lemma edge_from_index_wf g ei :
  graph_wf g → ei < num_edges g →
  source (edge_from_index ei g) < num_vertices g ∧
  target (edge_from_index ei g) < num_vertices g.
Proof.
  intros Hwf Hei. unfold graph_wf in Hwf. rewrite Forall_forall in Hwf.
  apply Hwf. unfold edge_from_index. apply list_elem_of_lookup_total_2. done.
Qed.

(* ================================================================== *)
(** * Union-find as a model of connectivity *)
(* ================================================================== *)

(** The structure [uf] over [n] elements represents the components of the
    edges [es]. *)
Record uf_models (n : nat) (uf : union_find) (es : list (nat * nat)) : Prop := UfModels {
  um_inv : uf_inv uf;
  um_size : uf_size uf = n;
  um_sound : ∀ x, x < n → conn es x (uf_rep uf x);
  um_complete : ∀ u v, (u, v) ∈ es → u < n ∧ v < n ∧ uf_rep uf u = uf_rep uf v
}.

Lemma uf_models_make n : uf_models n (uf_make n) [].
Proof.
  split.
  - apply uf_make_inv.
  - apply uf_make_size.
  - intros x Hx. rewrite uf_rep_root; [apply conn_refl|apply uf_make_inv|].
    split; [by rewrite uf_make_size|by apply uf_make_parent].
  - intros u v H. by apply elem_of_nil in H.
Qed.

Lemma uf_models_conn n uf es x y :
  uf_models n uf es → conn es x y → uf_rep uf x = uf_rep uf y.
Proof.
  intros Hm. unfold conn, rtsc. induction 1 as [|a b c [Hab|Hab] _ IH]; [done|..].
  - rewrite <-IH. by apply (um_complete n uf es Hm).
  - rewrite <-IH. symmetry. by apply (um_complete n uf es Hm).
Qed.

Lemma uf_models_iff n uf es x y :
  uf_models n uf es → x < n → y < n →
  uf_rep uf x = uf_rep uf y ↔ conn es x y.
Proof.
  intros Hm Hx Hy. split; [|by apply (uf_models_conn n)].
  intros Heq. eapply conn_trans; [by apply (um_sound n uf es Hm)|].
  rewrite Heq. apply conn_sym. by apply (um_sound n uf es Hm).
Qed.

(** One edge [(u, v)]: the two [find]s, and the [link] when the
    representatives differ (lines 103-109 of hierarchy_core.hpp). *)
Lemma uf_union_spec n uf es u v :
  uf_models n uf es → u < n → v < n →
  let c1 := (uf_find uf u).1 in
  let uf1 := (uf_find uf u).2 in
  let c2 := (uf_find uf1 v).1 in
  let uf2 := (uf_find uf1 v).2 in
  c1 = uf_rep uf u ∧ c2 = uf_rep uf v ∧
  uf_inv uf2 ∧ uf_size uf2 = n ∧
  count_roots uf2 = count_roots uf ∧
  (∀ y, uf_is_root uf2 y ↔ uf_is_root uf y) ∧
  (∀ y, y < n → uf_rep uf2 y = uf_rep uf y) ∧
  (c1 = c2 → uf_models n uf2 (es ++ [(u, v)])) ∧
  (c1 ≠ c2 → uf_models n (uf_link uf2 c1 c2).2 (es ++ [(u, v)])).
Proof.
  intros Hm Hu Hv c1 uf1 c2 uf2.
  pose proof (um_inv n uf es Hm) as Hinv. pose proof (um_size n uf es Hm) as Hsize.
  destruct (uf_find_spec uf u Hinv) as (Hc1 & Hinv1 & Hsize1 & Hcnt1 & Hroot1 & Hrep1).
  { by rewrite Hsize. }
  fold c1 uf1 in Hc1, Hinv1, Hsize1, Hcnt1, Hroot1, Hrep1.
  destruct (uf_find_spec uf1 v Hinv1) as (Hc2 & Hinv2 & Hsize2 & Hcnt2 & Hroot2 & Hrep2).
  { by rewrite Hsize1, Hsize. }
  fold c2 uf2 in Hc2, Hinv2, Hsize2, Hcnt2, Hroot2, Hrep2.
  rewrite Hsize1 in Hsize2, Hrep2. rewrite Hsize in Hsize1, Hsize2, Hrep1, Hrep2.
  assert (∀ y, y < n → uf_rep uf2 y = uf_rep uf y) as Hrep.
  { intros y Hy. rewrite Hrep2, Hrep1 by done. done. }
  assert (c2 = uf_rep uf v) as Hc2' by (by rewrite Hc2, Hrep1).
  assert (uf_is_root uf2 c1) as Hr1.
  { rewrite Hroot2, Hroot1, Hc1. apply uf_rep_is_root; [done|by rewrite Hsize]. }
  assert (uf_is_root uf2 c2) as Hr2.
  { rewrite Hroot2, Hroot1, Hc2'. apply uf_rep_is_root; [done|by rewrite Hsize]. }
  split; [done|]. split; [done|]. split; [done|]. split; [done|].
  split; [congruence|]. split; [intros y; by rewrite Hroot2, Hroot1|].
  split; [done|]. split.
  - intros Heq. split; [done|done|..].
    + intros x Hx. rewrite Hrep by done.
      eapply conn_mono; [|by apply (um_sound n uf es Hm)].
      intros e He. apply elem_of_app. by left.
    + intros a b Hin. apply elem_of_app in Hin as [Hin|Hin].
      * destruct (um_complete n uf es Hm a b Hin) as (Ha & Hb & Hab).
        rewrite !Hrep by done. done.
      * apply list_elem_of_singleton in Hin. simplify_eq.
        rewrite !Hrep by done. split; [done|]. split; [done|]. congruence.
  - intros Hne.
    destruct (uf_link_spec uf2 c1 c2 Hinv2 Hr1 Hr2 Hne)
      as (Hr & Hinv3 & Hsize3 & Hcnt3 & Hroot3 & Hrep3).
    rewrite Hsize2 in Hsize3, Hrep3.
    assert (conn (es ++ [(u, v)]) c1 c2) as Hc12.
    { rewrite Hc1, Hc2'.
      eapply conn_trans; [apply conn_sym; eapply conn_mono;
                          [|by apply (um_sound n uf es Hm u)]|].
      { intros e He. apply elem_of_app. by left. }
      eapply conn_trans; [apply conn_edge|
                          eapply conn_mono; [|by apply (um_sound n uf es Hm v)]].
      - apply elem_of_app. right. by apply list_elem_of_singleton.
      - intros e He. apply elem_of_app. by left. }
    split; [done|done|..].
    + intros x Hx. rewrite Hrep3 by done. rewrite Hrep by done.
      assert (conn (es ++ [(u, v)]) x (uf_rep uf x)) as Hx'.
      { eapply conn_mono; [|by apply (um_sound n uf es Hm)].
        intros e He. apply elem_of_app. by left. }
      destruct (decide _) as [[Hx1|Hx2]|_]; [..|done].
      * rewrite Hx1 in Hx'. destruct Hr as [->| ->]; [done|].
        by eapply conn_trans.
      * rewrite Hx2 in Hx'. destruct Hr as [->| ->]; [|done].
        eapply conn_trans; [done|]. by apply conn_sym.
    + intros a b Hin. apply elem_of_app in Hin as [Hin|Hin].
      * destruct (um_complete n uf es Hm a b Hin) as (Ha & Hb & Hab).
        rewrite !Hrep3 by done. rewrite !Hrep by done. rewrite Hab. done.
      * apply list_elem_of_singleton in Hin. simplify_eq.
        rewrite !Hrep3 by done. rewrite !Hrep by done.
        rewrite <-Hc1, <-Hc2'.
        rewrite decide_True by auto. rewrite decide_True by auto. done.
Qed.

Arguments uf_find : simpl never.
Arguments uf_link : simpl never.

(** Scanning a list of edges with a fresh structure: the components of
    any list of edges, used to count them. *)
Definition uf_union (uf : union_find) (u v : nat) : union_find :=
  let '(c1, uf) := uf_find uf u in
  let '(c2, uf) := uf_find uf v in
  if c1 =? c2 then uf else (uf_link uf c1 c2).2.

Definition uf_scan (n : nat) (es : list (nat * nat)) : union_find :=
  foldl (λ uf e, uf_union uf e.1 e.2) (uf_make n) es.

Definition es_wf (n : nat) (es : list (nat * nat)) : Prop :=
  ∀ u v, (u, v) ∈ es → u < n ∧ v < n.

Lemma uf_union_models n uf es u v :
  uf_models n uf es → u < n → v < n →
  uf_models n (uf_union uf u v) (es ++ [(u, v)]) ∧
  count_roots uf ≤ S (count_roots (uf_union uf u v)).
Proof.
  intros Hm Hu Hv.
  pose proof (uf_union_spec n uf es u v Hm Hu Hv) as Hspec. cbv zeta in Hspec.
  unfold uf_union.
  destruct (uf_find uf u) as [c1 uf1]. cbn [fst snd] in Hspec.
  destruct (uf_find uf1 v) as [c2 uf2]. cbn [fst snd] in Hspec.
  destruct Hspec as (Hc1 & Hc2 & Hinv2 & Hsize2 & Hcnt2 & Hroot2 & Hrep2 & Heq & Hne).
  destruct (Nat.eqb_spec c1 c2) as [Hc|Hc].
  - split; [by apply Heq|lia].
  - split; [by apply Hne|].
    assert (uf_is_root uf2 c1) as Hr1.
    { rewrite Hroot2, Hc1. apply uf_rep_is_root; [apply Hm|by rewrite (um_size n uf es Hm)]. }
    assert (uf_is_root uf2 c2) as Hr2.
    { rewrite Hroot2, Hc2. apply uf_rep_is_root; [apply Hm|by rewrite (um_size n uf es Hm)]. }
    destruct (uf_link_spec uf2 c1 c2 Hinv2 Hr1 Hr2 Hc) as (_ & _ & _ & Hcnt & _).
    lia.
Qed.

Lemma uf_scan_snoc n es e :
  uf_scan n (es ++ [e]) = uf_union (uf_scan n es) e.1 e.2.
Proof. unfold uf_scan. by rewrite foldl_snoc. Qed.

Lemma uf_scan_models n es : es_wf n es → uf_models n (uf_scan n es) es.
Proof.
  induction es as [|[u v] es IH] using rev_ind; intros Hwf.
  { apply uf_models_make. }
  rewrite uf_scan_snoc. simpl.
  destruct (Hwf u v) as [Hu Hv].
  { apply elem_of_app. right. by apply list_elem_of_singleton. }
  apply uf_union_models; [|done..].
  apply IH. intros a b Hab. apply Hwf. apply elem_of_app. by left.
Qed.

(** The number of components of the graph [(n, es)]. *)
Definition ncomp (n : nat) (es : list (nat * nat)) : nat := count_roots (uf_scan n es).

Lemma ncomp_app n es es' :
  es_wf n (es ++ es') → ncomp n es ≤ ncomp n (es ++ es') + length es'.
Proof.
  induction es' as [|[u v] es' IH] using rev_ind; intros Hwf.
  { rewrite app_nil_r. simpl. lia. }
  rewrite app_assoc in Hwf |- *. rewrite length_app. simpl.
  assert (es_wf n (es ++ es')) as Hwf'.
  { intros a b Hab. apply Hwf. apply elem_of_app. by left. }
  specialize (IH Hwf'). unfold ncomp in *. rewrite uf_scan_snoc. simpl.
  destruct (Hwf u v) as [Hu Hv].
  { apply elem_of_app. right. by apply list_elem_of_singleton. }
  destruct (uf_union_models n _ _ u v (uf_scan_models n _ Hwf') Hu Hv) as [_ Hle].
  lia.
Qed.

(** A coarser partition has no more classes. *)
Lemma uf_models_count_le n uf uf' es es' :
  uf_models n uf es → uf_models n uf' es' →
  (∀ x y, x < n → y < n → conn es x y → conn es' x y) →
  count_roots uf' ≤ count_roots uf.
Proof.
  intros Hm Hm' Hsub. unfold count_roots.
  rewrite <-(length_fmap (uf_rep uf) (roots_list (uf_parent uf'))).
  apply submseteq_length, NoDup_submseteq.
  - apply NoDup_fmap_2_strong; [|apply NoDup_roots_list].
    intros x y Hx Hy Heq.
    apply elem_of_roots_list in Hx, Hy.
    destruct Hx as [Hx Hpx], Hy as [Hy Hpy].
    rewrite (um_size n uf' es' Hm') in Hx, Hy.
    apply (uf_models_iff n uf es x y Hm Hx Hy) in Heq.
    apply Hsub in Heq; [|done..].
    apply (uf_models_conn n uf' es' x y Hm') in Heq.
    rewrite !(uf_rep_root uf') in Heq; try done; try apply Hm'.
    + split; [by rewrite (um_size n uf' es' Hm')|done].
    + split; [by rewrite (um_size n uf' es' Hm')|done].
  - intros r Hr. apply list_elem_of_fmap in Hr as (x & -> & Hx).
    apply elem_of_roots_list in Hx as [Hx _].
    rewrite (um_size n uf' es' Hm') in Hx.
    apply elem_of_roots_list. apply uf_rep_is_root; [apply Hm|].
    by rewrite (um_size n uf es Hm).
Qed.

Lemma uf_models_count_eq n uf uf' es es' :
  uf_models n uf es → uf_models n uf' es' →
  (∀ x y, x < n → y < n → conn es x y ↔ conn es' x y) →
  count_roots uf' = count_roots uf.
Proof.
  intros Hm Hm' Hiff. apply Nat.le_antisymm.
  - eapply (uf_models_count_le n); [done..|]. intros x y Hx Hy. by apply Hiff.
  - eapply (uf_models_count_le n); [done..|]. intros x y Hx Hy. by apply Hiff.
Qed.

(** All vertices are connected exactly when one root is left. *)
Lemma uf_models_one_root n uf es :
  uf_models n uf es → 0 < n →
  count_roots uf = 1 ↔ ∀ x y, x < n → y < n → conn es x y.
Proof.
  intros Hm Hn. pose proof (um_inv n uf es Hm) as Hinv.
  pose proof (um_size n uf es Hm) as Hsize. split.
  - intros Hcnt x y Hx Hy. apply (uf_models_iff n uf es x y Hm Hx Hy).
    assert (uf_rep uf x ∈ roots_list (uf_parent uf)) as H1.
    { apply elem_of_roots_list, uf_rep_is_root; [done|by rewrite Hsize]. }
    assert (uf_rep uf y ∈ roots_list (uf_parent uf)) as H2.
    { apply elem_of_roots_list, uf_rep_is_root; [done|by rewrite Hsize]. }
    unfold count_roots in Hcnt.
    destruct (roots_list (uf_parent uf)) as [|r [|r' l]]; simpl in Hcnt; try lia.
    apply list_elem_of_singleton in H1, H2. congruence.
  - intros Hall. unfold count_roots.
    assert (roots_list (uf_parent uf) ⊆+ [uf_rep uf 0]) as Hsub.
    { apply NoDup_submseteq; [apply NoDup_roots_list|].
      intros r Hr. apply elem_of_roots_list in Hr.
      apply list_elem_of_singleton.
      rewrite <-(uf_rep_root uf Hinv r Hr).
      destruct Hr as [Hr _]. rewrite Hsize in Hr.
      apply (uf_models_iff n uf es r 0 Hm Hr Hn). by apply Hall. }
    apply submseteq_length in Hsub. simpl in Hsub.
    pose proof (uf_has_root uf Hinv) as Hpos. rewrite Hsize in Hpos.
    specialize (Hpos Hn). unfold count_roots in Hpos. lia.
Qed.

(* ================================================================== *)
(** * The Kruskal loop of bpt_canonical *)
(* ================================================================== *)

(** The two outcomes of one turn of the loop. *)
Lemma kruskal_step_cases g w ei st :
  let e := edge_from_index ei g in
  let c1 := (uf_find (k_uf st) (source e)).1 in
  let uf1 := (uf_find (k_uf st) (source e)).2 in
  let c2 := (uf_find uf1 (target e)).1 in
  let uf2 := (uf_find uf1 (target e)).2 in
  (c1 = c2 ∧
   kruskal_step g w ei st =
     KruskalState uf2 (k_roots st) (k_parents st) (k_levels st) (k_mst st)
       (k_mst_edge_map st) (k_num_nodes st) (k_num_edge_found st) (S (k_i st))) ∨
  (c1 ≠ c2 ∧
   kruskal_step g w ei st =
     KruskalState (uf_link uf2 c1 c2).2
       (<[(uf_link uf2 c1 c2).1 := k_num_nodes st]> (k_roots st))
       (<[k_roots st !!! c2 := k_num_nodes st]>
          (<[k_roots st !!! c1 := k_num_nodes st]> (k_parents st)))
       (<[k_num_nodes st := w !!! ei]> (k_levels st))
       (add_edge e (k_mst st))
       (<[k_num_edge_found st := ei]> (k_mst_edge_map st))
       (S (k_num_nodes st)) (S (k_num_edge_found st)) (S (k_i st))).
Proof.
  intros e c1 uf1 c2 uf2. unfold kruskal_step. fold e.
  subst c1 uf1 c2 uf2.
  destruct (uf_find (k_uf st) (source e)) as [c1 uf1]. cbn [fst snd].
  destruct (uf_find uf1 (target e)) as [c2 uf2]. cbn [fst snd].
  destruct (Nat.eqb_spec c1 c2) as [Hc|Hc]; [by left|right].
  split; [done|]. by destruct (uf_link uf2 c1 c2).
Qed.

(** The edges selected so far, in the order of their selection. *)
Definition k_selected (st : kruskal_state) : list nat :=
  take (k_num_edge_found st) (k_mst_edge_map st).

(** What the loop maintains about the graph, with [P] the edge ids
    scanned so far. *)
Record kruskal_inv (g : ugraph) (P : list nat) (st : kruskal_state) : Prop := KruskalInv {
  ki_models : uf_models (num_vertices g) (k_uf st) (edges_of g P);
  ki_found_roots : k_num_edge_found st + count_roots (k_uf st) = num_vertices g;
  ki_num_nodes : k_num_nodes st = num_vertices g + k_num_edge_found st;
  ki_i : k_i st = length P;
  ki_map_length : length (k_mst_edge_map st) = num_vertices g - 1;
  ki_sublist : k_selected st `sublist_of` P;
  ki_mst_conn : ∀ x, x < num_vertices g →
                conn (edges_of g (k_selected st)) x (uf_rep (k_uf st) x);
  ki_mst : k_mst st = Ugraph (num_vertices g) (edges_of g (k_selected st))
}.

Lemma kruskal_inv_init g : kruskal_inv g [] (kruskal_init g).
Proof.
  split; simpl.
  - apply uf_models_make.
  - by rewrite uf_make_count_roots.
  - lia.
  - done.
  - apply length_replicate.
  - apply sublist_nil_l.
  - intros x Hx. rewrite uf_rep_root; [apply conn_refl|apply uf_make_inv|].
    split; [by rewrite uf_make_size|by apply uf_make_parent].
  - done.
Qed.

Lemma kruskal_inv_found_lt g P st :
  0 < num_vertices g → kruskal_inv g P st → k_num_edge_found st < num_vertices g.
Proof.
  intros Hn Hinv.
  pose proof (ki_found_roots g P st Hinv).
  pose proof (uf_has_root _ (um_inv _ _ _ (ki_models g P st Hinv))) as Hr.
  rewrite (um_size _ _ _ (ki_models g P st Hinv)) in Hr. specialize (Hr Hn). lia.
Qed.

Lemma edges_of_snoc g ids ei :
  edges_of g (ids ++ [ei]) = edges_of g ids ++ [edge_from_index ei g].
Proof. unfold edges_of. by rewrite fmap_app. Qed.

Lemma kruskal_step_inv_selected g w P st ei :
  graph_wf g → ei < num_edges g →
  kruskal_inv g P st →
  kruskal_inv g (P ++ [ei]) (kruskal_step g w ei st) ∧
  ((k_selected (kruskal_step g w ei st) = k_selected st ∧
    k_num_edge_found (kruskal_step g w ei st) = k_num_edge_found st) ∨
   (k_selected (kruskal_step g w ei st) = k_selected st ++ [ei] ∧
    k_num_edge_found (kruskal_step g w ei st) = S (k_num_edge_found st))).
Proof.
  intros Hwf Hei Hinv.
  destruct (edge_from_index_wf g ei Hwf Hei) as [Hsrc Htgt].
  pose proof (ki_models g P st Hinv) as Hm.
  pose proof (uf_union_spec _ _ _ _ _ Hm Hsrc Htgt) as Hspec. cbv zeta in Hspec.
  pose proof (kruskal_step_cases g w ei st) as Hcases. cbv zeta in Hcases.
  set (e := edge_from_index ei g) in *.
  set (c1 := (uf_find (k_uf st) (source e)).1) in *.
  set (uf1 := (uf_find (k_uf st) (source e)).2) in *.
  set (c2 := (uf_find uf1 (target e)).1) in *.
  set (uf2 := (uf_find uf1 (target e)).2) in *.
  destruct Hspec as (Hc1 & Hc2 & Hinv2 & Hsize2 & Hcnt2 & Hroot2 & Hrep2 & Heq & Hne).
  assert (source e = e.1 ∧ target e = e.2) as [Hs Ht] by done.
  assert ((source e, target e) = e) as Hpair by (by destruct e).
  rewrite Hpair in Heq, Hne.
  destruct Hcases as [[Hc ->]|[Hc ->]].
  - split; [|by left].
    destruct Hinv. split; simpl; try done.
    + rewrite edges_of_snoc. by apply Heq.
    + lia.
    + rewrite length_app. simpl. lia.
    + by apply sublist_inserts_r.
    + intros x Hx. rewrite Hrep2 by done. by apply ki_mst_conn0.
  - assert (uf_is_root uf2 c1) as Hr1.
    { rewrite Hroot2, Hc1. apply uf_rep_is_root; [apply Hm|by rewrite (um_size _ _ _ Hm)]. }
    assert (uf_is_root uf2 c2) as Hr2.
    { rewrite Hroot2, Hc2. apply uf_rep_is_root; [apply Hm|by rewrite (um_size _ _ _ Hm)]. }
    destruct (uf_link_spec uf2 c1 c2 Hinv2 Hr1 Hr2 Hc)
      as (Hr & Hinv3 & Hsize3 & Hcnt3 & Hroot3 & Hrep3).
    cbv zeta in Hr, Hinv3, Hsize3, Hcnt3, Hroot3, Hrep3.
    rewrite Hsize2 in Hsize3, Hrep3.
    pose proof (uf_has_root _ Hinv3) as Hpos. rewrite Hsize3 in Hpos.
    destruct Hinv. 
    assert (k_num_edge_found st < length (k_mst_edge_map st)) as Hlt by lia.
    assert (k_selected
              (KruskalState (uf_link uf2 c1 c2).2
                 (<[(uf_link uf2 c1 c2).1 := k_num_nodes st]> (k_roots st))
                 (<[k_roots st !!! c2 := k_num_nodes st]>
                    (<[k_roots st !!! c1 := k_num_nodes st]> (k_parents st)))
                 (<[k_num_nodes st := w !!! ei]> (k_levels st))
                 (add_edge e (k_mst st))
                 (<[k_num_edge_found st := ei]> (k_mst_edge_map st))
                 (S (k_num_nodes st)) (S (k_num_edge_found st)) (S (k_i st)))
            = k_selected st ++ [ei]) as Hsel.
    { unfold k_selected. simpl.
      rewrite (take_S_r _ _ ei) by (by apply list_lookup_insert_eq).
      by rewrite take_insert_ge. }
    split; [|by right].
    split; rewrite ?Hsel; simpl.
    + rewrite edges_of_snoc. by apply Hne.
    + lia.
    + lia.
    + rewrite length_app. simpl. lia.
    + by rewrite length_insert.
    + by apply sublist_app.
    + intros x Hx. rewrite Hrep3, Hrep2 by done. rewrite edges_of_snoc. fold e.
      assert (∀ y, y < num_vertices g →
                conn (edges_of g (k_selected st) ++ [e]) y (uf_rep (k_uf st) y)) as Hold.
      { intros y Hy. eapply conn_mono; [|by apply ki_mst_conn0].
        intros e' He'. apply elem_of_app. by left. }
      assert (conn (edges_of g (k_selected st) ++ [e]) c1 c2) as Hc12.
      { rewrite Hc1, Hc2.
        eapply conn_trans; [apply conn_sym, Hold; done|].
        eapply conn_trans; [|apply Hold; done].
        apply conn_edge, elem_of_app. right. rewrite <-Hpair. by apply list_elem_of_singleton. }
      destruct (decide _) as [[Hx1|Hx2]|_]; [..|by apply Hold].
      * specialize (Hold x Hx). rewrite Hx1 in Hold.
        destruct Hr as [->| ->]; [done|]. by eapply conn_trans.
      * specialize (Hold x Hx). rewrite Hx2 in Hold.
        destruct Hr as [->| ->]; [|done].
        eapply conn_trans; [done|]. by apply conn_sym.
    + rewrite ki_mst0. unfold add_edge. simpl. by rewrite edges_of_snoc.
Qed.

Lemma kruskal_step_inv g w P st ei :
  graph_wf g → ei < num_edges g →
  kruskal_inv g P st →
  kruskal_inv g (P ++ [ei]) (kruskal_step g w ei st).
Proof. intros Hwf Hei Hinv. by apply kruskal_step_inv_selected. Qed.

Lemma kruskal_inv_selected_length g P st :
  0 < num_vertices g → kruskal_inv g P st →
  length (k_selected st) = k_num_edge_found st.
Proof.
  intros Hn Hinv. unfold k_selected. rewrite length_take.
  pose proof (kruskal_inv_found_lt g P st Hn Hinv).
  pose proof (ki_map_length g P st Hinv). lia.
Qed.

(** A run of the loop body over a list of edge ids, without the test of
    line 100. *)
Definition kruskal_run (g : ugraph) (w : list Z) (ids : list nat) (st : kruskal_state)
    : kruskal_state :=
  foldl (λ s ei, kruskal_step g w ei s) st ids.

Lemma kruskal_run_snoc g w ids ei st :
  kruskal_run g w (ids ++ [ei]) st = kruskal_step g w ei (kruskal_run g w ids st).
Proof. unfold kruskal_run. by rewrite foldl_snoc. Qed.

Lemma kruskal_run_inv g w P ids st :
  graph_wf g → (∀ ei, ei ∈ ids → ei < num_edges g) →
  kruskal_inv g P st →
  kruskal_inv g (P ++ ids) (kruskal_run g w ids st).
Proof.
  intros Hwf. induction ids as [|ei ids IH] using rev_ind; intros Hids Hinv.
  { by rewrite app_nil_r. }
  rewrite kruskal_run_snoc, app_assoc.
  apply kruskal_step_inv; [done|..].
  - apply Hids, elem_of_app. right. by apply list_elem_of_singleton.
  - apply IH; [|done]. intros e He. apply Hids, elem_of_app. by left.
Qed.

(** The loop is the run over a prefix of the work list; it enters the
    body only while fewer than [nm] merges are done, and it leaves either
    at the end of the list or with [nm] merges. *)
Lemma kruskal_loop_run g w nm todo st :
  ∃ k, k ≤ length todo ∧
       kruskal_loop g w nm todo st = kruskal_run g w (take k todo) st ∧
       (∀ j, j < k → k_num_edge_found (kruskal_run g w (take j todo) st) < nm) ∧
       (k = length todo ∨ nm ≤ k_num_edge_found (kruskal_loop g w nm todo st)).
Proof.
  revert st. induction todo as [|ei todo IH]; intros st; simpl.
  { exists 0. split; [done|]. split; [done|]. split; [lia|by left]. }
  destruct (Nat.ltb_spec (k_num_edge_found st) nm) as [Hlt|Hge].
  - destruct (IH (kruskal_step g w ei st)) as (k & Hk & Heq & Hbefore & Hstop).
    exists (S k). split; [lia|]. split; [done|]. split.
    + intros [|j] Hj; [done|]. simpl. apply Hbefore. lia.
    + destruct Hstop as [->|Hstop]; [by left|by right].
  - exists 0. split; [lia|]. split; [done|]. split; [lia|by right].
Qed.

Lemma conn_edges_of_perm g ids ids' x y :
  (∀ ei, ei ∈ ids → ei ∈ ids') →
  conn (edges_of g ids) x y → conn (edges_of g ids') x y.
Proof.
  intros Hsub. apply conn_mono. intros e He.
  apply list_elem_of_fmap in He as (ei & -> & Hei).
  by apply edges_of_elem, Hsub.
Qed.

Lemma conn_sorted_edges g w x y :
  conn (edges_of g (sorted_edges_indices g w)) x y ↔ conn (edge_list g) x y.
Proof.
  split; intros H.
  - rewrite <-(edges_of_all g). revert H. apply conn_edges_of_perm. intros ei.
    rewrite sorted_edges_indices_elem, elem_of_seq. lia.
  - rewrite <-(edges_of_all g) in H. revert H. apply conn_edges_of_perm. intros ei.
    rewrite sorted_edges_indices_elem, elem_of_seq. lia.
Qed.

(** The final state of the loop of [bpt_canonical]. *)
Definition kruskal_final (g : ugraph) (w : list Z) : kruskal_state :=
  kruskal_loop g w (num_vertices g - 1) (sorted_edges_indices g w) (kruskal_init g).

Lemma kruskal_final_spec g w :
  graph_wf g → 0 < num_vertices g →
  ∃ k, k ≤ num_edges g ∧
    kruskal_final g w = kruskal_run g w (take k (sorted_edges_indices g w)) (kruskal_init g) ∧
    kruskal_inv g (take k (sorted_edges_indices g w)) (kruskal_final g w) ∧
    (∀ j, j < k →
       k_num_edge_found (kruskal_run g w (take j (sorted_edges_indices g w)) (kruskal_init g))
         < num_vertices g - 1) ∧
    (k = num_edges g ∨ k_num_edge_found (kruskal_final g w) = num_vertices g - 1).
Proof.
  intros Hwf Hn. unfold kruskal_final.
  destruct (kruskal_loop_run g w (num_vertices g - 1) (sorted_edges_indices g w)
              (kruskal_init g)) as (k & Hk & Heq & Hbefore & Hstop).
  assert (length (sorted_edges_indices g w) = num_edges g) as Hlen.
  { rewrite sorted_edges_indices_perm. apply length_seq. }
  assert (kruskal_inv g (take k (sorted_edges_indices g w))
            (kruskal_run g w (take k (sorted_edges_indices g w)) (kruskal_init g))) as Hinv.
  { apply (kruskal_run_inv g w []); [done| |apply kruskal_inv_init].
    intros ei Hei. apply sorted_edges_indices_elem with (w := w).
    apply elem_of_take in Hei as (i & Hi & _). by eapply list_elem_of_lookup_2. }
  exists k. rewrite Heq in *. split; [lia|]. split; [done|]. split; [done|].
  split; [done|]. destruct Hstop as [->|Hstop]; [left; lia|right].
  pose proof (kruskal_inv_found_lt g _ _ Hn Hinv). lia.
Qed.

(** With all edges scanned, one component is left exactly when the graph
    is connected. *)
Lemma kruskal_inv_connected g w st :
  graph_wf g → 0 < num_vertices g →
  kruskal_inv g (sorted_edges_indices g w) st →
  k_num_edge_found st = num_vertices g - 1 ↔ connected g.
Proof.
  intros Hwf Hn Hinv.
  pose proof (ki_found_roots _ _ _ Hinv) as Hfr.
  pose proof (uf_models_one_root _ _ _ (ki_models _ _ _ Hinv) Hn) as Hone.
  split.
  - intros Hf. split; [done|]. intros u v Hu Hv.
    apply (conn_sorted_edges g w). apply Hone; [lia|done..].
  - intros [_ Hc]. assert (count_roots (k_uf st) = 1); [|lia].
    apply Hone. intros x y Hx Hy. apply conn_sorted_edges. by apply Hc.
Qed.

Lemma kruskal_final_connected g w :
  graph_wf g → 0 < num_vertices g →
  k_num_edge_found (kruskal_final g w) = num_vertices g - 1 ↔ connected g.
Proof.
  intros Hwf Hn.
  destruct (kruskal_final_spec g w Hwf Hn) as (k & Hk & Heq & Hinv & Hbefore & Hstop).
  assert (length (sorted_edges_indices g w) = num_edges g) as Hlen.
  { rewrite sorted_edges_indices_perm. apply length_seq. }
  split.
  - intros Hf. split; [done|]. intros u v Hu Hv.
    pose proof (ki_found_roots _ _ _ Hinv) as Hfr.
    pose proof (uf_models_one_root _ _ _ (ki_models _ _ _ Hinv) Hn) as Hone.
    apply (conn_sorted_edges g w).
    eapply conn_edges_of_perm; [|apply Hone; [lia|done..]].
    intros ei Hei. apply elem_of_take in Hei as (i & Hi & _).
    by eapply list_elem_of_lookup_2.
  - intros Hc. destruct Hstop as [->|Hstop]; [|done].
    rewrite <-Hlen, firstn_all in Hinv.
    by apply (kruskal_inv_connected g w).
Qed.

Lemma bpt_canonical_unfold g w :
  length w = num_edges g → 0 < num_vertices g →
  bpt_canonical g w =
    if k_num_edge_found (kruskal_final g w) =? num_vertices g - 1
    then inr (NodeWeightedTreeAndMst (Tree (k_parents (kruskal_final g w)))
                (k_levels (kruskal_final g w)) (k_mst (kruskal_final g w))
                (k_mst_edge_map (kruskal_final g w)))
    else inl DisconnectedGraph.
Proof.
  intros Hw Hn. unfold bpt_canonical.
  rewrite Hw, Nat.eqb_refl. simpl.
  destruct (Nat.eqb_spec (num_vertices g) 0); [lia|]. done.
Qed.

(** C7. [bpt_canonical] scans the edge ids in the order of a stable sort
    on the key [w[e]] and in no other: the list [L] of its sort holds the
    ids [0..m) in non-decreasing weight order, ties in increasing id order,
    and is the only list that does; the result of [bpt_canonical] is that
    of the loop body run over the first [k] ids of [L], one after the
    other, where [k] is the first position at which [n - 1] merges are
    done, or [m] when they never are.  The returned tree, altitudes, mst and
    edge map are thus fixed by the input alone, ties among weights
    included. *)
Theorem C7_stable_scan_order (g : ugraph) (w : list Z) :
  let L := sorted_edges_indices g w in
  L ≡ₚ seq 0 (num_edges g) ∧
  (∀ i j a b, i < j → L !! i = Some a → L !! j = Some b →
     (w !!! a ≤ w !!! b)%Z ∧ (w !!! a = w !!! b → a < b)) ∧
  (∀ L', L' ≡ₚ seq 0 (num_edges g) →
     (∀ i j a b, i < j → L' !! i = Some a → L' !! j = Some b →
        (w !!! a ≤ w !!! b)%Z ∧ (w !!! a = w !!! b → a < b)) →
     L' = L) ∧
  (∃ k, k ≤ num_edges g ∧
     (∀ j, j < k →
        k_num_edge_found
          (foldl (λ s ei, kruskal_step g w ei s) (kruskal_init g) (take j L))
          < num_vertices g - 1) ∧
     (k = num_edges g ∨
      num_vertices g - 1 ≤
        k_num_edge_found
          (foldl (λ s ei, kruskal_step g w ei s) (kruskal_init g) (take k L))) ∧
     bpt_canonical g w =
       if negb (length w =? num_edges g) then inl InvalidInput
       else if num_vertices g =? 0 then inl BadAlloc
       else
         let st := foldl (λ s ei, kruskal_step g w ei s) (kruskal_init g) (take k L) in
         if k_num_edge_found st =? num_vertices g - 1
         then inr (NodeWeightedTreeAndMst (Tree (k_parents st)) (k_levels st)
                     (k_mst st) (k_mst_edge_map st))
         else inl DisconnectedGraph).
Proof.
  intros L. subst L. split; [apply sorted_edges_indices_perm|]. split; [|split].
  - intros i j a b Hij Ha Hb.
    pose proof (strongly_sorted_lookup _ _ _ _ _ _
                  (sorted_edges_indices_sorted g w) Hij Ha Hb) as [?|[??]]; lia.
  - intros L' Hperm Hord.
    apply (StronglySorted_unique_strong (edge_before w)).
    + intros; by eapply edge_before_asym.
    + assert (NoDup L') as Hnd by (rewrite Hperm; apply NoDup_seq).
      clear Hperm. induction L' as [|x L' IH]; [constructor|].
      apply NoDup_cons in Hnd as [Hx Hnd].
      constructor.
      * apply IH; [|done]. intros i j a b Hij Ha Hb.
        apply (Hord (S i) (S j)); [lia|done..].
      * apply Forall_forall. intros y Hy.
        apply list_elem_of_lookup in Hy as [j Hj].
        destruct (Hord 0 (S j) x y) as [H1 H2]; [lia|done..|].
        unfold edge_before. destruct (decide (w !!! x = w !!! y)); [right|left]; [split; auto|lia].
    + apply sorted_edges_indices_sorted.
    + by rewrite Hperm, sorted_edges_indices_perm.
  - destruct (kruskal_loop_run g w (num_vertices g - 1)
                (sorted_edges_indices g w) (kruskal_init g))
      as (k & Hk & Heq & Hbefore & Hstop).
    assert (length (sorted_edges_indices g w) = num_edges g) as Hlen.
    { rewrite sorted_edges_indices_perm. apply length_seq. }
    exists k. split; [lia|]. split; [exact Hbefore|]. split.
    + destruct Hstop as [->|Hstop]; [by left|right].
      rewrite Heq in Hstop. exact Hstop.
    + unfold bpt_canonical.
      destruct (negb (length w =? num_edges g)); [done|].
      destruct (num_vertices g =? 0); [done|].
      cbv zeta. rewrite Heq. reflexivity.
Qed.

(** C3. On a well-formed input [bpt_canonical] fails with
    [DisconnectedGraph] exactly when the graph is not connected, which is
    exactly when the scan of all the edges in sorted order makes fewer
    than [n - 1] merges; a failure carries no result; and when it succeeds
    the loop body ran over a prefix of the sorted edges, entered each time
    with fewer than [n - 1] merges, and left with [n - 1] merges. *)
Theorem C3_disconnected_graph (g : ugraph) (w : list Z) :
  graph_wf g → 0 < num_vertices g → length w = num_edges g →
  let L := sorted_edges_indices g w in
  let merges ids := k_num_edge_found (kruskal_run g w ids (kruskal_init g)) in
  (bpt_canonical g w = inl DisconnectedGraph ↔ ¬ connected g) ∧
  (bpt_canonical g w = inl DisconnectedGraph ↔ merges L < num_vertices g - 1) ∧
  (connected g →
     ∃ r k, bpt_canonical g w = inr r ∧ k ≤ length L ∧
       merges (take k L) = num_vertices g - 1 ∧
       kruskal_final g w = kruskal_run g w (take k L) (kruskal_init g) ∧
       k_i (kruskal_final g w) = k ∧
       ∀ j, j < k → merges (take j L) < num_vertices g - 1).
Proof.
  intros Hwf Hn Hw L merges.
  rewrite (bpt_canonical_unfold g w Hw Hn).
  pose proof (kruskal_final_connected g w Hwf Hn) as Hconn.
  assert (kruskal_inv g L (kruskal_run g w L (kruskal_init g))) as Hfull.
  { apply (kruskal_run_inv g w []); [done| |apply kruskal_inv_init].
    intros ei Hei. by apply (sorted_edges_indices_elem g w). }
  pose proof (kruskal_inv_connected g w _ Hwf Hn Hfull) as Hconn'.
  pose proof (kruskal_inv_found_lt g _ _ Hn Hfull) as Hlt.
  split; [|split].
  - destruct (Nat.eqb_spec (k_num_edge_found (kruskal_final g w)) (num_vertices g - 1)).
    + split; [done|]. intros Hnc. exfalso. apply Hnc. by apply Hconn.
    + split; [|done]. intros _ Hc. by apply Hconn in Hc.
  - destruct (Nat.eqb_spec (k_num_edge_found (kruskal_final g w)) (num_vertices g - 1)) as [He|He].
    + split; [done|]. apply Hconn, Hconn' in He. unfold merges. lia.
    + split; [|done]. intros _. unfold merges.
      assert (k_num_edge_found (kruskal_run g w L (kruskal_init g)) ≠ num_vertices g - 1); [|lia].
      intros Hf. by apply Hconn', Hconn in Hf.
  - intros Hc. apply Hconn in Hc. rewrite Hc, Nat.eqb_refl.
    destruct (kruskal_final_spec g w Hwf Hn) as (k & Hk & Heq & Hinv & Hbefore & Hstop).
    eexists _, k. split; [done|].
    assert (length L = num_edges g) as Hlen.
    { unfold L. rewrite sorted_edges_indices_perm. apply length_seq. }
    split; [lia|]. split; [unfold merges, L; by rewrite <-Heq|]. split; [done|].
    split; [|done].
    rewrite (ki_i _ _ _ Hinv). rewrite length_take. fold L. lia.
Qed.

(* ================================================================== *)
(** * The selected edges form a minimum spanning tree *)
(* ================================================================== *)

Lemma total_weight_app w l1 l2 :
  total_weight w (l1 ++ l2) = (total_weight w l1 + total_weight w l2)%Z.
Proof. induction l1 as [|x l1 IH]; simpl; [done|]. rewrite IH. lia. Qed.

Lemma total_weight_perm w l1 l2 :
  l1 ≡ₚ l2 → total_weight w l1 = total_weight w l2.
Proof. induction 1; simpl; lia. Qed.

Lemma total_weight_ge w l x :
  (∀ e, e ∈ l → (x ≤ w !!! e)%Z) → (Z.of_nat (length l) * x ≤ total_weight w l)%Z.
Proof.
  induction l as [|e l IH]; intros Hl; simpl; [lia|].
  assert (x ≤ w !!! e)%Z by (apply Hl; by left).
  assert (Z.of_nat (length l) * x ≤ total_weight w l)%Z.
  { apply IH. intros e' He'. apply Hl. by right. }
  lia.
Qed.

Lemma weights_upper_bound (w : list Z) (l : list nat) :
  ∃ x, ∀ e, e ∈ l → (w !!! e ≤ x)%Z.
Proof.
  induction l as [|e l [x Hx]].
  - exists 0%Z. intros e He. by apply elem_of_nil in He.
  - exists (Z.max x (w !!! e)). intros e' He'. apply elem_of_cons in He' as [->|He'].
    + lia.
    + specialize (Hx e' He'). lia.
Qed.

Lemma filter_elem_snoc (P T : list nat) (e : nat) :
  NoDup T → e ∉ P →
  filter (λ x, x ∈ P ++ [e]) T ≡ₚ
    if decide (e ∈ T) then e :: filter (λ x, x ∈ P) T else filter (λ x, x ∈ P) T.
Proof.
  intros HT HeP. apply NoDup_Permutation.
  - by apply NoDup_filter.
  - destruct (decide (e ∈ T)); [|by apply NoDup_filter].
    apply NoDup_cons. split; [|by apply NoDup_filter].
    rewrite list_elem_of_filter. tauto.
  - intros x. rewrite list_elem_of_filter, elem_of_app, list_elem_of_singleton.
    destruct (decide (e ∈ T)) as [HeT|HeT].
    + rewrite elem_of_cons, list_elem_of_filter. split.
      * intros [[?| ->] ?]; auto.
      * intros [->|[? ?]]; auto.
    + rewrite list_elem_of_filter. split.
      * intros [[?| ->] ?]; [auto|done].
      * intros [? ?]; auto.
Qed.

Lemma filter_elem_nil (T : list nat) : filter (λ e : nat, e ∈ []) T = [].
Proof.
  induction T as [|t T IH]; [done|].
  rewrite filter_cons_False; [done|]. apply not_elem_of_nil.
Qed.

Lemma filter_complement_length {A} (P : A → Prop) `{∀ x, Decision (P x)} (l : list A) :
  length (filter P l) + length (filter (λ x, ¬ P x) l) = length l.
Proof. rewrite <-length_app. by rewrite filter_app_complement. Qed.

Lemma edges_of_wf g ids :
  graph_wf g → (∀ ei, ei ∈ ids → ei < num_edges g) → es_wf (num_vertices g) (edges_of g ids).
Proof.
  intros Hwf Hids u v Huv.
  apply list_elem_of_fmap in Huv as (ei & Heq & Hei).
  destruct (edge_from_index_wf g ei Hwf (Hids ei Hei)) as [Hs Ht].
  rewrite <-Heq in Hs, Ht. done.
Qed.

(** The edges of a spanning tree among any set [P] of edges are never more
    than the merges that a scan of [P] makes. *)
Lemma spanning_tree_prefix_count g T P uf :
  graph_wf g → 0 < num_vertices g → spanning_tree g T →
  uf_models (num_vertices g) uf (edges_of g P) →
  length (filter (λ e, e ∈ P) T) + count_roots uf ≤ num_vertices g.
Proof.
  intros Hwf Hn (HTnd & HTlt & HTlen & HTconn) Hm.
  set (n := num_vertices g) in *.
  set (Tin := filter (λ e, e ∈ P) T).
  set (Tout := filter (λ e, ¬ e ∈ P) T).
  assert (∀ ei, ei ∈ Tin ++ Tout → ei < num_edges g) as Hlt.
  { intros ei Hei. apply HTlt. unfold Tin, Tout in Hei.
    apply elem_of_app in Hei as [Hei|Hei]; apply list_elem_of_filter in Hei; tauto. }
  assert (es_wf n (edges_of g Tin ++ edges_of g Tout)) as Hwf2.
  { unfold edges_of. rewrite <-fmap_app. by apply edges_of_wf. }
  assert (es_wf n (edges_of g Tin)) as Hwf1.
  { intros u v Huv. apply Hwf2, elem_of_app. by left. }
  pose proof (ncomp_app n _ _ Hwf2) as Happ.
  assert (ncomp n (edges_of g Tin ++ edges_of g Tout) = 1) as Hone.
  { apply (uf_models_one_root n _ _ (uf_scan_models n _ Hwf2) Hn).
    intros x y Hx Hy. unfold edges_of. rewrite <-fmap_app.
    eapply conn_edges_of_perm; [|by apply HTconn].
    intros ei Hei. unfold Tin, Tout. rewrite elem_of_app, !list_elem_of_filter.
    destruct (decide (ei ∈ P)); auto. }
  assert (count_roots uf ≤ ncomp n (edges_of g Tin)) as Hle.
  { apply (uf_models_count_le n _ _ _ _ (uf_scan_models n _ Hwf1) Hm).
    intros x y _ _. apply conn_edges_of_perm. intros ei Hei.
    unfold Tin in Hei. apply list_elem_of_filter in Hei. tauto. }
  pose proof (filter_complement_length (λ e, e ∈ P) T) as Hsplit.
  change (length Tin + length Tout = length T) in Hsplit.
  assert (length (edges_of g Tout) = length Tout) as Hl by (unfold edges_of; apply length_fmap).
  rewrite Hl in Happ. unfold ncomp in *. lia.
Qed.

Lemma sorted_edges_weight_le g w i j a b :
  i ≤ j → sorted_edges_indices g w !! i = Some a → sorted_edges_indices g w !! j = Some b →
  (w !!! a ≤ w !!! b)%Z.
Proof.
  intros Hij Ha Hb. destruct (decide (i = j)) as [->|Hne].
  { simplify_eq. lia. }
  pose proof (strongly_sorted_lookup _ _ i j a b (sorted_edges_indices_sorted g w)) as Hs.
  destruct Hs as [?|[? _]]; [lia|done..|lia|lia].
Qed.

(** Abel summation along the scan: against any spanning tree [T], the
    selected edges are at least as many in every scanned prefix, and their
    weight exceeds the weight of the edges of [T] in the prefix by at most
    the surplus times any bound on the scanned weights. *)
Lemma kruskal_run_majorize g w T j :
  graph_wf g → 0 < num_vertices g → spanning_tree g T →
  j ≤ num_edges g →
  let P := take j (sorted_edges_indices g w) in
  let st := kruskal_run g w P (kruskal_init g) in
  let Tin := filter (λ e, e ∈ P) T in
  length Tin ≤ k_num_edge_found st ∧
  ∀ x, (∀ e, e ∈ P → (w !!! e ≤ x)%Z) →
    (total_weight w (k_selected st) - total_weight w Tin ≤
     (Z.of_nat (k_num_edge_found st) - Z.of_nat (length Tin)) * x)%Z.
Proof.
  intros Hwf Hn HT. pose proof HT as (HTnd & HTlt & HTlen & HTconn).
  set (L := sorted_edges_indices g w).
  assert (length L = num_edges g) as Hlen.
  { unfold L. rewrite sorted_edges_indices_perm. apply length_seq. }
  assert (∀ j, j ≤ num_edges g →
            kruskal_inv g (take j L) (kruskal_run g w (take j L) (kruskal_init g))) as Hinv.
  { intros j' Hj'. apply (kruskal_run_inv g w []); [done| |apply kruskal_inv_init].
    intros ei Hei. apply (sorted_edges_indices_elem g w).
    apply elem_of_take in Hei as (i & Hi & _). by eapply list_elem_of_lookup_2. }
  assert (∀ j, j ≤ num_edges g →
            length (filter (λ e, e ∈ take j L) T) ≤
            k_num_edge_found (kruskal_run g w (take j L) (kruskal_init g))) as Hcount.
  { intros j' Hj'. specialize (Hinv j' Hj').
    pose proof (spanning_tree_prefix_count g T _ _ Hwf Hn HT (ki_models _ _ _ Hinv)).
    pose proof (ki_found_roots _ _ _ Hinv). lia. }
  induction j as [|j IH]; intros Hj P st Tin.
  { split; [by apply Hcount|]. intros x _. subst P st Tin.
    rewrite take_0, filter_elem_nil. simpl. lia. }
  split; [by apply Hcount|].
  destruct (IH ltac:(lia)) as [Hc0 Hsum0]. clear IH.
  destruct (lookup_lt_is_Some_2 L j) as [e He]; [lia|].
  assert (P = take j L ++ [e]) as HP by (by apply take_S_r).
  pose proof (Hcount (S j) Hj) as Hc1. fold P in Hc1.
  set (st0 := kruskal_run g w (take j L) (kruskal_init g)) in *.
  set (Tin0 := filter (λ e, e ∈ take j L) T) in *.
  assert (st = kruskal_step g w e st0) as Hst.
  { unfold st, st0. rewrite HP. apply kruskal_run_snoc. }
  assert (e < num_edges g) as Hei.
  { apply (sorted_edges_indices_elem g w). by eapply list_elem_of_lookup_2. }
  assert (e ∉ take j L) as Hfresh.
  { intros Hin. apply elem_of_take in Hin as (i & Hi & Hij).
    pose proof (NoDup_lookup L i j e (sorted_edges_indices_NoDup g w) Hi He). lia. }
  assert (∀ e', e' ∈ take j L → (w !!! e' ≤ w !!! e)%Z) as Hsorted.
  { intros e' Hin. apply elem_of_take in Hin as (i & Hi & Hij).
    apply (sorted_edges_weight_le g w i j); [lia|done..]. }
  specialize (Hsum0 (w !!! e) Hsorted).
  assert (Tin ≡ₚ if decide (e ∈ T) then e :: Tin0 else Tin0) as HTin.
  { unfold Tin. rewrite HP. by apply filter_elem_snoc. }
  intros x Hx.
  assert (w !!! e ≤ x)%Z as Hex.
  { apply Hx. rewrite HP. apply elem_of_app. right. by apply list_elem_of_singleton. }
  change (length Tin ≤ k_num_edge_found st) in Hc1.
  rewrite (total_weight_perm _ _ _ HTin).
  assert (length Tin = length (if decide (e ∈ T) then e :: Tin0 else Tin0)) as HlenT
    by (by rewrite HTin).
  rewrite HlenT in Hc1 |- *. clear HlenT HTin.
  destruct (kruskal_step_inv_selected g w (take j L) st0 e Hwf Hei (Hinv j ltac:(lia)))
    as [_ Hsel].
  rewrite <-Hst in Hsel.
  destruct Hsel as [[-> Hf]|[-> Hf]]; rewrite Hf in Hc1 |- *;
    rewrite ?total_weight_app; destruct (decide (e ∈ T)); simpl in *; nia.
Qed.

Lemma kruskal_final_selected g w :
  graph_wf g → 0 < num_vertices g →
  k_num_edge_found (kruskal_final g w) = num_vertices g - 1 →
  k_selected (kruskal_final g w) = k_mst_edge_map (kruskal_final g w).
Proof.
  intros Hwf Hn Hf.
  destruct (kruskal_final_spec g w Hwf Hn) as (k & _ & _ & Hinv & _).
  unfold k_selected. rewrite Hf, <-(ki_map_length _ _ _ Hinv). apply firstn_all.
Qed.

Lemma kruskal_final_spanning_tree g w :
  graph_wf g → 0 < num_vertices g →
  k_num_edge_found (kruskal_final g w) = num_vertices g - 1 →
  spanning_tree g (k_selected (kruskal_final g w)).
Proof.
  intros Hwf Hn Hf.
  destruct (kruskal_final_spec g w Hwf Hn) as (k & Hk & _ & Hinv & _).
  pose proof (ki_sublist _ _ _ Hinv) as Hsub.
  split; [|split; [|split]].
  - eapply sublist_NoDup; [|exact Hsub].
    eapply sublist_NoDup; [apply sorted_edges_indices_NoDup|apply sublist_take].
  - intros ei Hei. apply (sorted_edges_indices_elem g w).
    pose proof (elem_of_sublist _ _ _ Hei Hsub) as Hin.
    apply elem_of_take in Hin as (i & Hi & _). by eapply list_elem_of_lookup_2.
  - rewrite (kruskal_inv_selected_length _ _ _ Hn Hinv). done.
  - intros u v Hu Hv.
    pose proof (ki_found_roots _ _ _ Hinv) as Hfr.
    pose proof (uf_models_one_root _ _ _ (ki_models _ _ _ Hinv) Hn) as [Hone _].
    assert (uf_rep (k_uf (kruskal_final g w)) u = uf_rep (k_uf (kruskal_final g w)) v) as Heq.
    { apply (uf_models_iff _ _ _ u v (ki_models _ _ _ Hinv) Hu Hv). apply Hone; [lia|done..]. }
    eapply conn_trans; [by apply (ki_mst_conn _ _ _ Hinv)|].
    rewrite Heq. apply conn_sym. by apply (ki_mst_conn _ _ _ Hinv).
Qed.

Lemma kruskal_final_minimum g w T :
  graph_wf g → 0 < num_vertices g →
  k_num_edge_found (kruskal_final g w) = num_vertices g - 1 →
  spanning_tree g T →
  (total_weight w (k_selected (kruskal_final g w)) ≤ total_weight w T)%Z.
Proof.
  intros Hwf Hn Hf HT. pose proof HT as (HTnd & HTlt & HTlen & HTconn).
  destruct (kruskal_final_spec g w Hwf Hn) as (k & Hk & Heq & Hinv & _).
  set (L := sorted_edges_indices g w) in *.
  assert (length L = num_edges g) as Hlen.
  { unfold L. rewrite sorted_edges_indices_perm. apply length_seq. }
  destruct (kruskal_run_majorize g w T k Hwf Hn HT Hk) as [Hcnt Hsum].
  fold L in Hcnt, Hsum. rewrite <-Heq in Hcnt, Hsum. rewrite Hf in Hcnt, Hsum.
  set (Tin := filter (λ e, e ∈ take k L) T) in *.
  set (Tout := filter (λ e, ¬ e ∈ take k L) T).
  pose proof (filter_complement_length (λ e, e ∈ take k L) T) as Hsplit.
  change (length Tin + length Tout = length T) in Hsplit.
  assert (total_weight w T = (total_weight w Tin + total_weight w Tout)%Z) as HwT.
  { rewrite <-total_weight_app. apply total_weight_perm.
    symmetry. apply filter_app_complement. }
  assert (∃ x, (∀ e, e ∈ take k L → (w !!! e ≤ x)%Z) ∧
               (∀ e, e ∈ Tout → (x ≤ w !!! e)%Z)) as (x & Hlo & Hhi).
  { destruct (L !! k) as [e0|] eqn:He0.
    - exists (w !!! e0). split.
      + intros e He. apply elem_of_take in He as (i & Hi & Hik).
        apply (sorted_edges_weight_le g w i k); [lia|done..].
      + intros e He. unfold Tout in He. apply list_elem_of_filter in He as [Hnot HeT].
        assert (e ∈ L) as HeL by (apply (sorted_edges_indices_elem g w); by apply HTlt).
        apply list_elem_of_lookup in HeL as [i Hi].
        destruct (decide (i < k)) as [Hlt|Hge].
        { exfalso. apply Hnot. apply elem_of_take. eauto. }
        apply (sorted_edges_weight_le g w k i); [lia|done..].
    - apply lookup_ge_None in He0.
      destruct (weights_upper_bound w (take k L)) as [x Hx]. exists x. split; [done|].
      intros e He. unfold Tout in He. apply list_elem_of_filter in He as [Hnot HeT].
      exfalso. apply Hnot. rewrite take_ge by lia.
      apply (sorted_edges_indices_elem g w). by apply HTlt. }
  specialize (Hsum x Hlo).
  pose proof (total_weight_ge w Tout x Hhi) as Hout.
  assert (Z.of_nat (num_vertices g - 1) - Z.of_nat (length Tin) = Z.of_nat (length Tout))%Z
    as HD by lia.
  rewrite HD in Hsum. lia.
Qed.

(** C1. For a connected graph the minimum spanning tree returned by
    [bpt_canonical] has [n - 1] edges, which are the edges of the graph
    that [mst_edge_map] names, in order; these edges form a spanning tree
    of the graph whose weight no spanning tree beats, so their weight is
    the weight of every minimum spanning tree. *)
Theorem C1_minimum_spanning_tree (g : ugraph) (w : list Z) :
  graph_wf g → connected g → length w = num_edges g →
  ∃ r, bpt_canonical g w = inr r ∧
    num_vertices (nwt_mst r) = num_vertices g ∧
    num_edges (nwt_mst r) = num_vertices g - 1 ∧
    length (nwt_mst_edge_map r) = num_vertices g - 1 ∧
    edge_list (nwt_mst r) = edges_of g (nwt_mst_edge_map r) ∧
    minimum_spanning_tree g w (nwt_mst_edge_map r) ∧
    ∀ T, minimum_spanning_tree g w T →
      total_weight w (nwt_mst_edge_map r) = total_weight w T.
Proof.
  intros Hwf Hc Hw. pose proof Hc as [Hn _].
  rewrite (bpt_canonical_unfold g w Hw Hn).
  apply (kruskal_final_connected g w Hwf Hn) in Hc.
  rewrite Hc, Nat.eqb_refl. eexists. split; [done|]. simpl.
  destruct (kruskal_final_spec g w Hwf Hn) as (k & Hk & _ & Hinv & _).
  pose proof (kruskal_final_selected g w Hwf Hn Hc) as Hsel.
  pose proof (kruskal_final_spanning_tree g w Hwf Hn Hc) as Hst.
  rewrite Hsel in Hst.
  assert (minimum_spanning_tree g w (k_mst_edge_map (kruskal_final g w))) as Hmin.
  { split; [done|]. intros T' HT'. rewrite <-Hsel.
    by apply kruskal_final_minimum. }
  rewrite (ki_mst _ _ _ Hinv), Hsel. simpl.
  split; [done|]. split.
  { unfold num_edges. simpl. unfold edges_of. rewrite length_fmap.
    apply (ki_map_length _ _ _ Hinv). }
  split; [apply (ki_map_length _ _ _ Hinv)|]. split; [done|]. split; [done|].
  intros T [HT HTmin]. apply Z.le_antisymm.
  - by apply Hmin.
  - by apply HTmin.
Qed.

(* ================================================================== *)
(** * The tree and the altitudes built by the Kruskal loop *)
(* ================================================================== *)

Ltac simpl_insert :=
  repeat match goal with
  | |- context [ <[?i := ?x]> ?l !!! ?j ] =>
      first [ rewrite (list_lookup_total_insert_eq l i x) by (rewrite ?length_insert; lia)
            | rewrite (list_lookup_total_insert_ne l i j x) by lia ]
  end.

Ltac kstate_simpl :=
  cbn [k_uf k_roots k_parents k_levels k_mst k_mst_edge_map k_num_nodes
       k_num_edge_found k_i].

(** What the loop maintains about [roots], [parents] and [levels]. *)
Record kruskal_tree_inv (g : ugraph) (w : list Z) (P : list nat) (st : kruskal_state)
    : Prop := KruskalTreeInv {
  kt_roots_length : length (k_roots st) = num_vertices g;
  kt_parents_length : length (k_parents st) = num_vertices g * 2 - 1;
  kt_levels_length : length (k_levels st) = num_vertices g * 2 - 1;
  kt_root_node : ∀ c, uf_is_root (k_uf st) c →
    k_roots st !!! c < k_num_nodes st ∧
    k_parents st !!! (k_roots st !!! c) = k_roots st !!! c;
  kt_root_inj : ∀ c c', uf_is_root (k_uf st) c → uf_is_root (k_uf st) c' →
    k_roots st !!! c = k_roots st !!! c' → c = c';
  kt_self : ∀ x, x < k_num_nodes st → k_parents st !!! x = x →
    ∃ c, uf_is_root (k_uf st) c ∧ k_roots st !!! c = x;
  kt_fresh : ∀ x, k_num_nodes st ≤ x → x < num_vertices g * 2 - 1 →
    k_parents st !!! x = x;
  kt_parent_range : ∀ x, x < num_vertices g * 2 - 1 → k_parents st !!! x ≠ x →
    x < k_parents st !!! x ∧ num_vertices g ≤ k_parents st !!! x ∧
    k_parents st !!! x < k_num_nodes st;
  kt_children : ∀ y, num_vertices g ≤ y → y < k_num_nodes st →
    ∃ c, c < y ∧ k_parents st !!! c = y;
  kt_levels_leaf : ∀ x, x < num_vertices g → k_levels st !!! x = 0%Z;
  kt_levels_node : ∀ j, j < k_num_edge_found st →
    k_levels st !!! (num_vertices g + j) = w !!! (k_mst_edge_map st !!! j);
  kt_levels_fresh : ∀ x, k_num_nodes st ≤ x → x < num_vertices g * 2 - 1 →
    k_levels st !!! x = 0%Z;
  kt_levels_mono : ∀ x, num_vertices g ≤ x → x < num_vertices g * 2 - 1 →
    (k_levels st !!! x ≤ k_levels st !!! (k_parents st !!! x))%Z;
  kt_levels_bound : ∀ x, num_vertices g ≤ x → x < k_num_nodes st →
    ∃ e, e ∈ P ∧ k_levels st !!! x = w !!! e
}.

Lemma kruskal_tree_inv_init g w : kruskal_tree_inv g w [] (kruskal_init g).
Proof.
  split; unfold kruskal_init; kstate_simpl.
  - apply length_seq.
  - apply length_seq.
  - apply length_replicate.
  - intros c [Hc _]. rewrite uf_make_size in Hc.
    rewrite !lookup_total_seq_lt by lia. simpl. split; [done|].
    rewrite ?lookup_total_seq_lt by lia. done.
  - intros c c' [Hc _] [Hc' _]. rewrite uf_make_size in Hc, Hc'.
    by rewrite !lookup_total_seq_lt by lia.
  - intros x Hx _. exists x. split.
    + split; [by rewrite uf_make_size|by apply uf_make_parent].
    + by rewrite lookup_total_seq_lt.
  - intros x _ Hx. by rewrite lookup_total_seq_lt.
  - intros x Hx. rewrite lookup_total_seq_lt by done. simpl. done.
  - intros y ??. lia.
  - intros x Hx. rewrite lookup_total_replicate_2 by lia. done.
  - intros j ?. lia.
  - intros x _ Hx. by rewrite lookup_total_replicate_2.
  - intros x _ Hx. rewrite lookup_total_seq_lt by done. simpl. done.
  - intros x ??. lia.
Qed.

Lemma kruskal_step_tree_inv g w P st ei :
  graph_wf g → 0 < num_vertices g → ei < num_edges g →
  (∀ e, e ∈ P → (w !!! e ≤ w !!! ei)%Z) →
  kruskal_inv g P st → kruskal_tree_inv g w P st →
  kruskal_tree_inv g w (P ++ [ei]) (kruskal_step g w ei st).
Proof.
  intros Hwf Hn Hei Hsorted Hinv Htree.
  destruct (edge_from_index_wf g ei Hwf Hei) as [Hsrc Htgt].
  pose proof (ki_models g P st Hinv) as Hm.
  pose proof (uf_union_spec _ _ _ _ _ Hm Hsrc Htgt) as Hspec. cbv zeta in Hspec.
  pose proof (kruskal_step_cases g w ei st) as Hcases. cbv zeta in Hcases.
  set (e := edge_from_index ei g) in *.
  set (c1 := (uf_find (k_uf st) (source e)).1) in *.
  set (uf1 := (uf_find (k_uf st) (source e)).2) in *.
  set (c2 := (uf_find uf1 (target e)).1) in *.
  set (uf2 := (uf_find uf1 (target e)).2) in *.
  destruct Hspec as (Hc1 & Hc2 & Hinv2 & Hsize2 & Hcnt2 & Hroot2 & Hrep2 & _ & _).
  destruct Hcases as [[Hc ->]|[Hc ->]].
  - destruct Htree. split; kstate_simpl; try done.
    + intros c Hc'. apply kt_root_node0. by apply Hroot2.
    + intros c c' H1 H2. apply kt_root_inj0; by apply Hroot2.
    + intros x Hx Hp. destruct (kt_self0 x Hx Hp) as (c & Hcr & Hcx).
      exists c. split; [by apply Hroot2|done].
    + intros x Hx1 Hx2. destruct (kt_levels_bound0 x Hx1 Hx2) as (e' & He' & Hl).
      exists e'. split; [|done]. apply elem_of_app. by left.
  - assert (uf_is_root uf2 c1) as Hr1.
    { rewrite Hroot2, Hc1. apply uf_rep_is_root; [apply Hm|by rewrite (um_size _ _ _ Hm)]. }
    assert (uf_is_root uf2 c2) as Hr2.
    { rewrite Hroot2, Hc2. apply uf_rep_is_root; [apply Hm|by rewrite (um_size _ _ _ Hm)]. }
    destruct (uf_link_spec uf2 c1 c2 Hinv2 Hr1 Hr2 Hc)
      as (Hr & Hinv3 & Hsize3 & Hcnt3 & Hroot3 & Hrep3).
    cbv zeta in Hr, Hinv3, Hsize3, Hcnt3, Hroot3, Hrep3.
    rewrite Hsize2 in Hsize3.
    pose proof (uf_has_root _ Hinv3) as Hpos. rewrite Hsize3 in Hpos. specialize (Hpos Hn).
    pose proof (ki_found_roots _ _ _ Hinv) as Hfr.
    pose proof (ki_num_nodes _ _ _ Hinv) as Hnn.
    pose proof (ki_map_length _ _ _ Hinv) as Hml.
    set (newRoot := (uf_link uf2 c1 c2).1) in *.
    set (uf3 := (uf_link uf2 c1 c2).2) in *.
    set (k := k_num_nodes st) in *.
    destruct Htree.
    apply Hroot2 in Hr1 as Hr1', Hr2 as Hr2'.
    destruct (kt_root_node0 c1 Hr1') as [Hk1 Hp1].
    destruct (kt_root_node0 c2 Hr2') as [Hk2 Hp2].
    set (r1 := k_roots st !!! c1) in *. set (r2 := k_roots st !!! c2) in *.
    assert (r1 ≠ r2) as Hr12.
    { intros Heq. apply Hc. by apply kt_root_inj0. }
    assert (k < num_vertices g * 2 - 1) as Hk by lia.
    assert (newRoot < num_vertices g) as HnR.
    { destruct Hr1 as [? _], Hr2 as [? _]. rewrite Hsize2 in *. destruct Hr as [-> | ->]; done. }
    assert (∀ c, uf_is_root uf3 c → c ≠ newRoot →
              uf_is_root (k_uf st) c ∧ c ≠ c1 ∧ c ≠ c2 ∧
              k_roots st !!! c ≠ r1 ∧ k_roots st !!! c ≠ r2 ∧ k_roots st !!! c < k) as Hother.
    { intros c Hcr Hcn. apply Hroot3 in Hcr as [Hcr [?|[Hn1 Hn2]]]; [done|].
      apply Hroot2 in Hcr. split; [done|]. split; [done|]. split; [done|].
      split; [|split].
      - intros Heq. apply Hn1. by apply kt_root_inj0.
      - intros Heq. apply Hn2. by apply kt_root_inj0.
      - by apply kt_root_node0. }
    assert (uf_is_root uf3 newRoot) as HnRroot.
    { apply Hroot3. split; [|by left]. destruct Hr as [-> | ->]; done. }
    split; kstate_simpl.
    + by rewrite length_insert.
    + by rewrite !length_insert.
    + by rewrite length_insert.
    + intros c Hcr. destruct (decide (c = newRoot)) as [->|Hcn].
      * simpl_insert. split; [lia|]. simpl_insert. by apply kt_fresh0.
      * destruct (Hother c Hcr Hcn) as (Hcr' & ? & ? & ? & ? & ?).
        simpl_insert. split; [lia|]. simpl_insert. by apply kt_root_node0.
    + intros c c' Hcr Hcr'.
      destruct (decide (c = newRoot)) as [->|Hcn], (decide (c' = newRoot)) as [->|Hcn'];
        try done.
      * destruct (Hother c' Hcr' Hcn') as (? & ? & ? & ? & ? & ?). simpl_insert. lia.
      * destruct (Hother c Hcr Hcn) as (? & ? & ? & ? & ? & ?). simpl_insert. lia.
      * destruct (Hother c Hcr Hcn) as (? & ? & ? & ? & ? & ?).
        destruct (Hother c' Hcr' Hcn') as (? & ? & ? & ? & ? & ?).
        simpl_insert. by apply kt_root_inj0.
    + intros x Hx Hp. destruct (decide (x = k)) as [->|Hxk].
      * exists newRoot. split; [done|]. by simpl_insert.
      * assert (x ≠ r1) as Hx1.
        { intros ->. revert Hp. simpl_insert. lia. }
        assert (x ≠ r2) as Hx2.
        { intros ->. revert Hp. simpl_insert. lia. }
        revert Hp. simpl_insert. intros Hp.
        destruct (kt_self0 x ltac:(lia) Hp) as (c & Hcr & Hcx).
        assert (c ≠ c1) by (intros ->; by apply Hx1).
        assert (c ≠ c2) by (intros ->; by apply Hx2).
        exists c. split.
        -- apply Hroot3. split; [by apply Hroot2|]. by right.
        -- assert (c ≠ newRoot) by (destruct Hr as [-> | ->]; done).
           by simpl_insert.
    + intros x Hx1 Hx2. simpl_insert. apply kt_fresh0; lia.
    + intros x Hx Hp.
      destruct (decide (x = r2)) as [->|Hx2]; [revert Hp; simpl_insert; lia|].
      destruct (decide (x = r1)) as [->|Hx1]; [revert Hp; simpl_insert; lia|].
      revert Hp. simpl_insert. intros Hp. specialize (kt_parent_range0 x Hx Hp). lia.
    + intros y Hy1 Hy2. destruct (decide (y = k)) as [->|Hyk].
      * exists r1. split; [done|]. by simpl_insert.
      * destruct (kt_children0 y Hy1 ltac:(lia)) as (c & Hcy & Hpc).
        exists c. split; [done|].
        assert (c ≠ r1) by (intros ->; lia). assert (c ≠ r2) by (intros ->; lia).
        by simpl_insert.
    + intros x Hx. simpl_insert. by apply kt_levels_leaf0.
    + intros j Hj. destruct (decide (j = k_num_edge_found st)) as [->|Hjf].
      * rewrite <-Hnn. by simpl_insert.
      * simpl_insert. apply kt_levels_node0. lia.
    + intros x Hx1 Hx2. simpl_insert. apply kt_levels_fresh0; lia.
    + intros x Hx1 Hx2.
      assert (∀ y, num_vertices g ≤ y → y < k → (k_levels st !!! y ≤ w !!! ei)%Z) as Hbound.
      { intros y Hy1 Hy2. destruct (kt_levels_bound0 y Hy1 Hy2) as (e' & He' & ->).
        by apply Hsorted. }
      destruct (decide (x = k)) as [->|Hxk].
      { assert (<[r2:=k]> (<[r1:=k]> (k_parents st)) !!! k = k) as ->.
        { simpl_insert. apply kt_fresh0; lia. }
        by simpl_insert. }
      destruct (decide (x = r2)) as [->|Hx2']; [simpl_insert; by apply Hbound|].
      destruct (decide (x = r1)) as [->|Hx1']; [simpl_insert; by apply Hbound|].
      simpl_insert.
      destruct (decide (k_parents st !!! x = x)) as [Hp|Hp].
      * rewrite Hp. by simpl_insert.
      * specialize (kt_parent_range0 x Hx2 Hp). simpl_insert. by apply kt_levels_mono0.
    + intros x Hx1 Hx2. destruct (decide (x = k)) as [->|Hxk].
      * exists ei. split; [|by simpl_insert].
        apply elem_of_app. right. by apply list_elem_of_singleton.
      * destruct (kt_levels_bound0 x Hx1 ltac:(lia)) as (e' & He' & Hl).
        exists e'. split; [apply elem_of_app; by left|]. by simpl_insert.
Qed.

Lemma kruskal_run_tree_inv g w j :
  graph_wf g → 0 < num_vertices g → j ≤ num_edges g →
  let P := take j (sorted_edges_indices g w) in
  kruskal_inv g P (kruskal_run g w P (kruskal_init g)) ∧
  kruskal_tree_inv g w P (kruskal_run g w P (kruskal_init g)).
Proof.
  intros Hwf Hn. set (L := sorted_edges_indices g w).
  assert (length L = num_edges g) as Hlen.
  { unfold L. rewrite sorted_edges_indices_perm. apply length_seq. }
  induction j as [|j IH]; intros Hj P.
  { subst P. rewrite take_0. split; [apply kruskal_inv_init|apply kruskal_tree_inv_init]. }
  destruct (IH ltac:(lia)) as [Hinv Htree]. clear IH.
  destruct (lookup_lt_is_Some_2 L j) as [e He]; [lia|].
  assert (P = take j L ++ [e]) as -> by (by apply take_S_r).
  assert (e < num_edges g) as Hei.
  { apply (sorted_edges_indices_elem g w). by eapply list_elem_of_lookup_2. }
  rewrite kruskal_run_snoc. split.
  - by apply kruskal_step_inv.
  - apply kruskal_step_tree_inv; try done.
    intros e' Hin. apply elem_of_take in Hin as (i & Hi & Hij).
    apply (sorted_edges_weight_le g w i j); [lia|done..].
Qed.

Lemma kruskal_final_tree_inv g w :
  graph_wf g → 0 < num_vertices g →
  ∃ P, (∀ e, e ∈ P → e < num_edges g) ∧
       kruskal_inv g P (kruskal_final g w) ∧ kruskal_tree_inv g w P (kruskal_final g w).
Proof.
  intros Hwf Hn.
  destruct (kruskal_final_spec g w Hwf Hn) as (k & Hk & Heq & _).
  destruct (kruskal_run_tree_inv g w k Hwf Hn Hk) as [Hinv Htree].
  rewrite <-Heq in Hinv, Htree. eexists. split; [|done].
  intros e He. apply (sorted_edges_indices_elem g w).
  apply elem_of_take in He as (i & Hi & _). by eapply list_elem_of_lookup_2.
Qed.

(** The ancestor of [x] that is [k] parent links above it. *)
Definition ancestor (t : tree) (k x : nat) : nat := Nat.iter k (λ y, parent y t) x.

(** The tree that [bpt_canonical] returns is a valid tree on [2n - 1]
    nodes whose leaves are the vertices of the graph. *)
Lemma kruskal_final_tree g w P :
  0 < num_vertices g →
  k_num_edge_found (kruskal_final g w) = num_vertices g - 1 →
  kruskal_inv g P (kruskal_final g w) → kruskal_tree_inv g w P (kruskal_final g w) →
  let t := Tree (k_parents (kruskal_final g w)) in
  num_vertices_tree t = num_vertices g * 2 - 1 ∧
  tree_valid t ∧
  (∀ i, i < num_vertices_tree t → is_leaf i t = true ↔ i < num_vertices g) ∧
  (∀ i, i < num_vertices_tree t → i ≠ root t → num_vertices g ≤ parent i t).
Proof.
  intros Hn Hf Hinv Htree t. set (st := kruskal_final g w) in *.
  pose proof (ki_num_nodes _ _ _ Hinv) as Hnn.
  pose proof (ki_found_roots _ _ _ Hinv) as Hfr.
  destruct Htree.
  assert (num_vertices_tree t = num_vertices g * 2 - 1) as HN by done.
  assert (k_num_nodes st = num_vertices g * 2 - 1) as Hk by lia.
  assert (root t = num_vertices g * 2 - 2) as Hroot by (unfold root; lia).
  assert (∀ x, parent x t = k_parents st !!! x) as Hpar by done.
  assert (k_parents st !!! root t = root t) as Hrp.
  { destruct (decide (k_parents st !!! root t = root t)) as [|Hne]; [done|].
    apply kt_parent_range0 in Hne; lia. }
  assert (∀ i, i < root t → k_parents st !!! i ≠ i) as Hnonroot.
  { intros i Hi Hp.
    destruct (kt_self0 i ltac:(lia) Hp) as (c & Hc & Hci).
    destruct (kt_self0 (root t) ltac:(lia) Hrp) as (c' & Hc' & Hci').
    assert (c = c'); [|subst; lia].
    apply elem_of_roots_list in Hc, Hc'.
    assert (count_roots (k_uf st) = 1) as Hone by lia.
    unfold count_roots in Hone.
    destruct (roots_list (uf_parent (k_uf st))) as [|r [|r' l]]; simpl in Hone; try lia.
    apply list_elem_of_singleton in Hc, Hc'. congruence. }
  split; [done|]. split; [|split].
  - split; [lia|]. split; [by rewrite Hpar|].
    intros i Hi. rewrite Hpar, HN.
    destruct (kt_parent_range0 i ltac:(lia) (Hnonroot i Hi)). lia.
  - intros i Hi. unfold is_leaf. rewrite bool_decide_eq_true. unfold children.
    split.
    + intros Hnil. destruct (decide (i < num_vertices g)) as [|Hge]; [done|].
      destruct (kt_children0 i ltac:(lia) ltac:(lia)) as (c & Hc & Hpc).
      assert (c ∈ filter (λ c, parent c t = i ∧ c ≠ i) (seq 0 (num_vertices_tree t))) as Hin.
      { apply list_elem_of_filter. rewrite elem_of_seq, Hpar. split; [split; [done|lia]|lia]. }
      rewrite Hnil in Hin. by apply elem_of_nil in Hin.
    + intros Hlt.
      destruct (filter _ _) as [|c l] eqn:Hfil; [done|].
      assert (c ∈ filter (λ c, parent c t = i ∧ c ≠ i) (seq 0 (num_vertices_tree t))) as Hin.
      { rewrite Hfil. by left. }
      apply list_elem_of_filter in Hin as [[Hpc Hci] Hseq]. apply elem_of_seq in Hseq.
      rewrite Hpar in Hpc.
      destruct (kt_parent_range0 c ltac:(lia) ltac:(lia)). lia.
  - intros i Hi Hir. rewrite Hpar.
    destruct (kt_parent_range0 i ltac:(lia) (Hnonroot i ltac:(unfold root in *; lia))). lia.
Qed.

(** C2 (amended). For a connected graph the altitudes returned by
    [bpt_canonical] are 0 on the leaves, the weight of the edge whose
    fusion created the node on every interior node, and they never
    decrease from an interior node to any of its ancestors; when no edge
    weight is negative they never decrease from a leaf to its ancestors
    either. *)
Theorem C2_altitudes (g : ugraph) (w : list Z) :
  graph_wf g → connected g → length w = num_edges g →
  ∃ r, bpt_canonical g w = inr r ∧
    let n := num_vertices g in
    let t := nwt_tree r in
    let alt := nwt_altitudes r in
    num_vertices_tree t = n * 2 - 1 ∧ length alt = n * 2 - 1 ∧
    (∀ x, x < n → alt !!! x = 0%Z) ∧
    (∀ j, j < n - 1 → alt !!! (n + j) = w !!! (nwt_mst_edge_map r !!! j)) ∧
    (∀ x k, n ≤ x → x < n * 2 - 1 → (alt !!! x ≤ alt !!! ancestor t k x)%Z) ∧
    ((∀ e, e < num_edges g → (0 ≤ w !!! e)%Z) →
     ∀ x k, x < n * 2 - 1 → (alt !!! x ≤ alt !!! ancestor t k x)%Z).
Proof.
  intros Hwf Hc Hw. pose proof Hc as [Hn _].
  rewrite (bpt_canonical_unfold g w Hw Hn).
  apply (kruskal_final_connected g w Hwf Hn) in Hc.
  rewrite Hc, Nat.eqb_refl. eexists. split; [done|]. cbn [nwt_tree nwt_altitudes nwt_mst_edge_map].
  destruct (kruskal_final_tree_inv g w Hwf Hn) as (P & HP & Hinv & Htree).
  destruct (kruskal_final_tree g w P Hn Hc Hinv Htree) as (HN & Hvalid & Hleaf & Hpar).
  set (st := kruskal_final g w) in *. set (t := Tree (k_parents st)) in *.
  pose proof (ki_num_nodes _ _ _ Hinv) as Hnn.
  destruct Htree.
  assert (∀ x, parent x t = k_parents st !!! x) as Hpt by done.
  assert (∀ x, num_vertices g ≤ x → x < num_vertices g * 2 - 1 →
            num_vertices g ≤ parent x t ∧ parent x t < num_vertices g * 2 - 1) as Hrange.
  { intros x Hx1 Hx2. rewrite Hpt.
    destruct (decide (k_parents st !!! x = x)) as [->|Hne]; [lia|].
    destruct (kt_parent_range0 x Hx2 Hne). lia. }
  assert (∀ k x, num_vertices g ≤ x → x < num_vertices g * 2 - 1 →
            num_vertices g ≤ ancestor t k x ∧ ancestor t k x < num_vertices g * 2 - 1 ∧
            (k_levels st !!! x ≤ k_levels st !!! ancestor t k x)%Z) as Hinterior.
  { induction k as [|k IH]; intros x Hx1 Hx2; [simpl; lia|].
    destruct (IH x Hx1 Hx2) as (Ha1 & Ha2 & Hle).
    change (ancestor t (S k) x) with (parent (ancestor t k x) t).
    destruct (Hrange _ Ha1 Ha2) as [H1 H2]. split; [done|]. split; [done|].
    pose proof (kt_levels_mono0 _ Ha1 Ha2). rewrite <-Hpt in H. lia. }
  split; [done|]. split; [done|]. split; [done|]. split.
  { intros j Hj. apply kt_levels_node0. lia. }
  split.
  { intros x k Hx1 Hx2. by apply Hinterior. }
  intros Hpos x k Hx.
  destruct (decide (num_vertices g ≤ x)) as [Hge|Hlt]; [by apply Hinterior|].
  rewrite (kt_levels_leaf0 x) by lia.
  assert (∀ y, y < num_vertices g * 2 - 1 → (0 ≤ k_levels st !!! y)%Z) as Hnonneg.
  { intros y Hy. destruct (decide (y < num_vertices g)) as [Hy'|Hy'].
    - by rewrite kt_levels_leaf0.
    - destruct (kt_levels_bound0 y ltac:(lia) ltac:(lia)) as (e & He & ->).
      by apply Hpos, HP. }
  assert (∀ k, ancestor t k x < num_vertices g * 2 - 1) as Hanc.
  { induction k0 as [|k0 IH]; [simpl; lia|].
    change (ancestor t (S k0) x) with (parent (ancestor t k0 x) t). rewrite Hpt.
    destruct (decide (k_parents st !!! ancestor t k0 x = ancestor t k0 x)) as [->|Hne]; [done|].
    destruct (kt_parent_range0 _ IH Hne). lia. }
  by apply Hnonneg.
Qed.

(* ================================================================== *)
(** * Concrete inputs *)
(* ================================================================== *)

Lemma grid_1x2_wf : graph_wf grid_1x2.
Proof. repeat constructor. Qed.

Lemma grid_2x3_wf : graph_wf grid_2x3.
Proof. repeat (constructor; [simpl; lia|]). constructor. Qed.

Lemma grid_1x2_connected : connected grid_1x2.
Proof.
  apply (kruskal_final_connected grid_1x2 [2%Z]); [apply grid_1x2_wf|simpl; lia|].
  vm_compute. reflexivity.
Qed.

Lemma grid_2x3_connected : connected grid_2x3.
Proof.
  apply (kruskal_final_connected grid_2x3 [1; 0; 2; 1; 1; 1; 2]%Z);
    [apply grid_2x3_wf|simpl; lia|].
  vm_compute. reflexivity.
Qed.

(** Two vertices and no edge. *)
Definition two_points : ugraph := Ugraph 2 [].

Lemma two_points_wf : graph_wf two_points.
Proof. constructor. Qed.

Lemma C1_minimum_spanning_tree_witness :
  ∃ r, bpt_canonical grid_2x3 [1; 0; 2; 1; 1; 1; 2]%Z = inr r ∧
       num_edges (nwt_mst r) = 5 ∧
       minimum_spanning_tree grid_2x3 [1; 0; 2; 1; 1; 1; 2]%Z (nwt_mst_edge_map r).
Proof.
  destruct (C1_minimum_spanning_tree grid_2x3 [1; 0; 2; 1; 1; 1; 2]%Z)
    as (r & Hr & _ & Hn & _ & _ & Hmin & _).
  - apply grid_2x3_wf.
  - apply grid_2x3_connected.
  - reflexivity.
  - exists r. split; [exact Hr|]. split; [exact Hn|exact Hmin].
Defined.

(** The claim as the specification words it fails on a negative weight:
    the single interior node lies below its leaves. *)
Lemma C2_counterexample :
  graph_wf grid_1x2 ∧ connected grid_1x2 ∧
  length [(-1)%Z] = num_edges grid_1x2 ∧
  ∃ r, bpt_canonical grid_1x2 [(-1)%Z] = inr r ∧
       nwt_altitudes r = [0; 0; -1]%Z ∧
       parent 0 (nwt_tree r) = 2 ∧
       ¬ (nwt_altitudes r !!! 0%nat ≤ nwt_altitudes r !!! parent 0 (nwt_tree r))%Z.
Proof.
  split; [apply grid_1x2_wf|]. split; [apply grid_1x2_connected|]. split; [done|].
  eexists. split; [vm_compute; reflexivity|]. split; [done|]. split; [done|].
  vm_compute. intros H. by apply H.
Qed.

Lemma C2_altitudes_witness :
  ∃ r, bpt_canonical grid_2x3 [1; 0; 2; 1; 1; 1; 2]%Z = inr r ∧
       (∀ x, x < 6 → nwt_altitudes r !!! x = 0%Z) ∧
       (∀ x k, x < 11 →
          (nwt_altitudes r !!! x ≤ nwt_altitudes r !!! ancestor (nwt_tree r) k x)%Z).
Proof.
  destruct (C2_altitudes grid_2x3 [1; 0; 2; 1; 1; 1; 2]%Z)
    as (r & Hr & _ & _ & Hleaf & _ & _ & Hmono).
  - apply grid_2x3_wf.
  - apply grid_2x3_connected.
  - reflexivity.
  - exists r. split; [exact Hr|]. split; [exact Hleaf|]. apply Hmono.
    intros e He. change (e < 7) in He.
    do 7 (destruct e as [|e]; [vm_compute; discriminate|]). lia.
Defined.

Lemma C3_disconnected_graph_witness :
  (bpt_canonical two_points [] = inl DisconnectedGraph ↔ ¬ connected two_points) ∧
  (connected grid_2x3 →
   ∃ r k, bpt_canonical grid_2x3 [1; 0; 2; 1; 1; 1; 2]%Z = inr r ∧ k ≤ 7).
Proof.
  split.
  - destruct (C3_disconnected_graph two_points []) as (H & _ & _).
    + apply two_points_wf.
    + simpl. lia.
    + reflexivity.
    + exact H.
  - destruct (C3_disconnected_graph grid_2x3 [1; 0; 2; 1; 1; 1; 2]%Z) as (_ & _ & H).
    + apply grid_2x3_wf.
    + simpl. lia.
    + reflexivity.
    + intros Hc. destruct (H Hc) as (r & k & Hr & Hk & _).
      exists r, k. split; [exact Hr|]. 
      assert (length (sorted_edges_indices grid_2x3 [1; 0; 2; 1; 1; 1; 2]%Z) = 7) as Hl
        by reflexivity.
      rewrite Hl in Hk. exact Hk.
Defined.

(* ================================================================== *)
(** * simplify_tree: what the two loops compute *)
(* ================================================================== *)

Lemma foldl_reverse {A B} (f : A → B → A) (a : A) (l : list B) :
  foldl f a (reverse l) = foldr (λ x s, f s x) a l.
Proof.
  induction l as [|x l IH]; [done|].
  rewrite reverse_cons, foldl_snoc, IH. done.
Qed.

Lemma foldr_filter {A B} (P : B → Prop) `{∀ x, Decision (P x)} (f : B → A → A)
    (a : A) (l : list B) :
  foldr f a (filter P l) = foldr (λ x s, if decide (P x) then f x s else s) a l.
Proof.
  induction l as [|x l IH]; [done|].
  rewrite filter_cons. simpl. destruct (decide (P x)); simpl; by rewrite IH.
Qed.

Lemma foldl_filter {A B} (P : B → Prop) `{∀ x, Decision (P x)} (f : A → B → A)
    (a : A) (l : list B) :
  foldl f a (filter P l) = foldl (λ s x, if decide (P x) then f s x else s) a l.
Proof.
  revert a. induction l as [|x l IH]; intros a; [done|].
  rewrite filter_cons. simpl. destruct (decide (P x)); simpl; by rewrite IH.
Qed.

(** The nodes that the first loop deletes: interior, not the root, and
    selected by the criterion. *)
Definition deleted (t : tree) (criterion : nat → bool) (i : nat) : bool :=
  negb (is_leaf i t) && negb (i =? root t) && criterion i.

(** The number of deleted nodes below [b]. *)
Fixpoint deleted_below (t : tree) (criterion : nat → bool) (b : nat) : nat :=
  match b with
  | 0 => 0
  | S b' => deleted_below t criterion b' + (if deleted t criterion b' then 1 else 0)
  end.

(** The index of a surviving node in the simplified tree. *)
Definition new_index (t : tree) (criterion : nat → bool) (x : nat) : nat :=
  x - deleted_below t criterion x.

(** The first surviving node among [y], its parent, its grand-parent... *)
Fixpoint first_kept (fuel : nat) (t : tree) (criterion : nat → bool) (y : nat) : nat :=
  match fuel with
  | 0 => y
  | S fuel' =>
      if deleted t criterion y then first_kept fuel' t criterion (parent y t) else y
  end.

Definition surviving_ancestor (t : tree) (criterion : nat → bool) (y : nat) : nat :=
  first_kept (num_vertices_tree t) t criterion y.

Lemma deleted_below_le t crit b : deleted_below t crit b ≤ b.
Proof. induction b as [|b IH]; simpl; [done|]. destruct (deleted t crit b); lia. Qed.

Lemma deleted_below_mono t crit a b :
  a ≤ b → deleted_below t crit a ≤ deleted_below t crit b.
Proof. induction 1; simpl; lia. Qed.

Lemma deleted_below_lt t crit a b :
  a < b → deleted t crit a = false →
  deleted_below t crit b - deleted_below t crit a < b - a.
Proof.
  intros Hab Ha. induction Hab as [|b Hab IH]; simpl.
  - rewrite Ha. lia.
  - pose proof (deleted_below_mono t crit a b ltac:(lia)).
    destruct (deleted t crit b); lia.
Qed.

Lemma new_index_mono t crit a b :
  a ≤ b → new_index t crit a ≤ new_index t crit b.
Proof.
  unfold new_index. induction 1; simpl; [done|].
  pose proof (deleted_below_le t crit m). destruct (deleted t crit m); lia.
Qed.

Lemma new_index_lt t crit a b :
  a < b → deleted t crit a = false → new_index t crit a < new_index t crit b.
Proof.
  intros Hab Ha. unfold new_index.
  pose proof (deleted_below_lt t crit a b Hab Ha).
  pose proof (deleted_below_le t crit a). pose proof (deleted_below_le t crit b).
  pose proof (deleted_below_mono t crit a b ltac:(lia)). lia.
Qed.

Lemma new_index_inj t crit a b :
  deleted t crit a = false → deleted t crit b = false →
  new_index t crit a = new_index t crit b → a = b.
Proof.
  intros Ha Hb Heq. destruct (Nat.lt_trichotomy a b) as [Hlt|[->|Hlt]]; [|done|].
  - pose proof (new_index_lt t crit a b Hlt Ha). lia.
  - pose proof (new_index_lt t crit b a Hlt Hb). lia.
Qed.

Lemma deleted_root t crit : deleted t crit (root t) = false.
Proof. unfold deleted. rewrite Nat.eqb_refl. simpl. by rewrite andb_false_r. Qed.

Section ValidTree.
Context (t : tree) (Hvalid : tree_valid t).

Lemma valid_root_lt : root t < num_vertices_tree t.
Proof. destruct Hvalid as [Hn _]. unfold root. lia. Qed.

Lemma valid_parent_root : parent (root t) t = root t.
Proof. by destruct Hvalid as (_ & Hr & _). Qed.

Lemma valid_parent_gt i : i < root t → i < parent i t ∧ parent i t < num_vertices_tree t.
Proof. destruct Hvalid as (_ & _ & Hp). apply Hp. Qed.

Lemma valid_parent_lt i : i < num_vertices_tree t → parent i t < num_vertices_tree t.
Proof.
  intros Hi. destruct (decide (i = root t)) as [->|Hne].
  - rewrite valid_parent_root. apply valid_root_lt.
  - apply valid_parent_gt. unfold root in *. lia.
Qed.

Lemma valid_parent_ge i : i < num_vertices_tree t → i ≤ parent i t.
Proof.
  intros Hi. destruct (decide (i = root t)) as [->|Hne].
  - by rewrite valid_parent_root.
  - destruct (valid_parent_gt i); [unfold root in *; lia|lia].
Qed.

Lemma valid_parent_self i : i < num_vertices_tree t → parent i t = i → i = root t.
Proof.
  intros Hi Hp. destruct (decide (i = root t)) as [|Hne]; [done|].
  destruct (valid_parent_gt i); [unfold root in *; lia|lia].
Qed.

Lemma valid_parent_not_leaf i : i < root t → is_leaf (parent i t) t = false.
Proof.
  intros Hi. destruct (valid_parent_gt i Hi) as [Hlt Hp].
  unfold is_leaf. apply bool_decide_eq_false. intros Hnil.
  assert (i ∈ children (parent i t) t) as Hin.
  { unfold children. apply list_elem_of_filter. rewrite elem_of_seq.
    unfold root in Hi. split; [split; [done|lia]|lia]. }
  rewrite Hnil in Hin. by apply elem_of_nil in Hin.
Qed.

Lemma elem_of_children c i :
  c ∈ children i t ↔ c < num_vertices_tree t ∧ parent c t = i ∧ c ≠ i.
Proof.
  unfold children. rewrite list_elem_of_filter, elem_of_seq. split.
  - intros [[? ?] ?]. split; [lia|done].
  - intros (? & ? & ?). split; [done|lia].
Qed.

Context (crit : nat → bool).

Lemma deleted_lt_root i :
  i < num_vertices_tree t → deleted t crit i = true → i < root t.
Proof.
  intros Hi Hd. unfold deleted in Hd.
  destruct (Nat.eqb_spec i (root t)) as [->|Hne].
  - simpl in Hd. by rewrite andb_false_r in Hd.
  - unfold root in *. lia.
Qed.

Lemma first_kept_fuel f f' y :
  y < num_vertices_tree t →
  num_vertices_tree t - y ≤ f → num_vertices_tree t - y ≤ f' →
  first_kept f t crit y = first_kept f' t crit y.
Proof.
  revert f' y. induction f as [|f IH]; intros f' y Hy Hf Hf'; [lia|].
  destruct f' as [|f']; [lia|]. simpl.
  destruct (deleted t crit y) eqn:Hd; [|done].
  destruct (valid_parent_gt y (deleted_lt_root y Hy Hd)) as [Hgt Hlt].
  apply IH; [done|lia..].
Qed.

Lemma surviving_ancestor_unfold y :
  y < num_vertices_tree t →
  surviving_ancestor t crit y =
    if deleted t crit y then surviving_ancestor t crit (parent y t) else y.
Proof.
  intros Hy. unfold surviving_ancestor.
  rewrite (first_kept_fuel _ (S (num_vertices_tree t)) y) by lia. simpl.
  done.
Qed.

(** Induction from a node towards the root. *)
Lemma valid_tree_ind (P : nat → Prop) :
  P (root t) →
  (∀ i, i < root t → P (parent i t) → P i) →
  ∀ i, i < num_vertices_tree t → P i.
Proof.
  intros Hroot Hstep.
  assert (∀ k i, i < num_vertices_tree t → num_vertices_tree t - i ≤ k → P i) as Hk.
  { induction k as [|k IH]; intros i Hi Hk; [lia|].
    destruct (decide (i = root t)) as [->|Hne]; [done|].
    assert (i < root t) as Hlt by (unfold root in *; lia).
    destruct (valid_parent_gt i Hlt). apply Hstep; [done|]. apply IH; lia. }
  intros i Hi. apply (Hk (num_vertices_tree t)); [done|lia].
Qed.

Lemma surviving_ancestor_spec y :
  y < num_vertices_tree t →
  y ≤ surviving_ancestor t crit y ∧
  surviving_ancestor t crit y < num_vertices_tree t ∧
  deleted t crit (surviving_ancestor t crit y) = false.
Proof.
  revert y. apply valid_tree_ind.
  - rewrite surviving_ancestor_unfold by apply valid_root_lt.
    rewrite deleted_root. split; [done|]. split; [apply valid_root_lt|apply deleted_root].
  - intros i Hi (IH1 & IH2 & IH3).
    assert (i < num_vertices_tree t) as Hi' by (unfold root in Hi; lia).
    rewrite surviving_ancestor_unfold by done.
    destruct (deleted t crit i) eqn:Hd; [|done].
    destruct (valid_parent_gt i Hi). split; [lia|done].
Qed.

Lemma surviving_ancestor_kept y :
  y < num_vertices_tree t → deleted t crit y = false → surviving_ancestor t crit y = y.
Proof. intros Hy Hd. rewrite surviving_ancestor_unfold by done. by rewrite Hd. Qed.

Lemma surviving_ancestor_not_leaf y :
  y < num_vertices_tree t → is_leaf y t = false →
  is_leaf (surviving_ancestor t crit y) t = false.
Proof.
  revert y. apply (valid_tree_ind (λ y, is_leaf y t = false →
                     is_leaf (surviving_ancestor t crit y) t = false)).
  - intros Hl. rewrite surviving_ancestor_unfold by apply valid_root_lt.
    by rewrite deleted_root.
  - intros i Hi IH Hl.
    assert (i < num_vertices_tree t) as Hi' by (unfold root in Hi; lia).
    rewrite surviving_ancestor_unfold by done.
    destruct (deleted t crit i) eqn:Hd; [|done].
    apply IH. by apply valid_parent_not_leaf.
Qed.

End ValidTree.

Lemma foldl_insert_length {A} (v : A) (cs : list nat) (l : list A) :
  length (foldl (λ cp c, <[c := v]> cp) l cs) = length l.
Proof.
  revert l. induction cs as [|c cs IH]; intros l; simpl; [done|].
  by rewrite IH, length_insert.
Qed.

Lemma foldl_insert_lookup `{Inhabited A} (v : A) (cs : list nat) (l : list A) (c : nat) :
  c < length l →
  foldl (λ cp c, <[c := v]> cp) l cs !!! c = if decide (c ∈ cs) then v else l !!! c.
Proof.
  revert l. induction cs as [|c' cs IH]; intros l Hc; cbn [foldl].
  { rewrite decide_False; [done|]. apply not_elem_of_nil. }
  rewrite IH by (by rewrite length_insert).
  destruct (decide (c ∈ cs)) as [Hin|Hnin].
  - rewrite decide_True; [done|]. by right.
  - destruct (decide (c = c')) as [->|Hne].
    + rewrite decide_True by (by left). by rewrite list_lookup_total_insert_eq.
    + rewrite decide_False.
      * by rewrite list_lookup_total_insert_ne.
      * intros Hin. apply elem_of_cons in Hin as [?|?]; done.
Qed.

Lemma keep_node_interior t i :
  keep_node t leaves_exclude root_exclude i = true ↔ is_leaf i t = false ∧ i ≠ root t.
Proof.
  unfold keep_node. rewrite andb_true_iff, !negb_true_iff, Nat.eqb_neq. done.
Qed.

Lemma keep_node_nonroot t i :
  keep_node t leaves_include root_exclude i = true ↔ i ≠ root t.
Proof.
  unfold keep_node. simpl. rewrite negb_true_iff, Nat.eqb_neq. done.
Qed.

Lemma deleted_true t crit i :
  deleted t crit i = true ↔ is_leaf i t = false ∧ i ≠ root t ∧ crit i = true.
Proof.
  unfold deleted. rewrite !andb_true_iff, !negb_true_iff, Nat.eqb_neq. tauto.
Qed.

(** The first loop, run over the nodes [a, a+1, ...] from the last one
    down to [a]. *)
Definition mark_from (t : tree) (crit : nat → bool) (a : nat)
    : list nat * list nat * nat :=
  foldr (λ i st,
           if decide (keep_node t leaves_exclude root_exclude i = true)
           then simplify_mark t crit st i else st)
        (parents t, replicate (num_vertices_tree t) 0, 0)
        (seq a (num_vertices_tree t - a)).

Lemma simplify_first_loop t crit :
  foldl (simplify_mark t crit) (parents t, replicate (num_vertices_tree t) 0, 0)
        (root_to_leaves_iterator t leaves_exclude root_exclude) = mark_from t crit 0.
Proof.
  unfold root_to_leaves_iterator, leaves_to_root_iterator, mark_from.
  rewrite foldl_reverse, foldr_filter, Nat.sub_0_r. done.
Qed.

Record mark_inv (t : tree) (crit : nat → bool) (a : nat)
    (st : list nat * list nat * nat) : Prop := MarkInv {
  mi_cp_length : length st.1.1 = num_vertices_tree t;
  mi_dm_length : length st.1.2 = num_vertices_tree t;
  mi_count : st.2 + deleted_below t crit a = deleted_below t crit (num_vertices_tree t);
  mi_dm : ∀ i, i < num_vertices_tree t →
    st.1.2 !!! i =
      if decide (a ≤ i ∧ is_leaf i t = false ∧ i ≠ root t)
      then deleted_below t crit (num_vertices_tree t) - deleted_below t crit i
      else 0;
  mi_cp : ∀ c, c < num_vertices_tree t →
    st.1.1 !!! c =
      if decide (a ≤ parent c t) then surviving_ancestor t crit (parent c t)
      else parent c t
}.

Lemma mark_from_step t crit a :
  a < num_vertices_tree t →
  mark_from t crit a =
    let st := mark_from t crit (S a) in
    if decide (keep_node t leaves_exclude root_exclude a = true)
    then simplify_mark t crit st a else st.
Proof.
  intros Ha. unfold mark_from.
  replace (num_vertices_tree t - a) with (S (num_vertices_tree t - S a)) by lia.
  done.
Qed.

Lemma mark_from_inv t crit a :
  tree_valid t → a ≤ num_vertices_tree t → mark_inv t crit a (mark_from t crit a).
Proof.
  intros Hvalid Ha.
  remember (num_vertices_tree t - a) as k eqn:Hk.
  revert a Ha Hk. induction k as [|k IH]; intros a Ha Hk.
  { assert (a = num_vertices_tree t) as -> by lia.
    unfold mark_from. rewrite Nat.sub_diag. simpl. split; simpl.
    - done.
    - apply length_replicate.
    - done.
    - intros i Hi. rewrite lookup_total_replicate_2 by done.
      rewrite decide_False; [done|lia].
    - intros c Hc. rewrite decide_False; [done|].
      pose proof (valid_parent_lt t Hvalid c Hc). lia. }
  rewrite mark_from_step by lia. cbv zeta.
  specialize (IH (S a) ltac:(lia) ltac:(lia)).
  destruct (mark_from t crit (S a)) as [[cp dm] cnt].
  destruct IH as [Hcpl Hdml Hcnt Hdm Hcp]. simpl in Hcpl, Hdml, Hcnt, Hdm, Hcp.
  assert (a < num_vertices_tree t) as Ha' by lia.
  assert (deleted t crit a = false →
          ∀ c, c < num_vertices_tree t →
            cp !!! c = if decide (a ≤ parent c t) then surviving_ancestor t crit (parent c t)
                       else parent c t) as Hcp_keep.
  { intros Hd c Hc. rewrite Hcp by done.
    destruct (decide (parent c t = a)) as [Hpa|Hpa].
    - rewrite decide_False by lia. rewrite decide_True by lia.
      rewrite Hpa. symmetry. by apply surviving_ancestor_kept.
    - destruct (decide (S a ≤ parent c t)).
      + by rewrite decide_True by lia.
      + by rewrite decide_False by lia. }
  destruct (decide (keep_node t leaves_exclude root_exclude a = true)) as [Hkeep|Hkeep].
  - apply keep_node_interior in Hkeep as [Hleaf Hroot].
    assert (a < root t) as Hlt by (unfold root in *; lia).
    destruct (valid_parent_gt t Hvalid a Hlt) as [Hpgt Hplt].
    unfold simplify_mark.
    destruct (crit a) eqn:Hcrit.
    + assert (deleted t crit a = true) as Hd by (by apply deleted_true).
      split; simpl.
      * by rewrite foldl_insert_length.
      * by rewrite length_insert.
      * rewrite Hd in Hcnt. lia.
      * intros i Hi. destruct (decide (i = a)) as [->|Hia].
        -- rewrite list_lookup_total_insert_eq by lia.
           rewrite decide_True by done. rewrite Hd in Hcnt. lia.
        -- rewrite list_lookup_total_insert_ne by done. rewrite Hdm by done.
           destruct (decide (S a ≤ i ∧ is_leaf i t = false ∧ i ≠ root t)) as [?|Hn].
           ++ by rewrite decide_True by (split; [lia|tauto]).
           ++ rewrite decide_False; [done|]. intros (? & ? & ?). apply Hn. split; [lia|done].
      * intros c Hc. rewrite foldl_insert_lookup by lia.
        destruct (decide (c ∈ children a t)) as [Hin|Hnin].
        -- apply elem_of_children in Hin as (_ & Hpc & _).
           rewrite Hpc. rewrite decide_True by lia.
           rewrite (surviving_ancestor_unfold t Hvalid crit a) by done. rewrite Hd.
           rewrite Hcp by done. by rewrite decide_True by lia.
        -- assert (parent c t ≠ a) as Hpa.
           { intros Hpa. apply Hnin, elem_of_children. split; [done|]. split; [done|].
             intros ->. apply Hroot. by apply (valid_parent_self t Hvalid). }
           rewrite Hcp by done.
           destruct (decide (S a ≤ parent c t)).
           ++ by rewrite decide_True by lia.
           ++ by rewrite decide_False by lia.
    + assert (deleted t crit a = false) as Hd.
      { apply not_true_is_false. rewrite deleted_true. intros (_ & _ & ?). congruence. }
      split; simpl.
      * done.
      * by rewrite length_insert.
      * rewrite Hd in Hcnt. lia.
      * intros i Hi. destruct (decide (i = a)) as [->|Hia].
        -- rewrite list_lookup_total_insert_eq by lia.
           rewrite decide_True by done. rewrite Hd in Hcnt. lia.
        -- rewrite list_lookup_total_insert_ne by done. rewrite Hdm by done.
           destruct (decide (S a ≤ i ∧ is_leaf i t = false ∧ i ≠ root t)) as [?|Hn].
           ++ by rewrite decide_True by (split; [lia|tauto]).
           ++ rewrite decide_False; [done|]. intros (? & ? & ?). apply Hn. split; [lia|done].
      * by apply Hcp_keep.
  - assert (deleted t crit a = false) as Hd.
    { apply not_true_is_false. rewrite deleted_true. intros (? & ? & _).
      apply Hkeep. by apply keep_node_interior. }
    split; simpl.
    + done.
    + done.
    + rewrite Hd in Hcnt. lia.
    + intros i Hi. rewrite Hdm by done.
      destruct (decide (S a ≤ i ∧ is_leaf i t = false ∧ i ≠ root t)) as [?|Hn].
      * by rewrite decide_True by (split; [lia|tauto]).
      * rewrite decide_False; [done|]. intros (Hai & Hl & Hr). apply Hn.
        split; [|done]. destruct (decide (i = a)) as [->|]; [|lia].
        exfalso. apply Hkeep. by apply keep_node_interior.
    + by apply Hcp_keep.
Qed.

Lemma lookup_total_fmap {A B} `{Inhabited A} `{Inhabited B} (f : A → B) (l : list A)
    (i : nat) :
  i < length l → (f <$> l) !!! i = f (l !!! i).
Proof. apply list_lookup_total_fmap. Qed.

(** The second loop, run over the nodes [0 .. b). *)
Definition emit_upto (t : tree) (crit : nat → bool) (cp dm : list nat) (n' b : nat)
    : list nat * list nat * nat :=
  foldl (λ st i,
           if decide (keep_node t leaves_include root_exclude i = true)
           then simplify_emit t crit cp dm st i else st)
        (seq 0 n', replicate n' 0, 0)
        (seq 0 b).

Lemma simplify_tree_unfold t crit :
  simplify_tree t crit =
    let st1 := mark_from t crit 0 in
    let dm := (λ d, st1.2 - d) <$> st1.1.2 in
    let n' := num_vertices_tree t - st1.2 in
    let st2 := emit_upto t crit st1.1.1 dm n' (num_vertices_tree t) in
    RemappedTree (Tree st2.1.1) (<[length st2.1.2 - 1 := root t]> st2.1.2).
Proof.
  unfold simplify_tree. rewrite simplify_first_loop.
  destruct (mark_from t crit 0) as [[cp dm] cnt]. cbv zeta. cbn [fst snd].
  unfold leaves_to_root_iterator. rewrite foldl_filter. fold (emit_upto t crit cp
    ((λ d, cnt - d) <$> dm) (num_vertices_tree t - cnt) (num_vertices_tree t)).
  by destruct (emit_upto _ _ _ _ _ _) as [[np nm] c].
Qed.

Record emit_inv (t : tree) (crit : nat → bool) (n' b : nat)
    (st : list nat * list nat * nat) : Prop := EmitInv {
  ei_np_length : length st.1.1 = n';
  ei_nm_length : length st.1.2 = n';
  ei_count : st.2 = new_index t crit b;
  ei_kept : ∀ i, i < b → deleted t crit i = false →
    st.1.1 !!! new_index t crit i = new_index t crit (surviving_ancestor t crit (parent i t)) ∧
    st.1.2 !!! new_index t crit i = i;
  ei_fresh : ∀ j, st.2 ≤ j → j < n' → st.1.1 !!! j = j;
  ei_onto : ∀ j, j < st.2 → ∃ i, i < b ∧ deleted t crit i = false ∧ new_index t crit i = j
}.

Section SimplifyLoops.
Context (t : tree) (Hvalid : tree_valid t) (crit : nat → bool).

Let N := num_vertices_tree t.
Let C := deleted_below t crit N.
Let cp := (mark_from t crit 0).1.1.
Let dm := (λ d, (mark_from t crit 0).2 - d) <$> (mark_from t crit 0).1.2.

Lemma mark_count : (mark_from t crit 0).2 = C.
Proof.
  pose proof (mi_count _ _ _ _ (mark_from_inv t crit 0 Hvalid ltac:(lia))) as H.
  simpl in H. unfold C, N. lia.
Qed.

Lemma deleted_below_root : deleted_below t crit (root t) = C.
Proof.
  unfold C, N. pose proof (valid_root_lt t Hvalid) as Hr.
  replace (num_vertices_tree t) with (S (root t)) by (unfold root in *; lia).
  simpl. rewrite deleted_root. lia.
Qed.

Lemma new_index_root : new_index t crit (root t) = N - C - 1.
Proof.
  unfold new_index. rewrite deleted_below_root. unfold root. fold N. lia.
Qed.

Lemma deleted_count_lt : C < N.
Proof.
  rewrite <-deleted_below_root. pose proof (deleted_below_le t crit (root t)).
  pose proof (valid_root_lt t Hvalid). fold N in H0. lia.
Qed.

Lemma mark_cp c : c < N → cp !!! c = surviving_ancestor t crit (parent c t).
Proof.
  intros Hc.
  pose proof (mi_cp _ _ _ _ (mark_from_inv t crit 0 Hvalid ltac:(lia)) c Hc) as H.
  fold cp in H. rewrite H. by rewrite decide_True by lia.
Qed.

Lemma mark_dm q : q < N → is_leaf q t = false → dm !!! q = deleted_below t crit q.
Proof.
  intros Hq Hleaf.
  pose proof (mark_from_inv t crit 0 Hvalid ltac:(lia)) as Hinv.
  pose proof (mi_dm _ _ _ _ Hinv q Hq) as H.
  pose proof (mi_dm_length _ _ _ _ Hinv) as Hlen.
  unfold dm. rewrite lookup_total_fmap by (rewrite Hlen; done).
  rewrite H, mark_count. fold N C.
  pose proof (deleted_below_mono t crit q N ltac:(lia)). fold C in H0.
  destruct (decide (q = root t)) as [->|Hne].
  - rewrite decide_False by tauto. rewrite deleted_below_root. lia.
  - rewrite decide_True by (split; [lia|done]). lia.
Qed.

Lemma emit_upto_inv b :
  b ≤ root t → emit_inv t crit (N - C) b (emit_upto t crit cp dm (N - C) b).
Proof.
  induction b as [|b IH]; intros Hb.
  { unfold emit_upto. simpl. split; simpl.
    - apply length_seq.
    - apply length_replicate.
    - done.
    - intros i Hi. lia.
    - intros j _ Hj. by rewrite lookup_total_seq_lt.
    - intros j Hj. lia. }
  specialize (IH ltac:(lia)).
  unfold emit_upto in *. rewrite seq_S, foldl_snoc. simpl.
  destruct (foldl _ _ (seq 0 b)) as [[np nm] cnt].
  destruct IH as [Hnpl Hnml Hcnt Hkept Hfresh Honto].
  simpl in Hnpl, Hnml, Hcnt, Hkept, Hfresh, Honto.
  assert (b < N) as HbN by (unfold root in Hb; fold N in Hb; lia).
  rewrite decide_True by (apply keep_node_nonroot; lia).
  pose proof (deleted_below_le t crit b) as Hble.
  unfold simplify_emit.
  destruct (is_leaf b t || negb (crit b)) eqn:Hk.
  - assert (deleted t crit b = false) as Hd.
    { apply not_true_is_false. rewrite deleted_true. intros (Hl & _ & Hc).
      rewrite Hl, Hc in Hk. done. }
    pose proof (new_index_lt t crit b (root t) ltac:(lia) Hd) as Hlt.
    rewrite new_index_root in Hlt.
    assert (new_index t crit (S b) = S (new_index t crit b)) as HS.
    { unfold new_index. simpl. rewrite Hd. lia. }
    split; simpl.
    + by rewrite length_insert.
    + by rewrite length_insert.
    + lia.
    + intros i Hi Hdi. destruct (decide (i = b)) as [->|Hib].
      * rewrite <-Hcnt. rewrite !list_lookup_total_insert_eq by lia.
        split; [|done]. rewrite mark_cp by done.
        destruct (valid_parent_gt t Hvalid b ltac:(lia)) as [Hp1 Hp2].
        destruct (surviving_ancestor_spec t Hvalid crit (parent b t) Hp2) as (_ & Hs & _).
        rewrite mark_dm; [done|done|].
        apply surviving_ancestor_not_leaf; [done|done|].
        apply valid_parent_not_leaf; [done|lia].
      * pose proof (new_index_lt t crit i b ltac:(lia) Hdi).
        rewrite !list_lookup_total_insert_ne by lia. apply Hkept; [lia|done].
    + intros j Hj1 Hj2. rewrite list_lookup_total_insert_ne by lia. apply Hfresh; lia.
    + intros j Hj. destruct (decide (j = cnt)) as [->|Hjc].
      * exists b. split; [lia|]. split; [done|lia].
      * destruct (Honto j ltac:(lia)) as (i & Hi & Hdi & Hij).
        exists i. split; [lia|done].
  - assert (deleted t crit b = true) as Hd.
    { apply deleted_true. apply orb_false_iff in Hk as [Hl Hc].
      apply negb_false_iff in Hc. split; [done|]. split; [lia|done]. }
    assert (new_index t crit (S b) = new_index t crit b) as HS.
    { unfold new_index. simpl. rewrite Hd. lia. }
    split; simpl; try done.
    + lia.
    + intros i Hi Hdi. destruct (decide (i = b)) as [->|Hib]; [congruence|].
      apply Hkept; [lia|done].
    + intros j Hj. destruct (Honto j Hj) as (i & Hi & Hdi & Hij).
      exists i. split; [lia|done].
Qed.

Lemma emit_upto_all :
  emit_upto t crit cp dm (N - C) N = emit_upto t crit cp dm (N - C) (root t).
Proof.
  pose proof (valid_root_lt t Hvalid) as Hr. fold N in Hr.
  replace N with (S (root t)) at 2 by (unfold root; fold N; lia).
  unfold emit_upto. rewrite seq_S, foldl_snoc. simpl.
  rewrite decide_False; [done|]. rewrite keep_node_nonroot. tauto.
Qed.

(** The simplified tree: the surviving nodes keep their order, each one
    is renumbered by the number of deleted nodes below it, and its parent
    is its first surviving proper ancestor. *)
Lemma simplify_tree_spec :
  let r := simplify_tree t crit in
  num_vertices_tree (rt_tree r) = N - C ∧
  length (rt_node_map r) = N - C ∧
  root (rt_tree r) = new_index t crit (root t) ∧
  (∀ i, i < N → deleted t crit i = false →
     new_index t crit i < N - C ∧
     rt_node_map r !!! new_index t crit i = i ∧
     parent (new_index t crit i) (rt_tree r) =
       new_index t crit (surviving_ancestor t crit (parent i t))) ∧
  (∀ j, j < N - C → ∃ i, i < N ∧ deleted t crit i = false ∧ new_index t crit i = j).
Proof.
  intros r. unfold r. rewrite simplify_tree_unfold. cbv zeta.
  rewrite mark_count. fold N cp.
  assert (((λ d, C - d) <$> (mark_from t crit 0).1.2) = dm) as ->.
  { unfold dm. by rewrite mark_count. }
  rewrite emit_upto_all.
  pose proof (emit_upto_inv (root t) ltac:(lia)) as Hinv.
  destruct (emit_upto t crit cp dm (N - C) (root t)) as [[np nm] cnt].
  destruct Hinv as [Hnpl Hnml Hcnt Hkept Hfresh Honto].
  simpl in Hnpl, Hnml, Hcnt, Hkept, Hfresh, Honto. cbn [fst snd rt_tree rt_node_map].
  pose proof deleted_count_lt as HC. pose proof new_index_root as Hnr.
  pose proof (valid_root_lt t Hvalid) as Hroot. fold N in Hroot.
  split; [done|]. split; [by rewrite length_insert|].
  split. { unfold root at 1, num_vertices_tree. simpl. rewrite Hnpl. lia. }
  split.
  - intros i Hi Hd. destruct (decide (i = root t)) as [->|Hne].
    + rewrite Hnr. split; [lia|]. split.
      * rewrite Hnml. rewrite list_lookup_total_insert_eq by lia. done.
      * unfold parent at 1. simpl. rewrite Hfresh by lia.
        rewrite valid_parent_root by done.
        rewrite surviving_ancestor_kept; [by rewrite Hnr|done|done|apply deleted_root].
    + assert (i < root t) as Hlt by (unfold root, N in *; lia).
      pose proof (new_index_lt t crit i (root t) Hlt Hd) as Hnlt.
      destruct (Hkept i Hlt Hd) as [H1 H2].
      split; [lia|]. split.
      * rewrite Hnml. rewrite list_lookup_total_insert_ne by lia. done.
      * done.
  - intros j Hj. destruct (decide (j = N - C - 1)) as [->|Hne].
    + exists (root t). split; [done|]. split; [apply deleted_root|done].
    + destruct (Honto j ltac:(lia)) as (i & Hi & Hd & Hij).
      exists i. split; [lia|done].
Qed.

End SimplifyLoops.

Section SimplifyFacts.
Context (t : tree) (Hvalid : tree_valid t) (crit : nat → bool).

Lemma simplify_tree_node_map j :
  j < num_vertices_tree (rt_tree (simplify_tree t crit)) →
  rt_node_map (simplify_tree t crit) !!! j < num_vertices_tree t ∧
  deleted t crit (rt_node_map (simplify_tree t crit) !!! j) = false ∧
  new_index t crit (rt_node_map (simplify_tree t crit) !!! j) = j.
Proof.
  destruct (simplify_tree_spec t Hvalid crit) as (HN & _ & _ & Hkept & Honto).
  rewrite HN. intros Hj. destruct (Honto j Hj) as (i & Hi & Hd & <-).
  destruct (Hkept i Hi Hd) as (_ & -> & _). done.
Qed.

Lemma simplify_tree_valid : tree_valid (rt_tree (simplify_tree t crit)).
Proof.
  destruct (simplify_tree_spec t Hvalid crit) as (HN & _ & Hroot & Hkept & Honto).
  pose proof (deleted_count_lt t Hvalid crit) as HC.
  pose proof (valid_root_lt t Hvalid) as Hr.
  split; [lia|]. split.
  - rewrite Hroot. destruct (Hkept (root t) Hr (deleted_root t crit)) as (_ & _ & ->).
    rewrite valid_parent_root by done.
    rewrite surviving_ancestor_kept; [done..|apply deleted_root].
  - intros j Hj.
    assert (j < num_vertices_tree t - deleted_below t crit (num_vertices_tree t)) as Hj'.
    { rewrite <-HN. unfold root in Hj. lia. }
    destruct (Honto j Hj') as (i & Hi & Hd & <-).
    assert (i ≠ root t) as Hne by (intros ->; lia).
    assert (i < root t) as Hlt by (unfold root in *; lia).
    destruct (Hkept i Hi Hd) as (_ & _ & ->).
    destruct (valid_parent_gt t Hvalid i Hlt) as [Hp1 Hp2].
    destruct (surviving_ancestor_spec t Hvalid crit (parent i t) Hp2) as (Hs1 & Hs2 & Hs3).
    split.
    + apply new_index_lt; [lia|done].
    + rewrite HN. by apply Hkept.
Qed.

Lemma simplify_tree_node_map_mono j j' :
  j < j' → j' < num_vertices_tree (rt_tree (simplify_tree t crit)) →
  rt_node_map (simplify_tree t crit) !!! j < rt_node_map (simplify_tree t crit) !!! j'.
Proof.
  intros Hjj Hj'.
  destruct (simplify_tree_node_map j ltac:(lia)) as (_ & _ & H1).
  destruct (simplify_tree_node_map j' Hj') as (_ & _ & H2).
  set (i := rt_node_map (simplify_tree t crit) !!! j) in *.
  set (i' := rt_node_map (simplify_tree t crit) !!! j') in *.
  destruct (decide (i < i')) as [|Hge]; [done|].
  pose proof (new_index_mono t crit i' i ltac:(lia)). lia.
Qed.

End SimplifyFacts.

(** C6. On a tree [t]: with a criterion that is false on every interior
    node, [simplify_tree] returns [t] itself and the identity node map;
    with a criterion that is true on every interior node but the root, the
    nodes of the result are, in order and without repetition, the leaves
    of [t] and its root, and every node of the result other than its root
    is a leaf attached to the root. *)
Theorem C6_simplify_never_always (t : tree) (crit : nat → bool) :
  tree_valid t →
  ((∀ i, i < num_vertices_tree t → is_leaf i t = false → crit i = false) →
     rt_tree (simplify_tree t crit) = t ∧
     rt_node_map (simplify_tree t crit) = seq 0 (num_vertices_tree t)) ∧
  ((∀ i, i < num_vertices_tree t → is_leaf i t = false → i ≠ root t → crit i = true) →
     let t' := rt_tree (simplify_tree t crit) in
     let node_map := rt_node_map (simplify_tree t crit) in
     length node_map = num_vertices_tree t' ∧
     node_map !!! root t' = root t ∧
     parent (root t') t' = root t' ∧
     (∀ j, j < num_vertices_tree t' →
        (is_leaf (node_map !!! j) t = true ∨ node_map !!! j = root t) ∧
        (j ≠ root t' → parent j t' = root t' ∧ is_leaf j t' = true)) ∧
     (∀ j j', j < j' → j' < num_vertices_tree t' → node_map !!! j < node_map !!! j') ∧
     (∀ i, i < num_vertices_tree t → is_leaf i t = true →
        ∃ j, j < num_vertices_tree t' ∧ node_map !!! j = i)).
Proof.
  intros Hvalid.
  destruct (simplify_tree_spec t Hvalid crit) as (HN & Hnm & Hroot & Hkept & Honto).
  pose proof (valid_root_lt t Hvalid) as Hr.
  split.
  - intros Hnever.
    assert (∀ i, i < num_vertices_tree t → deleted t crit i = false) as Hd.
    { intros i Hi. apply not_true_is_false. rewrite deleted_true. intros (Hl & _ & Hc).
      rewrite Hnever in Hc; done. }
    assert (∀ b, b ≤ num_vertices_tree t → deleted_below t crit b = 0) as Hzero.
    { induction b as [|b IH]; intros Hb; [done|]. simpl. rewrite IH, Hd by lia. done. }
    assert (∀ i, i ≤ num_vertices_tree t → new_index t crit i = i) as Hid.
    { intros i Hi. unfold new_index. rewrite Hzero by done. lia. }
    rewrite Hzero, Nat.sub_0_r in HN, Hnm, Hkept by done.
    split.
    + destruct t as [ps]. destruct (simplify_tree (Tree ps) crit) as [[ps'] nm]. simpl in *.
      f_equal. apply (list_eq_same_length _ _ (length ps)); [done|exact HN|].
      intros i x y Hi Hx Hy.
      destruct (Hkept i Hi (Hd i Hi)) as (_ & _ & Hp).
      rewrite Hid in Hp by (unfold num_vertices_tree; simpl; lia).
      unfold parent in Hp. simpl in Hp.
      rewrite surviving_ancestor_kept in Hp; [|done| |].
      * rewrite Hid in Hp.
        -- apply list_lookup_total_correct in Hx, Hy. congruence.
        -- pose proof (valid_parent_lt _ Hvalid i Hi). unfold parent in H. simpl in *. lia.
      * by apply (valid_parent_lt _ Hvalid i).
      * apply Hd. by apply (valid_parent_lt _ Hvalid i).
    + apply (list_eq_same_length _ _ (num_vertices_tree t)); [apply length_seq|done|].
      intros i x y Hi Hx Hy.
      destruct (Hkept i Hi (Hd i Hi)) as (_ & Hm & _).
      rewrite Hid in Hm by lia.
      apply list_lookup_total_correct in Hx. apply lookup_seq in Hy as [-> _].
      simpl. congruence.
  - intros Halways t' node_map.
    pose proof (simplify_tree_valid t Hvalid crit) as Hvalid'. fold t' in Hvalid'.
    assert (∀ i, i < num_vertices_tree t → deleted t crit i = false →
              is_leaf i t = true ∨ i = root t) as Hkeptleaf.
    { intros i Hi Hd. destruct (is_leaf i t) eqn:Hl; [by left|right].
      destruct (decide (i = root t)) as [|Hne]; [done|].
      assert (deleted t crit i = true); [|congruence].
      apply deleted_true. split; [done|]. split; [done|]. by apply Halways. }
    assert (∀ y, y < num_vertices_tree t → is_leaf y t = false →
              surviving_ancestor t crit y = root t) as Hsa.
    { apply (valid_tree_ind t Hvalid (λ y, is_leaf y t = false →
                                       surviving_ancestor t crit y = root t)).
      - intros _. apply surviving_ancestor_kept; [done..|apply deleted_root].
      - intros i Hi IH Hl.
        assert (i < num_vertices_tree t) as Hi' by (unfold root in Hi; lia).
        rewrite surviving_ancestor_unfold by done.
        assert (deleted t crit i = true) as ->.
        { apply deleted_true. split; [done|]. split; [lia|]. apply Halways; [done..|lia]. }
        apply IH. by apply valid_parent_not_leaf. }
    assert (∀ j, j < num_vertices_tree t' → j ≠ root t' → parent j t' = root t') as Hpar.
    { intros j Hj Hjr. unfold t' in Hj. rewrite HN in Hj.
      destruct (Honto j Hj) as (i & Hi & Hd & <-).
      destruct (Hkept i Hi Hd) as (_ & _ & Hp). fold t' in Hp. rewrite Hp.
      assert (i ≠ root t) as Hne by (intros ->; by rewrite <-Hroot in Hjr).
      assert (i < root t) as Hlt by (unfold root in *; lia).
      rewrite Hsa; [by rewrite <-Hroot| |].
      + by apply valid_parent_gt.
      + by apply valid_parent_not_leaf. }
    split; [unfold node_map, t'; by rewrite Hnm, HN|]. split.
    { unfold node_map, t'. rewrite Hroot.
      by destruct (Hkept (root t) Hr (deleted_root t crit)) as (_ & -> & _). }
    split; [apply (valid_parent_root t' Hvalid')|]. split; [|split].
    + intros j Hj.
      destruct (simplify_tree_node_map t Hvalid crit j Hj) as (Hi & Hd & Hij).
      split; [by apply Hkeptleaf|].
      intros Hjr. split; [by apply Hpar|].
      unfold is_leaf. apply bool_decide_eq_true.
      destruct (children j t') as [|c l] eqn:Hch; [done|].
      assert (c ∈ children j t') as Hin by (rewrite Hch; by left).
      apply elem_of_children in Hin as (Hc & Hpc & Hcj).
      destruct (decide (c = root t')) as [->|Hcr].
      * rewrite (valid_parent_root t' Hvalid') in Hpc. congruence.
      * rewrite Hpar in Hpc by done. congruence.
    + intros j j' Hjj Hj'. by apply simplify_tree_node_map_mono.
    + intros i Hi Hl. exists (new_index t crit i).
      assert (deleted t crit i = false) as Hd.
      { apply not_true_is_false. rewrite deleted_true. intros (Hl' & _). congruence. }
      destruct (Hkept i Hi Hd) as (Hlt & Hm & _). unfold t'. rewrite HN. done.
Qed.

(** The criterion is never read at the root. *)
Lemma simplify_tree_ext t crit crit' :
  (∀ i, i ≠ root t → crit' i = crit i) →
  simplify_tree t crit' = simplify_tree t crit.
Proof.
  intros Hext. rewrite !simplify_tree_unfold. cbv zeta.
  assert (mark_from t crit' 0 = mark_from t crit 0) as ->.
  { unfold mark_from. apply foldr_ext; [|done..].
    intros i st. destruct (decide _) as [Hk|]; [|done].
    apply keep_node_interior in Hk as [_ Hr].
    unfold simplify_mark. destruct st as [[cp dm] cnt]. by rewrite Hext. }
  assert (∀ cp dm n' b, emit_upto t crit' cp dm n' b = emit_upto t crit cp dm n' b) as ->.
  { intros cp dm n' b. unfold emit_upto. generalize (seq 0 n', replicate n' 0, 0).
    induction (seq 0 b) as [|i l IH]; intros st; [done|]. simpl.
    assert ((if decide (keep_node t leaves_include root_exclude i = true)
             then simplify_emit t crit' cp dm st i else st) =
            (if decide (keep_node t leaves_include root_exclude i = true)
             then simplify_emit t crit cp dm st i else st)) as ->; [|apply IH].
    destruct (decide _) as [Hk|]; [|done].
    apply keep_node_nonroot in Hk.
    unfold simplify_emit. destruct st as [[np nm] cnt]. by rewrite Hext. }
  done.
Qed.

Lemma propagate_parallel_lookup t (altitudes : list Z) i :
  i < num_vertices_tree t →
  propagate_parallel t altitudes !!! i = altitudes !!! parent i t.
Proof.
  intros Hi. unfold propagate_parallel.
  rewrite lookup_total_fmap by (by rewrite length_seq).
  by rewrite lookup_total_seq_lt.
Qed.

Lemma index_view_lookup (a : list Z) (idx : list nat) j :
  j < length idx → index_view a idx !!! j = a !!! (idx !!! j).
Proof. intros Hj. unfold index_view. by rewrite lookup_total_fmap. Qed.

Lemma index_view_length {A} `{Inhabited A} (a : list A) (idx : list nat) :
  length (index_view a idx) = length idx.
Proof. unfold index_view. apply length_fmap. Qed.

Lemma quasi_flat_zones_hierarchy_unfold g w bpt :
  bpt_canonical g w = inr bpt →
  quasi_flat_zones_hierarchy g w =
    let q := simplify_tree (nwt_tree bpt)
               (plateau_criterion (nwt_altitudes bpt)
                  (propagate_parallel (nwt_tree bpt) (nwt_altitudes bpt))) in
    inr (NodeWeightedTree (rt_tree q) (index_view (nwt_altitudes bpt) (rt_node_map q))).
Proof.
  intros Hbpt. unfold quasi_flat_zones_hierarchy. rewrite Hbpt.
  unfold bpt_canonical in Hbpt.
  destruct (negb (length w =? num_edges g)); [done|]. done.
Qed.

(** C10. [simplify_tree] never deletes the root, whatever the criterion
    says there: its result does not depend on the value of the criterion
    at the root, the root of the result is the image of the root of [t],
    which is the last entry of the node map; so the root of the tree of
    [bpt_canonical], which always satisfies the plateau criterion, is the
    root of the quasi-flat zones hierarchy. *)
Theorem C10_root_survives (t : tree) (crit : nat → bool) :
  tree_valid t →
  let r := simplify_tree t crit in
  tree_valid (rt_tree r) ∧
  length (rt_node_map r) = num_vertices_tree (rt_tree r) ∧
  last (rt_node_map r) = Some (root t) ∧
  rt_node_map r !!! root (rt_tree r) = root t ∧
  (∀ crit', (∀ i, i ≠ root t → crit' i = crit i) → simplify_tree t crit' = r) ∧
  (∀ altitudes : list Z,
     plateau_criterion altitudes (propagate_parallel t altitudes) (root t) = true) ∧
  (∀ g w bpt, bpt_canonical g w = inr bpt → nwt_tree bpt = t →
     ∃ q, quasi_flat_zones_hierarchy g w = inr q ∧
          tree_valid (nw_tree q) ∧
          length (nw_altitudes q) = num_vertices_tree (nw_tree q) ∧
          nw_altitudes q !!! root (nw_tree q) = nwt_altitudes bpt !!! root t).
Proof.
  intros Hvalid r.
  assert (∀ c, let r := simplify_tree t c in
               tree_valid (rt_tree r) ∧
               length (rt_node_map r) = num_vertices_tree (rt_tree r) ∧
               last (rt_node_map r) = Some (root t) ∧
               rt_node_map r !!! root (rt_tree r) = root t) as Hgen.
  { intros c r0.
    destruct (simplify_tree_spec t Hvalid c) as (HN & Hnm & Hroot & Hkept & _).
    pose proof (simplify_tree_valid t Hvalid c) as Hvalid'.
    destruct (Hkept (root t) (valid_root_lt t Hvalid) (deleted_root t c)) as (Hlt & Hm & _).
    fold r0 in HN, Hnm, Hroot, Hm, Hvalid'.
    split; [done|]. split; [lia|]. split; [|by rewrite Hroot].
    rewrite last_lookup.
    replace (pred (length (rt_node_map r0))) with (root (rt_tree r0))
      by (unfold root; lia).
    rewrite Hroot. rewrite <-Hm at 2.
    apply list_lookup_lookup_total_lt. rewrite Hnm. lia. }
  destruct (Hgen crit) as (H1 & H2 & H3 & H4). fold r in H1, H2, H3, H4.
  split; [done|]. split; [done|]. split; [done|]. split; [done|].
  split; [intros crit' Hext; by apply simplify_tree_ext|].
  assert (∀ altitudes : list Z,
            plateau_criterion altitudes (propagate_parallel t altitudes) (root t) = true)
    as Hplateau.
  { intros altitudes. unfold plateau_criterion.
    rewrite propagate_parallel_lookup by (by apply valid_root_lt).
    rewrite valid_parent_root by done. apply Z.eqb_refl. }
  split; [done|].
  intros g w bpt Hbpt <-.
  rewrite (quasi_flat_zones_hierarchy_unfold g w bpt Hbpt). cbv zeta.
  eexists. split; [done|]. cbn [nw_tree nw_altitudes].
  destruct (Hgen (plateau_criterion (nwt_altitudes bpt)
                    (propagate_parallel (nwt_tree bpt) (nwt_altitudes bpt))))
    as (G1 & G2 & G3 & G4).
  split; [done|]. split; [by rewrite index_view_length|].
  rewrite index_view_lookup.
  - by rewrite G4.
  - rewrite G2. destruct G1 as [? _]. unfold root. lia.
Qed.

(* ================================================================== *)
(** * Lowest common ancestors and the saliency map *)
(* ================================================================== *)

(** [a] is an ancestor of [x], possibly [x] itself. *)
Definition is_ancestor (t : tree) (a x : nat) : Prop := ∃ k, ancestor t k x = a.

(** [a] is the lowest common ancestor of [u] and [v]: a common ancestor
    that every common ancestor is an ancestor of. *)
Definition is_lca (t : tree) (u v a : nat) : Prop :=
  is_ancestor t a u ∧ is_ancestor t a v ∧
  ∀ b, is_ancestor t b u → is_ancestor t b v → is_ancestor t b a.

Lemma ancestor_succ_r t k x : ancestor t (S k) x = ancestor t k (parent x t).
Proof.
  unfold ancestor. induction k as [|k IH]; [done|].
  simpl in *. by rewrite IH.
Qed.

Section LcaValid.
Context (t : tree) (Hvalid : tree_valid t).

Lemma ancestor_range k x :
  x < num_vertices_tree t → x ≤ ancestor t k x ∧ ancestor t k x < num_vertices_tree t.
Proof.
  intros Hx. induction k as [|k [IH1 IH2]]; [simpl; lia|].
  change (ancestor t (S k) x) with (parent (ancestor t k x) t).
  pose proof (valid_parent_ge t Hvalid _ IH2). pose proof (valid_parent_lt t Hvalid _ IH2).
  lia.
Qed.

Lemma is_ancestor_ge a x : x < num_vertices_tree t → is_ancestor t a x → x ≤ a.
Proof. intros Hx [k <-]. by apply ancestor_range. Qed.

Lemma is_ancestor_refl x : is_ancestor t x x.
Proof. by exists 0. Qed.

Lemma is_ancestor_parent a x : is_ancestor t a (parent x t) → is_ancestor t a x.
Proof. intros [k Hk]. exists (S k). by rewrite ancestor_succ_r. Qed.

Lemma is_ancestor_inv a x : is_ancestor t a x → a = x ∨ is_ancestor t a (parent x t).
Proof.
  intros [[|k] Hk]; [by left|right]. exists k. by rewrite <-ancestor_succ_r.
Qed.

Lemma lca_fuel_enough f f' u v :
  u < num_vertices_tree t → v < num_vertices_tree t →
  (root t - u) + (root t - v) ≤ f → (root t - u) + (root t - v) ≤ f' →
  lca_fuel f t u v = lca_fuel f' t u v.
Proof.
  revert f' u v. induction f as [|f IH]; intros f' u v Hu Hv Hf Hf'.
  - assert (u = v) as -> by (unfold root in *; lia).
    destruct f'; simpl; [done|]. by rewrite Nat.eqb_refl.
  - simpl. destruct (Nat.eqb_spec u v) as [->|Hne].
    { destruct f'; simpl; [done|]. by rewrite Nat.eqb_refl. }
    destruct f' as [|f'].
    { unfold root in *. lia. }
    simpl. destruct (Nat.eqb_spec u v) as [|_]; [done|].
    destruct (Nat.ltb_spec u v) as [Hlt|Hge].
    + destruct (valid_parent_gt t Hvalid u) as [H1 H2]; [unfold root in *; lia|].
      apply IH; [done|done|unfold root in *; lia..].
    + destruct (valid_parent_gt t Hvalid v) as [H1 H2]; [unfold root in *; lia|].
      apply IH; [done|done|unfold root in *; lia..].
Qed.

Lemma lca_unfold u v :
  u < num_vertices_tree t → v < num_vertices_tree t →
  lca t u v =
    if u =? v then u
    else if u <? v then lca t (parent u t) v else lca t u (parent v t).
Proof.
  intros Hu Hv. unfold lca.
  rewrite (lca_fuel_enough _ (S (2 * num_vertices_tree t)) u v);
    [|done|done|unfold root; lia..].
  simpl. done.
Qed.

(** Induction on a pair of nodes, moving the lower one up. *)
Lemma lca_ind (P : nat → nat → Prop) :
  (∀ u, u < num_vertices_tree t → P u u) →
  (∀ u v, u < v → v < num_vertices_tree t → P (parent u t) v → P u v) →
  (∀ u v, v < u → u < num_vertices_tree t → P u (parent v t) → P u v) →
  ∀ u v, u < num_vertices_tree t → v < num_vertices_tree t → P u v.
Proof.
  intros Heq Hlt Hgt.
  assert (∀ k u v, u < num_vertices_tree t → v < num_vertices_tree t →
            (root t - u) + (root t - v) ≤ k → P u v) as Hk.
  { induction k as [|k IH]; intros u v Hu Hv Hk.
    - assert (u = v) as -> by (unfold root in *; lia). by apply Heq.
    - destruct (Nat.lt_trichotomy u v) as [Huv|[->|Huv]]; [|by apply Heq|].
      + destruct (valid_parent_gt t Hvalid u) as [H1 H2]; [unfold root in *; lia|].
        apply Hlt; [done..|]. apply IH; [done|done|unfold root in *; lia].
      + destruct (valid_parent_gt t Hvalid v) as [H1 H2]; [unfold root in *; lia|].
        apply Hgt; [done..|]. apply IH; [done|done|unfold root in *; lia]. }
  intros u v Hu Hv. by apply (Hk ((root t - u) + (root t - v)) u v Hu Hv).
Qed.

Lemma lca_lt u v :
  u < num_vertices_tree t → v < num_vertices_tree t → lca t u v < num_vertices_tree t.
Proof.
  revert u v. apply lca_ind.
  - intros u Hu. rewrite lca_unfold by done. by rewrite Nat.eqb_refl.
  - intros u v Huv Hv IH. rewrite lca_unfold by lia.
    destruct (Nat.eqb_spec u v); [lia|]. destruct (Nat.ltb_spec u v); [done|lia].
  - intros u v Huv Hu IH. rewrite lca_unfold by lia.
    destruct (Nat.eqb_spec u v); [lia|]. destruct (Nat.ltb_spec u v); [lia|done].
Qed.

(** The model of [lca_fast] computes the lowest common ancestor. *)
Lemma lca_is_lca u v :
  u < num_vertices_tree t → v < num_vertices_tree t → is_lca t u v (lca t u v).
Proof.
  revert u v. apply lca_ind.
  - intros u Hu. rewrite lca_unfold by done. rewrite Nat.eqb_refl.
    split; [apply is_ancestor_refl|]. split; [apply is_ancestor_refl|]. done.
  - intros u v Huv Hv (IH1 & IH2 & IH3). rewrite lca_unfold by lia.
    destruct (Nat.eqb_spec u v); [lia|]. destruct (Nat.ltb_spec u v); [|lia].
    split; [by apply is_ancestor_parent|]. split; [done|].
    intros b Hbu Hbv. apply IH3; [|done].
    apply is_ancestor_inv in Hbu as [->|Hbu]; [|done].
    apply is_ancestor_ge in Hbv; [lia|done].
  - intros u v Huv Hu (IH1 & IH2 & IH3). rewrite lca_unfold by lia.
    destruct (Nat.eqb_spec u v); [lia|]. destruct (Nat.ltb_spec u v); [lia|].
    split; [done|]. split; [by apply is_ancestor_parent|].
    intros b Hbu Hbv. apply IH3; [done|].
    apply is_ancestor_inv in Hbv as [->|Hbv]; [|done].
    apply is_ancestor_ge in Hbu; [lia|done].
Qed.

End LcaValid.

Lemma saliency_map_length g t altitudes :
  length (saliency_map g t altitudes) = num_edges g.
Proof. unfold saliency_map, lca_edges, num_edges. by rewrite index_view_length, length_fmap. Qed.

Lemma saliency_map_lookup g t altitudes ei :
  ei < num_edges g →
  saliency_map g t altitudes !!! ei =
    altitudes !!! lca t (source (edge_from_index ei g)) (target (edge_from_index ei g)).
Proof.
  intros Hei. unfold saliency_map, lca_edges, edge_from_index.
  rewrite index_view_lookup by (by rewrite length_fmap).
  by rewrite lookup_total_fmap.
Qed.

(** C4. The saliency map has one entry per edge of the graph, and the
    entry of an edge is the altitude of the lowest common ancestor of its
    two endpoints in the tree. *)
Theorem C4_saliency_map (g : ugraph) (t : tree) (altitudes : list Z) :
  tree_valid t →
  (∀ ei, ei < num_edges g →
     source (edge_from_index ei g) < num_vertices_tree t ∧
     target (edge_from_index ei g) < num_vertices_tree t) →
  length (saliency_map g t altitudes) = num_edges g ∧
  ∀ ei, ei < num_edges g →
    ∃ a, is_lca t (source (edge_from_index ei g)) (target (edge_from_index ei g)) a ∧
         a < num_vertices_tree t ∧
         saliency_map g t altitudes !!! ei = altitudes !!! a.
Proof.
  intros Hvalid Hends. split; [apply saliency_map_length|].
  intros ei Hei. destruct (Hends ei Hei) as [Hs Ht].
  exists (lca t (source (edge_from_index ei g)) (target (edge_from_index ei g))).
  split; [by apply lca_is_lca|]. split; [by apply lca_lt|].
  by apply saliency_map_lookup.
Qed.

(* ================================================================== *)
(** * Saliency of the quasi-flat zones hierarchy *)
(* ================================================================== *)

Section SimplifyLca.
Context (t : tree) (Hvalid : tree_valid t) (crit : nat → bool).

(** The image in the simplified tree of a node of [t]: the new index of
    its first surviving ancestor. *)
Definition simplify_image (y : nat) : nat :=
  new_index t crit (surviving_ancestor t crit y).

Lemma simplify_image_lt y :
  y < num_vertices_tree t →
  simplify_image y < num_vertices_tree (rt_tree (simplify_tree t crit)).
Proof.
  intros Hy. destruct (simplify_tree_spec t Hvalid crit) as (-> & _ & _ & Hkept & _).
  destruct (surviving_ancestor_spec t Hvalid crit y Hy) as (_ & Hs & Hd).
  by apply Hkept.
Qed.

(** Lowest common ancestors commute with the simplification. *)
Lemma simplify_tree_lca :
  ∀ u v, u < num_vertices_tree t → v < num_vertices_tree t →
  lca (rt_tree (simplify_tree t crit)) (simplify_image u) (simplify_image v) =
  simplify_image (lca t u v).
Proof.
  pose proof (simplify_tree_valid t Hvalid crit) as Hvalid'.
  destruct (simplify_tree_spec t Hvalid crit) as (HN & _ & _ & Hkept & _).
  set (t' := rt_tree (simplify_tree t crit)) in *.
  assert (∀ u v, u < v → v < num_vertices_tree t →
            lca t' (simplify_image u) (simplify_image v) =
            lca t' (simplify_image (parent u t)) (simplify_image v)) as Hstep.
  { intros u v Huv Hv.
    assert (u < num_vertices_tree t) as Hu by lia.
    assert (u < root t) as Hur by (unfold root; lia).
    destruct (valid_parent_gt t Hvalid u Hur) as [Hp1 Hp2].
    unfold simplify_image at 1. rewrite (surviving_ancestor_unfold t Hvalid crit u) by done.
    destruct (deleted t crit u) eqn:Hd; [done|].
    destruct (surviving_ancestor_spec t Hvalid crit v Hv) as (Hs1 & Hs2 & Hs3).
    pose proof (new_index_lt t crit u (surviving_ancestor t crit v) ltac:(lia) Hd) as Hlt.
    fold (simplify_image v) in Hlt.
    destruct (Hkept u Hu Hd) as (Hlt' & _ & Hpar). fold t' in Hpar.
    rewrite (lca_unfold t' Hvalid' (new_index t crit u) (simplify_image v));
      [|by rewrite HN|by apply simplify_image_lt].
    destruct (Nat.eqb_spec (new_index t crit u) (simplify_image v)); [lia|].
    destruct (Nat.ltb_spec (new_index t crit u) (simplify_image v)); [|lia].
    by rewrite Hpar. }
  assert (∀ u v, u < num_vertices_tree t' → v < num_vertices_tree t' →
            lca t' u v = lca t' v u) as Hsym.
  { apply (lca_ind t' Hvalid' (λ u v, lca t' u v = lca t' v u)).
    - done.
    - intros u v Huv Hv IH. rewrite (lca_unfold t' Hvalid' u v) by lia.
      rewrite (lca_unfold t' Hvalid' v u) by lia.
      destruct (Nat.eqb_spec u v), (Nat.eqb_spec v u); try lia.
      destruct (Nat.ltb_spec u v), (Nat.ltb_spec v u); try lia; done.
    - intros u v Huv Hu IH. rewrite (lca_unfold t' Hvalid' u v) by lia.
      rewrite (lca_unfold t' Hvalid' v u) by lia.
      destruct (Nat.eqb_spec u v), (Nat.eqb_spec v u); try lia.
      destruct (Nat.ltb_spec u v), (Nat.ltb_spec v u); try lia; done. }
  apply (lca_ind t Hvalid (λ u v,
           lca t' (simplify_image u) (simplify_image v) = simplify_image (lca t u v))).
  - intros u Hu. rewrite (lca_unfold t Hvalid u u) by done. rewrite Nat.eqb_refl.
    rewrite (lca_unfold t' Hvalid') by (by apply simplify_image_lt).
    by rewrite Nat.eqb_refl.
  - intros u v Huv Hv IH. rewrite (lca_unfold t Hvalid u v) by lia.
    destruct (Nat.eqb_spec u v); [lia|]. destruct (Nat.ltb_spec u v); [|lia].
    rewrite <-IH. by apply Hstep.
  - intros u v Huv Hu IH. rewrite (lca_unfold t Hvalid u v) by lia.
    destruct (Nat.eqb_spec u v); [lia|]. destruct (Nat.ltb_spec u v); [lia|].
    rewrite <-IH.
    assert (v < root t) as Hvr by (unfold root; lia).
    destruct (valid_parent_gt t Hvalid v Hvr) as [Hp1 Hp2].
    rewrite (Hsym (simplify_image u) (simplify_image v));
      [|apply simplify_image_lt; lia..].
    rewrite (Hsym (simplify_image u) (simplify_image (parent v t)));
      [|apply simplify_image_lt; lia..].
    by apply Hstep.
Qed.

End SimplifyLca.

(** Under the plateau criterion a deleted node has the altitude of its
    first surviving ancestor. *)
Lemma plateau_surviving_ancestor t (altitudes : list Z) y :
  tree_valid t → y < num_vertices_tree t →
  let crit := plateau_criterion altitudes (propagate_parallel t altitudes) in
  altitudes !!! surviving_ancestor t crit y = altitudes !!! y.
Proof.
  intros Hvalid Hy crit. revert y Hy.
  apply (valid_tree_ind t Hvalid).
  - rewrite surviving_ancestor_kept; [done|done|by apply valid_root_lt|apply deleted_root].
  - intros i Hi IH.
    assert (i < num_vertices_tree t) as Hi' by (unfold root in Hi; lia).
    rewrite surviving_ancestor_unfold by done.
    destruct (deleted t crit i) eqn:Hd; [|done].
    rewrite IH. apply deleted_true in Hd as (_ & _ & Hc).
    unfold crit, plateau_criterion in Hc. apply Z.eqb_eq in Hc.
    by rewrite propagate_parallel_lookup in Hc.
Qed.

(** C5. For a connected graph the saliency map of the canonical binary
    partition tree and the saliency map of the quasi-flat zones hierarchy
    are the same vector. *)
Theorem C5_saliency_bpt_qfz (g : ugraph) (w : list Z) :
  graph_wf g → connected g → length w = num_edges g →
  ∃ bpt qfz,
    bpt_canonical g w = inr bpt ∧
    quasi_flat_zones_hierarchy g w = inr qfz ∧
    saliency_map g (nwt_tree bpt) (nwt_altitudes bpt) =
    saliency_map g (nw_tree qfz) (nw_altitudes qfz).
Proof.
  intros Hwf Hc Hw. pose proof Hc as [Hn _].
  pose proof (bpt_canonical_unfold g w Hw Hn) as Hbpt.
  apply (kruskal_final_connected g w Hwf Hn) in Hc.
  rewrite Hc, Nat.eqb_refl in Hbpt.
  eexists _, _. split; [exact Hbpt|].
  rewrite (quasi_flat_zones_hierarchy_unfold g w _ Hbpt). cbv zeta.
  split; [done|]. cbn [nwt_tree nwt_altitudes nw_tree nw_altitudes].
  destruct (kruskal_final_tree_inv g w Hwf Hn) as (P & HP & Hinv & Htree).
  destruct (kruskal_final_tree g w P Hn Hc Hinv Htree) as (HN & Hvalid & Hleaf & Hpar).
  set (t := Tree (k_parents (kruskal_final g w))) in *.
  set (alt := k_levels (kruskal_final g w)) in *.
  set (crit := plateau_criterion alt (propagate_parallel t alt)).
  destruct (simplify_tree_spec t Hvalid crit) as (HN' & Hnm & Hroot & Hkept & Honto).
  assert (∀ u, u < num_vertices g → simplify_image t crit u = u) as Himg.
  { intros u Hu.
    assert (∀ i, i < num_vertices g → deleted t crit i = false) as Hd.
    { intros i Hi. apply not_true_is_false. rewrite deleted_true. intros (Hl & _).
      assert (is_leaf i t = true) by (apply Hleaf; lia). congruence. }
    assert (∀ b, b ≤ num_vertices g → deleted_below t crit b = 0) as Hzero.
    { induction b as [|b IH]; intros Hb; [done|]. simpl. rewrite IH, Hd by lia. done. }
    unfold simplify_image. rewrite surviving_ancestor_kept; [|done|lia|by apply Hd].
    unfold new_index. rewrite Hzero by lia. lia. }
  apply (list_eq_same_length _ _ (num_edges g)); [apply saliency_map_length..|].
  intros ei x y Hei Hx Hy.
  apply list_lookup_total_correct in Hx, Hy. subst x y.
  rewrite !saliency_map_lookup by done.
  destruct (edge_from_index_wf g ei Hwf Hei) as [Hs Ht].
  set (u := source (edge_from_index ei g)) in *.
  set (v := target (edge_from_index ei g)) in *.
  rewrite <-(Himg u Hs) at 2. rewrite <-(Himg v Ht) at 2.
  rewrite (simplify_tree_lca t Hvalid crit u v) by lia.
  pose proof (lca_lt t Hvalid u v ltac:(lia) ltac:(lia)) as Ha.
  destruct (surviving_ancestor_spec t Hvalid crit _ Ha) as (_ & Hs2 & Hd2).
  destruct (Hkept _ Hs2 Hd2) as (Hlt & Hm & _).
  rewrite index_view_lookup by (rewrite Hnm; exact Hlt).
  unfold simplify_image. rewrite Hm.
  symmetry. by apply plateau_surviving_ancestor.
Qed.

(* ================================================================== *)
(** * Checking concrete trees and graphs *)
(* ================================================================== *)

Lemma tree_valid_b_correct t : tree_valid_b t = true → tree_valid t.
Proof.
  unfold tree_valid_b. rewrite !andb_true_iff, Nat.ltb_lt, Nat.eqb_eq, forallb_forall.
  intros [[H1 H2] H3]. split; [done|]. split; [done|].
  intros i Hi. specialize (H3 i). rewrite andb_true_iff, !Nat.ltb_lt in H3.
  apply H3. apply in_seq. lia.
Qed.

Lemma tree_valid_b_complete t : tree_valid t → tree_valid_b t = true.
Proof.
  intros (H1 & H2 & H3). unfold tree_valid_b.
  rewrite !andb_true_iff, Nat.ltb_lt, Nat.eqb_eq, forallb_forall.
  split; [done|]. intros i Hi. apply in_seq in Hi.
  rewrite andb_true_iff, !Nat.ltb_lt. apply H3. lia.
Qed.

(** The constructor accepts the valid parent vectors and no other. *)
Lemma make_tree_valid ps : tree_valid (Tree ps) → make_tree ps = inr (Tree ps).
Proof. intros H. unfold make_tree. by rewrite tree_valid_b_complete. Qed.

Lemma make_tree_inr ps t : make_tree ps = inr t → t = Tree ps ∧ tree_valid t.
Proof.
  unfold make_tree. destruct (tree_valid_b (Tree ps)) eqn:Hb; [|done].
  intros [= <-]. split; [done|]. by apply tree_valid_b_correct.
Qed.

Lemma make_tree_inl ps err : make_tree ps = inl err → err = InvalidTree ∧ ¬ tree_valid (Tree ps).
Proof.
  unfold make_tree. destruct (tree_valid_b (Tree ps)) eqn:Hb; [done|].
  intros [= <-]. split; [done|]. intros H. apply tree_valid_b_complete in H. congruence.
Qed.

(** [bpt_canonical] and [simplify_tree] hand to the constructor of the
    tree parent vectors that it accepts. *)
Lemma bpt_canonical_make_tree g w r :
  graph_wf g → bpt_canonical g w = inr r →
  make_tree (parents (nwt_tree r)) = inr (nwt_tree r).
Proof.
  intros Hwf Hr. unfold bpt_canonical in Hr.
  destruct (negb (length w =? num_edges g)); [done|].
  destruct (Nat.eqb_spec (num_vertices g) 0) as [|Hn]; [done|].
  cbv zeta in Hr. fold (kruskal_final g w) in Hr.
  destruct (Nat.eqb_spec (k_num_edge_found (kruskal_final g w)) (num_vertices g - 1))
    as [Hf|]; [|done].
  injection Hr as <-. cbn [nwt_tree parents]. apply make_tree_valid.
  destruct (kruskal_final_tree_inv g w Hwf ltac:(lia)) as (P & _ & Hki & Hkt).
  apply (kruskal_final_tree g w P ltac:(lia) Hf Hki Hkt).
Qed.

Lemma simplify_tree_make_tree t crit :
  tree_valid t →
  make_tree (parents (rt_tree (simplify_tree t crit))) = inr (rt_tree (simplify_tree t crit)).
Proof.
  intros Hvalid. pose proof (simplify_tree_valid t Hvalid crit) as Hv.
  destruct (rt_tree (simplify_tree t crit)) as [ps]. by apply make_tree_valid.
Qed.

Definition graph_wf_b (g : ugraph) : bool :=
  forallb (λ e, (source e <? num_vertices g) && (target e <? num_vertices g)) (edge_list g).

Lemma graph_wf_b_correct g : graph_wf_b g = true → graph_wf g.
Proof.
  unfold graph_wf_b, graph_wf. rewrite forallb_forall, Forall_forall.
  intros H e He. apply list_elem_of_In in He. specialize (H e He).
  by rewrite andb_true_iff, !Nat.ltb_lt in H.
Qed.

Lemma graph_wf_endpoints g t :
  graph_wf g → num_vertices g ≤ num_vertices_tree t →
  ∀ ei, ei < num_edges g →
    source (edge_from_index ei g) < num_vertices_tree t ∧
    target (edge_from_index ei g) < num_vertices_tree t.
Proof.
  intros Hwf Hle ei Hei. destruct (edge_from_index_wf g ei Hwf Hei). lia.
Qed.

Definition tree_2x4 : tree :=
  Tree [8; 8; 9; 9; 10; 10; 11; 11; 12; 13; 12; 14; 13; 14; 14].

Definition tree_simplification : tree := Tree [5; 5; 6; 6; 6; 7; 7; 7].

Lemma C4_saliency_map_witness :
  length (saliency_map grid_2x4 tree_2x4
            [0; 0; 0; 0; 0; 0; 0; 0; 0; 0; 0; 0; 1; 2; 3]%Z) = 10 ∧
  ∃ a, is_lca tree_2x4 0 4 a ∧ a < 15 ∧
       saliency_map grid_2x4 tree_2x4
         [0; 0; 0; 0; 0; 0; 0; 0; 0; 0; 0; 0; 1; 2; 3]%Z !!! 1 = 
       [0; 0; 0; 0; 0; 0; 0; 0; 0; 0; 0; 0; 1; 2; 3]%Z !!! a.
Proof.
  destruct (C4_saliency_map grid_2x4 tree_2x4
              [0; 0; 0; 0; 0; 0; 0; 0; 0; 0; 0; 0; 1; 2; 3]%Z) as [Hlen Hentry].
  - apply tree_valid_b_correct. reflexivity.
  - apply graph_wf_endpoints.
    + apply graph_wf_b_correct. reflexivity.
    + cbv. lia.
  - split; [exact Hlen|]. apply (Hentry 1). cbv. lia.
Defined.

Lemma C5_saliency_bpt_qfz_witness :
  ∃ bpt qfz,
    bpt_canonical grid_2x3 [1; 0; 2; 1; 1; 1; 2]%Z = inr bpt ∧
    quasi_flat_zones_hierarchy grid_2x3 [1; 0; 2; 1; 1; 1; 2]%Z = inr qfz ∧
    saliency_map grid_2x3 (nwt_tree bpt) (nwt_altitudes bpt) =
    saliency_map grid_2x3 (nw_tree qfz) (nw_altitudes qfz).
Proof.
  apply (C5_saliency_bpt_qfz grid_2x3 [1; 0; 2; 1; 1; 1; 2]%Z).
  - apply grid_2x3_wf.
  - apply grid_2x3_connected.
  - reflexivity.
Defined.

Lemma C6_simplify_never_always_witness :
  rt_tree (simplify_tree tree_simplification (λ _, false)) = tree_simplification ∧
  rt_node_map (simplify_tree tree_simplification (λ _, false)) = seq 0 8.
Proof.
  destruct (C6_simplify_never_always tree_simplification (λ _, false)) as [Hnever _].
  - apply tree_valid_b_correct. reflexivity.
  - apply Hnever. intros i _ _. reflexivity.
Defined.

Lemma C10_root_survives_witness :
  last (rt_node_map (simplify_tree tree_simplification (λ _, true))) = Some 7 ∧
  simplify_tree tree_simplification (λ i, negb (i =? 7)) =
  simplify_tree tree_simplification (λ _, true).
Proof.
  destruct (C10_root_survives tree_simplification (λ _, true))
    as (_ & _ & Hlast & _ & Hext & _).
  - apply tree_valid_b_correct. reflexivity.
  - split; [exact Hlast|]. apply Hext.
    intros i Hi. apply negb_true_iff, Nat.eqb_neq. exact Hi.
Defined.

(* ================================================================== *)
(** * Fusion by increasing weight: the common account of both builders *)
(* ================================================================== *)

(** The state of a hierarchy under construction, without the working
    structures of either algorithm: the parent and altitude arrays, the
    current region of every vertex of the graph, and the number of tree
    nodes. *)
Record fusion_state := FusionState {
  fs_parents : list nat;
  fs_levels : list Z;
  fs_comp : list nat;
  fs_count : nat
}.

Definition fusion_init (g : ugraph) : fusion_state :=
  FusionState (seq 0 (num_vertices g * 2 - 1))
              (replicate (num_vertices g * 2 - 1) 0%Z)
              (seq 0 (num_vertices g))
              (num_vertices g).

(** The edge [ei] of the graph joins two different regions. *)
Definition crossing (g : ugraph) (comp : list nat) (ei : nat) : Prop :=
  comp !!! source (edge_from_index ei g) ≠ comp !!! target (edge_from_index ei g).

(** The regions at the two ends of the edge [ei] become one new node. *)
Definition fuse (g : ugraph) (w : list Z) (ei : nat) (st : fusion_state) : fusion_state :=
  let e := edge_from_index ei g in
  let a := fs_comp st !!! source e in
  let b := fs_comp st !!! target e in
  let p := fs_count st in
  FusionState (<[b := p]> (<[a := p]> (fs_parents st)))
              (<[p := w !!! ei]> (fs_levels st))
              ((λ c, if decide (c = a ∨ c = b) then p else c) <$> fs_comp st)
              (S p).

(** One fusion: along the first edge, in the sorted order, that joins two
    different regions. *)
Definition fusion_step (g : ugraph) (w : list Z) (st : fusion_state) : fusion_state :=
  match list_find (crossing g (fs_comp st)) (sorted_edges_indices g w) with
  | Some (_, ei) => fuse g w ei st
  | None => st
  end.

Definition fusion_run (g : ugraph) (w : list Z) (j : nat) : fusion_state :=
  Nat.iter j (fusion_step g w) (fusion_init g).

(** The state of the Kruskal loop seen as a fusion state. *)
Record canonical_rel (g : ugraph) (st : kruskal_state) (fs : fusion_state) : Prop :=
  CanonicalRel {
  cr_parents : fs_parents fs = k_parents st;
  cr_levels : fs_levels fs = k_levels st;
  cr_count : fs_count fs = k_num_nodes st;
  cr_comp_length : length (fs_comp fs) = num_vertices g;
  cr_comp : ∀ v, v < num_vertices g →
    fs_comp fs !!! v = k_roots st !!! uf_rep (k_uf st) v
}.

Lemma canonical_rel_init g : canonical_rel g (kruskal_init g) (fusion_init g).
Proof.
  split; simpl; try done.
  - apply length_seq.
  - intros v Hv. rewrite uf_rep_root.
    + done.
    + apply uf_make_inv.
    + split; [by rewrite uf_make_size|by apply uf_make_parent].
Qed.

Lemma canonical_rel_step g w P st fs ei rest :
  graph_wf g → 0 < num_vertices g →
  sorted_edges_indices g w = P ++ ei :: rest →
  kruskal_inv g P st → kruskal_tree_inv g w P st →
  canonical_rel g st fs →
  (k_num_edge_found (kruskal_step g w ei st) = k_num_edge_found st ∧
   canonical_rel g (kruskal_step g w ei st) fs) ∨
  (k_num_edge_found (kruskal_step g w ei st) = S (k_num_edge_found st) ∧
   canonical_rel g (kruskal_step g w ei st) (fusion_step g w fs)).
Proof.
  intros Hwf Hn HL Hinv Htree Hrel.
  assert (ei < num_edges g) as Hei.
  { apply (sorted_edges_indices_elem g w). rewrite HL. apply elem_of_app. right. by left. }
  destruct (edge_from_index_wf g ei Hwf Hei) as [Hsrc Htgt].
  pose proof (ki_models g P st Hinv) as Hm.
  pose proof (uf_union_spec _ _ _ _ _ Hm Hsrc Htgt) as Hspec. cbv zeta in Hspec.
  pose proof (kruskal_step_cases g w ei st) as Hcases. cbv zeta in Hcases.
  set (e := edge_from_index ei g) in *.
  set (c1 := (uf_find (k_uf st) (source e)).1) in *.
  set (uf1 := (uf_find (k_uf st) (source e)).2) in *.
  set (c2 := (uf_find uf1 (target e)).1) in *.
  set (uf2 := (uf_find uf1 (target e)).2) in *.
  destruct Hspec as (Hc1 & Hc2 & Hinv2 & Hsize2 & Hcnt2 & Hroot2 & Hrep2 & _ & _).
  destruct Hrel as [Hp Hl Hcnt Hcl Hcomp].
  destruct Hcases as [[Hc ->]|[Hc ->]].
  - left. split; [done|]. split; kstate_simpl; try done.
    intros v Hv. rewrite Hrep2 by done. by apply Hcomp.
  - right. split; [done|].
    assert (uf_is_root uf2 c1) as Hr1.
    { rewrite Hroot2, Hc1. apply uf_rep_is_root; [apply Hm|by rewrite (um_size _ _ _ Hm)]. }
    assert (uf_is_root uf2 c2) as Hr2.
    { rewrite Hroot2, Hc2. apply uf_rep_is_root; [apply Hm|by rewrite (um_size _ _ _ Hm)]. }
    destruct (uf_link_spec uf2 c1 c2 Hinv2 Hr1 Hr2 Hc)
      as (Hr & Hinv3 & Hsize3 & Hcnt3 & Hroot3 & Hrep3).
    cbv zeta in Hr, Hinv3, Hsize3, Hcnt3, Hroot3, Hrep3.
    rewrite Hsize2 in Hsize3, Hrep3.
    apply Hroot2 in Hr1 as Hr1', Hr2 as Hr2'.
    assert (fs_comp fs !!! source e = k_roots st !!! c1) as Ha by (rewrite Hc1; by apply Hcomp).
    assert (fs_comp fs !!! target e = k_roots st !!! c2) as Hb by (rewrite Hc2; by apply Hcomp).
    assert (k_roots st !!! c1 ≠ k_roots st !!! c2) as Hab.
    { intros Heq. apply Hc. by apply (kt_root_inj _ _ _ _ Htree). }
    assert (list_find (crossing g (fs_comp fs)) (sorted_edges_indices g w) =
            Some (length P, ei)) as Hfind.
    { apply list_find_Some. split; [|split].
      - rewrite HL. by apply list_lookup_middle.
      - unfold crossing. fold e. by rewrite Ha, Hb.
      - intros j y Hj Hlt. rewrite HL, lookup_app_l in Hj by done.
        apply list_elem_of_lookup_2 in Hj.
        assert (edge_from_index y g ∈ edges_of g P) as Hin by (by apply edges_of_elem).
        destruct (edge_from_index y g) as [u v] eqn:Hy.
        destruct (um_complete _ _ _ Hm u v Hin) as (Hu & Hv & Huv).
        unfold crossing. rewrite Hy. simpl. rewrite !Hcomp by done. rewrite Huv. tauto. }
    unfold fusion_step. rewrite Hfind. unfold fuse. fold e. rewrite Ha, Hb.
    split; kstate_simpl; cbn [fs_parents fs_levels fs_comp fs_count].
    + by rewrite Hp, Hcnt.
    + by rewrite Hl, Hcnt.
    + by rewrite Hcnt.
    + by rewrite length_fmap.
    + intros v Hv. rewrite lookup_total_fmap by lia.
      rewrite Hcomp by done. rewrite Hrep3, Hrep2 by done.
      pose proof (uf_rep_is_root _ (um_inv _ _ _ Hm) v) as Hvr.
      rewrite (um_size _ _ _ Hm) in Hvr. specialize (Hvr Hv).
      destruct (decide (uf_rep (k_uf st) v = c1 ∨ uf_rep (k_uf st) v = c2)) as [Hv12|Hv12].
      * rewrite decide_True by (destruct Hv12 as [-> | ->]; auto).
        rewrite list_lookup_total_insert_eq; [done|].
        rewrite (kt_roots_length _ _ _ _ Htree).
        destruct Hr1 as [? _], Hr2 as [? _]. rewrite Hsize2 in *.
        destruct Hr as [-> | ->]; done.
      * rewrite decide_False.
        -- rewrite list_lookup_total_insert_ne; [done|].
           destruct Hr as [-> | ->]; intros Heq; apply Hv12; auto.
        -- intros [Heq|Heq]; apply Hv12; [left|right];
             by apply (kt_root_inj _ _ _ _ Htree).
Qed.

(** The Kruskal loop makes the fusions of [fusion_run], one per merge. *)
Lemma kruskal_run_fusion g w j :
  graph_wf g → 0 < num_vertices g → j ≤ num_edges g →
  let st := kruskal_run g w (take j (sorted_edges_indices g w)) (kruskal_init g) in
  canonical_rel g st (fusion_run g w (k_num_edge_found st)).
Proof.
  intros Hwf Hn. set (L := sorted_edges_indices g w).
  assert (length L = num_edges g) as Hlen.
  { unfold L. rewrite sorted_edges_indices_perm. apply length_seq. }
  induction j as [|j IH]; intros Hj st.
  { subst st. rewrite take_0. apply canonical_rel_init. }
  specialize (IH ltac:(lia)). cbv zeta in IH.
  destruct (kruskal_run_tree_inv g w j Hwf Hn ltac:(lia)) as [Hinv Htree].
  fold L in Hinv, Htree, IH.
  destruct (lookup_lt_is_Some_2 L j) as [e He]; [lia|].
  assert (take (S j) L = take j L ++ [e]) as HP by (by apply take_S_r).
  subst st. rewrite HP, kruskal_run_snoc.
  set (st0 := kruskal_run g w (take j L) (kruskal_init g)) in *.
  assert (L = take j L ++ e :: drop (S j) L) as HL.
  { rewrite <-(take_drop j L) at 1. f_equal. by apply drop_S. }
  destruct (canonical_rel_step g w (take j L) st0 _ e (drop (S j) L) Hwf Hn HL Hinv Htree IH)
    as [[-> H]|[-> H]]; [done|].
  exact H.
Qed.

Lemma kruskal_final_fusion g w :
  graph_wf g → connected g →
  canonical_rel g (kruskal_final g w) (fusion_run g w (num_vertices g - 1)).
Proof.
  intros Hwf Hc. pose proof Hc as [Hn _].
  apply (kruskal_final_connected g w Hwf Hn) in Hc.
  destruct (kruskal_final_spec g w Hwf Hn) as (k & Hk & Heq & _).
  pose proof (kruskal_run_fusion g w k Hwf Hn Hk) as H. cbv zeta in H.
  rewrite <-Heq, Hc in H. exact H.
Qed.

(* ================================================================== *)
(** * The priority queue *)
(* ================================================================== *)

Lemma foldl_min_spec {A} (f : A → Z) (a : Z) (l : list A) :
  let m := foldl (λ m x, Z.min m (f x)) a l in
  (m ≤ a)%Z ∧ (∀ x, x ∈ l → (m ≤ f x)%Z) ∧ (m = a ∨ ∃ x, x ∈ l ∧ m = f x).
Proof.
  revert a. induction l as [|y l IH]; intros a; simpl.
  { split; [lia|]. split; [|by left]. intros x Hx. by apply elem_of_nil in Hx. }
  destruct (IH (Z.min a (f y))) as (H1 & H2 & H3).
  split; [lia|]. split.
  - intros x Hx. apply elem_of_cons in Hx as [->|Hx]; [lia|by apply H2].
  - destruct H3 as [H3|(x & Hx & H3)].
    + destruct (Z.min_spec a (f y)) as [[_ Hm]|[_ Hm]].
      * left. lia.
      * right. exists y. split; [by left|lia].
    + right. exists x. split; [by right|done].
Qed.

Lemma heap_min_value_spec h m :
  heap_min_value h = Some m →
  (∃ e, e ∈ heap_entries h ∧ he_value e.2 = m) ∧
  ∀ e, e ∈ heap_entries h → (m ≤ he_value e.2)%Z.
Proof.
  unfold heap_min_value. destruct (heap_entries h) as [|e l]; [done|].
  intros [= <-].
  destruct (foldl_min_spec (λ e' : nat * heap_element, he_value e'.2) (he_value e.2) l)
    as (H1 & H2 & H3).
  split.
  - destruct H3 as [H3|(x & Hx & H3)].
    + exists e. split; [by left|done].
    + exists x. split; [by right|done].
  - intros e' He'. apply elem_of_cons in He' as [->|He']; [done|by apply H2].
Qed.

Lemma heap_top_spec pick h hd x :
  heap_top pick h = Some (hd, x) →
  (hd, x) ∈ heap_entries h ∧
  ∀ e, e ∈ heap_entries h → (he_value x ≤ he_value e.2)%Z.
Proof.
  unfold heap_top. destruct (heap_min_value h) as [m|] eqn:Hm; [|done].
  destruct (heap_min_value_spec h m Hm) as [_ Hmin].
  intros Hlook. apply list_elem_of_lookup_2 in Hlook.
  apply list_elem_of_filter in Hlook as [Hv Hin]. simpl in Hv.
  split; [done|]. intros e He. rewrite Hv. by apply Hmin.
Qed.

Lemma heap_top_is_Some pick h :
  heap_entries h ≠ [] → is_Some (heap_top pick h).
Proof.
  intros Hne. unfold heap_top.
  destruct (heap_min_value h) as [m|] eqn:Hm.
  - destruct (heap_min_value_spec h m Hm) as [(e & He & Hv) _].
    apply lookup_lt_is_Some_2.
    assert (e ∈ filter (λ e, he_value e.2 = m) (heap_entries h)) as Hin.
    { by apply list_elem_of_filter. }
    destruct (filter _ _) as [|y l]; [by apply elem_of_nil in Hin|].
    apply Nat.mod_upper_bound. done.
  - unfold heap_min_value in Hm. by destruct (heap_entries h).
Qed.

Lemma heap_empty_false h : heap_empty h = false ↔ heap_entries h ≠ [].
Proof. unfold heap_empty. by rewrite bool_decide_eq_false. Qed.

Lemma heap_erase_entries hd h :
  heap_entries (heap_erase hd h) = filter (λ e, e.1 ≠ hd) (heap_entries h).
Proof. done. Qed.

(** Removing the element of a handle removes exactly one element. *)
Lemma heap_erase_length hd x h :
  NoDup (heap_entries h).*1 → (hd, x) ∈ heap_entries h →
  S (length (heap_entries (heap_erase hd h))) = length (heap_entries h).
Proof.
  rewrite heap_erase_entries. generalize (heap_entries h). clear h.
  induction l as [|[h' y] l IH]; intros Hnd Hin; [by apply elem_of_nil in Hin|].
  rewrite fmap_cons in Hnd. apply NoDup_cons in Hnd as [Hh' Hnd]. simpl in Hh'.
  rewrite filter_cons. simpl.
  apply elem_of_cons in Hin as [Heq|Hin].
  - simplify_eq. rewrite decide_False by (intros H; by apply H).
    f_equal. clear IH Hnd.
    induction l as [|[h'' z] l IH]; [done|].
    rewrite fmap_cons in Hh'. apply not_elem_of_cons in Hh' as [Hne Hh'].
    rewrite filter_cons. simpl in *. rewrite decide_True by done. simpl. f_equal. by apply IH.
  - assert (h' ≠ hd) as Hne.
    { intros ->. apply Hh'. by apply (list_elem_of_fmap_2 fst) in Hin. }
    rewrite decide_True by done. simpl. f_equal. by apply IH.
Qed.

(* ================================================================== *)
(** * The neighbours of a fusion *)
(* ================================================================== *)

(** The edges of a descriptor. *)
Definition nn_edges {T} (d : new_neighbour T) : list nat :=
  first_edge_index d :: match second_edge_index d with Some e => [e] | None => [] end.

(** The body of the loop of [explore_region], with the far end of an edge
    given by [ν]. *)
Definition explore_step (ν : nat → nat)
    (st : list (new_neighbour Z) * list (option nat)) (e : nat)
    : list (new_neighbour Z) * list (option nat) :=
  let '(new_neighbours, new_neighbour_indices) := st in
  let n := ν e in
  match new_neighbour_indices !!! n with
  | Some k => (alter (set_second_edge_index e) k new_neighbours, new_neighbour_indices)
  | None => (new_neighbours ++ [NewNeighbour n e None 0%Z],
             <[n := Some (length new_neighbours)]> new_neighbour_indices)
  end.

Lemma explore_region_fold g region st :
  explore_region g region st =
  foldl (explore_step (λ e, other_vertex e region g)) st (out_edges region g).
Proof.
  unfold explore_region. generalize (out_edges region g). intros es. revert st.
  induction es as [|x es IH]; intros [D idx]; [done|]. simpl. rewrite <-IH. done.
Qed.

Lemma explore_step_ext ν ν' es st :
  (∀ x, x ∈ es → ν x = ν' x) →
  foldl (explore_step ν) st es = foldl (explore_step ν') st es.
Proof.
  revert st. induction es as [|x es IH]; intros st Hext; [done|]. simpl.
  assert (explore_step ν st x = explore_step ν' st x) as ->.
  { unfold explore_step. destruct st. rewrite (Hext x) by by left. done. }
  apply IH. intros y Hy. apply Hext. by right.
Qed.

Record explore_inv (ν : nat → nat) (B : nat) (visited : list nat)
    (D : list (new_neighbour Z)) (idx : list (option nat)) : Prop := ExploreInv {
  ei_length : length idx = B;
  ei_idx : ∀ v k, idx !!! v = Some k ↔ ∃ d, D !! k = Some d ∧ neighbour_vertex d = v;
  ei_nu : ∀ d x, d ∈ D → x ∈ nn_edges d → ν x = neighbour_vertex d;
  ei_perm : D ≫= nn_edges ≡ₚ visited
}.

Lemma explore_inv_nil ν B : explore_inv ν B [] [] (replicate B None).
Proof.
  split.
  - apply length_replicate.
  - intros v k. split.
    + intros Hv. destruct (decide (v < B)) as [Hlt|Hge].
      * by rewrite lookup_total_replicate_2 in Hv.
      * rewrite list_lookup_total_alt in Hv.
        rewrite (proj1 (lookup_replicate_None B None v)) in Hv by lia. done.
    + intros (d & Hd & _). by rewrite lookup_nil in Hd.
  - intros d x Hd. by apply elem_of_nil in Hd.
  - done.
Qed.

Lemma nn_edges_first {T} (d : new_neighbour T) : first_edge_index d ∈ nn_edges d.
Proof. by left. Qed.

Lemma nn_edges_second {T} (d : new_neighbour T) y :
  second_edge_index d = Some y → y ∈ nn_edges d.
Proof. intros H. unfold nn_edges. rewrite H. right. by left. Qed.

Lemma elem_of_nn_edges {T} (d : new_neighbour T) x :
  x ∈ nn_edges d ↔ x = first_edge_index d ∨ second_edge_index d = Some x.
Proof.
  unfold nn_edges. rewrite elem_of_cons. destruct (second_edge_index d) as [y|].
  - rewrite list_elem_of_singleton.
    split; intros [H|H]; [by left|right; congruence|by left|right; congruence].
  - rewrite elem_of_nil. split; intros [H|H]; [by left|done|by left|done].
Qed.

Lemma bind_nn_edges_elem {T} (D : list (new_neighbour T)) d x :
  d ∈ D → x ∈ nn_edges d → x ∈ D ≫= nn_edges.
Proof. intros Hd Hx. apply list_elem_of_bind. by exists d. Qed.

(** In a list of descriptors without a repeated edge, the two edges of a
    descriptor are different. *)
Lemma nn_edges_NoDup_second {T} (D : list (new_neighbour T)) d y :
  NoDup (D ≫= nn_edges) → d ∈ D → second_edge_index d = Some y →
  y ≠ first_edge_index d.
Proof.
  intros Hnd Hd Hy. apply list_elem_of_split in Hd as (D1 & D2 & ->).
  rewrite bind_app, bind_cons in Hnd.
  apply NoDup_app in Hnd as (_ & _ & Hnd).
  apply NoDup_app in Hnd as (Hnd & _ & _).
  unfold nn_edges in Hnd. rewrite Hy in Hnd.
  apply NoDup_cons in Hnd as [Hnd _]. intros ->. apply Hnd. by left.
Qed.

Lemma explore_inv_NoDup ν B visited D idx :
  NoDup visited → explore_inv ν B visited D idx → NoDup (D ≫= nn_edges).
Proof. intros Hnd [_ _ _ Hperm]. by rewrite Hperm. Qed.

Lemma explore_inv_visited ν B visited D idx d x :
  explore_inv ν B visited D idx → d ∈ D → x ∈ nn_edges d → x ∈ visited.
Proof.
  intros [_ _ _ Hperm] Hd Hx. rewrite <-Hperm. by apply (bind_nn_edges_elem D d).
Qed.

Lemma explore_inv_step ν B visited D idx x :
  explore_inv ν B visited D idx →
  NoDup visited → x ∉ visited → ν x < B →
  (∀ y z, y ∈ visited → z ∈ visited → y ≠ z → ν y = ν x → ν z = ν x → False) →
  explore_inv ν B (visited ++ [x]) (explore_step ν (D, idx) x).1 (explore_step ν (D, idx) x).2.
Proof.
  intros Hinv Hnd Hx HB Htriple. pose proof Hinv as [Hlen Hidx Hnu Hperm].
  unfold explore_step. destruct (idx !!! ν x) as [k|] eqn:Hk; simpl.
  - apply Hidx in Hk as (d & Hd & Hnb).
    assert (d ∈ D) as HdD by by eapply list_elem_of_lookup_2.
    assert (second_edge_index d = None) as Hsnd.
    { destruct (second_edge_index d) as [y|] eqn:Hy; [|done]. exfalso.
      apply (Htriple (first_edge_index d) y).
      - eapply explore_inv_visited; [done..|apply nn_edges_first].
      - eapply explore_inv_visited; [done..|by apply nn_edges_second].
      - intros Heq. eapply nn_edges_NoDup_second; [|done..].
        by eapply explore_inv_NoDup.
      - rewrite <-Hnb. apply Hnu; [done|apply nn_edges_first].
      - rewrite <-Hnb. apply Hnu; [done|by apply nn_edges_second]. }
    split; [done|..].
    + intros v k'. rewrite Hidx, list_lookup_alter.
      destruct (decide (k = k')) as [<-|Hne]; [|done].
      rewrite Hd. simpl. split.
      * intros (d' & [= <-] & <-). by eexists.
      * intros (d' & [= <-] & <-). by eexists.
    + intros d' x' Hd' Hx'. apply list_elem_of_lookup in Hd' as [k' Hd'].
      rewrite list_lookup_alter in Hd'.
      destruct (decide (k = k')) as [<-|Hne].
      * rewrite Hd in Hd'. simpl in Hd'. injection Hd' as <-. simpl.
        apply elem_of_nn_edges in Hx'. simpl in Hx'. destruct Hx' as [->|[= <-]].
        -- apply Hnu; [done|apply nn_edges_first].
        -- done.
      * apply Hnu; [|done]. by eapply list_elem_of_lookup_2.
    + rewrite <-Hperm. rewrite <-(take_drop_middle D k d Hd) at 2.
      rewrite <-(take_drop_middle D k d Hd) at 1.
      assert (length (take k D) = k) as Hlk.
      { apply lookup_lt_Some in Hd. rewrite length_take. lia. }
      replace k with (length (take k D) + 0) at 1 by lia.
      rewrite alter_app_r. simpl. rewrite !bind_app, !bind_cons.
      unfold nn_edges at 2 4. simpl. rewrite Hsnd. simpl.
      rewrite <-!app_assoc. apply Permutation_app_head. simpl.
      apply Permutation_cons; [done|]. apply Permutation_cons_append.
  - split.
    + by rewrite length_insert.
    + intros v k. destruct (decide (v = ν x)) as [->|Hne].
      * rewrite list_lookup_total_insert, decide_True by lia. split.
        -- intros [= <-]. eexists. split; [apply list_lookup_middle; done|done].
        -- intros (d & Hd & Hnb). f_equal.
           destruct (decide (k < length D)) as [Hlt|Hge].
           ++ rewrite lookup_app_l in Hd by done.
              assert (idx !!! ν x = Some k) as Hc by (apply Hidx; by exists d).
              congruence.
           ++ destruct (decide (k = length D)) as [->|Hne]; [done|].
              rewrite lookup_ge_None_2 in Hd; [done|]. rewrite length_app. simpl. lia.
      * rewrite list_lookup_total_insert_ne by done. rewrite Hidx. split.
        -- intros (d & Hd & Hnb). exists d. split; [|done].
           rewrite lookup_app_l; [done|]. by eapply lookup_lt_Some.
        -- intros (d & Hd & Hnb). exists d. split; [|done].
           apply lookup_app_Some in Hd as [Hd|[Hge Hd]]; [done|].
           apply list_lookup_singleton_Some in Hd as [_ <-]. simpl in Hnb. congruence.
    + intros d x' Hd Hx'. apply elem_of_app in Hd as [Hd|Hd].
      * by apply Hnu.
      * apply list_elem_of_singleton in Hd as ->.
        apply elem_of_nn_edges in Hx'. simpl in Hx'. destruct Hx' as [->|[=]]. done.
    + rewrite bind_app, Hperm. simpl. done.
Qed.

Lemma explore_fold ν B es :
  NoDup es → (∀ x, x ∈ es → ν x < B) →
  (∀ x y z, x ∈ es → y ∈ es → z ∈ es → x ≠ y → y ≠ z → x ≠ z →
            ν x = ν z → ν y = ν z → False) →
  explore_inv ν B es (foldl (explore_step ν) ([], replicate B None) es).1
                     (foldl (explore_step ν) ([], replicate B None) es).2.
Proof.
  induction es as [|x es IH] using rev_ind; intros Hnd HB Htriple.
  { apply explore_inv_nil. }
  apply NoDup_app in Hnd as (Hnd & Hdisj & _).
  rewrite foldl_snoc.
  destruct (foldl (explore_step ν) ([], replicate B None) es) as [D idx] eqn:Hfold.
  apply explore_inv_step.
  - apply IH; [done|..].
    + intros y Hy. apply HB. apply elem_of_app. by left.
    + intros a b c Ha Hb Hc. apply Htriple; apply elem_of_app; by left.
  - done.
  - intros Hx. apply (Hdisj x Hx). by left.
  - apply HB. apply elem_of_app. right. by left.
  - intros y z Hy Hz Hne H1 H2. apply (Htriple y z x); try done.
    + apply elem_of_app. by left.
    + apply elem_of_app. by left.
    + apply elem_of_app. right. by left.
    + intros ->. apply (Hdisj x Hz). by left.
    + intros ->. apply (Hdisj x Hy). by left.
Qed.

(** Line 372-374: the scratch array is cleared. *)
Lemma reset_indices_lookup (D : list (new_neighbour Z)) (idx : list (option nat)) v :
  foldl (λ idx n, <[neighbour_vertex n := None]> idx) idx D !!! v =
  if decide (v ∈ neighbour_vertex <$> D) then None else idx !!! v.
Proof.
  revert idx. induction D as [|d D IH]; intros idx.
  { cbn [foldl]. destruct (decide _) as [Hin|]; [|done]. by apply elem_of_nil in Hin. }
  cbn [foldl]. rewrite fmap_cons.
  rewrite IH. destruct (decide (v ∈ neighbour_vertex <$> D)) as [Hin|Hnin].
  - rewrite decide_True; [done|]. by right.
  - destruct (decide (v = neighbour_vertex d)) as [->|Hne].
    + rewrite decide_True by by left.
      destruct (decide (neighbour_vertex d < length idx)) as [Hlt|Hge].
      * by rewrite list_lookup_total_insert, decide_True.
      * rewrite list_insert_ge by lia.
        rewrite list_lookup_total_alt, lookup_ge_None_2; [done|lia].
    + rewrite list_lookup_total_insert_ne by done.
      rewrite decide_False; [done|]. intros Hin.
      apply elem_of_cons in Hin as [?|?]; done.
Qed.

Lemma reset_indices_length (D : list (new_neighbour Z)) (idx : list (option nat)) :
  length (foldl (λ idx n, <[neighbour_vertex n := None]> idx) idx D) = length idx.
Proof.
  revert idx. induction D as [|d D IH]; intros idx; simpl; [done|].
  by rewrite IH, length_insert.
Qed.

Lemma explore_inv_reset ν B visited D idx :
  explore_inv ν B visited D idx →
  foldl (λ idx n, <[neighbour_vertex n := None]> idx) idx D = replicate B None.
Proof.
  intros [Hlen Hidx _ _].
  apply (list_eq_same_length _ _ B); [by rewrite length_replicate| |].
  { by rewrite reset_indices_length. }
  intros i x y Hi Hx Hy. apply lookup_replicate in Hy as [-> _].
  apply list_lookup_total_correct in Hx. rewrite reset_indices_lookup in Hx.
  destruct (decide (i ∈ neighbour_vertex <$> D)) as [Hin|Hnin]; [done|].
  destruct x as [k|]; [|done]. exfalso.
  apply Hidx in Hx as (d & Hd & Hnb). apply Hnin.
  apply list_elem_of_fmap. exists d. split; [done|]. by eapply list_elem_of_lookup_2.
Qed.

Lemma explore_inv_NoDup_neighbours ν B visited D idx :
  explore_inv ν B visited D idx → NoDup (neighbour_vertex <$> D).
Proof.
  intros [_ Hidx _ _]. apply NoDup_alt. intros i j v Hi Hj.
  apply list_lookup_fmap_Some in Hi as (d1 & -> & Hd1).
  apply list_lookup_fmap_Some in Hj as (d2 & Heq & Hd2).
  assert (idx !!! neighbour_vertex d1 = Some i) as H1 by (apply Hidx; by exists d1).
  assert (idx !!! neighbour_vertex d1 = Some j) as H2 by (apply Hidx; by exists d2).
  congruence.
Qed.

(* ================================================================== *)
(** * The minimum linkage over the descriptors *)
(* ================================================================== *)

Definition min_weight (mw : list Z) (d : new_neighbour Z) : Z :=
  match second_edge_index d with
  | Some e2 => Z.min (mw !!! first_edge_index d) (mw !!! e2)
  | None => mw !!! first_edge_index d
  end.

Lemma min_linkage_body_eq mw d :
  min_linkage_body mw d =
  (<[first_edge_index d := min_weight mw d]> mw, set_new_edge_weight (min_weight mw d) d).
Proof.
  unfold min_linkage_body, min_weight, new_edge_index.
  destruct (second_edge_index d) as [e2|]; [|done].
  destruct (Z.ltb_spec (mw !!! e2) (mw !!! first_edge_index d)).
  - by rewrite Z.min_r by lia.
  - by rewrite Z.min_l by lia.
Qed.

(** Writes at the edges of the descriptors: [f1] at the first edge and,
    when [f2] is given, [f2] at the second edge. *)
Definition write_edges {A} (f1 : new_neighbour Z → A) (f2 : option A)
    (D : list (new_neighbour Z)) (l : list A) : list A :=
  foldl (λ l d,
           <[first_edge_index d := f1 d]>
             match second_edge_index d, f2 with
             | Some e2, Some v => <[e2 := v]> l
             | _, _ => l
             end) l D.

Section WriteEdges.
Context {A : Type} `{Inhabited A} (f1 : new_neighbour Z → A) (f2 : option A).

Lemma write_edges_cons d D l :
  write_edges f1 f2 (d :: D) l =
  write_edges f1 f2 D
    (<[first_edge_index d := f1 d]>
       match second_edge_index d, f2 with
       | Some e2, Some v => <[e2 := v]> l
       | _, _ => l
       end).
Proof. done. Qed.

Lemma write_edges_length D l : length (write_edges f1 f2 D l) = length l.
Proof.
  revert l. induction D as [|d D IH]; intros l; [done|].
  rewrite write_edges_cons, IH, length_insert.
  destruct (second_edge_index d), f2; by rewrite ?length_insert.
Qed.

Lemma write_edges_other D l x :
  x ∉ D ≫= nn_edges → write_edges f1 f2 D l !!! x = l !!! x.
Proof.
  revert l. induction D as [|d D IH]; intros l Hx; [done|].
  rewrite bind_cons in Hx. apply not_elem_of_app in Hx as [Hd HD].
  rewrite write_edges_cons, IH by done.
  rewrite list_lookup_total_insert_ne.
  2:{ intros <-. apply Hd, nn_edges_first. }
  destruct (second_edge_index d) as [e2|] eqn:He2; [|done].
  destruct f2 as [v|]; [|done].
  rewrite list_lookup_total_insert_ne; [done|].
  intros <-. apply Hd. by apply nn_edges_second.
Qed.

Lemma write_edges_first D l d :
  NoDup (D ≫= nn_edges) → d ∈ D → first_edge_index d < length l →
  write_edges f1 f2 D l !!! first_edge_index d = f1 d.
Proof.
  revert l. induction D as [|d0 D IH]; intros l Hnd Hd Hlt.
  { by apply elem_of_nil in Hd. }
  rewrite bind_cons in Hnd. apply NoDup_app in Hnd as (Hnd0 & Hdisj & Hnd).
  rewrite write_edges_cons. apply elem_of_cons in Hd as [->|Hd].
  - rewrite write_edges_other.
    2:{ intros Hin. apply (Hdisj (first_edge_index d0)); [apply nn_edges_first|done]. }
    rewrite list_lookup_total_insert, decide_True; [done|].
    split; [done|]. destruct (second_edge_index d0), f2; by rewrite ?length_insert.
  - apply IH; [done..|].
    rewrite length_insert. destruct (second_edge_index d0), f2; by rewrite ?length_insert.
Qed.

Lemma write_edges_second D l d y v :
  NoDup (D ≫= nn_edges) → d ∈ D → second_edge_index d = Some y → f2 = Some v →
  y < length l →
  write_edges f1 f2 D l !!! y = v.
Proof.
  revert l. induction D as [|d0 D IH]; intros l Hnd Hd Hy Hv Hlt.
  { by apply elem_of_nil in Hd. }
  pose proof Hnd as Hnd'.
  rewrite bind_cons in Hnd. apply NoDup_app in Hnd as (Hnd0 & Hdisj & Hnd).
  rewrite write_edges_cons. apply elem_of_cons in Hd as [->|Hd].
  - rewrite write_edges_other.
    2:{ intros Hin. apply (Hdisj y); [by apply nn_edges_second|done]. }
    rewrite Hy, Hv. rewrite list_lookup_total_insert_ne.
    2:{ intros Heq. eapply (nn_edges_NoDup_second (d0 :: D) d0 y); [done|by left|done|done]. }
    by rewrite list_lookup_total_insert, decide_True.
  - apply (IH _ Hnd Hd Hy Hv).
    rewrite length_insert. destruct (second_edge_index d0), f2; by rewrite ?length_insert.
Qed.
End WriteEdges.

Lemma write_edges_second_keep {A} `{Inhabited A} (f1 : new_neighbour Z → A) D l d y :
  NoDup (D ≫= nn_edges) → d ∈ D → second_edge_index d = Some y →
  write_edges f1 None D l !!! y = l !!! y.
Proof.
  revert l. induction D as [|d0 D IH]; intros l Hnd Hd Hy.
  { by apply elem_of_nil in Hd. }
  pose proof Hnd as Hnd'.
  rewrite bind_cons in Hnd. apply NoDup_app in Hnd as (Hnd0 & Hdisj & Hnd).
  rewrite write_edges_cons. apply elem_of_cons in Hd as [->|Hd].
  - rewrite write_edges_other.
    2:{ intros Hin. apply (Hdisj y); [by apply nn_edges_second|done]. }
    rewrite Hy. rewrite list_lookup_total_insert_ne; [done|].
    intros Heq. eapply (nn_edges_NoDup_second (d0 :: D) d0 y); [done|by left|done|done].
  - rewrite (IH _ Hnd Hd Hy).
    assert (first_edge_index d0 ≠ y) as Hne.
    { intros Heq. apply (Hdisj y).
      - rewrite <-Heq. apply nn_edges_first.
      - apply (bind_nn_edges_elem D d); [done|by apply nn_edges_second]. }
    rewrite list_lookup_total_insert_ne by done.
    by destruct (second_edge_index d0).
Qed.

(** The minimum linkage reads, for every descriptor, the weights that the
    edges had when the rule was entered. *)
Lemma min_linkage_spec mw0 mw D :
  NoDup (D ≫= nn_edges) →
  (∀ x, x ∈ D ≫= nn_edges → mw !!! x = mw0 !!! x) →
  for_each_neighbour min_linkage_body mw D =
    (write_edges (min_weight mw0) None D mw,
     (λ d, set_new_edge_weight (min_weight mw0 d) d) <$> D).
Proof.
  revert mw. induction D as [|d D IH]; intros mw Hnd Hagree; [done|].
  rewrite for_each_neighbour_cons, min_linkage_body_eq. cbn [fst snd].
  rewrite bind_cons in Hnd, Hagree. apply NoDup_app in Hnd as (Hnd0 & Hdisj & Hnd).
  assert (min_weight mw d = min_weight mw0 d) as ->.
  { unfold min_weight. rewrite (Hagree (first_edge_index d)).
    2:{ apply elem_of_app. left. apply nn_edges_first. }
    destruct (second_edge_index d) as [e2|] eqn:He2; [|done].
    rewrite (Hagree e2); [done|]. apply elem_of_app. left. by apply nn_edges_second. }
  rewrite IH; [|done|].
  - rewrite fmap_cons, write_edges_cons. by destruct (second_edge_index d).
  - intros x Hx. rewrite list_lookup_total_insert_ne.
    + apply Hagree. apply elem_of_app. by right.
    + intros <-. apply (Hdisj (first_edge_index d)); [apply nn_edges_first|done].
Qed.

(* ================================================================== *)
(** * The update of the graph, of the flags and of the heap *)
(* ================================================================== *)

Definition heap_updates (handles : list (option nat)) (wf : new_neighbour Z → Z)
    (D : list (new_neighbour Z)) (hp : heap) : heap :=
  foldl (λ hp d,
           match handles !!! first_edge_index d with
           | Some hd => heap_update hd (HeapElement (wf d) (first_edge_index d)) hp
           | None => hp
           end) hp D.

Lemma process_fold p handles (wf : new_neighbour Z → Z) D G act hp :
  foldl (λ s nn, bpt_process_neighbour p s handles nn) (G, act, hp)
        ((λ d, set_new_edge_weight (wf d) d) <$> D) =
  (UndirectedGraph (ug_num_vertices G)
     (write_edges (λ d, Some (neighbour_vertex d, p)) (Some None) D (ug_edges G)),
   write_edges (λ _, true) (Some false) D act,
   heap_updates handles wf D hp).
Proof.
  revert G act hp. induction D as [|d D IH]; intros G act hp.
  { by destruct G. }
  rewrite fmap_cons. cbn [foldl]. unfold bpt_process_neighbour at 2.
  cbn [set_new_edge_weight second_edge_index first_edge_index neighbour_vertex
       new_edge_weight].
  destruct (second_edge_index d) as [e2|] eqn:He2.
  - rewrite IH. unfold heap_updates, write_edges. cbn [foldl]. rewrite He2. done.
  - rewrite IH. unfold heap_updates, write_edges. cbn [foldl]. rewrite He2. done.
Qed.

Lemma heap_update_handles hd x hp :
  (heap_entries (heap_update hd x hp)).*1 = (heap_entries hp).*1.
Proof.
  unfold heap_update. cbn [heap_entries]. rewrite <-list_fmap_compose.
  apply list_fmap_ext. intros i [h y] _. simpl.
  destruct (Nat.eqb_spec h hd); by subst.
Qed.

Lemma heap_update_elem hd x hp h y :
  (h, y) ∈ heap_entries (heap_update hd x hp) ↔
  (h ≠ hd ∧ (h, y) ∈ heap_entries hp) ∨ (h = hd ∧ y = x ∧ hd ∈ (heap_entries hp).*1).
Proof.
  unfold heap_update. cbn [heap_entries]. rewrite list_elem_of_fmap. split.
  - intros ([h' y'] & Heq & Hin). simpl in Heq.
    destruct (Nat.eqb_spec h' hd) as [->|Hne].
    + injection Heq as -> ->. right. split; [done|]. split; [done|].
      apply list_elem_of_fmap. by exists (hd, y').
    + injection Heq as -> ->. by left.
  - intros [[Hne Hin]|(-> & -> & Hin)].
    + exists (h, y). split; [|done]. simpl.
      destruct (Nat.eqb_spec h hd); [done|done].
    + apply list_elem_of_fmap in Hin as ([h' y'] & -> & Hin).
      exists (h', y'). split; [|done]. simpl. by rewrite Nat.eqb_refl.
Qed.

Section HeapUpdates.
Context (handles : list (option nat)) (wf : new_neighbour Z → Z).

Lemma heap_updates_cons d D hp :
  heap_updates handles wf (d :: D) hp =
  heap_updates handles wf D
    match handles !!! first_edge_index d with
    | Some hd => heap_update hd (HeapElement (wf d) (first_edge_index d)) hp
    | None => hp
    end.
Proof. done. Qed.

Lemma heap_updates_app D1 D2 hp :
  heap_updates handles wf (D1 ++ D2) hp =
  heap_updates handles wf D2 (heap_updates handles wf D1 hp).
Proof. unfold heap_updates. by rewrite foldl_app. Qed.

Lemma heap_updates_handles D hp :
  (heap_entries (heap_updates handles wf D hp)).*1 = (heap_entries hp).*1.
Proof.
  revert hp. induction D as [|d D IH]; intros hp; [done|].
  rewrite heap_updates_cons, IH.
  destruct (handles !!! first_edge_index d); [apply heap_update_handles|done].
Qed.

Lemma heap_updates_keep D hp h y :
  (h, y) ∈ heap_entries hp →
  (∀ d, d ∈ D → handles !!! first_edge_index d ≠ Some h) →
  (h, y) ∈ heap_entries (heap_updates handles wf D hp).
Proof.
  revert hp. induction D as [|d D IH]; intros hp Hin Hne; [done|].
  rewrite heap_updates_cons. apply IH.
  - destruct (handles !!! first_edge_index d) as [hd|] eqn:Hhd; [|done].
    apply heap_update_elem. left. split; [|done].
    intros ->. apply (Hne d); [by left|done].
  - intros d' Hd'. apply Hne. by right.
Qed.

Lemma heap_updates_new D1 d D2 hp hd :
  handles !!! first_edge_index d = Some hd →
  hd ∈ (heap_entries hp).*1 →
  (∀ d', d' ∈ D2 → handles !!! first_edge_index d' ≠ Some hd) →
  (hd, HeapElement (wf d) (first_edge_index d))
    ∈ heap_entries (heap_updates handles wf (D1 ++ d :: D2) hp).
Proof.
  intros Hhd Hin Hne. rewrite heap_updates_app, heap_updates_cons, Hhd.
  apply heap_updates_keep; [|done].
  apply heap_update_elem. right. split; [done|]. split; [done|].
  by rewrite heap_updates_handles.
Qed.

Lemma heap_updates_elem D hp h y :
  (h, y) ∈ heap_entries (heap_updates handles wf D hp) →
  (h, y) ∈ heap_entries hp ∨
  ∃ d, d ∈ D ∧ handles !!! first_edge_index d = Some h ∧
       y = HeapElement (wf d) (first_edge_index d).
Proof.
  revert hp. induction D as [|d D IH]; intros hp Hin; [by left|].
  rewrite heap_updates_cons in Hin. apply IH in Hin as [Hin|(d' & Hd' & Hh & Hy)].
  - destruct (handles !!! first_edge_index d) as [hd|] eqn:Hhd; [|by left].
    apply heap_update_elem in Hin as [[_ Hin]|(-> & -> & _)]; [by left|].
    right. exists d. split; [by left|done].
  - right. exists d'. split; [by right|done].
Qed.
End HeapUpdates.

(* ================================================================== *)
(** * The working graph as a quotient of the input graph *)
(* ================================================================== *)

(** An unordered pair of vertices. *)
Definition norm_pair (a b : nat) : nat * nat := (a `min` b, a `max` b).

(** The two regions joined by the edge [ei] of the input graph. *)
Definition region_pair (g : ugraph) (comp : list nat) (ei : nat) : nat * nat :=
  norm_pair (comp !!! source (edge_from_index ei g))
            (comp !!! target (edge_from_index ei g)).

(** No self-loop and no two edges between the same two vertices. *)
Definition simple_graph (g : ugraph) : Prop :=
  (∀ e, e < num_edges g → source (edge_from_index e g) ≠ target (edge_from_index e g)) ∧
  (∀ e e', e < num_edges g → e' < num_edges g →
     norm_pair (source (edge_from_index e g)) (target (edge_from_index e g)) =
     norm_pair (source (edge_from_index e' g)) (target (edge_from_index e' g)) →
     e = e').

Lemma norm_pair_eq a b c d :
  norm_pair a b = norm_pair c d ↔ (a = c ∧ b = d) ∨ (a = d ∧ b = c).
Proof.
  unfold norm_pair. split.
  - intros [=]. lia.
  - intros [[-> ->]|[-> ->]]; f_equal; lia.
Qed.

Lemma norm_pair_comm a b : norm_pair a b = norm_pair b a.
Proof. apply norm_pair_eq. by right. Qed.

(** The working graph, the flags and the weights of the rule, against the
    regions [comp] of the vertices of the input graph: an active edge joins
    the two regions of its input edge, it is the only active edge between
    them, every input edge between two regions is covered by an active
    edge, and the weight of an active edge is the least weight of the input
    edges that it covers. *)
Record edges_inv (g : ugraph) (w : list Z) (comp : list nat) (p : nat)
    (ug : list (option (nat * nat))) (act : list bool) (mw : list Z) : Prop := EdgesInv {
  gi_comp_length : length comp = num_vertices g;
  gi_comp_lt : ∀ v, v < num_vertices g → comp !!! v < p;
  gi_ug_length : length ug = num_edges g;
  gi_act_length : length act = num_edges g;
  gi_mw_length : length mw = num_edges g;
  gi_active : ∀ e, e < num_edges g → act !!! e = true →
    ∃ a b, ug !!! e = Some (a, b) ∧ a ≠ b ∧ norm_pair a b = region_pair g comp e;
  gi_inactive : ∀ e, e < num_edges g → act !!! e = false → ug !!! e = None;
  gi_unique : ∀ e e', e < num_edges g → e' < num_edges g →
    act !!! e = true → act !!! e' = true →
    region_pair g comp e = region_pair g comp e' → e = e';
  gi_cover : ∀ x, x < num_edges g → crossing g comp x →
    ∃ e, e < num_edges g ∧ act !!! e = true ∧ region_pair g comp e = region_pair g comp x;
  gi_attained : ∀ e, e < num_edges g → act !!! e = true →
    ∃ x, x < num_edges g ∧ region_pair g comp x = region_pair g comp e ∧
         mw !!! e = w !!! x;
  gi_minimal : ∀ e x, e < num_edges g → act !!! e = true → x < num_edges g →
    region_pair g comp x = region_pair g comp e → (mw !!! e ≤ w !!! x)%Z
}.

(** The heap against the flags: the handles in the heap are distinct, the
    element of a handle names the edge that owns the handle, and every
    active edge has its element, with its current weight, in the heap. *)
Record heap_inv (m : nat) (act : list bool) (mw : list Z) (hp : heap)
    (handles : list (option nat)) : Prop := HeapInv {
  hi_handles_length : length handles = m;
  hi_nodup : NoDup (heap_entries hp).*1;
  hi_entry : ∀ h x, (h, x) ∈ heap_entries hp →
    he_index x < m ∧ handles !!! he_index x = Some h;
  hi_active : ∀ e, e < m → act !!! e = true →
    ∃ h, handles !!! e = Some h ∧ (h, HeapElement (mw !!! e) e) ∈ heap_entries hp
}.

Record bpt_inv (g : ugraph) (w : list Z) (fs : fusion_state) (st : bpt_state (list Z))
    : Prop := BptInv {
  bi_parents : b_parents st = fs_parents fs;
  bi_levels : b_levels st = fs_levels fs;
  bi_count : b_current_num_nodes_tree st = fs_count fs;
  bi_vertices : ug_num_vertices (b_g st) = fs_count fs;
  bi_indices : b_new_neighbour_indices st = replicate (num_vertices g * 2 - 1) None;
  bi_edges : edges_inv g w (fs_comp fs) (fs_count fs) (ug_edges (b_g st)) (b_active st)
                       (b_weighter st);
  bi_heap : heap_inv (num_edges g) (b_active st) (b_weighter st) (b_heap st)
                     (b_heap_handles st)
}.

Lemma heap_inv_entry_unique m act mw hp handles h x y :
  heap_inv m act mw hp handles →
  (h, x) ∈ heap_entries hp → (h, y) ∈ heap_entries hp → x = y.
Proof.
  intros [_ Hnd _ _] Hx Hy.
  apply list_elem_of_lookup in Hx as [i Hi]. apply list_elem_of_lookup in Hy as [j Hj].
  assert (i = j) as ->.
  { eapply NoDup_lookup; [done| |].
    - rewrite list_lookup_fmap, Hi. done.
    - rewrite list_lookup_fmap, Hj. done. }
  congruence.
Qed.

(** Two active edges do not share a handle. *)
Lemma heap_inv_handle_inj m act mw hp handles e e' h :
  heap_inv m act mw hp handles →
  e < m → e' < m → act !!! e = true → act !!! e' = true →
  handles !!! e = Some h → handles !!! e' = Some h → e = e'.
Proof.
  intros Hinv He He' Ha Ha' Hh Hh'.
  destruct (hi_active _ _ _ _ _ Hinv e He Ha) as (h1 & Hh1 & Hin1).
  destruct (hi_active _ _ _ _ _ Hinv e' He' Ha') as (h2 & Hh2 & Hin2).
  assert (h1 = h) as -> by congruence. assert (h2 = h) as -> by congruence.
  pose proof (heap_inv_entry_unique _ _ _ _ _ _ _ _ Hinv Hin1 Hin2) as Heq.
  by injection Heq.
Qed.

(** The top of the heap, when it belongs to an active edge, carries the
    weight of that edge, and no active edge is lighter. *)
Lemma heap_inv_top pick m act mw hp handles h x :
  heap_inv m act mw hp handles →
  heap_top pick hp = Some (h, x) →
  he_index x < m ∧ handles !!! he_index x = Some h ∧
  (act !!! he_index x = true →
   x = HeapElement (mw !!! he_index x) (he_index x) ∧
   ∀ e, e < m → act !!! e = true → (mw !!! he_index x ≤ mw !!! e)%Z).
Proof.
  intros Hinv Htop. apply heap_top_spec in Htop as [Hin Hmin].
  destruct (hi_entry _ _ _ _ _ Hinv h x Hin) as [Hlt Hh].
  split; [done|]. split; [done|]. intros Ha.
  destruct (hi_active _ _ _ _ _ Hinv _ Hlt Ha) as (h' & Hh' & Hin').
  assert (h' = h) as -> by congruence.
  pose proof (heap_inv_entry_unique _ _ _ _ _ _ _ _ Hinv Hin Hin') as Hx.
  split; [done|]. intros e He Hae.
  destruct (hi_active _ _ _ _ _ Hinv _ He Hae) as (he & Hhe & Hine).
  specialize (Hmin _ Hine). simpl in Hmin. rewrite Hx in Hmin. done.
Qed.

(** A stale element leaves the heap: nothing else changes. *)
Lemma heap_inv_pop_stale m act mw hp handles h x :
  heap_inv m act mw hp handles →
  (h, x) ∈ heap_entries hp → act !!! he_index x = false →
  heap_inv m act mw (heap_erase h hp) (<[he_index x := None]> handles).
Proof.
  intros Hinv Hin Ha. pose proof Hinv as [Hlen Hnd Hent Hact].
  destruct (Hent _ _ Hin) as [Hlt Hh].
  split.
  - by rewrite length_insert.
  - rewrite heap_erase_entries. eapply sublist_NoDup; [exact Hnd|].
    apply fmap_sublist, sublist_filter.
  - intros h' y Hy. rewrite heap_erase_entries in Hy.
    apply list_elem_of_filter in Hy as [Hne Hy]. simpl in Hne.
    destruct (Hent _ _ Hy) as [Hlt' Hh']. split; [done|].
    rewrite list_lookup_total_insert_ne; [done|]. intros Heq.
    rewrite Heq in Hh. congruence.
  - intros e He Hae. destruct (Hact e He Hae) as (h' & Hh' & Hin').
    assert (e ≠ he_index x) as Hne by (intros ->; congruence).
    exists h'. rewrite list_lookup_total_insert_ne by done. split; [done|].
    rewrite heap_erase_entries. apply list_elem_of_filter. split; [|done]. simpl.
    intros ->. pose proof (heap_inv_entry_unique _ _ _ _ _ _ _ _ Hinv Hin Hin') as Hx.
    apply Hne. by rewrite Hx.
Qed.


(* ================================================================== *)
(** * One fusion of the working graph *)
(* ================================================================== *)

(** The end of a working edge that is not one of the two fused regions. *)
Definition far_end (ug : list (option (nat * nat))) (a b x : nat) : nat :=
  match ug !!! x with
  | Some (s, t) => if decide (s = a ∨ s = b) then t else s
  | None => 0
  end.

(** The regions [a] and [b] become the region [p]. *)
Definition merge_region (a b p c : nat) : nat :=
  if decide (c = a ∨ c = b) then p else c.

Lemma incident_Some v s t : incident v (Some (s, t)) = true ↔ s = v ∨ t = v.
Proof.
  simpl. rewrite orb_true_iff. by rewrite !Nat.eqb_eq.
Qed.

Lemma elem_of_out_edges x v G :
  x ∈ out_edges v G ↔ x < length (ug_edges G) ∧ incident v (ug_edges G !!! x) = true.
Proof.
  unfold out_edges, ug_num_edges. rewrite list_elem_of_filter, elem_of_seq.
  split; intros [? ?]; (split; [done || lia|done || lia]).
Qed.

Lemma out_edges_NoDup v G : NoDup (out_edges v G).
Proof. apply NoDup_filter, NoDup_seq. Qed.

Lemma min_weight_le mw d z :
  z ∈ nn_edges d → (min_weight mw d ≤ mw !!! z)%Z.
Proof.
  intros Hz. apply elem_of_nn_edges in Hz. unfold min_weight.
  destruct Hz as [-> | ->]; [destruct (second_edge_index d)|]; lia.
Qed.

Lemma min_weight_attained mw d :
  ∃ z, z ∈ nn_edges d ∧ min_weight mw d = mw !!! z.
Proof.
  unfold min_weight. destruct (second_edge_index d) as [e2|] eqn:He2.
  - destruct (Z.min_spec (mw !!! first_edge_index d) (mw !!! e2)) as [[_ ->]|[_ ->]].
    + exists (first_edge_index d). split; [apply nn_edges_first|done].
    + exists e2. split; [by apply nn_edges_second|done].
  - exists (first_edge_index d). split; [apply nn_edges_first|done].
Qed.

Lemma crossing_pair g comp x u v :
  region_pair g comp x = norm_pair u v → u ≠ v → crossing g comp x.
Proof.
  unfold region_pair, crossing. intros Hp Hne. apply norm_pair_eq in Hp. lia.
Qed.

Section MergeRegion.
Context (g : ugraph) (comp : list nat) (a b p : nat).
Hypothesis Hwf : graph_wf g.
Hypothesis Hlen : length comp = num_vertices g.
Hypothesis Hlt : ∀ v, v < num_vertices g → comp !!! v < p.
Hypothesis Ha : a < p.
Hypothesis Hb : b < p.

Local Abbreviation rp := (region_pair g comp).
Local Abbreviation rp' := (region_pair g (merge_region a b p <$> comp)).
Local Abbreviation m := (num_edges g).

Lemma merge_rp x :
  x < m →
  rp' x = norm_pair (merge_region a b p (comp !!! source (edge_from_index x g)))
                    (merge_region a b p (comp !!! target (edge_from_index x g))) ∧
  comp !!! source (edge_from_index x g) < p ∧
  comp !!! target (edge_from_index x g) < p.
Proof.
  intros Hx. destruct (edge_from_index_wf g x Hwf Hx) as [Hs Ht].
  unfold region_pair. rewrite !lookup_total_fmap by lia.
  split; [done|]. split; by apply Hlt.
Qed.

Lemma merge_rp_touched x c v :
  x < m → c = a ∨ c = b → v ≠ a → v ≠ b → v < p →
  rp x = norm_pair c v → rp' x = norm_pair v p.
Proof.
  intros Hx Hc Hva Hvb Hvp Hp. destruct (merge_rp x Hx) as (-> & H1 & H2).
  unfold region_pair in Hp. apply norm_pair_eq in Hp. apply norm_pair_eq.
  unfold merge_region. repeat case_decide; lia.
Qed.

Lemma merge_rp_untouched x :
  x < m → (∀ c v, c = a ∨ c = b → rp x ≠ norm_pair c v) →
  rp' x = rp x ∧ (rp x).2 < p ∧
  (∀ y, y < m → rp' y = rp' x → rp y = rp x).
Proof.
  intros Hx Hun. destruct (merge_rp x Hx) as (Hx' & H1 & H2).
  assert (comp !!! source (edge_from_index x g) ≠ a ∧
          comp !!! source (edge_from_index x g) ≠ b ∧
          comp !!! target (edge_from_index x g) ≠ a ∧
          comp !!! target (edge_from_index x g) ≠ b) as (N1 & N2 & N3 & N4).
  { split_and!; intros Heq.
    - apply (Hun a (comp !!! target (edge_from_index x g))); [by left|].
      unfold region_pair. by rewrite Heq.
    - apply (Hun b (comp !!! target (edge_from_index x g))); [by right|].
      unfold region_pair. by rewrite Heq.
    - apply (Hun a (comp !!! source (edge_from_index x g))); [by left|].
      unfold region_pair. rewrite Heq. apply norm_pair_comm.
    - apply (Hun b (comp !!! source (edge_from_index x g))); [by right|].
      unfold region_pair. rewrite Heq. apply norm_pair_comm. }
  assert (rp' x = rp x) as Heq.
  { rewrite Hx'. unfold region_pair, merge_region. repeat case_decide; try lia. done. }
  split; [done|]. split.
  { unfold region_pair, norm_pair. simpl. lia. }
  intros y Hy Hp. rewrite Heq in Hp. destruct (merge_rp y Hy) as (Hy' & H3 & H4).
  rewrite Hy' in Hp. unfold region_pair in Hp |- *.
  apply norm_pair_eq in Hp. apply norm_pair_eq.
  unfold merge_region in Hp. repeat case_decide; lia.
Qed.

Lemma merge_rp_inv x v :
  x < m → v < p → rp' x = norm_pair v p →
  ∃ c, (c = a ∨ c = b) ∧ rp x = norm_pair c v ∧ v ≠ a ∧ v ≠ b.
Proof.
  intros Hx Hv Hp. destruct (merge_rp x Hx) as (Hx' & H1 & H2). rewrite Hx' in Hp.
  apply norm_pair_eq in Hp. unfold region_pair.
  set (c1 := comp !!! source (edge_from_index x g)) in *.
  set (c2 := comp !!! target (edge_from_index x g)) in *.
  unfold merge_region in Hp.
  destruct (decide (c1 = a ∨ c1 = b)) as [Hc1|Hc1];
    destruct (decide (c2 = a ∨ c2 = b)) as [Hc2|Hc2]; try lia.
  - exists c1. split; [done|]. split; [|lia]. apply norm_pair_eq. lia.
  - exists c2. split; [done|]. split; [|lia]. apply norm_pair_eq. lia.
Qed.

Lemma merge_crossing x :
  x < m → crossing g (merge_region a b p <$> comp) x →
  crossing g comp x ∧ rp x ≠ norm_pair a b.
Proof.
  intros Hx. destruct (edge_from_index_wf g x Hwf Hx) as [Hs Ht].
  unfold crossing, region_pair. rewrite !lookup_total_fmap by lia.
  rewrite norm_pair_eq. unfold merge_region. repeat case_decide; lia.
Qed.

Lemma merge_rp_same x y : x < m → y < m → rp x = rp y → rp' x = rp' y.
Proof.
  intros Hx Hy Hp. destruct (merge_rp x Hx) as (-> & _). destruct (merge_rp y Hy) as (-> & _).
  unfold region_pair in Hp. apply norm_pair_eq in Hp. apply norm_pair_eq.
  destruct Hp as [[-> ->]|[-> ->]]; [by left|by right].
Qed.

Lemma merge_comp_lt v :
  v < num_vertices g → (merge_region a b p <$> comp) !!! v < S p.
Proof.
  intros Hv. rewrite lookup_total_fmap by lia. specialize (Hlt v Hv).
  unfold merge_region. case_decide; lia.
Qed.
End MergeRegion.

Section Fuse.
Context (g : ugraph) (w : list Z).
Context (comp : list nat) (p : nat) (ug : list (option (nat * nat))).
Context (act : list bool) (mw : list Z).
Context (e a b : nat).
Hypothesis Hwf : graph_wf g.
Hypothesis Hinv : edges_inv g w comp p ug act mw.
Hypothesis He : e < num_edges g.
Hypothesis Hact_e : act !!! e = true.
Hypothesis Hug_e : ug !!! e = Some (a, b).

Local Abbreviation ug2 := (<[e := None]> ug).
Local Abbreviation act1 := (<[e := false]> act).
Local Abbreviation G2 := (UndirectedGraph (S p) (<[e := None]> ug)).
Local Abbreviation nu := (far_end (<[e := None]> ug) a b).
Local Abbreviation es := (out_edges a (UndirectedGraph (S p) (<[e := None]> ug)) ++
                      out_edges b (UndirectedGraph (S p) (<[e := None]> ug))).
Local Abbreviation rp := (region_pair g comp).
Local Abbreviation m := (num_edges g).

Lemma fuse_ab : a ≠ b ∧ norm_pair a b = rp e.
Proof.
  destruct (gi_active _ _ _ _ _ _ _ Hinv e He Hact_e) as (a' & b' & Hug & Hne & Hp).
  rewrite Hug_e in Hug. by simplify_eq.
Qed.

Lemma fuse_comp_lt x :
  x < m → comp !!! source (edge_from_index x g) < p ∧
          comp !!! target (edge_from_index x g) < p.
Proof.
  intros Hx. destruct (edge_from_index_wf g x Hwf Hx).
  split; by apply (gi_comp_lt _ _ _ _ _ _ _ Hinv).
Qed.

Lemma fuse_ug2_e : ug2 !!! e = None.
Proof.
  rewrite list_lookup_total_insert, decide_True; [done|].
  split; [done|]. by rewrite (gi_ug_length _ _ _ _ _ _ _ Hinv).
Qed.

Lemma fuse_ug2_ne x : x ≠ e → ug2 !!! x = ug !!! x.
Proof. intros Hne. by rewrite list_lookup_total_insert_ne. Qed.

(** An edge that leaves [a] or [b] in the working graph. *)
Lemma fuse_touched x v :
  v = a ∨ v = b → x ∈ out_edges v G2 →
  x < m ∧ x ≠ e ∧ act !!! x = true ∧
  other_vertex x v G2 = nu x ∧
  rp x = norm_pair v (nu x) ∧
  nu x ≠ a ∧ nu x ≠ b ∧ nu x < p.
Proof.
  intros Hv Hx. apply elem_of_out_edges in Hx as [Hlt Hinc]. cbn [ug_edges] in *.
  rewrite length_insert, (gi_ug_length _ _ _ _ _ _ _ Hinv) in Hlt.
  assert (x ≠ e) as Hne.
  { intros ->. by rewrite fuse_ug2_e in Hinc. }
  assert (act !!! x = true) as Hax.
  { destruct (act !!! x) eqn:Ha; [done|].
    rewrite fuse_ug2_ne, (gi_inactive _ _ _ _ _ _ _ Hinv x Hlt Ha) in Hinc by done.
    done. }
  destruct (gi_active _ _ _ _ _ _ _ Hinv x Hlt Hax) as (s & t & Hug & Hst & Hp).
  destruct fuse_ab as [Hab Hpe].
  assert (norm_pair s t ≠ norm_pair a b) as Hnab.
  { intros Heq. apply Hne. apply (gi_unique _ _ _ _ _ _ _ Hinv); try done. congruence. }
  rewrite norm_pair_eq in Hnab.
  destruct (fuse_comp_lt x Hlt) as [Hc1 Hc2].
  assert (s < p ∧ t < p) as [Hs Ht].
  { unfold region_pair, norm_pair in Hp. injection Hp as H1 H2. lia. }
  unfold other_vertex, far_end, ug_edge_from_index. cbn [ug_edges].
  rewrite fuse_ug2_ne in Hinc |- * by done. rewrite Hug in Hinc |- *.
  apply incident_Some in Hinc. rewrite <-Hp.
  cbn [default from_option id source target fst snd].
  split; [done|]. split; [done|]. split; [done|].
  destruct (decide (s = a ∨ s = b)) as [Hs'|Hs'];
    destruct (Nat.eqb_spec s v) as [Hsv|Hsv].
  - subst v. split_and!; try done; lia.
  - assert (t = v) as -> by lia. exfalso. lia.
  - exfalso. lia.
  - assert (t = v) as -> by lia. rewrite (norm_pair_comm s v).
    split_and!; try done; lia.
Qed.

Lemma fuse_es_elem x :
  x ∈ es → x < m ∧ x ≠ e ∧ act !!! x = true ∧
  (rp x = norm_pair a (nu x) ∨ rp x = norm_pair b (nu x)) ∧
  nu x ≠ a ∧ nu x ≠ b ∧ nu x < p.
Proof.
  intros Hx. apply elem_of_app in Hx as [Hx|Hx].
  - destruct (fuse_touched x a (or_introl eq_refl) Hx)
      as (H1 & H2 & H3 & _ & H5 & H6 & H7 & H8).
    split_and!; try done; by left.
  - destruct (fuse_touched x b (or_intror eq_refl) Hx)
      as (H1 & H2 & H3 & _ & H5 & H6 & H7 & H8).
    split_and!; try done; by right.
Qed.

(** Every other active edge with an end in [a] or [b] is met. *)
Lemma fuse_es_complete x c v :
  x < m → x ≠ e → act !!! x = true → c = a ∨ c = b → rp x = norm_pair c v → x ∈ es.
Proof.
  intros Hx Hne Hax Hc Hp.
  destruct (gi_active _ _ _ _ _ _ _ Hinv x Hx Hax) as (s & t & Hug & Hst & Hp').
  rewrite Hp in Hp'. apply norm_pair_eq in Hp'.
  assert (incident c (ug2 !!! x) = true) as Hinc.
  { rewrite fuse_ug2_ne, Hug by done. apply incident_Some. lia. }
  apply elem_of_app. destruct Hc as [-> | ->]; [left|right].
  - apply elem_of_out_edges. cbn [ug_edges].
    by rewrite length_insert, (gi_ug_length _ _ _ _ _ _ _ Hinv).
  - apply elem_of_out_edges. cbn [ug_edges].
    by rewrite length_insert, (gi_ug_length _ _ _ _ _ _ _ Hinv).
Qed.

Lemma fuse_es_NoDup : NoDup es.
Proof.
  apply NoDup_app. split; [apply out_edges_NoDup|]. split; [|apply out_edges_NoDup].
  intros x Ha Hb.
  destruct (fuse_touched x a (or_introl eq_refl) Ha) as (Hx & Hne & Hax & _ & Hpa & Hna & Hnb & _).
  destruct (fuse_touched x b (or_intror eq_refl) Hb) as (_ & _ & _ & _ & Hpb & _).
  rewrite Hpa in Hpb. apply norm_pair_eq in Hpb. destruct fuse_ab as [Hab _]. lia.
Qed.

Lemma fuse_es_triple x y z :
  x ∈ es → y ∈ es → z ∈ es → x ≠ y → y ≠ z → x ≠ z → nu x = nu z → nu y = nu z → False.
Proof.
  intros Hx Hy Hz Hxy Hyz Hxz Hnx Hny.
  destruct (fuse_es_elem x Hx) as (Hx1 & _ & Hx3 & Hx4 & _).
  destruct (fuse_es_elem y Hy) as (Hy1 & _ & Hy3 & Hy4 & _).
  destruct (fuse_es_elem z Hz) as (Hz1 & _ & Hz3 & Hz4 & _).
  rewrite Hnx in Hx4. rewrite Hny in Hy4.
  assert (rp x = rp y ∨ rp y = rp z ∨ rp x = rp z) as Heq.
  { destruct Hx4 as [-> | ->], Hy4 as [-> | ->], Hz4 as [-> | ->]; auto. }
  destruct Heq as [Heq|[Heq|Heq]].
  - apply Hxy. by apply (gi_unique _ _ _ _ _ _ _ Hinv).
  - apply Hyz. by apply (gi_unique _ _ _ _ _ _ _ Hinv).
  - apply Hxz. by apply (gi_unique _ _ _ _ _ _ _ Hinv).
Qed.

(** The two explorations are one pass over the edges that leave [a] or
    [b]. *)
Lemma fuse_explore idx :
  explore_region G2 b (explore_region G2 a ([], idx)) =
  foldl (explore_step nu) ([], idx) es.
Proof.
  rewrite !explore_region_fold, foldl_app.
  rewrite (explore_step_ext (λ x, other_vertex x a G2) nu).
  2:{ intros x Hx. by destruct (fuse_touched x a (or_introl eq_refl) Hx) as (_ & _ & _ & ? & _). }
  rewrite (explore_step_ext (λ x, other_vertex x b G2) nu).
  2:{ intros x Hx. by destruct (fuse_touched x b (or_intror eq_refl) Hx) as (_ & _ & _ & ? & _). }
  done.
Qed.

Lemma fuse_explore_inv B :
  p < B →
  explore_inv nu B es (foldl (explore_step nu) ([], replicate B None) es).1
                      (foldl (explore_step nu) ([], replicate B None) es).2.
Proof.
  intros HB. apply explore_fold.
  - apply fuse_es_NoDup.
  - intros x Hx. destruct (fuse_es_elem x Hx) as (_ & _ & _ & _ & _ & _ & Hlt). lia.
  - apply fuse_es_triple.
Qed.

Lemma fuse_ab_lt : a < p ∧ b < p.
Proof.
  destruct fuse_ab as [_ Hp]. destruct (fuse_comp_lt e He) as [H1 H2].
  unfold region_pair in Hp. apply norm_pair_eq in Hp. lia.
Qed.

Lemma fuse_e_not_es : e ∉ es.
Proof. intros Hin. by destruct (fuse_es_elem e Hin) as (_ & ? & _). Qed.

Lemma fuse_untouched x :
  x < m → x ∉ es → x ≠ e → act !!! x = true →
  ∀ c v, c = a ∨ c = b → rp x ≠ norm_pair c v.
Proof.
  intros Hx Hnin Hne Hax c v Hc Hp. apply Hnin. by apply (fuse_es_complete x c v).
Qed.

(** The descriptors found by the exploration. *)
Context (B : nat) (D : list (new_neighbour Z)) (idx : list (option nat)).
Hypothesis Hexp : explore_inv nu B es D idx.

Local Abbreviation ug3 :=
  (write_edges (λ d, Some (neighbour_vertex d, p)) (Some None) D (<[e := None]> ug)).
Local Abbreviation act3 :=
  (write_edges (λ _ : new_neighbour Z, true) (Some false) D (<[e := false]> act)).
Local Abbreviation mw3 := (write_edges (min_weight mw) None D mw).
Local Abbreviation rp' := (region_pair g (merge_region a b p <$> comp)).

Lemma fuse_D_NoDup : NoDup (D ≫= nn_edges).
Proof. eapply explore_inv_NoDup; [apply fuse_es_NoDup|exact Hexp]. Qed.

Lemma fuse_es_D z : z ∈ es ↔ ∃ d, d ∈ D ∧ z ∈ nn_edges d.
Proof.
  rewrite <-(ei_perm _ _ _ _ _ Hexp), list_elem_of_bind.
  split; intros (d & ? & ?); by exists d.
Qed.

Lemma fuse_not_es x : x ∉ es → x ∉ D ≫= nn_edges.
Proof. by rewrite (ei_perm _ _ _ _ _ Hexp). Qed.

Lemma fuse_D_edge d z :
  d ∈ D → z ∈ nn_edges d →
  z ∈ es ∧ z < m ∧ z ≠ e ∧ act !!! z = true ∧
  neighbour_vertex d ≠ a ∧ neighbour_vertex d ≠ b ∧ neighbour_vertex d < p ∧
  (∃ c, (c = a ∨ c = b) ∧ rp z = norm_pair c (neighbour_vertex d)) ∧
  rp' z = norm_pair (neighbour_vertex d) p.
Proof.
  intros Hd Hz.
  assert (z ∈ es) as Hes by (apply fuse_es_D; by exists d).
  pose proof (ei_nu _ _ _ _ _ Hexp d z Hd Hz) as Hnu.
  destruct (fuse_es_elem z Hes) as (H1 & H2 & H3 & H4 & H5 & H6 & H7).
  rewrite Hnu in H4, H5, H6, H7. destruct fuse_ab_lt as [Ha Hb].
  split_and!; try done.
  - destruct H4 as [H4|H4]; [exists a|exists b]; split; auto.
  - destruct H4 as [H4|H4].
    + eapply (merge_rp_touched g comp a b p Hwf); try done.
      * apply (gi_comp_length _ _ _ _ _ _ _ Hinv).
      * apply (gi_comp_lt _ _ _ _ _ _ _ Hinv).
      * by left.
    + eapply (merge_rp_touched g comp a b p Hwf); try done.
      * apply (gi_comp_length _ _ _ _ _ _ _ Hinv).
      * apply (gi_comp_lt _ _ _ _ _ _ _ Hinv).
      * by right.
Qed.

Lemma fuse_D_nb_inj d d' :
  d ∈ D → d' ∈ D → neighbour_vertex d = neighbour_vertex d' → d = d'.
Proof.
  intros Hd Hd' Heq.
  apply list_elem_of_lookup in Hd as [k Hk]. apply list_elem_of_lookup in Hd' as [k' Hk'].
  assert (idx !!! neighbour_vertex d = Some k) as H1.
  { apply (ei_idx _ _ _ _ _ Hexp). by exists d. }
  assert (idx !!! neighbour_vertex d = Some k') as H2.
  { apply (ei_idx _ _ _ _ _ Hexp). by exists d'. }
  congruence.
Qed.

Lemma fuse_act3_first d : d ∈ D → act3 !!! first_edge_index d = true.
Proof.
  intros Hd. destruct (fuse_D_edge d _ Hd (nn_edges_first d)) as (_ & Hlt & _).
  apply (write_edges_first (λ _, true)); [apply fuse_D_NoDup|done|].
  by rewrite length_insert, (gi_act_length _ _ _ _ _ _ _ Hinv).
Qed.

Lemma fuse_act3_second d y :
  d ∈ D → second_edge_index d = Some y → act3 !!! y = false.
Proof.
  intros Hd Hy.
  destruct (fuse_D_edge d y Hd (nn_edges_second d y Hy)) as (_ & Hlt & _).
  apply (write_edges_second (λ _, true) (Some false) D _ d); try done.
  - apply fuse_D_NoDup.
  - by rewrite length_insert, (gi_act_length _ _ _ _ _ _ _ Hinv).
Qed.

Lemma fuse_act3_other x : x ∉ es → x ≠ e → act3 !!! x = act !!! x.
Proof.
  intros Hx Hne. rewrite write_edges_other by by apply fuse_not_es.
  by rewrite list_lookup_total_insert_ne.
Qed.

Lemma fuse_act3_e : act3 !!! e = false.
Proof.
  rewrite write_edges_other by apply fuse_not_es, fuse_e_not_es.
  rewrite list_lookup_total_insert, decide_True; [done|].
  split; [done|]. by rewrite (gi_act_length _ _ _ _ _ _ _ Hinv).
Qed.

Lemma fuse_ug3_first d :
  d ∈ D → ug3 !!! first_edge_index d = Some (neighbour_vertex d, p).
Proof.
  intros Hd. destruct (fuse_D_edge d _ Hd (nn_edges_first d)) as (_ & Hlt & _).
  apply (write_edges_first (λ d, Some (neighbour_vertex d, p))); [apply fuse_D_NoDup|done|].
  by rewrite length_insert, (gi_ug_length _ _ _ _ _ _ _ Hinv).
Qed.

Lemma fuse_ug3_second d y :
  d ∈ D → second_edge_index d = Some y → ug3 !!! y = None.
Proof.
  intros Hd Hy.
  destruct (fuse_D_edge d y Hd (nn_edges_second d y Hy)) as (_ & Hlt & _).
  apply (write_edges_second (λ d, Some (neighbour_vertex d, p)) (Some None) D _ d);
    try done.
  - apply fuse_D_NoDup.
  - by rewrite length_insert, (gi_ug_length _ _ _ _ _ _ _ Hinv).
Qed.

Lemma fuse_ug3_other x : x ∉ es → x ≠ e → ug3 !!! x = ug !!! x.
Proof.
  intros Hx Hne. rewrite write_edges_other by by apply fuse_not_es.
  by rewrite list_lookup_total_insert_ne.
Qed.

Lemma fuse_ug3_e : ug3 !!! e = None.
Proof.
  rewrite write_edges_other by apply fuse_not_es, fuse_e_not_es. apply fuse_ug2_e.
Qed.

Lemma fuse_mw3_first d : d ∈ D → mw3 !!! first_edge_index d = min_weight mw d.
Proof.
  intros Hd. destruct (fuse_D_edge d _ Hd (nn_edges_first d)) as (_ & Hlt & _).
  apply (write_edges_first (min_weight mw)); [apply fuse_D_NoDup|done|].
  by rewrite (gi_mw_length _ _ _ _ _ _ _ Hinv).
Qed.

Lemma fuse_mw3_other x : x ∉ es → mw3 !!! x = mw !!! x.
Proof. intros Hx. by rewrite write_edges_other by by apply fuse_not_es. Qed.

Lemma fuse_act3_cases x :
  x < m → act3 !!! x = true →
  (∃ d, d ∈ D ∧ x = first_edge_index d) ∨ (x ≠ e ∧ act !!! x = true ∧ x ∉ es).
Proof.
  intros Hx Hax. destruct (decide (x ∈ es)) as [Hes|Hes].
  - apply fuse_es_D in Hes as (d & Hd & Hz). apply elem_of_nn_edges in Hz as [->|Hz].
    + left. by exists d.
    + rewrite (fuse_act3_second d x Hd Hz) in Hax. done.
  - right. destruct (decide (x = e)) as [->|Hne].
    + by rewrite fuse_act3_e in Hax.
    + split; [done|]. split; [|done]. by rewrite <-fuse_act3_other.
Qed.

(** The invariant of the working graph after the fusion. *)
Lemma fuse_edges_inv :
  edges_inv g w (merge_region a b p <$> comp) (S p) ug3 act3 mw3.
Proof.
  destruct fuse_ab as [Hab Hpe]. destruct fuse_ab_lt as [Ha Hb].
  pose proof (gi_comp_length _ _ _ _ _ _ _ Hinv) as Hcl.
  pose proof (gi_comp_lt _ _ _ _ _ _ _ Hinv) as Hclt.
  pose proof (merge_rp_untouched g comp a b p Hwf Hcl Hclt Ha Hb) as Hun.
  pose proof (merge_rp_same g comp a b p Hwf Hcl Hclt Ha Hb) as Hsame.
  split.
  - by rewrite length_fmap.
  - by apply merge_comp_lt.
  - by rewrite write_edges_length, length_insert, (gi_ug_length _ _ _ _ _ _ _ Hinv).
  - by rewrite write_edges_length, length_insert, (gi_act_length _ _ _ _ _ _ _ Hinv).
  - by rewrite write_edges_length, (gi_mw_length _ _ _ _ _ _ _ Hinv).
  - (* active edges *)
    intros x Hx Hax. destruct (fuse_act3_cases x Hx Hax) as [(d & Hd & ->)|(Hne & Hax' & Hes)].
    + destruct (fuse_D_edge d _ Hd (nn_edges_first d)) as (_ & _ & _ & _ & _ & _ & Hlt & _ & Hp).
      exists (neighbour_vertex d), p. rewrite fuse_ug3_first by done.
      split; [done|]. split; [lia|done].
    + destruct (gi_active _ _ _ _ _ _ _ Hinv x Hx Hax') as (s & t & Hug & Hst & Hp).
      exists s, t. rewrite fuse_ug3_other by done. split; [done|]. split; [done|].
      destruct (Hun x Hx (fuse_untouched x Hx Hes Hne Hax')) as (-> & _). done.
  - (* inactive edges *)
    intros x Hx Hax. destruct (decide (x ∈ es)) as [Hes|Hes].
    + apply fuse_es_D in Hes as (d & Hd & Hz). apply elem_of_nn_edges in Hz as [->|Hz].
      * by rewrite fuse_act3_first in Hax.
      * by apply (fuse_ug3_second d).
    + destruct (decide (x = e)) as [->|Hne]; [apply fuse_ug3_e|].
      rewrite fuse_ug3_other by done. rewrite fuse_act3_other in Hax by done.
      by apply (gi_inactive _ _ _ _ _ _ _ Hinv).
  - (* one active edge between two regions *)
    intros x x' Hx Hx' Hax Hax' Hp.
    destruct (fuse_act3_cases x Hx Hax) as [(d & Hd & ->)|(Hne & Ha1 & Hes)];
      destruct (fuse_act3_cases x' Hx' Hax') as [(d' & Hd' & ->)|(Hne' & Ha1' & Hes')].
    + destruct (fuse_D_edge d _ Hd (nn_edges_first d)) as (_ & _ & _ & _ & _ & _ & Hlt & _ & Hp1).
      destruct (fuse_D_edge d' _ Hd' (nn_edges_first d')) as (_ & _ & _ & _ & _ & _ & Hlt' & _ & Hp2).
      rewrite Hp1, Hp2 in Hp. apply norm_pair_eq in Hp.
      f_equal. apply fuse_D_nb_inj; [done..|lia].
    + exfalso.
      destruct (fuse_D_edge d _ Hd (nn_edges_first d)) as (_ & _ & _ & _ & _ & _ & Hlt & _ & Hp1).
      destruct (Hun x' Hx' (fuse_untouched x' Hx' Hes' Hne' Ha1')) as (Hp2 & Hlt2 & _).
      rewrite Hp1, Hp2 in Hp. rewrite <-Hp in Hlt2. unfold norm_pair in Hlt2. simpl in Hlt2. lia.
    + exfalso.
      destruct (fuse_D_edge d' _ Hd' (nn_edges_first d')) as (_ & _ & _ & _ & _ & _ & Hlt & _ & Hp1).
      destruct (Hun x Hx (fuse_untouched x Hx Hes Hne Ha1)) as (Hp2 & Hlt2 & _).
      rewrite Hp1, Hp2 in Hp. rewrite Hp in Hlt2. unfold norm_pair in Hlt2. simpl in Hlt2. lia.
    + destruct (Hun x Hx (fuse_untouched x Hx Hes Hne Ha1)) as (Hp1 & _).
      destruct (Hun x' Hx' (fuse_untouched x' Hx' Hes' Hne' Ha1')) as (Hp2 & _).
      rewrite Hp1, Hp2 in Hp. by apply (gi_unique _ _ _ _ _ _ _ Hinv).
  - (* every crossing edge is covered *)
    intros x Hx Hcr.
    destruct (merge_crossing g comp a b p Hwf Hcl Ha Hb x Hx Hcr) as [Hcr0 Hnab].
    destruct (gi_cover _ _ _ _ _ _ _ Hinv x Hx Hcr0) as (y & Hy & Hay & Hpy).
    destruct (decide (y ∈ es)) as [Hes|Hes].
    + apply fuse_es_D in Hes as (d & Hd & Hz).
      destruct (fuse_D_edge d _ Hd (nn_edges_first d)) as (_ & Hlt & _ & _ & _ & _ & _ & _ & Hp1).
      destruct (fuse_D_edge d y Hd Hz) as (_ & _ & _ & _ & _ & _ & _ & _ & Hp2).
      exists (first_edge_index d). split; [done|]. split; [by apply fuse_act3_first|].
      rewrite Hp1, <-Hp2. by apply Hsame.
    + assert (y ≠ e) as Hne by (intros ->; congruence).
      exists y. split; [done|]. split; [by rewrite fuse_act3_other|]. by apply Hsame.
  - (* the weight is attained *)
    intros x Hx Hax. destruct (fuse_act3_cases x Hx Hax) as [(d & Hd & ->)|(Hne & Hax' & Hes)].
    + rewrite fuse_mw3_first by done.
      destruct (min_weight_attained mw d) as (z & Hz & ->).
      destruct (fuse_D_edge d _ Hd (nn_edges_first d)) as (_ & _ & _ & _ & _ & _ & _ & _ & Hp1).
      destruct (fuse_D_edge d z Hd Hz) as (_ & Hzlt & _ & Haz & _ & _ & _ & _ & Hp2).
      destruct (gi_attained _ _ _ _ _ _ _ Hinv z Hzlt Haz) as (y & Hy & Hpy & Hwy).
      exists y. split; [done|]. split; [|done]. rewrite Hp1, <-Hp2. by apply Hsame.
    + rewrite fuse_mw3_other by done.
      destruct (gi_attained _ _ _ _ _ _ _ Hinv x Hx Hax') as (y & Hy & Hpy & Hwy).
      exists y. split; [done|]. split; [|done]. by apply Hsame.
  - (* the weight is minimal *)
    intros x y Hx Hax Hy Hp.
    destruct (fuse_act3_cases x Hx Hax) as [(d & Hd & ->)|(Hne & Hax' & Hes)].
    + rewrite fuse_mw3_first by done.
      destruct (fuse_D_edge d _ Hd (nn_edges_first d))
        as (_ & _ & _ & _ & Hna & Hnb & Hlt & _ & Hp1).
      rewrite Hp1 in Hp.
      destruct (merge_rp_inv g comp a b p Hwf Hcl Hclt Ha Hb y _ Hy Hlt Hp) as (c & Hc & Hpy & _).
      assert (crossing g comp y) as Hcr.
      { apply (crossing_pair _ _ _ _ _ Hpy). lia. }
      destruct (gi_cover _ _ _ _ _ _ _ Hinv y Hy Hcr) as (z & Hz & Haz & Hpz).
      assert (z ≠ e) as Hze.
      { intros ->. rewrite <-Hpe, Hpy in Hpz. apply norm_pair_eq in Hpz. lia. }
      assert (z ∈ es) as Hes.
      { apply (fuse_es_complete z c (neighbour_vertex d)); try done. congruence. }
      apply fuse_es_D in Hes as (d' & Hd' & Hz').
      destruct (fuse_D_edge d' z Hd' Hz') as (_ & _ & _ & _ & Hna' & Hnb' & _ & (c' & Hc' & Hpz') & _).
      assert (d' = d) as ->.
      { apply fuse_D_nb_inj; [done..|].
        rewrite Hpz, Hpy in Hpz'. apply norm_pair_eq in Hpz'. lia. }
      etrans; [apply (min_weight_le mw d z Hz')|].
      by apply (gi_minimal _ _ _ _ _ _ _ Hinv).
    + rewrite fuse_mw3_other by done.
      destruct (Hun x Hx (fuse_untouched x Hx Hes Hne Hax')) as (_ & _ & Hback).
      apply (gi_minimal _ _ _ _ _ _ _ Hinv); try done. by apply Hback.
Qed.

(** The heap after the fusion. *)
Context (hp : heap) (handles : list (option nat)) (h : nat).
Hypothesis Hheap : heap_inv (num_edges g) act mw hp handles.
Hypothesis Hh : handles !!! e = Some h.

Lemma fuse_handle_old x hx :
  x < m → x ≠ e → act !!! x = true → handles !!! x = Some hx →
  hx ≠ h ∧ <[e := None]> handles !!! x = Some hx ∧
  (hx, HeapElement (mw !!! x) x) ∈ heap_entries (heap_erase h hp).
Proof.
  intros Hx Hne Hax Hhx.
  assert (hx ≠ h) as Hneh.
  { intros ->. apply Hne. by apply (heap_inv_handle_inj _ _ _ _ _ x e h Hheap). }
  split; [done|]. split; [by rewrite list_lookup_total_insert_ne|].
  destruct (hi_active _ _ _ _ _ Hheap x Hx Hax) as (h' & Hh' & Hin).
  assert (h' = hx) as -> by congruence.
  rewrite heap_erase_entries. apply list_elem_of_filter. by split.
Qed.

Lemma fuse_heap_inv :
  heap_inv m act3 mw3
    (heap_updates (<[e := None]> handles) (min_weight mw) D (heap_erase h hp))
    (<[e := None]> handles).
Proof.
  pose proof Hheap as [Hlen Hnd Hent Hact].
  split.
  - by rewrite length_insert.
  - rewrite heap_updates_handles, heap_erase_entries.
    eapply sublist_NoDup; [exact Hnd|]. apply fmap_sublist, sublist_filter.
  - intros h' y Hy. apply heap_updates_elem in Hy as [Hy|(d & Hd & Hhd & ->)].
    + rewrite heap_erase_entries in Hy. apply list_elem_of_filter in Hy as [Hne Hy].
      simpl in Hne. destruct (Hent _ _ Hy) as [Hlt Hh']. split; [done|].
      rewrite list_lookup_total_insert_ne; [done|]. intros Heq.
      rewrite <-Heq in Hh'. congruence.
    + simpl. split; [|done].
      by destruct (fuse_D_edge d _ Hd (nn_edges_first d)) as (_ & ? & _).
  - intros x Hx Hax.
    destruct (fuse_act3_cases x Hx Hax) as [(d & Hd & ->)|(Hne & Hax' & Hes)].
    + destruct (fuse_D_edge d _ Hd (nn_edges_first d)) as (_ & _ & Hne & Hax' & _).
      destruct (Hact _ Hx Hax') as (hx & Hhx & _).
      destruct (fuse_handle_old _ hx Hx Hne Hax' Hhx) as (Hneh & Hhx' & Hin).
      exists hx. split; [done|]. rewrite fuse_mw3_first by done.
      pose proof fuse_D_NoDup as HND.
      apply list_elem_of_split in Hd as (D1 & D2 & HD). rewrite HD in HND |- *.
      apply heap_updates_new; [done| |].
      * apply list_elem_of_fmap. eexists. split; [|exact Hin]. done.
      * intros d' Hd' Hhd'.
        rewrite bind_app, bind_cons in HND.
        apply NoDup_app in HND as (_ & _ & HND).
        apply NoDup_app in HND as (_ & Hdisj & _).
        assert (d' ∈ D) as Hd'D.
        { rewrite HD. apply elem_of_app. right. by right. }
        destruct (fuse_D_edge d' _ Hd'D (nn_edges_first d')) as (_ & Hx' & Hne' & Ha' & _).
        rewrite list_lookup_total_insert_ne in Hhd' by done.
        assert (first_edge_index d' = first_edge_index d) as Heq.
        { by apply (heap_inv_handle_inj _ _ _ _ _ _ _ hx Hheap). }
        apply (Hdisj (first_edge_index d)); [apply nn_edges_first|].
        rewrite <-Heq. apply (bind_nn_edges_elem D2 d'); [done|apply nn_edges_first].
    + destruct (Hact _ Hx Hax') as (hx & Hhx & _).
      destruct (fuse_handle_old _ hx Hx Hne Hax' Hhx) as (Hneh & Hhx' & Hin).
      exists hx. split; [done|]. rewrite fuse_mw3_other by done.
      apply heap_updates_keep; [done|].
      intros d Hd Hhd.
      destruct (fuse_D_edge d _ Hd (nn_edges_first d)) as (Hes' & Hx' & Hne' & Ha' & _).
      rewrite list_lookup_total_insert_ne in Hhd by done.
      apply Hes. replace x with (first_edge_index d); [done|].
      by apply (heap_inv_handle_inj _ _ _ _ _ _ _ hx Hheap).
Qed.
End Fuse.

(** [bpt_fuse] with the minimum linkage, in closed form. *)
Lemma bpt_fuse_unfold p ug parents levels B act hp handles mw cnt e fw a b D idx :
  ug !!! e = Some (a, b) →
  explore_region (UndirectedGraph (S p) (<[e:=None]> ug)) b
    (explore_region (UndirectedGraph (S p) (<[e:=None]> ug)) a ([], replicate B None)) =
    (D, idx) →
  foldl (λ idx n, <[neighbour_vertex n := None]> idx) idx D = replicate B None →
  NoDup (D ≫= nn_edges) →
  bpt_fuse binary_partition_tree_min_linkage e fw
    (BptState (UndirectedGraph p ug) parents levels (replicate B None) act hp handles
              mw cnt) =
  BptState (UndirectedGraph (S p)
              (write_edges (λ d, Some (neighbour_vertex d, p)) (Some None) D
                           (<[e:=None]> ug)))
           (<[b := p]> (<[a := p]> parents)) (<[p := fw]> levels) (replicate B None)
           (write_edges (λ _, true) (Some false) D (<[e:=false]> act))
           (heap_updates handles (min_weight mw) D hp) handles
           (write_edges (min_weight mw) None D mw) (S cnt).
Proof.
  intros Hug Hexp Hreset Hnd. unfold bpt_fuse.
  cbn [b_g b_parents b_levels b_new_neighbour_indices b_active b_heap b_heap_handles
       b_weighter b_current_num_nodes_tree].
  unfold ug_add_vertex, ug_remove_edge, ug_edge_from_index.
  cbn [ug_num_vertices ug_edges]. rewrite Hug.
  cbn [default from_option id source target fst snd].
  rewrite list_insert_insert_eq, Hexp, Hreset.
  assert (binary_partition_tree_min_linkage mw
            (UndirectedGraph (S p) (<[e:=None]> ug)) e p a b D =
          (write_edges (min_weight mw) None D mw,
           (λ d, set_new_edge_weight (min_weight mw d) d) <$> D)) as Hml.
  { unfold binary_partition_tree_min_linkage. by apply min_linkage_spec. }
  destruct D as [|d0 D']; [done|].
  rewrite Hml, process_fold. done.
Qed.

(* ================================================================== *)
(** * The main loop against the fusions by increasing weight *)
(* ================================================================== *)

Lemma NoDup_lookup_total_inj (w : list Z) x y :
  NoDup w → x < length w → y < length w → w !!! x = w !!! y → x = y.
Proof.
  intros Hnd Hx Hy Heq. eapply NoDup_lookup; [done| |].
  - by apply list_lookup_lookup_total_lt.
  - rewrite Heq. by apply list_lookup_lookup_total_lt.
Qed.

(** With pairwise distinct weights, the lightest active edge of the
    working graph covers the first edge of the sorted order that joins two
    regions, and has its weight. *)
Lemma fusion_step_min g w comp p ug act mw e :
  NoDup w → length w = num_edges g →
  edges_inv g w comp p ug act mw →
  e < num_edges g → act !!! e = true →
  (∀ e', e' < num_edges g → act !!! e' = true → (mw !!! e ≤ mw !!! e')%Z) →
  ∃ i z, z < num_edges g ∧
    list_find (crossing g comp) (sorted_edges_indices g w) = Some (i, z) ∧
    region_pair g comp z = region_pair g comp e ∧ w !!! z = mw !!! e.
Proof.
  intros Hnd Hlen Hinv He Hae Hmin.
  destruct (gi_active _ _ _ _ _ _ _ Hinv e He Hae) as (a & b & Hug & Hab & Hp).
  destruct (gi_attained _ _ _ _ _ _ _ Hinv e He Hae) as (z0 & Hz0 & Hpz0 & Hw0).
  assert (crossing g comp z0) as Hcr0.
  { apply (crossing_pair g comp z0 a b); [congruence|done]. }
  assert (z0 ∈ sorted_edges_indices g w) as Hin0 by by apply sorted_edges_indices_elem.
  destruct (list_find_elem_of (crossing g comp) _ z0 Hin0 Hcr0) as [[i z] Hfind].
  pose proof Hfind as Hfind'.
  apply list_find_Some in Hfind' as (Hi & Hcr & Hbefore).
  assert (z < num_edges g) as Hz.
  { apply (sorted_edges_indices_elem g w). by eapply list_elem_of_lookup_2. }
  assert (w !!! z0 ≤ w !!! z)%Z as Hle.
  { destruct (gi_cover _ _ _ _ _ _ _ Hinv z Hz Hcr) as (ez & Hez & Haz & Hpz).
    rewrite <-Hw0. etrans; [apply (Hmin ez Hez Haz)|].
    by apply (gi_minimal _ _ _ _ _ _ _ Hinv). }
  apply list_elem_of_lookup in Hin0 as [k Hk].
  assert (z = z0) as ->.
  { destruct (decide (k < i)) as [Hlt|Hge].
    { exfalso. by apply (Hbefore k z0). }
    assert (w !!! z ≤ w !!! z0)%Z as Hge'.
    { apply (sorted_edges_weight_le g w i k); [lia|done..]. }
    apply (NoDup_lookup_total_inj w); [done|lia..]. }
  exists i, z0. done.
Qed.

Lemma heap_updates_length handles wf D hp :
  length (heap_entries (heap_updates handles wf D hp)) = length (heap_entries hp).
Proof.
  rewrite <-(length_fmap fst (heap_entries (heap_updates handles wf D hp))).
  by rewrite heap_updates_handles, length_fmap.
Qed.

Lemma fuse_comp_eq a b a' b' p (comp : list nat) :
  norm_pair a' b' = norm_pair a b →
  (λ c, if decide (c = a' ∨ c = b') then p else c) <$> comp = merge_region a b p <$> comp.
Proof.
  intros Hp. apply norm_pair_eq in Hp. apply list_fmap_ext. intros i c _.
  unfold merge_region. repeat case_decide; try done; lia.
Qed.

Lemma fuse_parents_eq a b a' b' (p : nat) (parents : list nat) :
  norm_pair a' b' = norm_pair a b →
  <[b' := p]> (<[a' := p]> parents) = <[b := p]> (<[a := p]> parents).
Proof.
  intros Hp. apply norm_pair_eq in Hp as [[-> ->]|[-> ->]]; [done|].
  destruct (decide (a = b)) as [->|Hne]; [done|].
  by apply list_insert_insert_ne.
Qed.

(** One turn of the main loop either drops a stale element of the heap or
    performs the next fusion of the sorted order. *)
Lemma bpt_iteration_inv pick g w fs st :
  graph_wf g → NoDup w → length w = num_edges g →
  bpt_inv g w fs st →
  heap_entries (b_heap st) ≠ [] →
  fs_count fs < num_vertices g * 2 - 1 →
  ∃ fs',
    bpt_inv g w fs' (bpt_iteration pick binary_partition_tree_min_linkage st) ∧
    (fs' = fs ∨ (fs' = fusion_step g w fs ∧ fs_count fs' = S (fs_count fs))) ∧
    S (length (heap_entries
                 (b_heap (bpt_iteration pick binary_partition_tree_min_linkage st)))) =
    length (heap_entries (b_heap st)).
Proof.
  intros Hwf Hnd Hlen Hinv Hne Hcnt.
  destruct st as [[p ug] parents levels nidx act hp handles mw cnt].
  destruct Hinv as [Hpar Hlev Hc Hv Hidx Hedges Hheap].
  cbn [b_g b_parents b_levels b_new_neighbour_indices b_active b_heap b_heap_handles
       b_weighter b_current_num_nodes_tree ug_num_vertices ug_edges] in *.
  subst parents levels cnt p nidx.
  destruct (heap_top_is_Some pick hp Hne) as [[h x] Htop].
  unfold bpt_iteration.
  cbn [b_g b_parents b_levels b_new_neighbour_indices b_active b_heap b_heap_handles
       b_weighter b_current_num_nodes_tree].
  rewrite Htop.
  pose proof (heap_top_spec pick hp h x Htop) as [Hin _].
  destruct (heap_inv_top pick _ _ _ _ _ h x Hheap Htop) as (He & Hh & Hact).
  pose proof (heap_erase_length h x hp (hi_nodup _ _ _ _ _ Hheap) Hin) as Hlen_erase.
  destruct (act !!! he_index x) eqn:Hae.
  - destruct (Hact eq_refl) as [Hx Hmin].
    destruct (gi_active _ _ _ _ _ _ _ Hedges _ He Hae) as (a & b & Hug & Hab & Hp).
    destruct (fusion_step_min g w _ _ _ _ _ _ Hnd Hlen Hedges He Hae Hmin)
      as (i & z & Hz & Hfind & Hpz & Hwz).
    pose proof (fuse_explore_inv g w _ _ _ _ _ _ a b Hwf Hedges He Hae Hug _ Hcnt) as Hexp.
    pose proof (fuse_explore g w _ _ _ _ _ _ a b Hwf Hedges He Hae Hug
                  (replicate (num_vertices g * 2 - 1) None)) as Hexplore.
    destruct (foldl (explore_step _) _ _) as [D idx] eqn:Hfold.
    cbn [fst snd] in Hexp.
    erewrite (bpt_fuse_unfold _ _ _ _ _ _ _ _ _ _ _ _ a b D idx Hug Hexplore
               (explore_inv_reset _ _ _ _ _ Hexp)
               (fuse_D_NoDup g w _ _ _ _ _ _ a b Hwf Hedges He Hae Hug _ D idx Hexp)).
    exists (fuse g w z fs). split; [|split].
    + split;
        cbn [b_g b_parents b_levels b_new_neighbour_indices b_active b_heap
             b_heap_handles b_weighter b_current_num_nodes_tree ug_num_vertices
             ug_edges fuse fs_parents fs_levels fs_comp fs_count]; try done.
      * symmetry. apply fuse_parents_eq. rewrite Hp. exact Hpz.
      * rewrite Hx. cbn [he_value]. by rewrite Hwz.
      * rewrite (fuse_comp_eq a b); [|rewrite Hp; exact Hpz].
        exact (fuse_edges_inv g w _ _ _ _ _ _ a b Hwf Hedges He Hae Hug _ D idx Hexp).
      * exact (fuse_heap_inv g w _ _ _ _ _ _ a b Hwf Hedges He Hae Hug _ D idx Hexp _ _ _ Hheap Hh).
    + right. unfold fusion_step. rewrite Hfind. done.
    + cbn [b_heap]. by rewrite heap_updates_length.
  - exists fs. split; [|split; [by left|done]].
    split; try done.
    cbn [b_active b_weighter b_heap b_heap_handles].
    by apply heap_inv_pop_stale.
Qed.

(* ================================================================== *)
(** * The initial heap *)
(* ================================================================== *)

(** The body of the loops of lines 319-326. *)
Definition init_step (w : list Z) (st : list bool * heap * list (option nat)) (e : nat)
    : list bool * heap * list (option nat) :=
  let '(active, hp, handles) := st in
  if active !!! e : bool then (active, hp, handles)
  else
    let '(hd, hp) := heap_push (HeapElement (w !!! e) e) hp in
    (<[e := true]> active, hp, <[e := Some hd]> handles).

Lemma bpt_init_heap_fold graph G w :
  bpt_init_heap graph G w =
  foldl (init_step w)
        (replicate (ug_num_edges G) false, heap_new, replicate (ug_num_edges G) None)
        (seq 0 (num_vertices graph) ≫= λ v, out_edges v G).
Proof.
  unfold bpt_init_heap.
  generalize (replicate (ug_num_edges G) false, heap_new,
              replicate (ug_num_edges G) (@None nat)).
  generalize (seq 0 (num_vertices graph)). intros vs.
  induction vs as [|v vs IH]; intros st; [done|].
  rewrite bind_cons, foldl_app. cbn [foldl]. rewrite IH. f_equal.
  generalize (out_edges v G). intros es. revert st.
  induction es as [|x es IHes]; intros [[act hp] handles]; [done|].
  cbn [foldl]. rewrite <-IHes. done.
Qed.

Record init_inv (m : nat) (w : list Z) (act : list bool) (hp : heap)
    (handles : list (option nat)) : Prop := InitInv {
  ii_act_length : length act = m;
  ii_handles_length : length handles = m;
  ii_next : ∀ h x, (h, x) ∈ heap_entries hp → h < heap_next hp;
  ii_nodup : NoDup (heap_entries hp).*1;
  ii_entry : ∀ h x, (h, x) ∈ heap_entries hp →
    he_index x < m ∧ handles !!! he_index x = Some h ∧ act !!! he_index x = true;
  ii_active : ∀ e, e < m → act !!! e = true →
    ∃ h, handles !!! e = Some h ∧ (h, HeapElement (w !!! e) e) ∈ heap_entries hp;
  ii_indices : NoDup ((λ e, he_index e.2) <$> heap_entries hp)
}.

Lemma init_inv_start m w :
  init_inv m w (replicate m false) heap_new (replicate m None).
Proof.
  split; simpl.
  - apply length_replicate.
  - apply length_replicate.
  - intros h x Hin. by apply elem_of_nil in Hin.
  - apply NoDup_nil_2.
  - intros h x Hin. by apply elem_of_nil in Hin.
  - intros e He Ha. by rewrite lookup_total_replicate_2 in Ha.
  - apply NoDup_nil_2.
Qed.

Lemma init_step_inv m w act hp handles e :
  init_inv m w act hp handles → e < m →
  let '(act', hp', handles') := init_step w (act, hp, handles) e in
  init_inv m w act' hp' handles' ∧ act' !!! e = true ∧
  (∀ e', act !!! e' = true → act' !!! e' = true).
Proof.
  intros Hinv He. pose proof Hinv as [Hla Hlh Hnext Hnd Hent Hact Hidx].
  unfold init_step. destruct (act !!! e) eqn:Hae; [done|].
  unfold heap_push.
  assert (∀ e', act !!! e' = true → <[e := true]> act !!! e' = true) as Hmono.
  { intros e' Ha'. rewrite list_lookup_total_insert_ne; [done|]. intros ->. congruence. }
  split; [|split; [|done]].
  2:{ rewrite list_lookup_total_insert, decide_True; [done|]. split; [done|lia]. }
  split; cbn [heap_entries heap_next].
  - by rewrite length_insert.
  - by rewrite length_insert.
  - intros h x Hin. apply elem_of_app in Hin as [Hin|Hin].
    + specialize (Hnext _ _ Hin). lia.
    + apply list_elem_of_singleton in Hin. injection Hin as -> ->. lia.
  - rewrite fmap_app. apply NoDup_app. split; [done|]. split.
    + intros h Hh Hh'. apply list_elem_of_singleton in Hh'. simpl in Hh'. subst h.
      apply list_elem_of_fmap in Hh as ([h x] & Heq & Hin). simpl in Heq. subst h.
      specialize (Hnext _ _ Hin). lia.
    + apply NoDup_singleton.
  - intros h x Hin. apply elem_of_app in Hin as [Hin|Hin].
    + destruct (Hent _ _ Hin) as (H1 & H2 & H3). split; [done|].
      assert (he_index x ≠ e) as Hne by (intros Heq; congruence).
      rewrite !list_lookup_total_insert_ne by done. done.
    + apply list_elem_of_singleton in Hin. injection Hin as -> ->. simpl.
      rewrite !list_lookup_total_insert, !decide_True; [done|split; [done|lia]..].
  - intros e' He' Ha'. destruct (decide (e' = e)) as [->|Hne].
    + exists (heap_next hp). rewrite list_lookup_total_insert, decide_True by (split; [done|lia]).
      split; [done|]. apply elem_of_app. right. by left.
    + rewrite list_lookup_total_insert_ne in Ha' by done.
      rewrite list_lookup_total_insert_ne by done.
      destruct (Hact e' He' Ha') as (h & Hh & Hin).
      exists h. split; [done|]. apply elem_of_app. by left.
  - rewrite fmap_app. apply NoDup_app. split; [done|]. split.
    + intros i Hi Hi'. apply list_elem_of_singleton in Hi'. simpl in Hi'. subst i.
      apply list_elem_of_fmap in Hi as ([h x] & Heq & Hin). simpl in Heq.
      destruct (Hent _ _ Hin) as (_ & _ & H3). simpl in H3. congruence.
    + apply NoDup_singleton.
Qed.

Lemma init_fold_inv m w es act hp handles :
  init_inv m w act hp handles → (∀ e, e ∈ es → e < m) →
  let '(act', hp', handles') := foldl (init_step w) (act, hp, handles) es in
  init_inv m w act' hp' handles' ∧
  (∀ e, e ∈ es → act' !!! e = true) ∧
  (∀ e', act !!! e' = true → act' !!! e' = true).
Proof.
  revert act hp handles. induction es as [|e es IH]; intros act hp handles Hinv Hes.
  { simpl. split; [done|]. split; [|done]. intros e He. by apply elem_of_nil in He. }
  cbn [foldl].
  pose proof (init_step_inv m w act hp handles e Hinv (Hes e (list_elem_of_here _ _))) as Hstep.
  destruct (init_step w (act, hp, handles) e) as [[act1 hp1] handles1].
  destruct Hstep as (Hinv1 & He1 & Hmono1).
  assert (∀ e', e' ∈ es → e' < m) as Hes' by (intros e' He'; apply Hes; by right).
  specialize (IH act1 hp1 handles1 Hinv1 Hes').
  destruct (foldl (init_step w) (act1, hp1, handles1) es) as [[act' hp'] handles'].
  destruct IH as (Hinv' & Hall & Hmono).
  split; [done|]. split.
  - intros e' He'. apply elem_of_cons in He' as [->|He']; [by apply Hmono|by apply Hall].
  - intros e' Ha'. by apply Hmono, Hmono1.
Qed.

Lemma NoDup_bounded_length (l : list nat) m :
  NoDup l → (∀ x, x ∈ l → x < m) → length l ≤ m.
Proof.
  intros Hnd Hlt. rewrite <-(length_seq m 0). apply submseteq_length.
  apply NoDup_submseteq; [done|]. intros x Hx. apply elem_of_seq. specialize (Hlt x Hx). lia.
Qed.

Lemma bpt_inv_init g w act hp handles :
  graph_wf g → simple_graph g → length w = num_edges g →
  bpt_init_heap g (copy_graph g) w = (act, hp, handles) →
  bpt_inv g w (fusion_init g)
    (BptState (copy_graph g) (seq 0 (num_vertices g * 2 - 1))
              (replicate (num_vertices g * 2 - 1) 0%Z)
              (replicate (num_vertices g * 2 - 1) None) act hp handles w
              (num_vertices g)) ∧
  length (heap_entries hp) ≤ num_edges g.
Proof.
  intros Hwf [Hloop Hpar] Hlen Hinit. rewrite bpt_init_heap_fold in Hinit.
  assert (ug_num_edges (copy_graph g) = num_edges g) as Hm.
  { unfold ug_num_edges, copy_graph. simpl. by rewrite length_fmap. }
  rewrite Hm in Hinit.
  assert (∀ e, e < num_edges g →
            ug_edges (copy_graph g) !!! e =
            Some (source (edge_from_index e g), target (edge_from_index e g))) as Hug.
  { intros e He. unfold copy_graph. cbn [ug_edges]. rewrite lookup_total_fmap by done.
    unfold edge_from_index, source, target. by destruct (edge_list g !!! e). }
  pose proof (init_fold_inv (num_edges g) w
                (seq 0 (num_vertices g) ≫= λ v, out_edges v (copy_graph g))
                _ _ _ (init_inv_start _ w)) as Hfold.
  rewrite Hinit in Hfold. destruct Hfold as (Hinv & Hall & _).
  { intros e He. apply list_elem_of_bind in He as (v & He & _).
    apply elem_of_out_edges in He as [He _]. unfold copy_graph in He. cbn [ug_edges] in He.
    by rewrite length_fmap in He. }
  assert (∀ e, e < num_edges g → act !!! e = true) as Hact.
  { intros e He. apply Hall. apply list_elem_of_bind.
    exists (source (edge_from_index e g)). split.
    - apply elem_of_out_edges. split.
      + unfold copy_graph. cbn [ug_edges]. by rewrite length_fmap.
      + rewrite Hug by done. apply incident_Some. by left.
    - apply elem_of_seq. destruct (edge_from_index_wf g e Hwf He). lia. }
  assert (∀ e, e < num_edges g →
            region_pair g (seq 0 (num_vertices g)) e =
            norm_pair (source (edge_from_index e g)) (target (edge_from_index e g))) as Hrp.
  { intros e He. destruct (edge_from_index_wf g e Hwf He).
    unfold region_pair. by rewrite !lookup_total_seq_lt by done. }
  pose proof Hinv as [Hla Hlh Hnext Hnd Hent Hactive Hidx].
  split.
  - split; cbn [b_g b_parents b_levels b_new_neighbour_indices b_active b_heap
                b_heap_handles b_weighter b_current_num_nodes_tree fusion_init
                fs_parents fs_levels fs_comp fs_count]; try done.
    + split.
      * apply length_seq.
      * intros v Hv. rewrite lookup_total_seq_lt by done. lia.
      * unfold copy_graph. cbn [ug_edges]. by rewrite length_fmap.
      * done.
      * done.
      * intros e He _. exists (source (edge_from_index e g)), (target (edge_from_index e g)).
        split; [by apply Hug|]. split; [by apply Hloop|]. by rewrite Hrp.
      * intros e He Ha. rewrite Hact in Ha by done. done.
      * intros e e' He He' _ _. rewrite !Hrp by done. by apply Hpar.
      * intros x Hx _. exists x. split; [done|]. split; [by apply Hact|done].
      * intros e He _. exists e. done.
      * intros e x He _ Hx Hp. rewrite !Hrp in Hp by done.
        rewrite (Hpar x e Hx He Hp). lia.
    + split; [done..| |done].
      intros h x Hin. by destruct (Hent h x Hin) as (? & ? & _).
  - rewrite <-(length_fmap (λ e, he_index e.2)). apply NoDup_bounded_length; [done|].
    intros i Hi. apply list_elem_of_fmap in Hi as ([h x] & -> & Hin).
    by destruct (Hent h x Hin) as (? & _).
Qed.

Lemma fusion_run_S g w j : fusion_run g w (S j) = fusion_step g w (fusion_run g w j).
Proof. done. Qed.

(** The loop ends in a state of the fusions by increasing weight, with an
    empty heap or a full tree. *)
Lemma bpt_loop_inv pick g w :
  graph_wf g → NoDup w → length w = num_edges g →
  ∀ fuel st j,
    bpt_inv g w (fusion_run g w j) st →
    fs_count (fusion_run g w j) = num_vertices g + j →
    fs_count (fusion_run g w j) ≤ num_vertices g * 2 - 1 →
    length (heap_entries (b_heap st)) ≤ fuel →
    ∃ j',
      bpt_inv g w (fusion_run g w j')
        (bpt_loop fuel pick binary_partition_tree_min_linkage
                  (num_vertices g * 2 - 1) st) ∧
      fs_count (fusion_run g w j') = num_vertices g + j' ∧
      fs_count (fusion_run g w j') ≤ num_vertices g * 2 - 1 ∧
      (heap_entries
         (b_heap (bpt_loop fuel pick binary_partition_tree_min_linkage
                           (num_vertices g * 2 - 1) st)) = [] ∨
       fs_count (fusion_run g w j') = num_vertices g * 2 - 1).
Proof.
  intros Hwf Hnd Hlen. induction fuel as [|fuel IH]; intros st j Hinv Hcnt Hle Hfuel.
  { exists j. split; [done|]. split; [done|]. split; [done|]. left.
    simpl. destruct (heap_entries (b_heap st)); [done|simpl in Hfuel; lia]. }
  cbn [bpt_loop]. rewrite (bi_count _ _ _ _ Hinv).
  destruct (heap_empty (b_heap st)) eqn:Hempty; cbn [negb andb].
  { exists j. split; [done|]. split; [done|]. split; [done|]. left.
    unfold heap_empty in Hempty. by apply bool_decide_eq_true in Hempty. }
  destruct (Nat.ltb_spec (fs_count (fusion_run g w j)) (num_vertices g * 2 - 1)) as [Hlt|Hge].
  2:{ exists j. split; [done|]. split; [done|]. split; [done|]. right. lia. }
  apply heap_empty_false in Hempty.
  destruct (bpt_iteration_inv pick g w _ st Hwf Hnd Hlen Hinv Hempty Hlt)
    as (fs' & Hinv' & Hfs' & Hlen').
  destruct Hfs' as [->|[-> Hcnt']].
  - apply (IH _ j); [done..|lia].
  - rewrite <-fusion_run_S in Hinv', Hcnt'. apply (IH _ (S j)); [done|lia|lia|lia].
Qed.

Lemma fusion_run_stable g w j k :
  list_find (crossing g (fs_comp (fusion_run g w j))) (sorted_edges_indices g w) = None →
  fusion_run g w (j + k) = fusion_run g w j.
Proof.
  intros Hnone. induction k as [|k IH].
  - by rewrite Nat.add_0_r.
  - rewrite Nat.add_succ_r, fusion_run_S, IH. unfold fusion_step. by rewrite Hnone.
Qed.

(** With an empty heap no edge of the input graph joins two regions. *)
Lemma bpt_inv_heap_empty g w fs st :
  bpt_inv g w fs st → heap_entries (b_heap st) = [] →
  list_find (crossing g (fs_comp fs)) (sorted_edges_indices g w) = None.
Proof.
  intros Hinv Hempty. apply list_find_None, Forall_forall. intros x Hx Hcr.
  apply sorted_edges_indices_elem in Hx.
  destruct (gi_cover _ _ _ _ _ _ _ (bi_edges _ _ _ _ Hinv) x Hx Hcr) as (e & He & Hae & _).
  destruct (hi_active _ _ _ _ _ (bi_heap _ _ _ _ Hinv) e He Hae) as (h & _ & Hin).
  rewrite Hempty in Hin. by apply elem_of_nil in Hin.
Qed.

(** Two trees over the same leaves [0 .. n) are isomorphic when a
    renumbering of the nodes that keeps the leaves carries the parent
    relation of the first to that of the second. *)
Definition tree_iso (n : nat) (t1 t2 : tree) : Prop :=
  num_vertices_tree t1 = num_vertices_tree t2 ∧
  ∃ f : nat → nat,
    (∀ i, i < num_vertices_tree t1 → f i < num_vertices_tree t2) ∧
    (∀ i j, i < num_vertices_tree t1 → j < num_vertices_tree t1 → f i = f j → i = j) ∧
    (∀ i, i < n → f i = i) ∧
    (∀ i, i < num_vertices_tree t1 → parent (f i) t2 = f (parent i t1)).

Lemma tree_iso_refl n t : tree_iso n t t.
Proof. split; [done|]. exists id. done. Qed.

(** On a connected graph without self-loops and parallel edges, and with
    pairwise distinct weights, the fusions of [binary_partition_tree] with
    the minimum linkage are the merges of [bpt_canonical], in the same
    order and with the same node numbers. *)
Lemma bpt_min_linkage_canonical pick g w :
  graph_wf g → connected g → simple_graph g → NoDup w → length w = num_edges g →
  bpt_min_linkage pick g w =
  inr (NodeWeightedTree (Tree (k_parents (kruskal_final g w)))
                        (k_levels (kruskal_final g w))).
Proof.
  intros Hwf Hc Hs Hnd Hlen. pose proof Hc as [Hn _].
  unfold bpt_min_linkage, binary_partition_tree.
  rewrite Hlen, Nat.eqb_refl. cbn [negb].
  destruct (Nat.eqb_spec (num_vertices g) 0) as [|_]; [lia|].
  destruct (bpt_init_heap g (copy_graph g) w) as [[act hp] handles] eqn:Hinit.
  cbv zeta.
  assert (ug_num_edges (copy_graph g) = num_edges g) as ->.
  { unfold ug_num_edges, copy_graph. simpl. by rewrite length_fmap. }
  change (ug_num_vertices (copy_graph g)) with (num_vertices g).
  destruct (bpt_inv_init g w act hp handles Hwf Hs Hlen Hinit) as [Hinv0 Hlen0].
  destruct (bpt_loop_inv pick g w Hwf Hnd Hlen (num_edges g) _ 0 Hinv0)
    as (j & Hinv & Hcnt & Hle & Hend).
  { simpl. lia. }
  { simpl. lia. }
  { done. }
  pose proof (kruskal_final_fusion g w Hwf Hc) as [Hcp Hcl Hcc _ _].
  assert (fs_count (fusion_run g w (num_vertices g - 1)) = num_vertices g * 2 - 1) as Hfull.
  { rewrite Hcc.
    destruct (kruskal_final_spec g w Hwf Hn) as (k & _ & _ & Hki & _).
    rewrite (ki_num_nodes _ _ _ Hki).
    rewrite (proj2 (kruskal_final_connected g w Hwf Hn) Hc). lia. }
  assert (j = num_vertices g - 1) as ->.
  { destruct Hend as [Hempty|Hfull']; [|lia].
    pose proof (bpt_inv_heap_empty _ _ _ _ Hinv Hempty) as Hnone.
    pose proof (fusion_run_stable g w j (num_vertices g - 1 - j) Hnone) as Hst.
    replace (j + (num_vertices g - 1 - j)) with (num_vertices g - 1) in Hst by lia.
    rewrite Hst in Hfull. lia. }
  rewrite (bi_parents _ _ _ _ Hinv), (bi_levels _ _ _ _ Hinv), Hcp, Hcl.
  rewrite make_tree_valid; [done|].
  destruct (kruskal_final_tree_inv g w Hwf Hn) as (P & _ & Hki & Hkt).
  apply (kruskal_final_tree g w P Hn); [|done..].
  by apply (kruskal_final_connected g w Hwf Hn).
Qed.

(** C8, amended. For a connected graph without self-loops and parallel
    edges and with pairwise distinct edge weights, whatever the tie rule of
    the heap, [binary_partition_tree] with the minimum linkage returns the
    tree of [bpt_canonical]: the same parent array, so the two trees are
    isomorphic with every node keeping its number, and the same
    altitudes. *)
Theorem C8_min_linkage_canonical (pick : tie_rule) (g : ugraph) (w : list Z) :
  graph_wf g → connected g → simple_graph g → NoDup w → length w = num_edges g →
  ∃ r t a,
    bpt_canonical g w = inr r ∧
    bpt_min_linkage pick g w = inr (NodeWeightedTree t a) ∧
    t = nwt_tree r ∧ a = nwt_altitudes r ∧
    tree_iso (num_vertices g) t (nwt_tree r).
Proof.
  intros Hwf Hc Hs Hnd Hlen. pose proof Hc as [Hn _].
  rewrite (bpt_canonical_unfold g w Hlen Hn).
  rewrite (proj2 (kruskal_final_connected g w Hwf Hn) Hc), Nat.eqb_refl.
  rewrite (bpt_min_linkage_canonical pick g w Hwf Hc Hs Hnd Hlen).
  eexists _, _, _. split; [reflexivity|]. split; [reflexivity|].
  split; [reflexivity|]. split; [reflexivity|]. apply tree_iso_refl.
Qed.

(* ================================================================== *)
(** * The choice of the heap among equal keys *)
(* ================================================================== *)

(** The heap that takes, among the elements of minimal key, the one that
    was pushed first. *)
Definition first_pushed : tie_rule := λ _, 0.

(** The heap that takes, among the elements of minimal key, the one whose
    payload is the smallest edge id. *)
Definition smallest_edge_id : tie_rule := λ h,
  match heap_min_value h with
  | None => 0
  | Some m =>
      let ids := fmap (λ e, he_index e.2)
                      (filter (λ e, he_value e.2 = m) (heap_entries h)) in
      from_option fst 0 (list_find (λ i, i = foldr Nat.min (default 0 (head ids)) ids) ids)
  end.

(** ** The main loop empties the heap *)

Lemma heap_update_length hd x h :
  length (heap_entries (heap_update hd x h)) = length (heap_entries h).
Proof. unfold heap_update. cbn [heap_entries]. apply length_fmap. Qed.

Lemma process_fold_heap_length p handles (D : list (new_neighbour Z)) st :
  length (heap_entries (foldl (λ s nn, bpt_process_neighbour p s handles nn) st D).2) =
  length (heap_entries st.2).
Proof.
  revert st. induction D as [|d D IH]; intros [[G act] hp]; [done|].
  cbn [foldl]. rewrite IH. unfold bpt_process_neighbour.
  destruct (second_edge_index d); cbn [snd];
    destruct (handles !!! first_edge_index d); by rewrite ?heap_update_length.
Qed.

Lemma bpt_fuse_heap_length {W} (weight_function : weighter W Z) e fw (st : bpt_state W) :
  length (heap_entries (b_heap (bpt_fuse weight_function e fw st))) =
  length (heap_entries (b_heap st)).
Proof.
  unfold bpt_fuse, ug_add_vertex.
  destruct (explore_region _ _ _) as [D idx].
  destruct D as [|d D]; [done|].
  destruct (weight_function _ _ _ _ _ _ _) as [w' D'].
  match goal with
  | |- context [foldl ?f ?s D'] =>
      pose proof (process_fold_heap_length (ug_num_vertices (b_g st)) (b_heap_handles st) D' s)
        as Hlen
  end.
  destruct (foldl _ _ D') as [[G3 act3] hp3]. exact Hlen.
Qed.

Lemma filter_erase_length (hd : nat) (x : heap_element) (l : list (nat * heap_element)) :
  (hd, x) ∈ l → length (filter (λ e, e.1 ≠ hd) l) < length l.
Proof.
  induction l as [|y l IH]; intros Hin; [by apply elem_of_nil in Hin|].
  rewrite filter_cons. pose proof (length_filter (λ e : nat * heap_element, e.1 ≠ hd) l).
  case_decide as Hy; simpl.
  - apply elem_of_cons in Hin as [<-|Hin]; [by destruct Hy|].
    specialize (IH Hin). lia.
  - lia.
Qed.

(** Every turn of the main loop takes an element out of the heap and
    none puts one in, whatever the weighting function: the number of
    elements of the heap decreases at every turn, and tells the turn. *)
Lemma bpt_iteration_heap_length {W} pick (weight_function : weighter W Z)
    (st : bpt_state W) :
  heap_empty (b_heap st) = false →
  length (heap_entries (b_heap (bpt_iteration pick weight_function st))) <
  length (heap_entries (b_heap st)).
Proof.
  intros Hne. apply heap_empty_false in Hne.
  destruct (heap_top_is_Some pick (b_heap st) Hne) as [[hd x] Htop].
  unfold bpt_iteration. rewrite Htop.
  destruct (heap_top_spec pick _ _ _ Htop) as [Hin _].
  pose proof (filter_erase_length hd x _ Hin) as Hlt.
  cbn [b_active]. destruct (b_active st !!! he_index x).
  - rewrite bpt_fuse_heap_length. cbn [b_heap]. by rewrite heap_erase_entries.
  - cbn [b_heap]. by rewrite heap_erase_entries.
Qed.


(** ** Heaps that choose by their past *)

(** The main loop with a heap whose choice among the elements of minimal
    key depends on all the heaps that the loop has met, the present one
    first: the position of the turn, the elements popped before, the
    updates made between two turns. *)
Fixpoint bpt_loop_history {W} (fuel : nat) (policy : list heap → nat)
    (weight_function : weighter W Z) (num_nodes_tree : nat) (met : list heap)
    (st : bpt_state W) : bpt_state W :=
  match fuel with
  | 0 => st
  | S fuel' =>
      if negb (heap_empty (b_heap st)) && (b_current_num_nodes_tree st <? num_nodes_tree)
      then bpt_loop_history fuel' policy weight_function num_nodes_tree (b_heap st :: met)
             (bpt_iteration (λ _, policy (b_heap st :: met)) weight_function st)
      else st
  end.

Lemma bpt_iteration_pick_ext {W} pick pick' (weight_function : weighter W Z)
    (st : bpt_state W) :
  pick (b_heap st) = pick' (b_heap st) →
  bpt_iteration pick weight_function st = bpt_iteration pick' weight_function st.
Proof. intros Heq. unfold bpt_iteration, heap_top. by rewrite Heq. Qed.

(** The loop reads the tie rule at heaps that are no larger than the
    present one. *)
Lemma bpt_loop_pick_ext {W} fuel pick pick' (weight_function : weighter W Z) B
    (st : bpt_state W) :
  (∀ h, length (heap_entries h) ≤ length (heap_entries (b_heap st)) → pick h = pick' h) →
  bpt_loop fuel pick weight_function B st = bpt_loop fuel pick' weight_function B st.
Proof.
  revert st. induction fuel as [|fuel IH]; intros st Hext; [done|].
  cbn [bpt_loop].
  destruct (heap_empty (b_heap st)) eqn:Hempty; cbn [negb andb]; [done|].
  destruct (b_current_num_nodes_tree st <? B); [|done].
  rewrite (bpt_iteration_pick_ext pick pick') by (by apply Hext).
  apply IH. intros h Hh. apply Hext.
  pose proof (bpt_iteration_heap_length pick' weight_function st Hempty). lia.
Qed.

(** The number of elements of the heap tells the turn, so that a heap
    that chooses by its past does what a tie rule does: the theorems that
    hold for every tie rule hold for every such heap. *)
Lemma bpt_loop_history_tie_rule {W} fuel policy (weight_function : weighter W Z) B met
    (st : bpt_state W) :
  ∃ pick : tie_rule,
    bpt_loop fuel pick weight_function B st =
    bpt_loop_history fuel policy weight_function B met st.
Proof.
  revert met st. induction fuel as [|fuel IH]; intros met st; [by exists (λ _, 0)|].
  cbn [bpt_loop bpt_loop_history].
  destruct (heap_empty (b_heap st)) eqn:Hempty; cbn [negb andb]; [by exists (λ _, 0)|].
  destruct (b_current_num_nodes_tree st <? B); [|by exists (λ _, 0)].
  set (c := policy (b_heap st :: met)).
  destruct (IH (b_heap st :: met) (bpt_iteration (λ _, c) weight_function st))
    as [pick' Hpick'].
  exists (λ h, if decide (length (heap_entries h) = length (heap_entries (b_heap st)))
               then c else pick' h).
  rewrite (bpt_iteration_pick_ext _ (λ _, c)) by (by rewrite decide_True).
  rewrite <-Hpick'. apply bpt_loop_pick_ext. intros h Hh.
  pose proof (bpt_iteration_heap_length (λ _, c) weight_function st Hempty).
  rewrite decide_False by lia. done.
Qed.

(** The same for the whole of [binary_partition_tree]. *)
Definition binary_partition_tree_history {W} (policy : list heap → nat) (graph : ugraph)
    (edge_weights : list Z) (weight_function : weighter W Z) (w0 : W)
    : error + node_weighted_tree :=
  if negb (length edge_weights =? num_edges graph) then inl InvalidInput
  else if num_vertices graph =? 0 then inl BadAlloc
  else
    let g := copy_graph graph in
    let num_points := ug_num_vertices g in
    let num_nodes_tree := num_points * 2 - 1 in
    let '(active, hp, handles) := bpt_init_heap graph g edge_weights in
    let st := BptState g (seq 0 num_nodes_tree) (replicate num_nodes_tree 0%Z)
                       (replicate num_nodes_tree None) active hp handles w0 num_points in
    let st := bpt_loop_history (ug_num_edges g) policy weight_function num_nodes_tree [] st in
    match make_tree (b_parents st) with
    | inl err => inl err
    | inr t => inr (NodeWeightedTree t (b_levels st))
    end.

Lemma binary_partition_tree_history_tie_rule {W} policy graph edge_weights
    (weight_function : weighter W Z) (w0 : W) :
  ∃ pick : tie_rule,
    binary_partition_tree pick graph edge_weights weight_function w0 =
    binary_partition_tree_history policy graph edge_weights weight_function w0.
Proof.
  unfold binary_partition_tree, binary_partition_tree_history.
  destruct (negb (length edge_weights =? num_edges graph)); [by exists (λ _, 0)|].
  destruct (num_vertices graph =? 0); [by exists (λ _, 0)|].
  destruct (bpt_init_heap graph (copy_graph graph) edge_weights) as [[act hp] handles].
  cbv zeta.
  match goal with
  | |- context [bpt_loop_history ?f policy weight_function ?B [] ?st] =>
      destruct (bpt_loop_history_tie_rule f policy weight_function B [] st) as [pick Hpick]
  end.
  exists pick. by rewrite Hpick.
Qed.

(** Two chains with equal weights, [0 - 1 - 2] at weight 1 and
    [3 - 4 - 5] at weight 2, joined by a heavy edge.  In the first chain the
    edge with the smaller id enters the heap first, in the second chain it
    enters last. *)
Definition two_chains : ugraph := Ugraph 6 [(0, 1); (1, 2); (4, 5); (3, 4); (2, 3)].

Lemma two_chains_connected : connected two_chains.
Proof.
  apply (kruskal_final_connected two_chains [1; 1; 2; 2; 9]%Z).
  - apply graph_wf_b_correct. reflexivity.
  - simpl. lia.
  - vm_compute. reflexivity.
Qed.

(** A decision procedure for [simple_graph]. *)
Definition simple_graph_b (g : ugraph) : bool :=
  bool_decide
    (Forall (λ e,
       source (edge_from_index e g) ≠ target (edge_from_index e g) ∧
       Forall (λ e',
         norm_pair (source (edge_from_index e g)) (target (edge_from_index e g)) =
         norm_pair (source (edge_from_index e' g)) (target (edge_from_index e' g)) →
         e = e') (seq 0 (num_edges g)))
       (seq 0 (num_edges g))).

Lemma simple_graph_b_correct g : simple_graph_b g = true → simple_graph g.
Proof.
  unfold simple_graph_b. intros Hb. apply bool_decide_eq_true in Hb.
  rewrite Forall_forall in Hb. split.
  - intros e He. apply Hb, elem_of_seq. lia.
  - intros e e' He He' Hp. destruct (Hb e) as [_ Hall]; [apply elem_of_seq; lia|].
    rewrite Forall_forall in Hall. apply Hall; [apply elem_of_seq; lia|done].
Qed.

(** C8 fails as stated. The graph [two_chains] is connected and has no
    self-loop and no parallel edges, and with the heap that takes the first
    pushed of the elements of minimal key, a heap that meets the contract
    of the priority queue, [binary_partition_tree] with the minimum linkage
    returns a tree that is not isomorphic to the tree of [bpt_canonical]:
    it fuses [3] and [4] first where the stable sort merges [4] and [5],
    so that the two trees group the leaves [3], [4], [5] differently. *)
Lemma C8_counterexample :
  graph_wf two_chains ∧ connected two_chains ∧ simple_graph two_chains ∧
  length [1; 1; 2; 2; 9]%Z = num_edges two_chains ∧
  bpt_canonical two_chains [1; 1; 2; 2; 9]%Z =
    inr (NodeWeightedTreeAndMst (Tree [6; 6; 7; 9; 8; 8; 7; 10; 9; 10; 10])
           [0; 0; 0; 0; 0; 0; 1; 1; 2; 2; 9]%Z
           (Ugraph 6 [(0, 1); (1, 2); (4, 5); (3, 4); (2, 3)]) [0; 1; 2; 3; 4]) ∧
  bpt_min_linkage first_pushed two_chains [1; 1; 2; 2; 9]%Z =
    inr (NodeWeightedTree (Tree [6; 6; 7; 8; 8; 9; 7; 10; 9; 10; 10])
           [0; 0; 0; 0; 0; 0; 1; 1; 2; 2; 9]%Z) ∧
  ¬ tree_iso (num_vertices two_chains)
      (Tree [6; 6; 7; 8; 8; 9; 7; 10; 9; 10; 10])
      (Tree [6; 6; 7; 9; 8; 8; 7; 10; 9; 10; 10]).
Proof.
  split; [apply graph_wf_b_correct; reflexivity|].
  split; [apply two_chains_connected|].
  split; [apply simple_graph_b_correct; vm_compute; reflexivity|].
  split; [reflexivity|].
  split; [vm_compute; reflexivity|].
  split; [vm_compute; reflexivity|].
  intros [_ (f & _ & _ & Hleaf & Hpar)].
  pose proof (Hpar 3) as H3. pose proof (Hpar 4) as H4.
  rewrite Hleaf in H3, H4 by (cbv; lia).
  unfold parent in H3, H4. cbn in H3, H4.
  assert (f 8 = 9) as H9 by (symmetry; apply H3; lia).
  assert (f 8 = 8) as H8 by (symmetry; apply H4; lia).
  lia.
Qed.

(** On the same input the heap that takes the smallest edge id among the
    elements of minimal key returns the tree of [bpt_canonical]: whether
    the two trees agree under ties is decided by the tie rule of the
    heap. *)
Example two_chains_smallest_edge_id :
  bpt_min_linkage smallest_edge_id two_chains [1; 1; 2; 2; 9]%Z =
    inr (NodeWeightedTree (Tree [6; 6; 7; 9; 8; 8; 7; 10; 9; 10; 10])
           [0; 0; 0; 0; 0; 0; 1; 1; 2; 2; 9]%Z).
Proof. vm_compute. reflexivity. Qed.

Lemma C8_min_linkage_canonical_witness :
  ∃ r t a,
    bpt_canonical grid_2x3 [5; 3; 7; 1; 4; 2; 6]%Z = inr r ∧
    bpt_min_linkage first_pushed grid_2x3 [5; 3; 7; 1; 4; 2; 6]%Z
      = inr (NodeWeightedTree t a) ∧
    t = nwt_tree r ∧ a = nwt_altitudes r ∧
    tree_iso (num_vertices grid_2x3) t (nwt_tree r).
Proof.
  apply (C8_min_linkage_canonical first_pushed grid_2x3 [5; 3; 7; 1; 4; 2; 6]%Z).
  - apply grid_2x3_wf.
  - apply grid_2x3_connected.
  - apply simple_graph_b_correct. vm_compute. reflexivity.
  - apply (bool_decide_unpack (NoDup [5; 3; 7; 1; 4; 2; 6]%Z)). vm_compute. exact I.
  - reflexivity.
Defined.


(* ================================================================== *)
(** * simplify_tree: the surviving nodes and their parents *)
(* ================================================================== *)

(** The first surviving node above [y] is an ancestor of [y], and every
    ancestor of [y] below it is deleted. *)
Lemma first_kept_ancestor t crit fuel y :
  ∃ k, k ≤ fuel ∧ first_kept fuel t crit y = ancestor t k y ∧
       ∀ k', k' < k → deleted t crit (ancestor t k' y) = true.
Proof.
  revert y. induction fuel as [|fuel IH]; intros y.
  { exists 0. split; [done|]. split; [done|]. intros k' Hk'. lia. }
  simpl. destruct (deleted t crit y) eqn:Hd.
  - destruct (IH (parent y t)) as (k & Hk & Heq & Hbelow).
    exists (S k). split; [lia|]. split; [by rewrite ancestor_succ_r|].
    intros [|k'] Hk'; [done|]. rewrite ancestor_succ_r. apply Hbelow. lia.
  - exists 0. split; [lia|]. split; [done|]. intros k' Hk'. lia.
Qed.

Lemma deleted_false t crit i :
  deleted t crit i = false ↔ is_leaf i t = true ∨ i = root t ∨ crit i = false.
Proof.
  unfold deleted. rewrite !andb_false_iff, !negb_false_iff, Nat.eqb_eq. tauto.
Qed.

Section SimplifySurvivors.
Context (t : tree) (Hvalid : tree_valid t) (crit : nat → bool).

Local Abbreviation r := (simplify_tree t crit).

Lemma simplify_tree_node_map_elem i :
  i ∈ rt_node_map r ↔ i < num_vertices_tree t ∧ deleted t crit i = false.
Proof.
  destruct (simplify_tree_spec t Hvalid crit) as (HN & Hlen & _ & Hkept & Honto).
  split.
  - intros Hin. apply list_elem_of_lookup in Hin as [j Hj].
    pose proof (lookup_lt_Some _ _ _ Hj) as Hlt.
    apply list_lookup_total_correct in Hj. subst i.
    destruct (simplify_tree_node_map t Hvalid crit j) as (H1 & H2 & _); [|done].
    rewrite HN, <-Hlen. done.
  - intros [Hi Hd]. destruct (Hkept i Hi Hd) as (Hlt & Hm & _).
    rewrite <-Hm. apply list_elem_of_lookup_total_2. by rewrite Hlen.
Qed.

(** A node below a surviving node hangs, in the simplified tree, under
    that node. *)
Lemma surviving_child c :
  c < root t →
  ∃ x, x < root t ∧ deleted t crit x = false ∧
       surviving_ancestor t crit (parent x t) = surviving_ancestor t crit (parent c t).
Proof.
  induction (lt_wf c) as [c _ IH]. intros Hc.
  destruct (deleted t crit c) eqn:Hd.
  - apply deleted_true in Hd as Hd'. destruct Hd' as (Hleaf & _ & _).
    unfold is_leaf in Hleaf. apply bool_decide_eq_false in Hleaf.
    destruct (children c t) as [|c' l] eqn:Hch; [done|].
    assert (c' ∈ children c t) as Hin by (rewrite Hch; by left).
    apply elem_of_children in Hin as (Hc' & Hp & Hne).
    assert (c' < root t) as Hc'r.
    { destruct (decide (c' = root t)) as [->|]; [|unfold root in *; lia].
      rewrite valid_parent_root in Hp by done. lia. }
    destruct (valid_parent_gt t Hvalid c' Hc'r) as [Hlt _].
    destruct (IH c' ltac:(lia) Hc'r) as (x & Hx & Hdx & Heq).
    exists x. split; [done|]. split; [done|]. rewrite Heq, Hp.
    rewrite (surviving_ancestor_unfold t Hvalid crit c) by (unfold root in *; lia).
    by rewrite Hd.
  - exists c. done.
Qed.
End SimplifySurvivors.

(** X1. On a validated tree, whatever the criterion, [simplify_tree]
    returns a valid tree together with a node map of the same size, which
    lists in increasing order exactly the nodes that are a leaf, the root,
    or an interior node where the criterion is false. *)
Theorem X1_simplify_tree_survivors (t : tree) (crit : nat → bool) :
  tree_valid t →
  let r := simplify_tree t crit in
  tree_valid (rt_tree r) ∧
  length (rt_node_map r) = num_vertices_tree (rt_tree r) ∧
  (∀ i, i ∈ rt_node_map r ↔
        i < num_vertices_tree t ∧ (is_leaf i t = true ∨ i = root t ∨ crit i = false)) ∧
  (∀ j j', j < j' → j' < length (rt_node_map r) →
           rt_node_map r !!! j < rt_node_map r !!! j').
Proof.
  intros Hvalid r.
  destruct (simplify_tree_spec t Hvalid crit) as (HN & Hlen & _).
  split; [by apply simplify_tree_valid|]. split; [unfold r; lia|]. split.
  - intros i. unfold r. rewrite (simplify_tree_node_map_elem t Hvalid crit).
    by rewrite deleted_false.
  - intros j j' Hjj Hj'. apply (simplify_tree_node_map_mono t Hvalid crit); [done|].
    fold r. unfold r in *. lia.
Qed.

(** X2. In the simplified tree the parent of a node is the first
    surviving proper ancestor of that node in the input tree: the node map
    sends the new parent to an ancestor of the old node, and no ancestor
    strictly between the two survives. *)
Theorem X2_simplify_tree_parent (t : tree) (crit : nat → bool) :
  tree_valid t →
  let r := simplify_tree t crit in
  ∀ j, j < num_vertices_tree (rt_tree r) →
    ∃ k, 0 < k ∧
      rt_node_map r !!! parent j (rt_tree r) = ancestor t k (rt_node_map r !!! j) ∧
      ∀ k', 0 < k' → k' < k → ancestor t k' (rt_node_map r !!! j) ∉ rt_node_map r.
Proof.
  intros Hvalid r j Hj.
  destruct (simplify_tree_spec t Hvalid crit) as (HN & Hlen & _ & Hkept & Honto).
  destruct (simplify_tree_node_map t Hvalid crit j Hj) as (Hi & Hd & Hnew).
  fold r in Hi, Hd, Hnew. set (i := rt_node_map r !!! j) in *.
  destruct (Hkept i Hi Hd) as (_ & _ & Hpar). fold r in Hpar. rewrite Hnew in Hpar.
  pose proof (valid_parent_lt t Hvalid i Hi) as Hp.
  destruct (surviving_ancestor_spec t Hvalid crit _ Hp) as (_ & Hs & Hds).
  destruct (Hkept _ Hs Hds) as (_ & Hm & _). fold r in Hm.
  destruct (first_kept_ancestor t crit (num_vertices_tree t) (parent i t))
    as (k & _ & Heq & Hbelow).
  fold (surviving_ancestor t crit (parent i t)) in Heq.
  exists (S k). split; [lia|]. split.
  - rewrite Hpar, Hm, Heq. by rewrite ancestor_succ_r.
  - intros [|k'] Hk1 Hk2; [lia|]. rewrite ancestor_succ_r.
    unfold r. rewrite (simplify_tree_node_map_elem t Hvalid crit).
    intros [_ Hd']. rewrite Hbelow in Hd' by lia. done.
Qed.

(** The leaves of the simplified tree come from the leaves of the input
    tree. *)
Lemma simplify_tree_is_leaf (t : tree) (crit : nat → bool) :
  tree_valid t →
  let r := simplify_tree t crit in
  ∀ j, j < num_vertices_tree (rt_tree r) →
    is_leaf j (rt_tree r) = is_leaf (rt_node_map r !!! j) t.
Proof.
  intros Hvalid r j Hj.
  destruct (simplify_tree_spec t Hvalid crit) as (HN & Hlen & Hroot & Hkept & Honto).
  pose proof (simplify_tree_valid t Hvalid crit) as Hvalid'.
  destruct (simplify_tree_node_map t Hvalid crit j Hj) as (Hi & Hd & Hnew).
  fold r in Hi, Hd, Hnew, HN, Hroot, Hkept, Honto, Hvalid'.
  set (i := rt_node_map r !!! j) in *.
  apply eq_true_iff_eq. unfold is_leaf. rewrite !bool_decide_eq_true. split.
  - intros Hnil. destruct (children i t) as [|c l] eqn:Hch; [done|]. exfalso.
    assert (c ∈ children i t) as Hin by (rewrite Hch; by left).
    apply elem_of_children in Hin as (Hc & Hp & Hne).
    assert (c < root t) as Hcr.
    { destruct (decide (c = root t)) as [->|]; [|unfold root in *; lia].
      rewrite valid_parent_root in Hp by done. lia. }
    destruct (surviving_child t Hvalid crit c Hcr) as (x & Hx & Hdx & Heq).
    rewrite Hp, (surviving_ancestor_kept t Hvalid crit i Hi Hd) in Heq.
    assert (x < num_vertices_tree t) as Hx' by (unfold root in *; lia).
    destruct (Hkept x Hx' Hdx) as (Hlt & _ & Hpx). rewrite Heq, Hnew in Hpx.
    destruct (valid_parent_gt t Hvalid x Hx) as [Hgt Hplt].
    destruct (surviving_ancestor_spec t Hvalid crit _ Hplt) as (Hge & _). rewrite Heq in Hge.
    assert (new_index t crit x ∈ children j (rt_tree r)) as Hin.
    { apply elem_of_children. split; [by rewrite HN|]. split; [done|].
      rewrite <-Hnew. intros Heq'. apply new_index_inj in Heq'; [lia|done..]. }
    rewrite Hnil in Hin. by apply elem_of_nil in Hin.
  - intros Hnil. destruct (children j (rt_tree r)) as [|c' l] eqn:Hch; [done|]. exfalso.
    assert (c' ∈ children j (rt_tree r)) as Hin by (rewrite Hch; by left).
    apply elem_of_children in Hin as (Hc' & Hp' & Hne').
    destruct (simplify_tree_node_map t Hvalid crit c' Hc') as (Hx & Hdx & Hnx).
    fold r in Hx, Hdx, Hnx. set (x := rt_node_map r !!! c') in *.
    destruct (Hkept x Hx Hdx) as (_ & _ & Hpx). rewrite Hnx, Hp', <-Hnew in Hpx.
    pose proof (valid_parent_lt t Hvalid x Hx) as Hplt.
    destruct (surviving_ancestor_spec t Hvalid crit _ Hplt) as (_ & Hs & Hds).
    apply new_index_inj in Hpx; [|done..].
    destruct (first_kept_ancestor t crit (num_vertices_tree t) (parent x t))
      as (k & _ & Heq & Hbelow).
    fold (surviving_ancestor t crit (parent x t)) in Heq. rewrite <-Hpx in Heq.
    assert (x ≠ i) as Hxi by (intros Hxi; apply Hne'; by rewrite <-Hnx, <-Hnew, Hxi).
    assert (∃ c, c < num_vertices_tree t ∧ parent c t = i ∧ c ≠ i) as (c & Hc & Hpc & Hci).
    { destruct k as [|k].
      - exists x. split; [done|]. split; [by rewrite Heq|done].
      - exists (ancestor t k (parent x t)). split; [by apply ancestor_range|].
        split; [by rewrite Heq|]. intros Hc. specialize (Hbelow k ltac:(lia)).
        rewrite Hc in Hbelow. congruence. }
    assert (c ∈ children i t) as Hin by by apply elem_of_children.
    rewrite Hnil in Hin. by apply elem_of_nil in Hin.
Qed.

(** X3. [simplify_tree] never deletes a leaf and creates none: a node of
    the simplified tree is a leaf exactly when the node it comes from is
    a leaf of the input tree. *)
Theorem X3_simplify_tree_leaves (t : tree) (crit : nat → bool) :
  tree_valid t →
  let r := simplify_tree t crit in
  ∀ j, j < num_vertices_tree (rt_tree r) →
    is_leaf j (rt_tree r) = is_leaf (rt_node_map r !!! j) t.
Proof. apply simplify_tree_is_leaf. Qed.

(** X4. Lowest common ancestors commute with [simplify_tree]: the lowest
    common ancestor of two nodes of the simplified tree comes from the
    first surviving node among the lowest common ancestor of the two
    original nodes and its ancestors. *)
Theorem X4_simplify_tree_lca (t : tree) (crit : nat → bool) :
  tree_valid t →
  let r := simplify_tree t crit in
  ∀ j j', j < num_vertices_tree (rt_tree r) → j' < num_vertices_tree (rt_tree r) →
    ∃ k,
      rt_node_map r !!! lca (rt_tree r) j j' =
        ancestor t k (lca t (rt_node_map r !!! j) (rt_node_map r !!! j')) ∧
      ∀ k', k' < k →
        ancestor t k' (lca t (rt_node_map r !!! j) (rt_node_map r !!! j')) ∉ rt_node_map r.
Proof.
  intros Hvalid r j j' Hj Hj'.
  destruct (simplify_tree_spec t Hvalid crit) as (HN & Hlen & _ & Hkept & Honto).
  destruct (simplify_tree_node_map t Hvalid crit j Hj) as (Hi & Hd & Hnew).
  destruct (simplify_tree_node_map t Hvalid crit j' Hj') as (Hi' & Hd' & Hnew').
  fold r in Hi, Hd, Hnew, Hi', Hd', Hnew'.
  set (u := rt_node_map r !!! j) in *. set (v := rt_node_map r !!! j') in *.
  pose proof (simplify_tree_lca t Hvalid crit u v Hi Hi') as Hlca.
  unfold simplify_image in Hlca.
  rewrite (surviving_ancestor_kept t Hvalid crit u Hi Hd) in Hlca.
  rewrite (surviving_ancestor_kept t Hvalid crit v Hi' Hd') in Hlca.
  rewrite Hnew, Hnew' in Hlca. fold r in Hlca. rewrite Hlca.
  pose proof (lca_lt t Hvalid u v Hi Hi') as Hl.
  destruct (surviving_ancestor_spec t Hvalid crit _ Hl) as (_ & Hs & Hds).
  destruct (Hkept _ Hs Hds) as (_ & Hm & _). fold r in Hm. rewrite Hm.
  destruct (first_kept_ancestor t crit (num_vertices_tree t) (lca t u v))
    as (k & _ & Heq & Hbelow).
  exists k. split; [exact Heq|].
  intros k' Hk'. unfold r. rewrite (simplify_tree_node_map_elem t Hvalid crit).
  intros [_ Hd'']. rewrite Hbelow in Hd'' by done. done.
Qed.

(** When the leaves of the tree are its first [n] nodes they keep their
    index in the simplified tree, and they are its first [n] nodes. *)
Lemma simplify_tree_leaves_first (t : tree) (crit : nat → bool) (n : nat) :
  tree_valid t → 0 < n → n ≤ num_vertices_tree t →
  (∀ i, i < num_vertices_tree t → is_leaf i t = true ↔ i < n) →
  let r := simplify_tree t crit in
  (∀ i, i < n → i < num_vertices_tree (rt_tree r) ∧ rt_node_map r !!! i = i) ∧
  (∀ j, j < num_vertices_tree (rt_tree r) → rt_node_map r !!! j < n ↔ j < n).
Proof.
  intros Hvalid Hn HnN Hleaf r.
  destruct (simplify_tree_spec t Hvalid crit) as (HN' & Hnm & Hroot & Hkept & Honto).
  fold r in HN', Hnm, Hroot, Hkept, Honto.
  assert (∀ i, i < n → deleted t crit i = false) as Hdl.
  { intros i Hi. apply not_true_is_false. rewrite deleted_true. intros (Hl & _).
    assert (is_leaf i t = true) by (apply Hleaf; lia). congruence. }
  assert (∀ b, b ≤ n → deleted_below t crit b = 0) as Hzero.
  { induction b as [|b IH]; intros Hb; [done|]. simpl. rewrite IH, Hdl by lia. done. }
  assert (∀ i, i < n → i < num_vertices_tree (rt_tree r) ∧ rt_node_map r !!! i = i) as Hfix.
  { intros i Hi. destruct (Hkept i ltac:(lia) (Hdl i Hi)) as (Hlt & Hm & _).
    unfold new_index in Hlt, Hm. rewrite Hzero in Hlt, Hm by lia.
    rewrite Nat.sub_0_r in Hlt, Hm. split; [lia|done]. }
  split; [done|].
  intros j Hj. split.
  - intros Hlt. destruct (decide (j < n)) as [|Hge]; [done|].
    destruct (Hfix (n - 1) ltac:(lia)) as [_ Hm].
    pose proof (simplify_tree_node_map_mono t Hvalid crit (n - 1) j) as Hmono.
    fold r in Hmono. specialize (Hmono ltac:(lia) Hj). lia.
  - intros Hlt. destruct (Hfix j Hlt) as [_ ->]. done.
Qed.

(* ================================================================== *)
(** * quasi_flat_zones_hierarchy: no plateau is left *)
(* ================================================================== *)

(** X5. For a connected graph the quasi-flat zones hierarchy is a valid
    tree with one altitude per node; its leaves are the vertices of the
    graph, at altitude 0; and the altitude of every other node but the
    root is strictly below the altitude of its parent. *)
Theorem X5_qfz_strict_altitudes (g : ugraph) (w : list Z) :
  graph_wf g → connected g → length w = num_edges g →
  ∃ qfz, quasi_flat_zones_hierarchy g w = inr qfz ∧
    let t := nw_tree qfz in
    let alt := nw_altitudes qfz in
    tree_valid t ∧ length alt = num_vertices_tree t ∧
    num_vertices g < num_vertices_tree t + 1 ∧
    (∀ j, j < num_vertices_tree t → is_leaf j t = true ↔ j < num_vertices g) ∧
    (∀ j, j < num_vertices g → alt !!! j = 0%Z) ∧
    (∀ j, num_vertices g ≤ j → j < root t → (alt !!! j < alt !!! parent j t)%Z).
Proof.
  intros Hwf Hc Hw. pose proof Hc as [Hn _].
  pose proof (bpt_canonical_unfold g w Hw Hn) as Hbpt.
  apply (kruskal_final_connected g w Hwf Hn) in Hc.
  rewrite Hc, Nat.eqb_refl in Hbpt.
  rewrite (quasi_flat_zones_hierarchy_unfold g w _ Hbpt). cbv zeta.
  eexists. split; [reflexivity|]. cbn [nwt_tree nwt_altitudes nw_tree nw_altitudes].
  destruct (kruskal_final_tree_inv g w Hwf Hn) as (P & HP & Hinv & Htree).
  destruct (kruskal_final_tree g w P Hn Hc Hinv Htree) as (HN & Hvalid & Hleaf & Hpar).
  set (t := Tree (k_parents (kruskal_final g w))) in *.
  set (alt := k_levels (kruskal_final g w)) in *.
  set (crit := plateau_criterion alt (propagate_parallel t alt)).
  set (r := simplify_tree t crit).
  destruct (simplify_tree_spec t Hvalid crit) as (HN' & Hnm & Hroot & Hkept & Honto).
  fold r in HN', Hnm, Hroot, Hkept, Honto.
  pose proof (simplify_tree_valid t Hvalid crit) as Hvalid'. fold r in Hvalid'.
  destruct (simplify_tree_leaves_first t crit (num_vertices g) Hvalid Hn ltac:(lia) Hleaf)
    as [Hfix Hside].
  fold r in Hfix, Hside.
  split; [done|]. split; [by rewrite index_view_length, Hnm|].
  split.
  { destruct (Hfix (num_vertices g - 1) ltac:(lia)). lia. }
  split; [|split].
  - intros j Hj.
    destruct (simplify_tree_node_map t Hvalid crit j Hj) as (Hi & _).
    unfold r. rewrite (simplify_tree_is_leaf t crit Hvalid j Hj).
    rewrite (Hleaf _ Hi). by apply Hside.
  - intros j Hj. destruct (Hfix j Hj) as [Hlt Hm].
    rewrite index_view_lookup by (rewrite Hnm; lia). rewrite Hm.
    by apply (kt_levels_leaf _ _ _ _ Htree).
  - intros j Hj1 Hj2.
    assert (j < num_vertices_tree (rt_tree r)) as Hj by (unfold root in Hj2; lia).
    destruct (simplify_tree_node_map t Hvalid crit j Hj) as (Hi & Hd & Hnew).
    fold r in Hi, Hd, Hnew. set (i := rt_node_map r !!! j) in *.
    assert (num_vertices g ≤ i) as Hin.
    { destruct (decide (i < num_vertices g)) as [Hlt|]; [|lia]. apply (Hside j Hj) in Hlt. lia. }
    assert (i ≠ root t) as Hir.
    { intros Heq. rewrite Heq, <-Hroot in Hnew. lia. }
    destruct (Hkept i Hi Hd) as (_ & _ & Hpi). rewrite Hnew in Hpi.
    pose proof (valid_parent_lt t Hvalid i Hi) as Hplt.
    destruct (surviving_ancestor_spec t Hvalid crit _ Hplt) as (_ & Hs & Hds).
    destruct (Hkept _ Hs Hds) as (Hslt & Hsm & _).
    rewrite !index_view_lookup by (rewrite Hnm; rewrite <-?HN'; try done;
                                   rewrite Hpi, HN'; done).
    rewrite Hpi, Hsm. fold i.
    pose proof (plateau_surviving_ancestor t alt (parent i t) Hvalid Hplt) as Hpl.
    cbv zeta in Hpl. fold crit in Hpl. rewrite Hpl.
    apply deleted_false in Hd as [Hl|[?|Hcrit]]; [|done|].
    { apply Hleaf in Hl; lia. }
    unfold crit, plateau_criterion in Hcrit. apply Z.eqb_neq in Hcrit.
    rewrite propagate_parallel_lookup in Hcrit by done.
    pose proof (kt_levels_mono _ _ _ _ Htree i Hin ltac:(lia)) as Hmono.
    change (k_levels (kruskal_final g w)) with alt in Hmono.
    change (k_parents (kruskal_final g w) !!! i) with (parent i t) in Hmono. lia.
Qed.

(* ================================================================== *)
(** * The trees built by fusions *)
(* ================================================================== *)

(** The states reached by fusing, any number of times, the two regions at
    the ends of an edge that joins two regions, while the tree is not
    full.  The altitude given to a new node is left open. *)
Inductive fusion_reach (g : ugraph) : fusion_state → Prop :=
| fusion_reach_init : fusion_reach g (fusion_init g)
| fusion_reach_fuse fs w e :
    fusion_reach g fs → e < num_edges g → crossing g (fs_comp fs) e →
    fs_count fs < num_vertices g * 2 - 1 →
    fusion_reach g (fuse g w e fs).

(** The shape of the tree under construction: the regions are the roots
    of the forest, a node that is not a root has its parent above it, and
    every node created by a fusion has exactly two children. *)
Record shape_inv (g : ugraph) (fs : fusion_state) : Prop := ShapeInv {
  si_count_ge : num_vertices g ≤ fs_count fs;
  si_count_le : fs_count fs ≤ num_vertices g * 2 - 1;
  si_comp_length : length (fs_comp fs) = num_vertices g;
  si_parents_length : length (fs_parents fs) = num_vertices g * 2 - 1;
  si_levels_length : length (fs_levels fs) = num_vertices g * 2 - 1;
  si_comp_lt : ∀ v, v < num_vertices g → fs_comp fs !!! v < fs_count fs;
  si_region_root : ∀ v, v < num_vertices g →
    fs_parents fs !!! (fs_comp fs !!! v) = fs_comp fs !!! v;
  si_fresh : ∀ x, fs_count fs ≤ x → x < num_vertices g * 2 - 1 →
    fs_parents fs !!! x = x ∧ fs_levels fs !!! x = 0%Z;
  si_parent_range : ∀ x, x < num_vertices g * 2 - 1 → fs_parents fs !!! x ≠ x →
    x < fs_parents fs !!! x ∧ num_vertices g ≤ fs_parents fs !!! x ∧
    fs_parents fs !!! x < fs_count fs;
  si_root_region : ∀ x, x < fs_count fs → fs_parents fs !!! x = x →
    ∃ v, v < num_vertices g ∧ fs_comp fs !!! v = x;
  si_children : ∀ y, num_vertices g ≤ y → y < fs_count fs →
    ∃ c1 c2, c1 ≠ c2 ∧ c1 ≠ y ∧ c2 ≠ y ∧
      fs_parents fs !!! c1 = y ∧ fs_parents fs !!! c2 = y ∧
      ∀ c, c < num_vertices g * 2 - 1 → c ≠ y → fs_parents fs !!! c = y →
           c = c1 ∨ c = c2;
  si_leaf_levels : ∀ v, v < num_vertices g → fs_levels fs !!! v = 0%Z;
  si_leaf_ancestor : ∀ v, v < num_vertices g →
    is_ancestor (Tree (fs_parents fs)) (fs_comp fs !!! v) v
}.

Lemma shape_inv_init g : 0 < num_vertices g → shape_inv g (fusion_init g).
Proof.
  intros Hn. split; cbn [fusion_init fs_parents fs_levels fs_comp fs_count].
  - done.
  - lia.
  - apply length_seq.
  - apply length_seq.
  - apply length_replicate.
  - intros v Hv. by rewrite lookup_total_seq_lt.
  - intros v Hv. rewrite (lookup_total_seq_lt 0 (num_vertices g)) by done.
    by rewrite lookup_total_seq_lt by lia.
  - intros x Hx1 Hx2. split; [by rewrite lookup_total_seq_lt|].
    by rewrite lookup_total_replicate_2.
  - intros x Hx Hp. by rewrite lookup_total_seq_lt in Hp.
  - intros x Hx _. exists x. split; [done|]. by rewrite lookup_total_seq_lt.
  - intros y Hy1 Hy2. lia.
  - intros v Hv. rewrite lookup_total_replicate_2; [done|lia].
  - intros v Hv. rewrite lookup_total_seq_lt by done. by exists 0.
Qed.

(** A fusion puts a parent above two roots: the ancestors that a node had
    are kept. *)
Lemma is_ancestor_grow (ps : list nat) a b p x v :
  ps !!! a = a → ps !!! b = b →
  is_ancestor (Tree ps) x v →
  is_ancestor (Tree (<[b := p]> (<[a := p]> ps))) x v.
Proof.
  intros Ha Hb [k Hk]. revert x Hk. induction k as [|k IH]; intros x Hk.
  { exists 0. done. }
  change (ancestor (Tree ps) (S k) v)
    with (parent (ancestor (Tree ps) k v) (Tree ps)) in Hk.
  destruct (IH _ eq_refl) as [k' Hk'].
  set (z := ancestor (Tree ps) k v) in *. unfold parent in Hk. cbn [parents] in Hk.
  destruct (decide (z = a ∨ z = b)) as [Hz|Hz].
  - exists k'. rewrite Hk'. destruct Hz as [-> | ->]; congruence.
  - exists (S k').
    change (parent (ancestor (Tree (<[b:=p]> (<[a:=p]> ps))) k' v)
                   (Tree (<[b:=p]> (<[a:=p]> ps))) = x).
    rewrite Hk'. unfold parent. cbn [parents].
    rewrite !list_lookup_total_insert_ne by lia. done.
Qed.

Lemma shape_inv_fuse g w e fs :
  graph_wf g → shape_inv g fs → e < num_edges g → crossing g (fs_comp fs) e →
  fs_count fs < num_vertices g * 2 - 1 →
  shape_inv g (fuse g w e fs).
Proof.
  intros Hwf Hinv He Hcr Hlt. pose proof Hinv as
    [Hge Hle Hcl Hpl Hll Hclt Hrr Hfresh Hrange Hroot Hch Hleaf Hanc].
  destruct (edge_from_index_wf g e Hwf He) as [Hs Ht].
  unfold crossing in Hcr. unfold fuse.
  set (a := fs_comp fs !!! source (edge_from_index e g)) in *.
  set (b := fs_comp fs !!! target (edge_from_index e g)) in *.
  set (p := fs_count fs) in *.
  pose proof (Hclt _ Hs) as Ha. pose proof (Hclt _ Ht) as Hb. fold a in Ha. fold b in Hb.
  pose proof (Hrr _ Hs) as Hra. pose proof (Hrr _ Ht) as Hrb. fold a in Hra. fold b in Hrb.
  assert (∀ x, x < num_vertices g * 2 - 1 →
            <[b:=p]> (<[a:=p]> (fs_parents fs)) !!! x =
            if decide (x = a ∨ x = b) then p else fs_parents fs !!! x) as Hpar.
  { intros x Hx. rewrite list_lookup_total_insert, length_insert.
    destruct (decide (b = x ∧ b < length (fs_parents fs))) as [[-> _]|Hnb].
    { rewrite decide_True; [done|]. by right. }
    rewrite list_lookup_total_insert.
    destruct (decide (a = x ∧ a < length (fs_parents fs))) as [[-> _]|Hna].
    { rewrite decide_True; [done|]. by left. }
    rewrite decide_False; [done|]. lia. }
  assert (∀ v, v < num_vertices g →
            ((λ c, if decide (c = a ∨ c = b) then p else c) <$> fs_comp fs) !!! v =
            if decide (fs_comp fs !!! v = a ∨ fs_comp fs !!! v = b) then p
            else fs_comp fs !!! v) as Hcomp.
  { intros v Hv. by rewrite lookup_total_fmap by lia. }
  split; cbn [fs_parents fs_levels fs_comp fs_count].
  - lia.
  - lia.
  - by rewrite length_fmap.
  - by rewrite !length_insert.
  - by rewrite length_insert.
  - intros v Hv. rewrite Hcomp by done. specialize (Hclt v Hv). case_decide; lia.
  - intros v Hv. rewrite Hcomp by done. specialize (Hclt v Hv). specialize (Hrr v Hv).
    case_decide.
    + rewrite Hpar by lia. rewrite decide_False by lia. apply Hfresh; lia.
    + rewrite Hpar by lia. by rewrite decide_False.
  - intros x Hx1 Hx2. rewrite Hpar by done. rewrite decide_False by lia.
    rewrite list_lookup_total_insert_ne by lia. apply Hfresh; lia.
  - intros x Hx. rewrite Hpar by done. case_decide; [lia|].
    intros Hp. specialize (Hrange x Hx Hp). lia.
  - intros x Hx. rewrite Hpar by lia. case_decide; [lia|]. intros Hp.
    destruct (decide (x = p)) as [->|Hxp].
    + exists (source (edge_from_index e g)). split; [done|].
      rewrite Hcomp by done. fold a. rewrite decide_True; [done|by left].
    + destruct (Hroot x ltac:(lia) Hp) as (v & Hv & Hcv).
      exists v. split; [done|]. rewrite Hcomp, Hcv by done. by rewrite decide_False.
  - intros y Hy1 Hy2. destruct (decide (y = p)) as [->|Hyp].
    + exists a, b. split; [done|]. split; [lia|]. split; [lia|].
      split; [rewrite Hpar by lia; rewrite decide_True; [done|by left]|].
      split; [rewrite Hpar by lia; rewrite decide_True; [done|by right]|].
      intros c Hc Hcp. rewrite Hpar by done. case_decide; [done|]. intros Hpc.
      destruct (decide (fs_parents fs !!! c = c)) as [Heq|Hne]; [lia|].
      specialize (Hrange c Hc Hne). lia.
    + destruct (Hch y Hy1 ltac:(lia)) as (c1 & c2 & H12 & H1y & H2y & Hp1 & Hp2 & Huniq).
      assert (c1 < num_vertices g * 2 - 1 ∧ c2 < num_vertices g * 2 - 1) as [Hc1 Hc2].
      { split.
        - destruct (decide (c1 < num_vertices g * 2 - 1)) as [|Hge1]; [done|].
          rewrite list_lookup_total_alt, lookup_ge_None_2 in Hp1 by lia.
          simpl in Hp1. lia.
        - destruct (decide (c2 < num_vertices g * 2 - 1)) as [|Hge2]; [done|].
          rewrite list_lookup_total_alt, lookup_ge_None_2 in Hp2 by lia.
          simpl in Hp2. lia. }
      exists c1, c2. split; [done|]. split; [done|]. split; [done|].
      split; [rewrite Hpar by done; rewrite decide_False; [done|]; intros [-> | ->]; congruence|].
      split; [rewrite Hpar by done; rewrite decide_False; [done|]; intros [-> | ->]; congruence|].
      intros c Hc Hcy. rewrite Hpar by done. case_decide; [lia|]. by apply Huniq.
  - intros v Hv. rewrite list_lookup_total_insert_ne by lia. by apply Hleaf.
  - intros v Hv. rewrite Hcomp by done.
    pose proof (is_ancestor_grow (fs_parents fs) a b p _ v Hra Hrb (Hanc v Hv)) as [k Hk].
    case_decide as Hab; [|by exists k].
    exists (S k).
    change (parent (ancestor (Tree (<[b:=p]> (<[a:=p]> (fs_parents fs)))) k v)
                   (Tree (<[b:=p]> (<[a:=p]> (fs_parents fs)))) = p).
    rewrite Hk. unfold parent. cbn [parents]. specialize (Hclt v Hv).
    rewrite Hpar by lia. by rewrite decide_True.
Qed.

Lemma fusion_reach_shape g fs :
  graph_wf g → 0 < num_vertices g → fusion_reach g fs → shape_inv g fs.
Proof.
  intros Hwf Hn. induction 1 as [|fs w e _ IH He Hcr Hlt].
  - by apply shape_inv_init.
  - by apply shape_inv_fuse.
Qed.

(** The runs of fusions by increasing weight. *)
Lemma fusion_step_count g w fs :
  (fusion_step g w fs = fs) ∨
  (∃ i e, list_find (crossing g (fs_comp fs)) (sorted_edges_indices g w) = Some (i, e) ∧
          fusion_step g w fs = fuse g w e fs ∧
          fs_count (fusion_step g w fs) = S (fs_count fs)).
Proof.
  unfold fusion_step.
  destruct (list_find _ _) as [[i e]|] eqn:Hfind; [right|by left].
  exists i, e. done.
Qed.

Lemma fusion_run_count_le g w j : fs_count (fusion_run g w j) ≤ num_vertices g + j.
Proof.
  induction j as [|j IH]; [simpl; lia|]. rewrite fusion_run_S.
  destruct (fusion_step_count g w (fusion_run g w j)) as [->|(i & e & _ & _ & ->)]; lia.
Qed.

Lemma fusion_run_reach g w j :
  fs_count (fusion_run g w j) = num_vertices g + j → j ≤ num_vertices g - 1 →
  fusion_reach g (fusion_run g w j).
Proof.
  induction j as [|j IH]; intros Hcnt Hj; [apply fusion_reach_init|].
  rewrite fusion_run_S in Hcnt |- *.
  pose proof (fusion_run_count_le g w j) as Hle.
  destruct (fusion_step_count g w (fusion_run g w j)) as [Heq|(i & e & Hfind & Heq & Hc)].
  - rewrite Heq in Hcnt. lia.
  - rewrite Heq. rewrite Hc in Hcnt.
    apply list_find_Some in Hfind as (Hi & Hcr & _).
    apply fusion_reach_fuse; [apply IH; lia| |done|lia].
    apply (sorted_edges_indices_elem g w). by eapply list_elem_of_lookup_2.
Qed.

(** The tree of [bpt_canonical] on a connected graph is reached by
    fusions. *)
Lemma kruskal_final_reach g w :
  graph_wf g → connected g →
  ∃ fs, fusion_reach g fs ∧
        fs_parents fs = k_parents (kruskal_final g w) ∧
        fs_levels fs = k_levels (kruskal_final g w) ∧
        fs_count fs = num_vertices g * 2 - 1.
Proof.
  intros Hwf Hc. pose proof Hc as [Hn _].
  pose proof (kruskal_final_fusion g w Hwf Hc) as [Hcp Hcl Hcc _ _].
  assert (fs_count (fusion_run g w (num_vertices g - 1)) = num_vertices g * 2 - 1) as Hfull.
  { rewrite Hcc.
    destruct (kruskal_final_spec g w Hwf Hn) as (k & _ & _ & Hki & _).
    rewrite (ki_num_nodes _ _ _ Hki).
    rewrite (proj2 (kruskal_final_connected g w Hwf Hn) Hc). lia. }
  exists (fusion_run g w (num_vertices g - 1)).
  split; [apply fusion_run_reach; lia|done].
Qed.

Lemma children_two (t : tree) y c1 c2 :
  c1 ≠ c2 → c1 ≠ y → c2 ≠ y →
  c1 < num_vertices_tree t → c2 < num_vertices_tree t →
  parent c1 t = y → parent c2 t = y →
  (∀ c, c < num_vertices_tree t → c ≠ y → parent c t = y → c = c1 ∨ c = c2) →
  length (children y t) = 2.
Proof.
  intros H12 H1 H2 Hc1 Hc2 Hp1 Hp2 Huniq.
  assert (children y t ≡ₚ [c1; c2]) as ->; [|done].
  apply NoDup_Permutation.
  - unfold children. apply NoDup_filter, NoDup_seq.
  - apply NoDup_cons. split; [by rewrite list_elem_of_singleton|apply NoDup_singleton].
  - intros c. unfold children. rewrite list_elem_of_filter, elem_of_seq.
    rewrite elem_of_cons, list_elem_of_singleton. split.
    + intros [[Hp Hne] Hc]. apply Huniq; [lia|done..].
    + intros [-> | ->]; (split; [done|lia]).
Qed.

(** X6. For a connected graph the tree of [bpt_canonical] is a valid
    binary tree: it has [2n - 1] nodes, its leaves are the [n] vertices of
    the graph, and every other node has exactly two children. *)
Theorem X6_bpt_canonical_binary_tree (g : ugraph) (w : list Z) :
  graph_wf g → connected g → length w = num_edges g →
  ∃ r, bpt_canonical g w = inr r ∧
    let t := nwt_tree r in
    tree_valid t ∧ num_vertices_tree t = num_vertices g * 2 - 1 ∧
    (∀ i, i < num_vertices_tree t → is_leaf i t = true ↔ i < num_vertices g) ∧
    (∀ y, num_vertices g ≤ y → y < num_vertices_tree t → length (children y t) = 2).
Proof.
  intros Hwf Hc Hw. pose proof Hc as [Hn _].
  rewrite (bpt_canonical_unfold g w Hw Hn).
  pose proof (proj2 (kruskal_final_connected g w Hwf Hn) Hc) as Hf.
  rewrite Hf, Nat.eqb_refl. eexists. split; [reflexivity|]. cbn [nwt_tree].
  destruct (kruskal_final_tree_inv g w Hwf Hn) as (P & HP & Hinv & Htree).
  destruct (kruskal_final_tree g w P Hn Hf Hinv Htree) as (HN & Hvalid & Hleaf & Hpar).
  split; [done|]. split; [done|]. split; [done|].
  intros y Hy1 Hy2.
  destruct (kruskal_final_reach g w Hwf Hc) as (fs & Hreach & Hp & _ & Hcnt).
  pose proof (fusion_reach_shape g fs Hwf Hn Hreach) as Hshape.
  destruct (si_children _ _ Hshape y Hy1 ltac:(lia))
    as (c1 & c2 & H12 & H1 & H2 & Hp1 & Hp2 & Huniq).
  rewrite Hp in Hp1, Hp2, Huniq.
  assert (∀ c, k_parents (kruskal_final g w) !!! c = y → c < num_vertices g * 2 - 1) as Hin.
  { intros c Hpc. destruct (decide (c < num_vertices g * 2 - 1)) as [|Hge]; [done|].
    rewrite list_lookup_total_alt, lookup_ge_None_2 in Hpc.
    - simpl in Hpc. lia.
    - change (length (k_parents (kruskal_final g w)))
        with (num_vertices_tree (Tree (k_parents (kruskal_final g w)))). lia. }
  apply (children_two _ y c1 c2); try done.
  - rewrite HN. by apply Hin.
  - rewrite HN. by apply Hin.
  - intros c Hcl. apply Huniq. lia.
Qed.

Lemma sublist_StronglySorted {A} (R : relation A) (l1 l2 : list A) :
  l1 `sublist_of` l2 → StronglySorted R l2 → StronglySorted R l1.
Proof.
  induction 1 as [|x l1 l2 Hsub IH|x l1 l2 Hsub IH]; intros Hs.
  - constructor.
  - apply StronglySorted_cons in Hs as [Hall Hs]. apply StronglySorted_cons.
    split; [|by apply IH]. rewrite Forall_forall in Hall |- *.
    intros y Hy. apply Hall. by apply (sublist_subseteq _ _ Hsub).
  - apply StronglySorted_cons in Hs as [_ Hs]. by apply IH.
Qed.

(** X7. For a connected graph [bpt_canonical] records the edges of the
    minimum spanning tree in the order of the stable sort: along
    [mst_edge_map] the weights never decrease, and two edges of equal
    weight come by increasing edge id. *)
Theorem X7_bpt_canonical_selection_order (g : ugraph) (w : list Z) :
  graph_wf g → connected g → length w = num_edges g →
  ∃ r, bpt_canonical g w = inr r ∧
    ∀ i j, i < j → j < num_vertices g - 1 →
      edge_before w (nwt_mst_edge_map r !!! i) (nwt_mst_edge_map r !!! j).
Proof.
  intros Hwf Hc Hw. pose proof Hc as [Hn _].
  rewrite (bpt_canonical_unfold g w Hw Hn).
  pose proof (proj2 (kruskal_final_connected g w Hwf Hn) Hc) as Hf.
  rewrite Hf, Nat.eqb_refl. eexists. split; [reflexivity|]. cbn [nwt_mst_edge_map].
  destruct (kruskal_final_spec g w Hwf Hn) as (k & Hk & _ & Hinv & _).
  pose proof (ki_sublist _ _ _ Hinv) as Hsub.
  rewrite (kruskal_final_selected g w Hwf Hn Hf) in Hsub.
  pose proof (ki_map_length _ _ _ Hinv) as Hlen.
  assert (StronglySorted (edge_before w) (k_mst_edge_map (kruskal_final g w))) as Hs.
  { apply (sublist_StronglySorted _ _ _ Hsub).
    apply (sublist_StronglySorted _ _ (sorted_edges_indices g w)); [apply sublist_take|].
    apply sorted_edges_indices_sorted. }
  intros i j Hij Hj.
  apply (strongly_sorted_lookup _ _ i j _ _ Hs Hij);
    apply list_lookup_lookup_total_lt; lia.
Qed.

(* ================================================================== *)
(** * The saliency map of the canonical tree *)
(* ================================================================== *)

(** An edge selected by the Kruskal loop is the first edge of the sorted
    order that joins two regions. *)
Lemma canonical_rel_step_edge g w P st fs ei rest :
  graph_wf g → 0 < num_vertices g →
  sorted_edges_indices g w = P ++ ei :: rest →
  kruskal_inv g P st → kruskal_tree_inv g w P st →
  canonical_rel g st fs →
  k_num_edge_found (kruskal_step g w ei st) = S (k_num_edge_found st) →
  list_find (crossing g (fs_comp fs)) (sorted_edges_indices g w) = Some (length P, ei).
Proof.
  intros Hwf Hn HL Hinv Htree Hrel Hfound.
  assert (ei < num_edges g) as Hei.
  { apply (sorted_edges_indices_elem g w). rewrite HL. apply elem_of_app. right. by left. }
  destruct (edge_from_index_wf g ei Hwf Hei) as [Hsrc Htgt].
  pose proof (ki_models g P st Hinv) as Hm.
  pose proof (uf_union_spec _ _ _ _ _ Hm Hsrc Htgt) as Hspec. cbv zeta in Hspec.
  pose proof (kruskal_step_cases g w ei st) as Hcases. cbv zeta in Hcases.
  set (e := edge_from_index ei g) in *.
  set (c1 := (uf_find (k_uf st) (source e)).1) in *.
  set (uf1 := (uf_find (k_uf st) (source e)).2) in *.
  set (c2 := (uf_find uf1 (target e)).1) in *.
  set (uf2 := (uf_find uf1 (target e)).2) in *.
  destruct Hspec as (Hc1 & Hc2 & Hinv2 & Hsize2 & Hcnt2 & Hroot2 & Hrep2 & _ & _).
  destruct Hrel as [Hp Hl Hcnt Hcl Hcomp].
  destruct Hcases as [[Hc Heq]|[Hc Heq]].
  { rewrite Heq in Hfound. cbn [k_num_edge_found] in Hfound. lia. }
  assert (uf_is_root uf2 c1) as Hr1.
  { rewrite Hroot2, Hc1. apply uf_rep_is_root; [apply Hm|by rewrite (um_size _ _ _ Hm)]. }
  assert (uf_is_root uf2 c2) as Hr2.
  { rewrite Hroot2, Hc2. apply uf_rep_is_root; [apply Hm|by rewrite (um_size _ _ _ Hm)]. }
  apply Hroot2 in Hr1 as Hr1', Hr2 as Hr2'.
  assert (fs_comp fs !!! source e = k_roots st !!! c1) as Ha by (rewrite Hc1; by apply Hcomp).
  assert (fs_comp fs !!! target e = k_roots st !!! c2) as Hb by (rewrite Hc2; by apply Hcomp).
  assert (k_roots st !!! c1 ≠ k_roots st !!! c2) as Hab.
  { intros Heq'. apply Hc. by apply (kt_root_inj _ _ _ _ Htree). }
  apply list_find_Some. split; [|split].
  - rewrite HL. by apply list_lookup_middle.
  - unfold crossing. fold e. by rewrite Ha, Hb.
  - intros j y Hj Hlt. rewrite HL, lookup_app_l in Hj by done.
    apply list_elem_of_lookup_2 in Hj.
    assert (edge_from_index y g ∈ edges_of g P) as Hin by (by apply edges_of_elem).
    destruct (edge_from_index y g) as [u v] eqn:Hy.
    destruct (um_complete _ _ _ Hm u v Hin) as (Hu & Hv & Huv).
    unfold crossing. rewrite Hy. simpl. rewrite !Hcomp by done. rewrite Huv. tauto.
Qed.

(** The [i]-th edge selected by the Kruskal loop is the edge of the
    [i]-th fusion. *)
Lemma kruskal_run_fused g w j :
  graph_wf g → 0 < num_vertices g → j ≤ num_edges g →
  let st := kruskal_run g w (take j (sorted_edges_indices g w)) (kruskal_init g) in
  ∀ i, i < k_num_edge_found st →
    ∃ pos, list_find (crossing g (fs_comp (fusion_run g w i))) (sorted_edges_indices g w) =
           Some (pos, k_selected st !!! i).
Proof.
  intros Hwf Hn. set (L := sorted_edges_indices g w).
  assert (length L = num_edges g) as Hlen.
  { unfold L. rewrite sorted_edges_indices_perm. apply length_seq. }
  induction j as [|j IH]; intros Hj st.
  { subst st. rewrite take_0. simpl. intros i Hi. lia. }
  specialize (IH ltac:(lia)). cbv zeta in IH.
  destruct (kruskal_run_tree_inv g w j Hwf Hn ltac:(lia)) as [Hinv Htree].
  pose proof (kruskal_run_fusion g w j Hwf Hn ltac:(lia)) as Hrel. cbv zeta in Hrel.
  fold L in Hinv, Htree, IH, Hrel.
  destruct (lookup_lt_is_Some_2 L j) as [e He]; [lia|].
  assert (take (S j) L = take j L ++ [e]) as HP by (by apply take_S_r).
  subst st. rewrite HP, kruskal_run_snoc.
  set (st0 := kruskal_run g w (take j L) (kruskal_init g)) in *.
  assert (L = take j L ++ e :: drop (S j) L) as HL.
  { rewrite <-(take_drop j L) at 1. f_equal. by apply drop_S. }
  assert (e < num_edges g) as Hei.
  { apply (sorted_edges_indices_elem g w). by eapply list_elem_of_lookup_2. }
  pose proof (kruskal_inv_selected_length g _ st0 Hn Hinv) as Hsl.
  destruct (kruskal_step_inv_selected g w _ st0 e Hwf Hei Hinv)
    as [_ [[Hsel Hfound]|[Hsel Hfound]]].
  - rewrite Hsel, Hfound. exact IH.
  - rewrite Hsel, Hfound. intros i Hi.
    destruct (decide (i = k_num_edge_found st0)) as [->|Hne].
    + exists (length (take j L)).
      rewrite <-Hsl at 2. rewrite list_lookup_total_middle by done.
      by apply (canonical_rel_step_edge g w (take j L) st0 _ e (drop (S j) L)).
    + rewrite lookup_total_app_l by lia. apply IH. lia.
Qed.

Lemma kruskal_final_fused g w :
  graph_wf g → connected g →
  ∀ i, i < num_vertices g - 1 →
    ∃ pos, list_find (crossing g (fs_comp (fusion_run g w i))) (sorted_edges_indices g w) =
           Some (pos, k_mst_edge_map (kruskal_final g w) !!! i).
Proof.
  intros Hwf Hc i Hi. pose proof Hc as [Hn _].
  pose proof (proj2 (kruskal_final_connected g w Hwf Hn) Hc) as Hf.
  destruct (kruskal_final_spec g w Hwf Hn) as (k & Hk & Heq & _).
  pose proof (kruskal_run_fused g w k Hwf Hn Hk) as H. cbv zeta in H.
  rewrite <-Heq in H. rewrite <-(kruskal_final_selected g w Hwf Hn Hf).
  apply H. lia.
Qed.

Lemma ancestor_add t j k x : ancestor t (j + k) x = ancestor t j (ancestor t k x).
Proof. unfold ancestor. apply Nat.iter_add. Qed.

Lemma ancestor_fixed t k x : parent x t = x → ancestor t k x = x.
Proof.
  intros Hx. induction k as [|k IH]; [done|].
  rewrite ancestor_succ_r, Hx. exact IH.
Qed.

(** The ancestors of a node form a chain. *)
Lemma is_ancestor_chain t a b x :
  is_ancestor t a x → is_ancestor t b x → is_ancestor t a b ∨ is_ancestor t b a.
Proof.
  intros [ka Ha] [kb Hb]. destruct (decide (ka ≤ kb)) as [Hle|Hgt].
  - right. exists (kb - ka). rewrite <-Ha, <-ancestor_add, <-Hb. f_equal. lia.
  - left. exists (ka - kb). rewrite <-Hb, <-ancestor_add, <-Ha. f_equal. lia.
Qed.

(** ** Fusions along an edge of least weight *)

(** A run of fusions: the states [F 0], [F 1], ... start from the
    vertices of the graph, and the fusion [i] joins the two regions at the
    ends of the edge [fused i], an edge of least weight among the edges of
    the graph that join two regions. *)
Section FusionTrace.
Context (g : ugraph) (w : list Z).
Context (Hwf : graph_wf g) (Hn : 0 < num_vertices g).
Context (F : nat → fusion_state) (fused : nat → nat).
Context (run_start : F 0 = fusion_init g).
Context (run_fuse : ∀ i, i < num_vertices g - 1 → F (S i) = fuse g w (fused i) (F i)).
Context (run_fused_edge : ∀ i, i < num_vertices g - 1 →
  fused i < num_edges g ∧ crossing g (fs_comp (F i)) (fused i)).
Context (run_fused_min : ∀ i e, i < num_vertices g - 1 → e < num_edges g →
  crossing g (fs_comp (F i)) e → (w !!! fused i ≤ w !!! e)%Z).

Local Abbreviation n := (num_vertices g).

Lemma run_count j : j ≤ n - 1 → fs_count (F j) = n + j.
Proof.
  induction j as [|j IH]; intros Hj; [rewrite run_start; simpl; lia|].
  rewrite run_fuse by lia. cbn [fuse fs_count]. rewrite IH by lia. lia.
Qed.

Lemma run_reach j : j ≤ n - 1 → fusion_reach g (F j).
Proof.
  induction j as [|j IH]; intros Hj; [rewrite run_start; apply fusion_reach_init|].
  rewrite run_fuse by lia. destruct (run_fused_edge j ltac:(lia)) as [He Hcr].
  apply fusion_reach_fuse; [apply IH; lia|done|done|].
  rewrite run_count by lia. lia.
Qed.

Lemma run_shape j : j ≤ n - 1 → shape_inv g (F j).
Proof. intros Hj. apply fusion_reach_shape; [done..|]. by apply run_reach. Qed.

Lemma run_comp_step i v :
  i < n - 1 → v < n →
  fs_comp (F (S i)) !!! v =
    if decide (fs_comp (F i) !!! v = fs_comp (F i) !!! source (edge_from_index (fused i) g) ∨
               fs_comp (F i) !!! v = fs_comp (F i) !!! target (edge_from_index (fused i) g))
    then n + i else fs_comp (F i) !!! v.
Proof.
  intros Hi Hv. rewrite run_fuse by done. cbn [fuse fs_comp].
  pose proof (si_comp_length _ _ (run_shape i ltac:(lia))) as Hcl.
  rewrite (list_lookup_total_fmap _ (fs_comp (F i)) v) by lia.
  rewrite run_count by lia. done.
Qed.

(** The two ends of a fused edge are in the new region. *)
Lemma run_comp_fused i :
  i < n - 1 →
  fs_comp (F (S i)) !!! source (edge_from_index (fused i) g) = n + i ∧
  fs_comp (F (S i)) !!! target (edge_from_index (fused i) g) = n + i.
Proof.
  intros Hi. destruct (run_fused_edge i Hi) as [He _].
  destruct (edge_from_index_wf g _ Hwf He) as [Hs Ht].
  rewrite !run_comp_step by done.
  split; (destruct (decide _) as [|Hne]; [done|]); exfalso; apply Hne; tauto.
Qed.

(** Two vertices of one region stay in one region. *)
Lemma run_comp_mono j k u v :
  j ≤ k → k ≤ n - 1 → u < n → v < n →
  fs_comp (F j) !!! u = fs_comp (F j) !!! v →
  fs_comp (F k) !!! u = fs_comp (F k) !!! v.
Proof.
  intros Hjk Hk Hu Hv Heq. induction k as [|k IH].
  { by replace j with 0 in Heq by lia. }
  destruct (decide (j = S k)) as [->|Hne]; [done|].
  rewrite !run_comp_step by (done || lia). rewrite IH by lia. done.
Qed.

(** The ancestors that a node has in a state of the run are its ancestors
    in every later state. *)
Lemma run_ancestor_mono j k x v :
  j ≤ k → k ≤ n - 1 →
  is_ancestor (Tree (fs_parents (F j))) x v →
  is_ancestor (Tree (fs_parents (F k))) x v.
Proof.
  intros Hjk Hk Hanc. induction k as [|k IH].
  { by replace j with 0 in Hanc by lia. }
  destruct (decide (j = S k)) as [->|Hne]; [done|].
  rewrite run_fuse by lia. cbn [fuse fs_parents].
  destruct (run_fused_edge k ltac:(lia)) as [He _].
  destruct (edge_from_index_wf g _ Hwf He) as [Hs Ht].
  pose proof (run_shape k ltac:(lia)) as Hsh.
  apply is_ancestor_grow; [by apply (si_region_root _ _ Hsh)..|].
  apply IH; lia.
Qed.

(** The altitude of the node made by the fusion [i] is the weight of the
    fused edge. *)
Lemma run_levels i k :
  i < k → k ≤ n - 1 → fs_levels (F k) !!! (n + i) = w !!! fused i.
Proof.
  intros Hik Hk. induction k as [|k IH]; [lia|].
  rewrite run_fuse by lia. cbn [fuse fs_levels].
  pose proof (si_levels_length _ _ (run_shape k ltac:(lia))) as Hll.
  rewrite run_count by lia.
  destruct (decide (i = k)) as [->|Hne].
  - rewrite list_lookup_total_insert_eq by lia. done.
  - rewrite list_lookup_total_insert_ne by lia. apply IH; lia.
Qed.

(** A root of the forest is later a root still, or the child of a node
    made since. *)
Lemma run_root_parent j k r :
  j ≤ k → k ≤ n - 1 → fs_parents (F j) !!! r = r →
  fs_parents (F k) !!! r = r ∨ n + j ≤ fs_parents (F k) !!! r.
Proof.
  intros Hjk Hk Hr. induction k as [|k IH].
  { left. by replace j with 0 in Hr by lia. }
  destruct (decide (j = S k)) as [->|Hne]; [by left|].
  rewrite run_fuse by lia. cbn [fuse fs_parents].
  destruct (run_fused_edge k ltac:(lia)) as [He _].
  destruct (edge_from_index_wf g _ Hwf He) as [Hs Ht].
  pose proof (run_shape k ltac:(lia)) as Hsh.
  pose proof (si_parents_length _ _ Hsh) as Hpl.
  pose proof (si_region_root _ _ Hsh _ Hs) as Hra.
  pose proof (si_region_root _ _ Hsh _ Ht) as Hrb.
  pose proof (si_comp_lt _ _ Hsh _ Hs) as Hla.
  pose proof (si_comp_lt _ _ Hsh _ Ht) as Hlb.
  rewrite run_count in Hla, Hlb |- * by lia.
  set (a := fs_comp (F k) !!! source (edge_from_index (fused k) g)) in *.
  set (b := fs_comp (F k) !!! target (edge_from_index (fused k) g)) in *.
  destruct (decide (r = b)) as [->|Hrb'].
  { right. rewrite list_lookup_total_insert_eq by (rewrite length_insert; lia). lia. }
  rewrite list_lookup_total_insert_ne by done.
  destruct (decide (r = a)) as [->|Hra'].
  { right. rewrite list_lookup_total_insert_eq by lia. lia. }
  rewrite list_lookup_total_insert_ne by done.
  apply IH; lia.
Qed.

(** ** The lowest common ancestors in the tree of a full run *)

Local Abbreviation T := (Tree (fs_parents (F (num_vertices g - 1)))).

Context (Hvalid : tree_valid T).

Lemma run_tree_size : num_vertices_tree T = n * 2 - 1.
Proof.
  apply (si_parents_length g (F (n - 1))).
  by apply (run_shape).
Qed.

Lemma run_region_ancestor j v :
  j ≤ n - 1 → v < n → is_ancestor T (fs_comp (F j) !!! v) v.
Proof.
  intros Hj Hv.
  apply (run_ancestor_mono j (n - 1)); [done..|].
  apply (si_leaf_ancestor g (F j)); [|done].
  by apply (run_shape).
Qed.

(** A leaf below the node made by the fusion [i] is in the region that
    this fusion makes. *)
Lemma run_ancestor_region i v :
  i < n - 1 → v < n → is_ancestor T (n + i) v → fs_comp (F (S i)) !!! v = n + i.
Proof.
  intros Hi Hv Hanc.
  pose proof (run_shape (S i) ltac:(lia)) as Hsh.
  pose proof (si_comp_lt _ _ Hsh v Hv) as Hlt.
  rewrite (run_count) in Hlt by lia.
  pose proof (run_region_ancestor (S i) v ltac:(lia) Hv) as Hr.
  pose proof (si_region_root _ _ Hsh v Hv) as Hroot.
  set (r := fs_comp (F (S i)) !!! v) in *.
  pose proof run_tree_size as HN.
  destruct (is_ancestor_chain T _ _ _ Hanc Hr) as [Hxr|Hrx].
  - destruct Hxr as [[|k] Hk]; [done|].
    rewrite ancestor_succ_r in Hk.
    destruct (run_root_parent (S i) (n - 1) r
                ltac:(lia) ltac:(lia) Hroot) as [Hfix|Hge].
    + change (parent r T = r) in Hfix. rewrite Hfix in Hk.
      by rewrite (ancestor_fixed T k r Hfix) in Hk.
    + change (n + S i ≤ parent r T) in Hge.
      assert (parent r T < num_vertices_tree T) as Hpl.
      { apply valid_parent_lt; [done|]. rewrite HN. lia. }
      pose proof (is_ancestor_ge T Hvalid (n + i) (parent r T) Hpl
                    (ex_intro _ k Hk)). lia.
  - apply (is_ancestor_ge T Hvalid) in Hrx; [lia|]. rewrite HN. lia.
Qed.

(** The lowest common ancestor of two vertices is the node made by the
    fusion that joins their two regions. *)
Lemma run_lca_node u v :
  u < n → v < n → u ≠ v →
  ∃ j, j < n - 1 ∧ lca T u v = n + j ∧ fs_comp (F j) !!! u ≠ fs_comp (F j) !!! v.
Proof.
  intros Hu Hv Huv. pose proof run_tree_size as HN.
  destruct (lca_is_lca T Hvalid u v ltac:(lia) ltac:(lia)) as (Hlu & Hlv & Hlow).
  pose proof (lca_lt T Hvalid u v ltac:(lia) ltac:(lia)) as Hlt.
  set (l := lca T u v) in *.
  pose proof (is_ancestor_ge T Hvalid l u ltac:(lia) Hlu) as Hul.
  pose proof (is_ancestor_ge T Hvalid l v ltac:(lia) Hlv) as Hvl.
  assert (n ≤ l) as Hnl.
  { destruct (decide (n ≤ l)) as [|Hlt']; [done|]. exfalso.
    (* a leaf is the ancestor of itself only *)
    assert (∀ x, x < n → is_ancestor T l x → l = x) as Hleaf.
    { intros x Hx [[|k] Hk]; [done|].
      change (ancestor T (S k) x) with (parent (ancestor T k x) T) in Hk.
      pose proof (ancestor_range T Hvalid k x ltac:(lia)) as [Hlo Hhi].
      set (z := ancestor T k x) in *.
      pose proof (run_shape (n - 1) ltac:(lia)) as Hsh.
      destruct (decide (fs_parents (F (n - 1)) !!! z = z)) as [Hfix|Hne].
      - change (parent z T = z) in Hfix.
        pose proof (valid_parent_self T Hvalid z Hhi Hfix) as Hroot.
        unfold root in Hroot. lia.
      - apply (si_parent_range _ _ Hsh) in Hne; [|rewrite <-HN; done].
        change (parent z T = l) in Hk. unfold parent in Hk. cbn [parents] in Hk. lia. }
    pose proof (Hleaf u Hu Hlu). pose proof (Hleaf v Hv Hlv). lia. }
  exists (l - n). split; [lia|]. split; [lia|].
  intros Heq.
  pose proof (run_shape (l - n) ltac:(lia)) as Hsh.
  pose proof (si_comp_lt _ _ Hsh u Hu) as Hclt.
  rewrite (run_count) in Hclt by lia.
  pose proof (run_region_ancestor (l - n) u ltac:(lia) Hu) as H1.
  pose proof (run_region_ancestor (l - n) v ltac:(lia) Hv) as H2.
  rewrite <-Heq in H2.
  pose proof (Hlow _ H1 H2) as Hrl.
  apply (is_ancestor_ge T Hvalid) in Hrl; [lia|lia].
Qed.

(** The lowest common ancestor of the two ends of an edge that is no loop
    has at most the weight of the edge for altitude. *)
Lemma run_lca_le e :
  e < num_edges g →
  source (edge_from_index e g) ≠ target (edge_from_index e g) →
  (fs_levels (F (n - 1)) !!!
     lca T (source (edge_from_index e g)) (target (edge_from_index e g)) ≤ w !!! e)%Z.
Proof.
  intros He Hne. destruct (edge_from_index_wf g e Hwf He) as [Hs Ht].
  destruct (run_lca_node _ _ Hs Ht Hne) as (j & Hj & -> & Hcr).
  rewrite (run_levels j (n - 1)) by lia.
  by apply (run_fused_min j e).
Qed.

(** The two ends of the edge of the fusion [i] have the node that this
    fusion makes for lowest common ancestor. *)
Lemma run_lca_fused i :
  i < n - 1 →
  lca T (source (edge_from_index (fused i) g)) (target (edge_from_index (fused i) g)) = n + i.
Proof.
  intros Hi. destruct (run_fused_edge i Hi) as [He Hcr].
  destruct (edge_from_index_wf g _ Hwf He) as [Hs Ht].
  set (u := source (edge_from_index (fused i) g)) in *.
  set (v := target (edge_from_index (fused i) g)) in *.
  assert (u ≠ v) as Huv.
  { intros Heq. apply Hcr. fold u v. by rewrite Heq. }
  pose proof run_tree_size as HN.
  destruct (run_lca_node u v Hs Ht Huv) as (j & Hj & Hl & Hcrj).
  destruct (lca_is_lca T Hvalid u v ltac:(lia) ltac:(lia)) as (Hlu & Hlv & Hlow).
  rewrite Hl in Hlu, Hlv, Hlow. rewrite Hl.
  destruct (run_comp_fused i Hi) as [Hcu Hcv].
  fold u in Hcu. fold v in Hcv.
  pose proof (run_region_ancestor (S i) u ltac:(lia) Hs) as Hau.
  pose proof (run_region_ancestor (S i) v ltac:(lia) Ht) as Hav.
  rewrite Hcu in Hau. rewrite Hcv in Hav.
  pose proof (Hlow _ Hau Hav) as Hle.
  apply (is_ancestor_ge T Hvalid) in Hle; [|lia].
  destruct (decide (j = i)) as [->|Hne]; [done|]. exfalso.
  pose proof (run_ancestor_region j u Hj Hs Hlu) as Hju.
  pose proof (run_ancestor_region j v Hj Ht Hlv) as Hjv.
  apply Hcr. fold u v.
  apply (run_comp_mono (S j) i u v); [lia|lia|done|done|].
  by rewrite Hju, Hjv.
Qed.

(** The weights of the fused edges do not decrease. *)
Lemma run_fused_sorted i j :
  i ≤ j → j < n - 1 → (w !!! fused i ≤ w !!! fused j)%Z.
Proof.
  intros Hij Hj. destruct (run_fused_edge j Hj) as [He Hcr].
  destruct (edge_from_index_wf g _ Hwf He) as [Hs Ht].
  apply run_fused_min; [lia|done|].
  intros Heq. apply Hcr. apply (run_comp_mono i j); [done|lia|done|done|done].
Qed.

(** An edge of a path between two regions joins two regions. *)
Lemma conn_crossing (ids : list nat) (comp : list nat) u v :
  conn (edges_of g ids) u v → comp !!! u ≠ comp !!! v →
  ∃ e, e ∈ ids ∧ crossing g comp e.
Proof.
  intros Hconn. induction Hconn as [|u z v Hstep _ IH]; intros Hne; [done|].
  destruct (decide (comp !!! u = comp !!! z)) as [Heq|Hcr].
  { apply IH. by rewrite <-Heq. }
  assert (∃ e, e ∈ ids ∧ (edge_from_index e g = (u, z) ∨ edge_from_index e g = (z, u)))
    as (e & He & Hends).
  { destruct Hstep as [Hin|Hin]; unfold adjacent, edges_of in Hin;
      apply list_elem_of_fmap in Hin as (e & Heq & He); exists e; split; auto. }
  exists e. split; [done|]. unfold crossing.
  destruct Hends as [-> | ->]; cbn [source target fst snd]; [done|].
  intros Heq. by apply Hcr.
Qed.

(** The vertices of a region are joined by the edges fused so far. *)
Lemma run_region_conn i u v :
  i ≤ n - 1 → u < n → v < n →
  fs_comp (F i) !!! u = fs_comp (F i) !!! v →
  conn (edges_of g (fused <$> seq 0 i)) u v.
Proof.
  revert u v. induction i as [|i IH]; intros u v Hi Hu Hv Heq.
  { rewrite run_start in Heq. cbn [fusion_init fs_comp] in Heq.
    rewrite !lookup_total_seq_lt in Heq by done. simpl in Heq. subst v. apply conn_refl. }
  assert (∀ x y, conn (edges_of g (fused <$> seq 0 i)) x y →
                 conn (edges_of g (fused <$> seq 0 (S i))) x y) as Hmono.
  { intros x y. apply conn_mono. intros e He. unfold edges_of in *.
    rewrite seq_S, fmap_app, fmap_app. apply elem_of_app. by left. }
  destruct (run_fused_edge i ltac:(lia)) as [He Hcr].
  destruct (edge_from_index_wf g _ Hwf He) as [Hs Ht].
  set (s := source (edge_from_index (fused i) g)) in *.
  set (t := target (edge_from_index (fused i) g)) in *.
  assert (conn (edges_of g (fused <$> seq 0 (S i))) s t) as Hst.
  { apply conn_edge. unfold edges_of. rewrite seq_S, fmap_app, fmap_app.
    apply elem_of_app. right. cbn [Nat.add fmap list_fmap].
    apply list_elem_of_singleton. unfold s, t. by destruct (edge_from_index (fused i) g). }
  assert (∀ x, x < n →
            fs_comp (F i) !!! x = fs_comp (F i) !!! s ∨
            fs_comp (F i) !!! x = fs_comp (F i) !!! t →
            conn (edges_of g (fused <$> seq 0 (S i))) x s) as Hto.
  { intros x Hx [Hxs|Hxt].
    - apply Hmono, IH; [lia|done..].
    - eapply conn_trans; [apply Hmono, (IH x t); [lia|done..]|]. by apply conn_sym. }
  pose proof (si_comp_lt _ _ (run_shape i ltac:(lia))) as Hclt.
  rewrite run_count in Hclt by lia.
  rewrite !run_comp_step in Heq by (done || lia). fold s t in Heq.
  destruct (decide (fs_comp (F i) !!! u = fs_comp (F i) !!! s ∨
                    fs_comp (F i) !!! u = fs_comp (F i) !!! t)) as [Hu'|Hu'];
    destruct (decide (fs_comp (F i) !!! v = fs_comp (F i) !!! s ∨
                      fs_comp (F i) !!! v = fs_comp (F i) !!! t)) as [Hv'|Hv'].
  - eapply conn_trans; [by apply Hto|]. apply conn_sym. by apply Hto.
  - specialize (Hclt v Hv). lia.
  - specialize (Hclt u Hu). lia.
  - apply Hmono, IH; [lia|done..].
Qed.

(** The altitude of the lowest common ancestor of two vertices is the
    least [lam] for which edges of weight at most [lam] join them. *)
Lemma run_lca_lambda u v (lam : Z) :
  u < n → v < n → u ≠ v →
  (fs_levels (F (n - 1)) !!! lca T u v ≤ lam)%Z ↔
  conn (edges_of g (filter (λ e, (w !!! e ≤ lam)%Z) (seq 0 (num_edges g)))) u v.
Proof.
  intros Hu Hv Huv. pose proof run_tree_size as HN.
  destruct (run_lca_node u v Hu Hv Huv) as (j & Hj & Hl & Hcr).
  destruct (lca_is_lca T Hvalid u v ltac:(lia) ltac:(lia)) as (Hlu & Hlv & _).
  rewrite Hl in Hlu, Hlv |- *. rewrite (run_levels j (n - 1)) by lia.
  split.
  - intros Hle.
    pose proof (run_ancestor_region j u Hj Hu Hlu) as Hju.
    pose proof (run_ancestor_region j v Hj Hv Hlv) as Hjv.
    eapply conn_mono; [|apply (run_region_conn (S j) u v); [lia|done|done|congruence]].
    intros e He. unfold edges_of in *.
    apply list_elem_of_fmap in He as (x & -> & Hx).
    apply list_elem_of_fmap in Hx as (i & -> & Hi). apply elem_of_seq in Hi.
    apply (list_elem_of_fmap_2 (λ ei, edge_from_index ei g)).
    apply list_elem_of_filter. split.
    + pose proof (run_fused_sorted i j ltac:(lia) Hj). lia.
    + apply elem_of_seq. destruct (run_fused_edge i ltac:(lia)). lia.
  - intros Hconn.
    destruct (conn_crossing _ (fs_comp (F j)) u v Hconn Hcr) as (e & He & Hce).
    apply list_elem_of_filter in He as [Hle He]. apply elem_of_seq in He.
    pose proof (run_fused_min j e Hj ltac:(lia) Hce). lia.
Qed.

End FusionTrace.

(** The merges of [bpt_canonical] on a connected graph are such a run. *)
Lemma kruskal_trace g w :
  graph_wf g → connected g →
  let fused := λ i, k_mst_edge_map (kruskal_final g w) !!! i in
  fusion_run g w 0 = fusion_init g ∧
  (∀ i, i < num_vertices g - 1 →
     fusion_run g w (S i) = fuse g w (fused i) (fusion_run g w i)) ∧
  (∀ i, i < num_vertices g - 1 →
     fused i < num_edges g ∧ crossing g (fs_comp (fusion_run g w i)) (fused i)) ∧
  (∀ i e, i < num_vertices g - 1 → e < num_edges g →
     crossing g (fs_comp (fusion_run g w i)) e → (w !!! fused i ≤ w !!! e)%Z).
Proof.
  intros Hwf Hc fused. pose proof (kruskal_final_fused g w Hwf Hc) as Hfused.
  fold fused in Hfused. split; [done|]. split; [|split].
  - intros i Hi. rewrite fusion_run_S. unfold fusion_step.
    destruct (Hfused i Hi) as [pos ->]. done.
  - intros i Hi. destruct (Hfused i Hi) as [pos Hf].
    apply list_find_Some in Hf as (Hl & Hcr & _). split; [|done].
    apply (sorted_edges_indices_elem g w). by eapply list_elem_of_lookup_2.
  - intros i e Hi He Hcr. destruct (Hfused i Hi) as [pos Hf].
    apply list_find_Some in Hf as (Hl & _ & Hfirst).
    apply (sorted_edges_indices_elem g w) in He.
    apply list_elem_of_lookup_1 in He as [q Hq].
    apply (sorted_edges_weight_le g w pos q); [|done..].
    destruct (decide (pos ≤ q)) as [|Hlt]; [done|].
    exfalso. apply (Hfirst q e Hq); [lia|done].
Qed.


(** X9. For a connected graph, the saliency map of the tree and altitudes
    of [bpt_canonical] is at most the edge weight on every edge that is no
    loop, it is the edge weight on the edges of the minimum spanning tree,
    and it is zero on the loops. *)
Theorem X9_bpt_canonical_saliency (g : ugraph) (w : list Z) :
  graph_wf g → connected g → length w = num_edges g →
  ∃ r, bpt_canonical g w = inr r ∧
    let sm := saliency_map g (nwt_tree r) (nwt_altitudes r) in
    (∀ e, e < num_edges g →
       source (edge_from_index e g) ≠ target (edge_from_index e g) →
       (sm !!! e ≤ w !!! e)%Z) ∧
    (∀ k, k < num_vertices g - 1 →
       sm !!! (nwt_mst_edge_map r !!! k) = w !!! (nwt_mst_edge_map r !!! k)) ∧
    (∀ e, e < num_edges g →
       source (edge_from_index e g) = target (edge_from_index e g) →
       sm !!! e = 0%Z).
Proof.
  intros Hwf Hc Hw. pose proof Hc as [Hn _].
  rewrite (bpt_canonical_unfold g w Hw Hn).
  pose proof (proj2 (kruskal_final_connected g w Hwf Hn) Hc) as Hf.
  rewrite Hf, Nat.eqb_refl. eexists. split; [reflexivity|].
  cbn [nwt_tree nwt_altitudes nwt_mst_edge_map].
  destruct (kruskal_final_tree_inv g w Hwf Hn) as (P & HP & Hinv & Htree).
  destruct (kruskal_final_tree g w P Hn Hf Hinv Htree) as (HN & Hvalid & Hleaf & Hpar).
  destruct (kruskal_final_fusion g w Hwf Hc) as [Hp Hl _ _ _].
  destruct (kruskal_trace g w Hwf Hc) as (H0 & HS & Hedge & Hmin).
  rewrite <-Hp in Hvalid, HN |- *. rewrite <-Hl.
  split; [|split].
  - intros e He Hne. rewrite saliency_map_lookup by done.
    by apply (run_lca_le g w Hwf Hn (fusion_run g w) _ H0 HS Hedge Hmin Hvalid).
  - intros k Hk.
    destruct (Hedge k Hk) as [He _].
    pose proof (run_lca_fused g w Hwf Hn (fusion_run g w) _ H0 HS Hedge Hvalid k Hk) as Hlca.
    pose proof (run_levels g w Hwf Hn (fusion_run g w) _ H0 HS Hedge
                  k (num_vertices g - 1) Hk ltac:(lia)) as Hlev.
    cbv beta in He, Hlca, Hlev.
    rewrite saliency_map_lookup by done.
    rewrite Hlca. exact Hlev.
  - intros e He Heq. rewrite saliency_map_lookup by done.
    destruct (edge_from_index_wf g e Hwf He) as [Hs Ht].
    rewrite <-Heq, (lca_unfold _ Hvalid) by lia. rewrite Nat.eqb_refl.
    apply (si_leaf_levels g); [|done].
    by apply (run_shape g w Hwf Hn (fusion_run g w) _ H0 HS Hedge).
Qed.

Lemma kruskal_final_lca_lambda g w u v (lam : Z) :
  graph_wf g → connected g →
  u < num_vertices g → v < num_vertices g → u ≠ v →
  (k_levels (kruskal_final g w) !!! lca (Tree (k_parents (kruskal_final g w))) u v ≤ lam)%Z ↔
  conn (edges_of g (filter (λ e, (w !!! e ≤ lam)%Z) (seq 0 (num_edges g)))) u v.
Proof.
  intros Hwf Hc Hu Hv Huv. pose proof Hc as [Hn _].
  pose proof (proj2 (kruskal_final_connected g w Hwf Hn) Hc) as Hf.
  destruct (kruskal_final_tree_inv g w Hwf Hn) as (P & HP & Hinv & Htree).
  destruct (kruskal_final_tree g w P Hn Hf Hinv Htree) as (HN & Hvalid & Hleaf & Hpar).
  destruct (kruskal_final_fusion g w Hwf Hc) as [Hp Hl _ _ _].
  destruct (kruskal_trace g w Hwf Hc) as (H0 & HS & Hedge & Hmin).
  rewrite <-Hp in Hvalid |- *. rewrite <-Hl.
  exact (run_lca_lambda g w Hwf Hn (fusion_run g w) _ H0 HS Hedge Hmin Hvalid
           u v lam Hu Hv Huv).
Qed.

(** X10. For a connected graph, the tree and altitudes of [bpt_canonical]
    give the connected components of the thresholded graph: two distinct
    vertices are joined by a path of edges of weight at most [lam] exactly
    when the altitude of their lowest common ancestor is at most [lam]. *)
Theorem X10_bpt_canonical_lambda_connected (g : ugraph) (w : list Z) :
  graph_wf g → connected g → length w = num_edges g →
  ∃ r, bpt_canonical g w = inr r ∧
    ∀ u v (lam : Z), u < num_vertices g → v < num_vertices g → u ≠ v →
      (nwt_altitudes r !!! lca (nwt_tree r) u v ≤ lam)%Z ↔
      conn (edges_of g (filter (λ e, (w !!! e ≤ lam)%Z) (seq 0 (num_edges g)))) u v.
Proof.
  intros Hwf Hc Hw. pose proof Hc as [Hn _].
  rewrite (bpt_canonical_unfold g w Hw Hn).
  pose proof (proj2 (kruskal_final_connected g w Hwf Hn) Hc) as Hf.
  rewrite Hf, Nat.eqb_refl. eexists. split; [reflexivity|].
  cbn [nwt_tree nwt_altitudes].
  intros u v lam Hu Hv Huv. by apply kruskal_final_lca_lambda.
Qed.

(** The quasi-flat zones hierarchy keeps the altitude of the lowest common
    ancestor of two vertices. *)
Lemma qfz_lca_altitude g w u v :
  graph_wf g → connected g →
  u < num_vertices g → v < num_vertices g →
  let t := Tree (k_parents (kruskal_final g w)) in
  let alt := k_levels (kruskal_final g w) in
  let q := simplify_tree t (plateau_criterion alt (propagate_parallel t alt)) in
  index_view alt (rt_node_map q) !!! lca (rt_tree q) u v = alt !!! lca t u v.
Proof.
  intros Hwf Hc Hu Hv. pose proof Hc as [Hn _].
  pose proof (proj2 (kruskal_final_connected g w Hwf Hn) Hc) as Hf.
  destruct (kruskal_final_tree_inv g w Hwf Hn) as (P & HP & Hinv & Htree).
  destruct (kruskal_final_tree g w P Hn Hf Hinv Htree) as (HN & Hvalid & Hleaf & Hpar).
  intros t alt. fold t in HN, Hvalid, Hleaf, Hpar.
  set (crit := plateau_criterion alt (propagate_parallel t alt)). cbv zeta.
  destruct (simplify_tree_spec t Hvalid crit) as (HN' & Hnm & Hroot & Hkept & Honto).
  assert (∀ x, x < num_vertices g → simplify_image t crit x = x) as Himg.
  { intros x Hx.
    assert (∀ i, i < num_vertices g → deleted t crit i = false) as Hd.
    { intros i Hi. apply not_true_is_false. rewrite deleted_true. intros (Hl & _).
      assert (is_leaf i t = true) by (apply Hleaf; lia). congruence. }
    assert (∀ b, b ≤ num_vertices g → deleted_below t crit b = 0) as Hzero.
    { induction b as [|b IH]; intros Hb; [done|]. simpl. rewrite IH, Hd by lia. done. }
    unfold simplify_image. rewrite surviving_ancestor_kept; [|done|lia|by apply Hd].
    unfold new_index. rewrite Hzero by lia. lia. }
  rewrite <-(Himg u Hu) at 1. rewrite <-(Himg v Hv) at 1.
  rewrite (simplify_tree_lca t Hvalid crit u v) by lia.
  pose proof (lca_lt t Hvalid u v ltac:(lia) ltac:(lia)) as Ha.
  destruct (surviving_ancestor_spec t Hvalid crit _ Ha) as (_ & Hs2 & Hd2).
  destruct (Hkept _ Hs2 Hd2) as (Hlt & Hm & _).
  rewrite index_view_lookup by (rewrite Hnm; exact Hlt).
  unfold simplify_image. rewrite Hm.
  by apply plateau_surviving_ancestor.
Qed.

(** X11. For a connected graph, the quasi-flat zones hierarchy gives the
    connected components of the thresholded graph: two distinct vertices
    are joined by a path of edges of weight at most [lam] exactly when the
    altitude of their lowest common ancestor in the hierarchy is at most
    [lam]. *)
Theorem X11_qfz_lambda_connected (g : ugraph) (w : list Z) :
  graph_wf g → connected g → length w = num_edges g →
  ∃ q, quasi_flat_zones_hierarchy g w = inr q ∧
    ∀ u v (lam : Z), u < num_vertices g → v < num_vertices g → u ≠ v →
      (nw_altitudes q !!! lca (nw_tree q) u v ≤ lam)%Z ↔
      conn (edges_of g (filter (λ e, (w !!! e ≤ lam)%Z) (seq 0 (num_edges g)))) u v.
Proof.
  intros Hwf Hc Hw. pose proof Hc as [Hn _].
  pose proof (bpt_canonical_unfold g w Hw Hn) as Hbpt.
  pose proof (proj2 (kruskal_final_connected g w Hwf Hn) Hc) as Hf.
  rewrite Hf, Nat.eqb_refl in Hbpt.
  rewrite (quasi_flat_zones_hierarchy_unfold g w _ Hbpt). cbv zeta.
  eexists. split; [reflexivity|]. cbn [nwt_tree nwt_altitudes nw_tree nw_altitudes].
  intros u v lam Hu Hv Huv.
  pose proof (qfz_lca_altitude g w u v Hwf Hc Hu Hv) as Hq. cbv zeta in Hq.
  rewrite Hq. by apply kruskal_final_lca_lambda.
Qed.

(* ================================================================== *)
(** * binary_partition_tree with any linkage rule *)
(* ================================================================== *)

(** A descriptor without its weight. *)
Definition nn_shape {T} (d : new_neighbour T) : nat * nat * option nat :=
  (neighbour_vertex d, first_edge_index d, second_edge_index d).

(** A weighting function that, as the rules of the library do, writes
    nothing but the [new_edge_weight] of the descriptors that it is
    given. *)
Definition sets_weights_only {W} (weight_function : weighter W Z) : Prop :=
  ∀ w g e p r1 r2 D,
    nn_shape <$> (weight_function w g e p r1 r2 D).2 = nn_shape <$> D.

Lemma for_each_neighbour_shape {W T} (body : W → new_neighbour T → W * new_neighbour T) :
  (∀ w d, nn_shape (body w d).2 = nn_shape d) →
  ∀ w D, nn_shape <$> (for_each_neighbour body w D).2 = nn_shape <$> D.
Proof.
  intros Hbody w D. revert w. induction D as [|d D IH]; intros w; [done|].
  rewrite for_each_neighbour_cons. cbn [snd]. rewrite !fmap_cons, Hbody, IH. done.
Qed.

Lemma min_linkage_sets_weights_only : sets_weights_only binary_partition_tree_min_linkage.
Proof.
  intros w g e p r1 r2 D. unfold binary_partition_tree_min_linkage.
  apply for_each_neighbour_shape. intros mw d. by rewrite min_linkage_body_eq.
Qed.

Lemma complete_linkage_sets_weights_only :
  sets_weights_only binary_partition_tree_complete_linkage.
Proof.
  intros w g e p r1 r2 D. unfold binary_partition_tree_complete_linkage.
  apply for_each_neighbour_shape. intros mw d. done.
Qed.

Lemma average_linkage_sets_weights_only :
  sets_weights_only (binary_partition_tree_average_linkage (T := Z)).
Proof.
  intros w g e p r1 r2 D. unfold binary_partition_tree_average_linkage.
  apply for_each_neighbour_shape. intros tb d. unfold average_linkage_body.
  by destruct (second_edge_index d).
Qed.

Lemma nn_shape_edges {T} (d d' : new_neighbour T) :
  nn_shape d' = nn_shape d → nn_edges d' = nn_edges d.
Proof. unfold nn_shape, nn_edges. intros [= _ -> ->]. done. Qed.

Lemma nn_shape_lookup {T} (D D' : list (new_neighbour T)) k d :
  nn_shape <$> D' = nn_shape <$> D → D !! k = Some d →
  ∃ d', D' !! k = Some d' ∧ nn_shape d' = nn_shape d.
Proof.
  intros Heq Hd.
  assert ((nn_shape <$> D') !! k = Some (nn_shape d)) as Hk.
  { rewrite Heq, list_lookup_fmap, Hd. done. }
  apply list_lookup_fmap_Some in Hk as (d' & Hs & Hd'). by exists d'.
Qed.

Lemma nn_shape_bind {T} (D D' : list (new_neighbour T)) :
  nn_shape <$> D' = nn_shape <$> D → D' ≫= nn_edges = D ≫= nn_edges.
Proof.
  revert D'. induction D as [|d D IH]; intros [|d' D'] Heq; try done.
  rewrite !fmap_cons in Heq.
  assert (nn_shape d' = nn_shape d) as Hd by congruence.
  assert (nn_shape <$> D' = nn_shape <$> D) as HD by congruence.
  rewrite !bind_cons, (IH D' HD). f_equal. by apply nn_shape_edges.
Qed.

(** What the exploration found holds of the descriptors that the rule
    gives back. *)
Lemma explore_inv_shape ν B visited D D' idx :
  nn_shape <$> D' = nn_shape <$> D →
  explore_inv ν B visited D idx → explore_inv ν B visited D' idx.
Proof.
  intros Heq [Hlen Hidx Hnu Hperm]. split.
  - done.
  - intros v k. rewrite Hidx. split.
    + intros (d & Hd & Hv).
      destruct (nn_shape_lookup D D' k d Heq Hd) as (d' & Hd' & Hs).
      exists d'. split; [done|]. unfold nn_shape in Hs. congruence.
    + intros (d' & Hd' & Hv).
      destruct (nn_shape_lookup D' D k d' (eq_sym Heq) Hd') as (d & Hd & Hs).
      exists d. split; [done|]. unfold nn_shape in Hs. congruence.
  - intros d' x Hd' Hx. apply list_elem_of_lookup in Hd' as [k Hk].
    destruct (nn_shape_lookup D' D k d' (eq_sym Heq) Hk) as (d & Hd & Hs).
    rewrite <-(nn_shape_edges d' d) in Hx by done.
    rewrite (Hnu d x); [unfold nn_shape in Hs; congruence| |done].
    by eapply list_elem_of_lookup_2.
  - by rewrite (nn_shape_bind D D' Heq).
Qed.

Lemma set_new_edge_weight_id (D : list (new_neighbour Z)) :
  (λ d, set_new_edge_weight (new_edge_weight d) d) <$> D = D.
Proof.
  induction D as [|d D IH]; [done|]. rewrite fmap_cons, IH. by destruct d.
Qed.

(** ** The heap after a fusion, for any new weights *)

Section FuseHeap.
Context (g : ugraph) (w : list Z).
Context (comp : list nat) (p : nat) (ug : list (option (nat * nat))).
Context (act : list bool) (mw : list Z).
Context (e a b : nat).
Context (Hwf : graph_wf g).
Context (Hinv : edges_inv g w comp p ug act mw).
Context (He : e < num_edges g).
Context (Hact_e : act !!! e = true).
Context (Hug_e : ug !!! e = Some (a, b)).
Context (B : nat) (D : list (new_neighbour Z)) (idx : list (option nat)).
Context (Hexp : explore_inv (far_end (<[e := None]> ug) a b) B
                  (out_edges a (UndirectedGraph (S p) (<[e := None]> ug)) ++
                   out_edges b (UndirectedGraph (S p) (<[e := None]> ug))) D idx).
Context (cw : list Z) (wf : new_neighbour Z → Z).
Context (hp : heap) (handles : list (option nat)) (h : nat).
Context (Hcw : length cw = num_edges g).
Context (Hheap : heap_inv (num_edges g) act cw hp handles).
Context (Hh : handles !!! e = Some h).

Local Abbreviation es := (out_edges a (UndirectedGraph (S p) (<[e := None]> ug)) ++
                          out_edges b (UndirectedGraph (S p) (<[e := None]> ug))).
Local Abbreviation act3 :=
  (write_edges (λ _ : new_neighbour Z, true) (Some false) D (<[e := false]> act)).

Lemma fuse_any_handle_old x hx :
  x < num_edges g → x ≠ e → act !!! x = true → handles !!! x = Some hx →
  hx ≠ h ∧ <[e := None]> handles !!! x = Some hx ∧
  (hx, HeapElement (cw !!! x) x) ∈ heap_entries (heap_erase h hp).
Proof.
  intros Hx Hne Hax Hhx.
  assert (hx ≠ h) as Hneh.
  { intros ->. apply Hne. by apply (heap_inv_handle_inj _ _ _ _ _ x e h Hheap). }
  split; [done|]. split; [by rewrite list_lookup_total_insert_ne|].
  destruct (hi_active _ _ _ _ _ Hheap x Hx Hax) as (h' & Hh' & Hin).
  assert (h' = hx) as -> by congruence.
  rewrite heap_erase_entries. apply list_elem_of_filter. by split.
Qed.

Lemma fuse_any_heap_inv :
  heap_inv (num_edges g) act3 (write_edges wf None D cw)
    (heap_updates (<[e := None]> handles) wf D (heap_erase h hp))
    (<[e := None]> handles).
Proof.
  pose proof Hheap as [Hlen Hnd Hent Hact].
  pose proof (fuse_D_edge g w comp p ug act mw e a b Hwf Hinv He Hact_e Hug_e B D idx Hexp)
    as HDedge.
  pose proof (fuse_D_NoDup g w comp p ug act mw e a b Hwf Hinv He Hact_e Hug_e B D idx Hexp)
    as HND.
  split.
  - by rewrite length_insert.
  - rewrite heap_updates_handles, heap_erase_entries.
    eapply sublist_NoDup; [exact Hnd|]. apply fmap_sublist, sublist_filter.
  - intros h' y Hy. apply heap_updates_elem in Hy as [Hy|(d & Hd & Hhd & ->)].
    + rewrite heap_erase_entries in Hy. apply list_elem_of_filter in Hy as [Hne Hy].
      simpl in Hne. destruct (Hent _ _ Hy) as [Hlt Hh']. split; [done|].
      rewrite list_lookup_total_insert_ne; [done|]. intros Heq.
      rewrite <-Heq in Hh'. congruence.
    + simpl. split; [|done].
      by destruct (HDedge d _ Hd (nn_edges_first d)) as (_ & ? & _).
  - intros x Hx Hax.
    destruct (fuse_act3_cases g w comp p ug act mw e a b Hwf Hinv He Hact_e Hug_e
                B D idx Hexp x Hx Hax) as [(d & Hd & ->)|(Hne & Hax' & Hes)].
    + destruct (HDedge d _ Hd (nn_edges_first d)) as (_ & _ & Hne & Hax' & _).
      destruct (Hact _ Hx Hax') as (hx & Hhx & _).
      destruct (fuse_any_handle_old _ hx Hx Hne Hax' Hhx) as (Hneh & Hhx' & Hin).
      exists hx. split; [done|].
      rewrite (write_edges_first wf None D cw d HND Hd) by (by rewrite Hcw).
      apply list_elem_of_split in Hd as (D1 & D2 & HD). rewrite HD in HND |- *.
      apply heap_updates_new; [done| |].
      * apply list_elem_of_fmap. eexists. split; [|exact Hin]. done.
      * intros d' Hd' Hhd'.
        rewrite bind_app, bind_cons in HND.
        apply NoDup_app in HND as (_ & _ & HND).
        apply NoDup_app in HND as (_ & Hdisj & _).
        assert (d' ∈ D) as Hd'D.
        { rewrite HD. apply elem_of_app. right. by right. }
        destruct (HDedge d' _ Hd'D (nn_edges_first d')) as (_ & Hx' & Hne' & Ha' & _).
        rewrite list_lookup_total_insert_ne in Hhd' by done.
        assert (first_edge_index d' = first_edge_index d) as Heq.
        { by apply (heap_inv_handle_inj _ _ _ _ _ _ _ hx Hheap). }
        apply (Hdisj (first_edge_index d)); [apply nn_edges_first|].
        rewrite <-Heq. apply (bind_nn_edges_elem D2 d'); [done|apply nn_edges_first].
    + destruct (Hact _ Hx Hax') as (hx & Hhx & _).
      destruct (fuse_any_handle_old _ hx Hx Hne Hax' Hhx) as (Hneh & Hhx' & Hin).
      exists hx. split; [done|].
      rewrite write_edges_other.
      2:{ by rewrite (ei_perm _ _ _ _ _ Hexp). }
      apply heap_updates_keep; [done|].
      intros d Hd Hhd.
      destruct (HDedge d _ Hd (nn_edges_first d)) as (Hes' & Hx' & Hne' & Ha' & _).
      rewrite list_lookup_total_insert_ne in Hhd by done.
      apply Hes. replace x with (first_edge_index d); [done|].
      by apply (heap_inv_handle_inj _ _ _ _ _ _ _ hx Hheap).
Qed.

End FuseHeap.

(** ** The number of roots of the forest *)

Definition forest_roots (fs : fusion_state) : list nat :=
  filter (λ x, fs_parents fs !!! x = x) (seq 0 (fs_count fs)).

Lemma filter_all {A} (P : A → Prop) `{∀ x, Decision (P x)} (l : list A) :
  (∀ x, x ∈ l → P x) → filter P l = l.
Proof.
  induction l as [|x l IH]; intros Hall; [done|].
  rewrite filter_cons_True by (apply Hall; by left).
  rewrite IH; [done|]. intros y Hy. apply Hall. by right.
Qed.

Lemma filter_out_two (l : list nat) a b :
  NoDup l → a ∈ l → b ∈ l → a ≠ b →
  length (filter (λ x, x ≠ a ∧ x ≠ b) l) + 2 = length l.
Proof.
  intros Hnd Ha Hb Hab.
  apply elem_of_Permutation in Ha as [k Hk].
  rewrite Hk in Hnd, Hb. apply NoDup_cons in Hnd as [Hak Hndk].
  apply elem_of_cons in Hb as [->|Hb]; [done|].
  apply elem_of_Permutation in Hb as [k' Hk'].
  rewrite Hk' in Hak, Hndk. apply NoDup_cons in Hndk as [Hbk' _].
  rewrite Hk, Hk'.
  rewrite filter_cons_False by tauto. rewrite filter_cons_False by tauto.
  rewrite filter_all; [simpl; lia|].
  intros x Hx. split; intros ->; [|done].
  apply Hak. by right.
Qed.

Lemma forest_roots_count g fs :
  graph_wf g → 0 < num_vertices g → fusion_reach g fs →
  length (forest_roots fs) + fs_count fs = num_vertices g * 2.
Proof.
  intros Hwf Hn Hreach. induction Hreach as [|fs w e Hreach IH He Hcr Hlt].
  { unfold forest_roots. cbn [fusion_init fs_parents fs_count].
    rewrite filter_all; [rewrite length_seq; lia|].
    intros x Hx. apply elem_of_seq in Hx. rewrite lookup_total_seq_lt; lia. }
  pose proof (fusion_reach_shape g fs Hwf Hn Hreach) as Hsh.
  destruct (edge_from_index_wf g e Hwf He) as [Hs Ht].
  pose proof (si_region_root _ _ Hsh _ Hs) as Hra.
  pose proof (si_region_root _ _ Hsh _ Ht) as Hrb.
  pose proof (si_comp_lt _ _ Hsh _ Hs) as Hla.
  pose proof (si_comp_lt _ _ Hsh _ Ht) as Hlb.
  pose proof (si_parents_length _ _ Hsh) as Hpl.
  destruct (si_fresh _ _ Hsh (fs_count fs) ltac:(lia) Hlt) as [Hfresh _].
  unfold crossing in Hcr. unfold forest_roots in *. cbn [fuse fs_parents fs_count].
  set (a := fs_comp fs !!! source (edge_from_index e g)) in *.
  set (b := fs_comp fs !!! target (edge_from_index e g)) in *.
  set (p := fs_count fs) in *.
  rewrite seq_S, filter_app. cbn [Nat.add].
  rewrite (filter_cons_True _ p []).
  2:{ rewrite !list_lookup_total_insert_ne by lia. done. }
  rewrite filter_nil, length_app. cbn [length].
  assert (filter (λ x, <[b:=p]> (<[a:=p]> (fs_parents fs)) !!! x = x) (seq 0 p) =
          filter (λ x, x ≠ a ∧ x ≠ b)
                 (filter (λ x, fs_parents fs !!! x = x) (seq 0 p))) as ->.
  { rewrite list_filter_filter. apply list_filter_iff. intros x.
    destruct (decide (x = b)) as [->|Hxb].
    { rewrite list_lookup_total_insert_eq by (rewrite length_insert; lia). lia. }
    rewrite list_lookup_total_insert_ne by done.
    destruct (decide (x = a)) as [->|Hxa].
    { rewrite list_lookup_total_insert_eq by lia. lia. }
    rewrite list_lookup_total_insert_ne by done. tauto. }
  pose proof (filter_out_two (filter (λ x, fs_parents fs !!! x = x) (seq 0 p)) a b) as Hout.
  rewrite <-Hout in IH; [lia| | | |done].
  - apply NoDup_filter, NoDup_seq.
  - apply list_elem_of_filter. split; [done|]. apply elem_of_seq. lia.
  - apply list_elem_of_filter. split; [done|]. apply elem_of_seq. lia.
Qed.

(** When no edge of a connected graph joins two regions the tree is
    full. *)
Lemma fusion_reach_full g fs :
  graph_wf g → connected g → fusion_reach g fs →
  (∀ x, x < num_edges g → ¬ crossing g (fs_comp fs) x) →
  fs_count fs = num_vertices g * 2 - 1.
Proof.
  intros Hwf [Hn Hconn] Hreach Hnone.
  pose proof (fusion_reach_shape g fs Hwf Hn Hreach) as Hsh.
  pose proof (forest_roots_count g fs Hwf Hn Hreach) as Hcount.
  assert (∀ u v, conn (edge_list g) u v → fs_comp fs !!! u = fs_comp fs !!! v) as Hsame.
  { intros u v Huv. induction Huv as [|u v z Hstep _ IH]; [done|].
    rewrite <-IH.
    assert (∀ s t, (s, t) ∈ edge_list g → fs_comp fs !!! s = fs_comp fs !!! t) as Hedge.
    { intros s t Hin. apply list_elem_of_lookup in Hin as [x Hx].
      pose proof (lookup_lt_Some _ _ _ Hx) as Hlt.
      apply list_lookup_total_correct in Hx.
      specialize (Hnone x Hlt). unfold crossing, edge_from_index in Hnone.
      rewrite Hx in Hnone. cbn [source target fst snd] in Hnone.
      destruct (decide (fs_comp fs !!! s = fs_comp fs !!! t)); [done|]. by destruct Hnone. }
    destruct Hstep as [Hst|Hst]; [by apply Hedge|symmetry; by apply Hedge]. }
  assert (∀ x, x ∈ forest_roots fs → x = fs_comp fs !!! 0) as Hone.
  { intros x Hx. apply list_elem_of_filter in Hx as [Hroot Hx].
    apply elem_of_seq in Hx.
    destruct (si_root_region _ _ Hsh x ltac:(lia) Hroot) as (v & Hv & <-).
    apply Hsame, Hconn; lia. }
  assert (length (forest_roots fs) ≤ 1) as Hle.
  { assert (NoDup (forest_roots fs)) as Hnd by apply NoDup_filter, NoDup_seq.
    destruct (forest_roots fs) as [|x [|y l]]; [simpl; lia..|].
    exfalso. apply NoDup_cons in Hnd as [Hx _]. apply Hx.
    rewrite (Hone x) by (by left). rewrite <-(Hone y); [by left|]. right. by left. }
  pose proof (si_count_le _ _ Hsh). lia.
Qed.

(** A full tree is a valid binary tree over the vertices of the graph. *)
Lemma fusion_reach_tree g fs :
  graph_wf g → 0 < num_vertices g → fusion_reach g fs →
  fs_count fs = num_vertices g * 2 - 1 →
  let t := Tree (fs_parents fs) in
  tree_valid t ∧ num_vertices_tree t = num_vertices g * 2 - 1 ∧
  (∀ i, i < num_vertices_tree t → is_leaf i t = true ↔ i < num_vertices g) ∧
  (∀ y, num_vertices g ≤ y → y < num_vertices_tree t → length (children y t) = 2).
Proof.
  intros Hwf Hn Hreach Hfull t.
  pose proof (fusion_reach_shape g fs Hwf Hn Hreach) as Hsh.
  pose proof (forest_roots_count g fs Hwf Hn Hreach) as Hcount.
  pose proof (si_parents_length _ _ Hsh) as Hpl.
  assert (num_vertices_tree t = num_vertices g * 2 - 1) as HN by done.
  assert (∀ x, parent x t = fs_parents fs !!! x) as Hpar by done.
  assert (root t = num_vertices g * 2 - 2) as Hroot by (unfold root; lia).
  assert (parent (root t) t = root t) as Hrp.
  { destruct (decide (parent (root t) t = root t)) as [|Hne]; [done|].
    rewrite Hpar in Hne. apply (si_parent_range _ _ Hsh) in Hne; lia. }
  assert (∀ i, i < root t → parent i t ≠ i) as Hnonroot.
  { intros i Hi Hfix.
    assert (NoDup [i; root t]) as Hnd.
    { apply NoDup_cons. split; [|apply NoDup_singleton].
      rewrite list_elem_of_singleton. lia. }
    assert ([i; root t] ⊆ forest_roots fs) as Hsub.
    { intros x Hx. apply list_elem_of_filter. rewrite elem_of_seq.
      apply elem_of_cons in Hx as [->|Hx]; [split; [done|lia]|].
      apply list_elem_of_singleton in Hx as ->. split; [done|lia]. }
    pose proof (submseteq_length _ _ (NoDup_submseteq _ _ Hnd Hsub)) as Hlen.
    simpl in Hlen. lia. }
  assert (∀ c y, fs_parents fs !!! c = y → num_vertices g ≤ y → c ≠ y →
                 c < num_vertices g * 2 - 1) as Hin.
  { intros c y Hpc Hy Hne. destruct (decide (c < num_vertices g * 2 - 1)) as [|Hge]; [done|].
    rewrite list_lookup_total_alt, lookup_ge_None_2 in Hpc by lia.
    simpl in Hpc. lia. }
  split; [|split; [done|split]].
  - split; [lia|]. split; [done|]. intros i Hi.
    specialize (Hnonroot i Hi). rewrite Hpar in Hnonroot |- *.
    apply (si_parent_range _ _ Hsh) in Hnonroot; lia.
  - intros i Hi. unfold is_leaf. rewrite bool_decide_eq_true. split.
    + intros Hnil. destruct (decide (i < num_vertices g)) as [|Hge]; [done|]. exfalso.
      destruct (si_children _ _ Hsh i ltac:(lia) ltac:(lia))
        as (c1 & c2 & _ & H1 & _ & Hp1 & _).
      assert (c1 ∈ children i t) as Hc.
      { unfold children. apply list_elem_of_filter. split; [done|].
        apply elem_of_seq. pose proof (Hin c1 i Hp1 ltac:(lia) H1). lia. }
      rewrite Hnil in Hc. by apply elem_of_nil in Hc.
    + intros Hlt. unfold children.
      destruct (filter _ _) as [|c l] eqn:Hf; [done|]. exfalso.
      assert (c ∈ filter (λ c, parent c t = i ∧ c ≠ i) (seq 0 (num_vertices_tree t))) as Hc
        by (rewrite Hf; by left).
      apply list_elem_of_filter in Hc as [[Hpc Hne] Hc]. apply elem_of_seq in Hc.
      rewrite Hpar in Hpc.
      assert (fs_parents fs !!! c ≠ c) as Hne' by lia.
      apply (si_parent_range _ _ Hsh) in Hne'; lia.
  - intros y Hy1 Hy2.
    destruct (si_children _ _ Hsh y Hy1 ltac:(lia))
      as (c1 & c2 & H12 & H1 & H2 & Hp1 & Hp2 & Huniq).
    apply (children_two _ y c1 c2); try done.
    + rewrite HN. by apply (Hin c1 y).
    + rewrite HN. by apply (Hin c2 y).
    + intros c Hcl. apply Huniq. lia.
Qed.

(** ** The main loop with any linkage rule *)

(** [bpt_fuse] in closed form, with the descriptors [D'] that the rule
    gives back. *)
Lemma bpt_fuse_unfold_any {W} (weight_function : weighter W Z)
    p ug parents levels B act hp handles (ws : W) cnt e fw a b D idx :
  sets_weights_only weight_function →
  ug !!! e = Some (a, b) →
  explore_region (UndirectedGraph (S p) (<[e:=None]> ug)) b
    (explore_region (UndirectedGraph (S p) (<[e:=None]> ug)) a ([], replicate B None)) =
    (D, idx) →
  foldl (λ idx n, <[neighbour_vertex n := None]> idx) idx D = replicate B None →
  ∃ ws' D',
    nn_shape <$> D' = nn_shape <$> D ∧
    (D = [] ∧ D' = [] ∧ ws' = ws ∨
     D ≠ [] ∧
     weight_function ws (UndirectedGraph (S p) (<[e:=None]> ug)) e p a b D = (ws', D')) ∧
    bpt_fuse weight_function e fw
      (BptState (UndirectedGraph p ug) parents levels (replicate B None) act hp handles
                ws cnt) =
    BptState (UndirectedGraph (S p)
                (write_edges (λ d, Some (neighbour_vertex d, p)) (Some None) D'
                             (<[e:=None]> ug)))
             (<[b := p]> (<[a := p]> parents)) (<[p := fw]> levels) (replicate B None)
             (write_edges (λ _, true) (Some false) D' (<[e:=false]> act))
             (heap_updates handles new_edge_weight D' hp) handles ws' (S cnt).
Proof.
  intros Hshape Hug Hexp Hreset. unfold bpt_fuse.
  cbn [b_g b_parents b_levels b_new_neighbour_indices b_active b_heap b_heap_handles
       b_weighter b_current_num_nodes_tree].
  unfold ug_add_vertex, ug_remove_edge, ug_edge_from_index.
  cbn [ug_num_vertices ug_edges]. rewrite Hug.
  cbn [default from_option id source target fst snd].
  rewrite list_insert_insert_eq, Hexp, Hreset.
  destruct D as [|d0 D0].
  { exists ws, []. split; [done|]. split; [by left|]. done. }
  pose proof (Hshape ws (UndirectedGraph (S p) (<[e:=None]> ug)) e p a b (d0 :: D0)) as Hs.
  destruct (weight_function ws (UndirectedGraph (S p) (<[e:=None]> ug)) e p a b (d0 :: D0))
    as [ws' D'].
  cbn [snd] in Hs. exists ws', D'. split; [done|]. split; [by right|].
  pose proof (process_fold p handles new_edge_weight D'
                (UndirectedGraph (S p) (<[e:=None]> ug)) (<[e:=false]> act) hp) as Hpf.
  rewrite set_new_edge_weight_id in Hpf. rewrite Hpf. done.
Qed.

(** The state of the main loop against a forest reached by fusions: the
    working graph with the least weights [mw] of the input edges that its
    edges cover, and the heap with the weights [cw] that the rule gave to
    the edges. *)
Record linkage_inv {W} (g : ugraph) (w : list Z) (fs : fusion_state)
    (mw cw : list Z) (st : bpt_state W) : Prop := LinkageInv {
  li_parents : b_parents st = fs_parents fs;
  li_levels : b_levels st = fs_levels fs;
  li_count : b_current_num_nodes_tree st = fs_count fs;
  li_vertices : ug_num_vertices (b_g st) = fs_count fs;
  li_indices : b_new_neighbour_indices st = replicate (num_vertices g * 2 - 1) None;
  li_edges : edges_inv g w (fs_comp fs) (fs_count fs) (ug_edges (b_g st)) (b_active st) mw;
  li_cw_length : length cw = num_edges g;
  li_heap : heap_inv (num_edges g) (b_active st) cw (b_heap st) (b_heap_handles st)
}.

(** What one fusion of the main loop does: the edge [e] with the least
    key among the active edges is taken, the descriptors [D] of the
    exploration go through the rule, which gives back [D'], and the new
    weights are the keys of the first edges of the descriptors. *)
Record fusion_info {W} (weight_function : weighter W Z) (g : ugraph)
    (fs : fusion_state) (mw cw : list Z) (st : bpt_state W)
    (fs' : fusion_state) (mw' cw' : list Z) (st' : bpt_state W)
    (e : nat) (D D' : list (new_neighbour Z)) : Prop := FusionInfo {
  fi_edge : e < num_edges g;
  fi_active : b_active st !!! e = true;
  fi_min : ∀ e', e' < num_edges g → b_active st !!! e' = true → (cw !!! e ≤ cw !!! e')%Z;
  fi_fs : fs' = fuse g (replicate (num_edges g) (cw !!! e)) e fs;
  fi_nodup : NoDup (D ≫= nn_edges);
  fi_shape : nn_shape <$> D' = nn_shape <$> D;
  fi_old : ∀ d z, d ∈ D → z ∈ nn_edges d → z < num_edges g ∧ b_active st !!! z = true;
  fi_rule : (D = [] ∧ D' = [] ∧ b_weighter st' = b_weighter st) ∨
            (D ≠ [] ∧ ∃ G r1 r2,
               weight_function (b_weighter st) G e (fs_count fs) r1 r2 D =
               (b_weighter st', D'));
  fi_mw : mw' = write_edges (min_weight mw) None D' mw;
  fi_cw : cw' = write_edges new_edge_weight None D' cw;
  fi_new : ∀ x, x < num_edges g → b_active st' !!! x = true →
    (∃ d, d ∈ D' ∧ x = first_edge_index d) ∨
    (b_active st !!! x = true ∧ x ∉ D' ≫= nn_edges)
}.

(** One turn of the main loop drops a stale element of the heap or fuses
    the two regions at the ends of an edge of the working graph. *)
Lemma bpt_iteration_linkage_inv {W} pick (weight_function : weighter W Z)
    g w fs mw cw (st : bpt_state W) :
  graph_wf g → sets_weights_only weight_function →
  fusion_reach g fs → linkage_inv g w fs mw cw st →
  heap_entries (b_heap st) ≠ [] →
  fs_count fs < num_vertices g * 2 - 1 →
  ∃ fs' mw' cw',
    fusion_reach g fs' ∧
    linkage_inv g w fs' mw' cw' (bpt_iteration pick weight_function st) ∧
    S (length (heap_entries (b_heap (bpt_iteration pick weight_function st)))) =
    length (heap_entries (b_heap st)) ∧
    ((fs' = fs ∧ mw' = mw ∧ cw' = cw ∧
      b_active (bpt_iteration pick weight_function st) = b_active st ∧
      b_weighter (bpt_iteration pick weight_function st) = b_weighter st) ∨
     ∃ e D D', fusion_info weight_function g fs mw cw st fs' mw' cw'
                 (bpt_iteration pick weight_function st) e D D').
Proof.
  intros Hwf Hshape Hreach Hinv Hne Hcnt.
  destruct st as [[p ug] parents levels nidx act hp handles ws cnt].
  destruct Hinv as [Hpar Hlev Hc Hv Hidx Hedges Hcw Hheap].
  cbn [b_g b_parents b_levels b_new_neighbour_indices b_active b_heap b_heap_handles
       b_weighter b_current_num_nodes_tree ug_num_vertices ug_edges] in *.
  subst parents levels cnt p nidx.
  destruct (heap_top_is_Some pick hp Hne) as [[h x] Htop].
  unfold bpt_iteration.
  cbn [b_g b_parents b_levels b_new_neighbour_indices b_active b_heap b_heap_handles
       b_weighter b_current_num_nodes_tree].
  rewrite Htop.
  pose proof (heap_top_spec pick hp h x Htop) as [Hin _].
  destruct (heap_inv_top pick _ _ _ _ _ h x Hheap Htop) as (He & Hh & Htopmin).
  pose proof (heap_erase_length h x hp (hi_nodup _ _ _ _ _ Hheap) Hin) as Hlen_erase.
  destruct (act !!! he_index x) eqn:Hae.
  - destruct (gi_active _ _ _ _ _ _ _ Hedges _ He Hae) as (a & b & Hug & Hab & Hp).
    pose proof (fuse_explore_inv g w _ _ _ _ _ _ a b Hwf Hedges He Hae Hug _ Hcnt) as Hexp.
    pose proof (fuse_explore g w _ _ _ _ _ _ a b Hwf Hedges He Hae Hug
                  (replicate (num_vertices g * 2 - 1) None)) as Hexplore.
    destruct (foldl (explore_step _) _ _) as [D idx] eqn:Hfold.
    cbn [fst snd] in Hexp.
    destruct (bpt_fuse_unfold_any weight_function (fs_count fs) ug (fs_parents fs)
                (fs_levels fs) (num_vertices g * 2 - 1) act (heap_erase h hp)
                (<[he_index x := None]> handles) ws (fs_count fs) (he_index x)
                (he_value x) a b D idx Hshape Hug Hexplore
                (explore_inv_reset _ _ _ _ _ Hexp)) as (ws' & D' & HD' & Hrule & ->).
    pose proof (explore_inv_shape _ _ _ D D' idx HD' Hexp) as Hexp'.
    destruct (Htopmin eq_refl) as [Hx Hmin].
    exists (fuse g (replicate (num_edges g) (he_value x)) (he_index x) fs),
           (write_edges (min_weight mw) None D' mw),
           (write_edges new_edge_weight None D' cw).
    split; [|split; [|split]].
    + apply fusion_reach_fuse; [done|done| |done].
      apply (crossing_pair g _ _ a b); [by rewrite <-Hp|done].
    + split;
        cbn [b_g b_parents b_levels b_new_neighbour_indices b_active b_heap
             b_heap_handles b_weighter b_current_num_nodes_tree ug_num_vertices
             ug_edges fuse fs_parents fs_levels fs_comp fs_count]; try done.
      * symmetry. apply fuse_parents_eq. rewrite Hp. done.
      * by rewrite lookup_total_replicate_2.
      * rewrite (fuse_comp_eq a b); [|rewrite Hp; done].
        exact (fuse_edges_inv g w _ _ _ _ _ _ a b Hwf Hedges He Hae Hug _ D' idx Hexp').
      * by rewrite write_edges_length.
      * exact (fuse_any_heap_inv g w _ _ _ _ _ _ a b Hwf Hedges He Hae Hug _ D' idx Hexp'
                 cw new_edge_weight hp handles h Hcw Hheap Hh).
    + cbn [b_heap]. by rewrite heap_updates_length.
    + right. exists (he_index x), D, D'.
      split; cbn [b_active b_weighter]; try done.
      * rewrite Hx at 1. done.
      * exact (fuse_D_NoDup g w _ _ _ _ _ _ a b Hwf Hedges He Hae Hug _ D idx Hexp).
      * intros d z Hd Hz.
        by destruct (fuse_D_edge g w _ _ _ _ _ _ a b Hwf Hedges He Hae Hug _ D idx Hexp
                       d z Hd Hz) as (_ & ? & _ & ? & _).
      * destruct Hrule as [?|[? ?]]; [by left|right]. split; [done|]. by eexists _, _, _.
      * intros z Hz Haz.
        destruct (fuse_act3_cases g w _ _ _ _ _ _ a b Hwf Hedges He Hae Hug _ D' idx Hexp'
                    z Hz Haz) as [?|(_ & ? & Hes)]; [by left|right].
        split; [done|]. by rewrite (ei_perm _ _ _ _ _ Hexp').
  - exists fs, mw, cw. split; [done|]. split; [|split; [done|by left]].
    split; try done.
    cbn [b_active b_heap b_heap_handles].
    by apply heap_inv_pop_stale.
Qed.

(** The loop ends with an empty heap or a full tree, and it keeps what
    every turn keeps. *)
Lemma bpt_loop_linkage_inv {W} pick (weight_function : weighter W Z) g w
    (J : fusion_state → list Z → list Z → bpt_state W → Prop) :
  graph_wf g → sets_weights_only weight_function →
  (∀ fs mw cw st fs' mw' cw' e D D',
     fusion_reach g fs → linkage_inv g w fs mw cw st → J fs mw cw st →
     fs_count fs < num_vertices g * 2 - 1 →
     fusion_info weight_function g fs mw cw st fs' mw' cw'
       (bpt_iteration pick weight_function st) e D D' →
     J fs' mw' cw' (bpt_iteration pick weight_function st)) →
  (∀ fs mw cw st st', b_active st' = b_active st → b_weighter st' = b_weighter st →
     J fs mw cw st → J fs mw cw st') →
  ∀ fuel (st : bpt_state W) fs mw cw,
    fusion_reach g fs → linkage_inv g w fs mw cw st → J fs mw cw st →
    fs_count fs ≤ num_vertices g * 2 - 1 →
    length (heap_entries (b_heap st)) ≤ fuel →
    ∃ fs' mw' cw',
      fusion_reach g fs' ∧
      linkage_inv g w fs' mw' cw'
        (bpt_loop fuel pick weight_function (num_vertices g * 2 - 1) st) ∧
      J fs' mw' cw' (bpt_loop fuel pick weight_function (num_vertices g * 2 - 1) st) ∧
      (heap_entries (b_heap (bpt_loop fuel pick weight_function
                                      (num_vertices g * 2 - 1) st)) = [] ∨
       fs_count fs' = num_vertices g * 2 - 1).
Proof.
  intros Hwf Hshape Hfuse Hstale.
  induction fuel as [|fuel IH]; intros st fs mw cw Hreach Hinv HJ Hle Hfuel.
  { exists fs, mw, cw. split; [done|]. split; [done|]. split; [done|]. left.
    simpl. destruct (heap_entries (b_heap st)); [done|simpl in Hfuel; lia]. }
  cbn [bpt_loop]. rewrite (li_count _ _ _ _ _ _ Hinv).
  destruct (heap_empty (b_heap st)) eqn:Hempty; cbn [negb andb].
  { exists fs, mw, cw. split; [done|]. split; [done|]. split; [done|]. left.
    unfold heap_empty in Hempty. by apply bool_decide_eq_true in Hempty. }
  destruct (Nat.ltb_spec (fs_count fs) (num_vertices g * 2 - 1)) as [Hlt|Hge].
  2:{ exists fs, mw, cw. split; [done|]. split; [done|]. split; [done|]. right. lia. }
  apply heap_empty_false in Hempty.
  destruct (bpt_iteration_linkage_inv pick weight_function g w fs mw cw st
              Hwf Hshape Hreach Hinv Hempty Hlt)
    as (fs' & mw' & cw' & Hreach' & Hinv' & Hlen' & Hstep).
  assert (0 < num_vertices g) as Hn by lia.
  apply (IH _ fs' mw' cw'); [done|done| | |lia].
  - destruct Hstep as [(-> & -> & -> & Hact & Hws)|(e & D & D' & Hinfo)].
    + by apply (Hstale fs mw cw st).
    + by apply (Hfuse fs mw cw st fs' mw' cw' e D D').
  - apply (si_count_le g). by apply fusion_reach_shape.
Qed.

(** The initial state of the main loop. *)
Lemma linkage_inv_init {W} g w act hp handles (w0 : W) :
  graph_wf g → simple_graph g → length w = num_edges g →
  bpt_init_heap g (copy_graph g) w = (act, hp, handles) →
  linkage_inv g w (fusion_init g) w w
    (BptState (copy_graph g) (seq 0 (num_vertices g * 2 - 1))
              (replicate (num_vertices g * 2 - 1) 0%Z)
              (replicate (num_vertices g * 2 - 1) None) act hp handles w0
              (num_vertices g)) ∧
  length (heap_entries hp) ≤ num_edges g.
Proof.
  intros Hwf Hs Hlen Hinit.
  destruct (bpt_inv_init g w act hp handles Hwf Hs Hlen Hinit) as [[_ _ _ _ _ He Hh] Hle].
  split; [|done]. split; try done.
Qed.

(** The vertices of a region are connected in the graph. *)
Lemma fusion_reach_comp_conn g fs :
  graph_wf g → 0 < num_vertices g → fusion_reach g fs →
  ∀ u v, u < num_vertices g → v < num_vertices g →
    fs_comp fs !!! u = fs_comp fs !!! v → conn (edge_list g) u v.
Proof.
  intros Hwf Hn Hreach. induction Hreach as [|fs w e Hreach IH He Hcr Hlt].
  { intros u v Hu Hv. cbn [fusion_init fs_comp].
    rewrite (lookup_total_seq_lt 0 _ u), (lookup_total_seq_lt 0 _ v) by done.
    cbn [Nat.add]. intros ->. apply conn_refl. }
  pose proof (fusion_reach_shape g fs Hwf Hn Hreach) as Hsh.
  pose proof (si_comp_length _ _ Hsh) as Hcl.
  destruct (edge_from_index_wf g e Hwf He) as [Hs Ht].
  assert (conn (edge_list g) (source (edge_from_index e g)) (target (edge_from_index e g)))
    as Hedge.
  { apply conn_edge. unfold edge_from_index, source, target.
    destruct (edge_list g !!! e) as [s t] eqn:Hst. cbn [fst snd]. rewrite <-Hst.
    apply list_elem_of_lookup_total_2. exact He. }
  intros u v Hu Hv. cbn [fuse fs_comp].
  rewrite (list_lookup_total_fmap _ (fs_comp fs) u) by lia.
  rewrite (list_lookup_total_fmap _ (fs_comp fs) v) by lia.
  pose proof (si_comp_lt _ _ Hsh u Hu) as Hltu.
  pose proof (si_comp_lt _ _ Hsh v Hv) as Hltv.
  set (a := fs_comp fs !!! source (edge_from_index e g)) in *.
  set (b := fs_comp fs !!! target (edge_from_index e g)) in *.
  assert (∀ x, x < num_vertices g → fs_comp fs !!! x = a ∨ fs_comp fs !!! x = b →
               conn (edge_list g) x (source (edge_from_index e g))) as Hjoin.
  { intros x Hx [Hxa|Hxb].
    - by apply IH.
    - apply conn_trans with (target (edge_from_index e g)); [by apply IH|].
      by apply conn_sym. }
  repeat case_decide.
  - intros _. apply conn_trans with (source (edge_from_index e g)); [by apply Hjoin|].
    apply conn_sym. by apply Hjoin.
  - intros Heq. lia.
  - intros Heq. lia.
  - by apply IH.
Qed.

(** A full tree is built on a connected graph only. *)
Lemma fusion_reach_full_connected g fs :
  graph_wf g → 0 < num_vertices g → fusion_reach g fs →
  fs_count fs = num_vertices g * 2 - 1 → connected g.
Proof.
  intros Hwf Hn Hreach Hfull.
  pose proof (fusion_reach_shape g fs Hwf Hn Hreach) as Hsh.
  pose proof (forest_roots_count g fs Hwf Hn Hreach) as Hcount.
  assert (∀ u, u < num_vertices g → fs_comp fs !!! u ∈ forest_roots fs) as Hin.
  { intros u Hu. apply list_elem_of_filter. split.
    - by apply (si_region_root _ _ Hsh).
    - apply elem_of_seq. pose proof (si_comp_lt _ _ Hsh u Hu). lia. }
  split; [done|]. intros u v Hu Hv.
  apply (fusion_reach_comp_conn g fs Hwf Hn Hreach u v Hu Hv).
  pose proof (Hin u Hu) as Hu'. pose proof (Hin v Hv) as Hv'.
  destruct (forest_roots fs) as [|x [|y l]]; [simpl in Hcount; lia| |simpl in Hcount; lia].
  apply list_elem_of_singleton in Hu', Hv'. congruence.
Qed.

(** A parent vector that the fusions have not filled is not that of a
    tree: a region below the last node is its own parent. *)
Lemma fusion_reach_partial_invalid g fs :
  graph_wf g → 0 < num_vertices g → fusion_reach g fs →
  fs_count fs < num_vertices g * 2 - 1 → ¬ tree_valid (Tree (fs_parents fs)).
Proof.
  intros Hwf Hn Hreach Hlt (_ & _ & Hup).
  pose proof (fusion_reach_shape g fs Hwf Hn Hreach) as Hsh.
  pose proof (si_parents_length _ _ Hsh) as Hpl.
  pose proof (si_comp_lt _ _ Hsh 0 Hn) as Hc.
  pose proof (si_region_root _ _ Hsh 0 Hn) as Hr.
  specialize (Hup (fs_comp fs !!! 0)).
  unfold root, num_vertices_tree, parent in Hup. cbn [parents] in Hup.
  rewrite Hr in Hup. lia.
Qed.

(** On a graph without self-loops and parallel edges, with a rule that
    only sets the new weights, the main loop builds a forest by fusions
    and leaves with no edge between two regions or with a full tree; the
    result is what the constructor of the tree makes of the parents. *)
Lemma binary_partition_tree_run {W} (pick : tie_rule) (g : ugraph) (w : list Z)
    (weight_function : weighter W Z) (w0 : W) :
  graph_wf g → 0 < num_vertices g → simple_graph g → length w = num_edges g →
  sets_weights_only weight_function →
  ∃ fs, fusion_reach g fs ∧
    ((∀ x, x < num_edges g → ¬ crossing g (fs_comp fs) x) ∨
     fs_count fs = num_vertices g * 2 - 1) ∧
    binary_partition_tree pick g w weight_function w0 =
      match make_tree (fs_parents fs) with
      | inl err => inl err
      | inr t => inr (NodeWeightedTree t (fs_levels fs))
      end.
Proof.
  intros Hwf Hn Hs Hlen Hshape.
  unfold binary_partition_tree.
  rewrite Hlen, Nat.eqb_refl. cbn [negb].
  destruct (Nat.eqb_spec (num_vertices g) 0) as [|_]; [lia|].
  destruct (bpt_init_heap g (copy_graph g) w) as [[act hp] handles] eqn:Hinit.
  cbv zeta.
  assert (ug_num_edges (copy_graph g) = num_edges g) as ->.
  { unfold ug_num_edges, copy_graph. simpl. by rewrite length_fmap. }
  change (ug_num_vertices (copy_graph g)) with (num_vertices g).
  destruct (linkage_inv_init g w act hp handles w0 Hwf Hs Hlen Hinit) as [Hinv0 Hlen0].
  destruct (bpt_loop_linkage_inv pick weight_function g w (λ _ _ _ _, True) Hwf Hshape
              ltac:(done) ltac:(done) (num_edges g) _
              (fusion_init g) w w (fusion_reach_init g) Hinv0 I)
    as (fs & mw & cw & Hreach & Hinv & _ & Hend).
  { simpl. lia. }
  { done. }
  exists fs. split; [done|]. split.
  - destruct Hend as [Hempty|Hfull]; [left|by right].
    intros x Hx Hcr.
    destruct (gi_cover _ _ _ _ _ _ _ (li_edges _ _ _ _ _ _ Hinv) x Hx Hcr)
      as (e & He & Hae & _).
    destruct (hi_active _ _ _ _ _ (li_heap _ _ _ _ _ _ Hinv) e He Hae) as (h & _ & Hin).
    rewrite Hempty in Hin. by apply elem_of_nil in Hin.
  - by rewrite (li_parents _ _ _ _ _ _ Hinv), (li_levels _ _ _ _ _ _ Hinv).
Qed.

(** On a connected graph the tree is full. *)
Lemma binary_partition_tree_reach {W} (pick : tie_rule) (g : ugraph) (w : list Z)
    (weight_function : weighter W Z) (w0 : W) :
  graph_wf g → connected g → simple_graph g → length w = num_edges g →
  sets_weights_only weight_function →
  ∃ fs, fusion_reach g fs ∧ fs_count fs = num_vertices g * 2 - 1 ∧
    binary_partition_tree pick g w weight_function w0 =
      inr (NodeWeightedTree (Tree (fs_parents fs)) (fs_levels fs)).
Proof.
  intros Hwf Hc Hs Hlen Hshape. pose proof Hc as [Hn _].
  destruct (binary_partition_tree_run pick g w weight_function w0 Hwf Hn Hs Hlen Hshape)
    as (fs & Hreach & Hend & ->).
  assert (fs_count fs = num_vertices g * 2 - 1) as Hfull.
  { destruct Hend as [Hnone|Hfull]; [|done]. by apply (fusion_reach_full g fs). }
  exists fs. split; [done|]. split; [done|].
  rewrite make_tree_valid; [done|].
  apply (fusion_reach_tree g fs Hwf Hn Hreach Hfull).
Qed.

(** X12. On a connected graph without self-loops and parallel edges,
    whatever the edge weights, the tie rule of the heap, which may read
    the whole heap, and the linkage rule, as long as the rule writes
    nothing but the new weight of the descriptors, [binary_partition_tree]
    returns a valid binary tree: [2n - 1] nodes, the [n] vertices of the
    graph for leaves, and two children for every other node. *)
Theorem X12_binary_partition_tree_any_linkage {W} (pick : tie_rule) (g : ugraph)
    (w : list Z) (weight_function : weighter W Z) (w0 : W) :
  graph_wf g → connected g → simple_graph g → length w = num_edges g →
  sets_weights_only weight_function →
  ∃ t alt,
    binary_partition_tree pick g w weight_function w0 = inr (NodeWeightedTree t alt) ∧
    tree_valid t ∧ num_vertices_tree t = num_vertices g * 2 - 1 ∧
    (∀ i, i < num_vertices_tree t → is_leaf i t = true ↔ i < num_vertices g) ∧
    (∀ y, num_vertices g ≤ y → y < num_vertices_tree t → length (children y t) = 2).
Proof.
  intros Hwf Hc Hs Hlen Hshape. pose proof Hc as [Hn _].
  destruct (binary_partition_tree_reach pick g w weight_function w0 Hwf Hc Hs Hlen Hshape)
    as (fs & Hreach & Hfull & ->).
  eexists _, _. split; [reflexivity|].
  exact (fusion_reach_tree g fs Hwf Hn Hreach Hfull).
Qed.

(** X8. On a graph without self-loops and parallel edges, whatever the
    edge weights, the tie rule of the heap and the linkage rule, as long
    as the rule writes nothing but the new weight of the descriptors,
    [binary_partition_tree] returns a tree exactly when the graph is
    connected.  On a connected graph the tree is valid and has [2n - 1]
    nodes, with [2n - 1] altitudes of which those of the leaves are 0.  On
    a graph that is not connected the main loop ends with fewer than
    [2n - 1] nodes and the construction of the tree from the parent vector
    fails. *)
Theorem X8_binary_partition_tree_connected {W} (pick : tie_rule) (g : ugraph)
    (w : list Z) (weight_function : weighter W Z) (w0 : W) :
  graph_wf g → 0 < num_vertices g → simple_graph g → length w = num_edges g →
  sets_weights_only weight_function →
  (connected g →
     ∃ t alt,
       binary_partition_tree pick g w weight_function w0 = inr (NodeWeightedTree t alt) ∧
       tree_valid t ∧ num_vertices_tree t = num_vertices g * 2 - 1 ∧
       length alt = num_vertices g * 2 - 1 ∧
       (∀ i, i < num_vertices g → alt !!! i = 0%Z)) ∧
  (¬ connected g →
     binary_partition_tree pick g w weight_function w0 = inl InvalidTree).
Proof.
  intros Hwf Hn Hs Hlen Hshape.
  destruct (binary_partition_tree_run pick g w weight_function w0 Hwf Hn Hs Hlen Hshape)
    as (fs & Hreach & Hend & ->).
  pose proof (fusion_reach_shape g fs Hwf Hn Hreach) as Hsh.
  split.
  - intros Hc.
    assert (fs_count fs = num_vertices g * 2 - 1) as Hfull.
    { destruct Hend as [Hnone|Hfull]; [|done]. by apply (fusion_reach_full g fs). }
    destruct (fusion_reach_tree g fs Hwf Hn Hreach Hfull) as (Hvalid & HN & _ & _).
    rewrite (make_tree_valid _ Hvalid).
    eexists _, _. split; [reflexivity|]. split; [done|]. split; [done|].
    split; [apply (si_levels_length _ _ Hsh)|apply (si_leaf_levels _ _ Hsh)].
  - intros Hnc.
    assert (fs_count fs < num_vertices g * 2 - 1) as Hlt.
    { pose proof (si_count_le _ _ Hsh).
      destruct (decide (fs_count fs = num_vertices g * 2 - 1)) as [Hfull|]; [|lia].
      destruct Hnc. by apply (fusion_reach_full_connected g fs). }
    pose proof (fusion_reach_partial_invalid g fs Hwf Hn Hreach Hlt) as Hinvalid.
    destruct (make_tree (fs_parents fs)) as [err|t] eqn:Hmk.
    + by apply make_tree_inl in Hmk as [-> _].
    + apply make_tree_inr in Hmk as [-> Hvalid]. by destruct Hinvalid.
Qed.

(** ** Rules that keep a table of weights: minimum and complete linkage *)

Definition max_weight (mw : list Z) (d : new_neighbour Z) : Z :=
  match second_edge_index d with
  | Some e2 => Z.max (mw !!! first_edge_index d) (mw !!! e2)
  | None => mw !!! first_edge_index d
  end.

Lemma complete_linkage_body_eq mw d :
  complete_linkage_body mw d =
  (<[first_edge_index d := max_weight mw d]> mw, set_new_edge_weight (max_weight mw d) d).
Proof.
  unfold complete_linkage_body, max_weight, new_edge_index.
  destruct (second_edge_index d) as [e2|]; [|done].
  destruct (Z.ltb_spec (mw !!! first_edge_index d) (mw !!! e2)).
  - by rewrite Z.max_r by lia.
  - by rewrite Z.max_l by lia.
Qed.

(** A rule that gives to a descriptor the weight [ρ mw d], read in its
    table [mw], and writes it to the table at the first edge of the
    descriptor. *)
Definition table_rule (ρ : list Z → new_neighbour Z → Z)
    (weight_function : weighter (list Z) Z) : Prop :=
  ∀ mw g e p r1 r2 D, NoDup (D ≫= nn_edges) →
    weight_function mw g e p r1 r2 D =
    (write_edges (ρ mw) None D mw, (λ d, set_new_edge_weight (ρ mw d) d) <$> D).

(** The weight of a descriptor is the weight of one of its edges. *)
Definition picks_edge_weight (ρ : list Z → new_neighbour Z → Z) : Prop :=
  ∀ mw d, ∃ z, z ∈ nn_edges d ∧ ρ mw d = mw !!! z.

Lemma for_each_table_rule (ρ : list Z → new_neighbour Z → Z)
    (body : list Z → new_neighbour Z → list Z * new_neighbour Z) mw0 mw D :
  (∀ mw d, body mw d =
     (<[first_edge_index d := ρ mw d]> mw, set_new_edge_weight (ρ mw d) d)) →
  (∀ mw mw' d, (∀ x, x ∈ nn_edges d → mw !!! x = mw' !!! x) → ρ mw d = ρ mw' d) →
  NoDup (D ≫= nn_edges) →
  (∀ x, x ∈ D ≫= nn_edges → mw !!! x = mw0 !!! x) →
  for_each_neighbour body mw D =
    (write_edges (ρ mw0) None D mw, (λ d, set_new_edge_weight (ρ mw0 d) d) <$> D).
Proof.
  intros Hbody Hlocal. revert mw. induction D as [|d D IH]; intros mw Hnd Hagree; [done|].
  rewrite for_each_neighbour_cons, Hbody. cbn [fst snd].
  rewrite bind_cons in Hnd, Hagree. apply NoDup_app in Hnd as (Hnd0 & Hdisj & Hnd).
  assert (ρ mw d = ρ mw0 d) as ->.
  { apply Hlocal. intros x Hx. apply Hagree. apply elem_of_app. by left. }
  rewrite IH; [|done|].
  - rewrite fmap_cons, write_edges_cons. by destruct (second_edge_index d).
  - intros x Hx. rewrite list_lookup_total_insert_ne.
    + apply Hagree. apply elem_of_app. by right.
    + intros <-. apply (Hdisj (first_edge_index d)); [apply nn_edges_first|done].
Qed.

Lemma min_linkage_table_rule : table_rule min_weight binary_partition_tree_min_linkage.
Proof.
  intros mw g e p r1 r2 D Hnd. unfold binary_partition_tree_min_linkage.
  apply for_each_table_rule; [apply min_linkage_body_eq| |done|done].
  intros mw1 mw2 d Heq. unfold min_weight.
  rewrite (Heq (first_edge_index d)) by apply nn_edges_first.
  destruct (second_edge_index d) as [e2|] eqn:He2; [|done].
  by rewrite (Heq e2) by by apply nn_edges_second.
Qed.

Lemma complete_linkage_table_rule :
  table_rule max_weight binary_partition_tree_complete_linkage.
Proof.
  intros mw g e p r1 r2 D Hnd. unfold binary_partition_tree_complete_linkage.
  apply for_each_table_rule; [apply complete_linkage_body_eq| |done|done].
  intros mw1 mw2 d Heq. unfold max_weight.
  rewrite (Heq (first_edge_index d)) by apply nn_edges_first.
  destruct (second_edge_index d) as [e2|] eqn:He2; [|done].
  by rewrite (Heq e2) by by apply nn_edges_second.
Qed.

Lemma min_weight_picks : picks_edge_weight min_weight.
Proof.
  intros mw d. unfold min_weight.
  destruct (second_edge_index d) as [e2|] eqn:He2.
  - destruct (Z.min_spec (mw !!! first_edge_index d) (mw !!! e2)) as [[_ ->]|[_ ->]].
    + exists (first_edge_index d). split; [apply nn_edges_first|done].
    + exists e2. split; [by apply nn_edges_second|done].
  - exists (first_edge_index d). split; [apply nn_edges_first|done].
Qed.

Lemma max_weight_picks : picks_edge_weight max_weight.
Proof.
  intros mw d. unfold max_weight.
  destruct (second_edge_index d) as [e2|] eqn:He2.
  - destruct (Z.max_spec (mw !!! first_edge_index d) (mw !!! e2)) as [[_ ->]|[_ ->]].
    + exists e2. split; [by apply nn_edges_second|done].
    + exists (first_edge_index d). split; [apply nn_edges_first|done].
  - exists (first_edge_index d). split; [apply nn_edges_first|done].
Qed.

Lemma write_edges_set_weight (f : new_neighbour Z → Z) D (l : list Z) :
  write_edges new_edge_weight None ((λ d, set_new_edge_weight (f d) d) <$> D) l =
  write_edges f None D l.
Proof.
  revert l. induction D as [|d D IH]; intros l; [done|].
  rewrite fmap_cons, !write_edges_cons, IH. done.
Qed.

(** What the main loop keeps with such a rule: the table of the rule holds
    the keys of the heap, the nodes made so far have altitudes in the
    order of their creation, below the keys of the active edges, and keys
    and altitudes are weights of the input. *)
Record table_inv (g : ugraph) (w : list Z) (fs : fusion_state) (cw : list Z)
    (st : bpt_state (list Z)) : Prop := TableInv {
  ti_table : b_weighter st = cw;
  ti_sorted : ∀ y y', num_vertices g ≤ y → y ≤ y' → y' < fs_count fs →
    (fs_levels fs !!! y ≤ fs_levels fs !!! y')%Z;
  ti_below : ∀ y e, num_vertices g ≤ y → y < fs_count fs →
    e < num_edges g → b_active st !!! e = true → (fs_levels fs !!! y ≤ cw !!! e)%Z;
  ti_keys : ∀ e, e < num_edges g → b_active st !!! e = true → cw !!! e ∈ w;
  ti_levels : ∀ y, num_vertices g ≤ y → y < fs_count fs → fs_levels fs !!! y ∈ w
}.

Lemma table_inv_fuse ρ (weight_function : weighter (list Z) Z) g w
    fs mw cw st fs' mw' cw' st' e D D' :
  graph_wf g → table_rule ρ weight_function → picks_edge_weight ρ →
  fusion_reach g fs → linkage_inv g w fs mw cw st → table_inv g w fs cw st →
  fs_count fs < num_vertices g * 2 - 1 →
  fusion_info weight_function g fs mw cw st fs' mw' cw' st' e D D' →
  table_inv g w fs' cw' st'.
Proof.
  intros Hwf Hrule Hpicks Hreach Hinv [Htab Hsorted Hbelow Hkeys Hlev] Hlt
         [He Hae Hmin -> Hnd Hshape Hold Hcall _ -> Hnew].
  assert (0 < num_vertices g) as Hn by lia.
  pose proof (fusion_reach_shape g fs Hwf Hn Hreach) as Hsh.
  pose proof (si_levels_length _ _ Hsh) as Hll.
  pose proof (si_count_ge _ _ Hsh) as Hge.
  pose proof (li_cw_length _ _ _ _ _ _ Hinv) as Hcw.
  assert (D' = (λ d, set_new_edge_weight (ρ cw d) d) <$> D ∧
          b_weighter st' = write_edges (ρ cw) None D cw) as [HD' Hws'].
  { destruct Hcall as [(-> & -> & ->)|(_ & G & r1 & r2 & Hcall)]; [done|].
    rewrite Htab, (Hrule cw G e (fs_count fs) r1 r2 D Hnd) in Hcall.
    by injection Hcall as <- <-. }
  assert (write_edges new_edge_weight None D' cw = write_edges (ρ cw) None D cw) as Hcw'.
  { rewrite HD'. apply write_edges_set_weight. }
  rewrite Hcw'.
  assert (∀ x, x < num_edges g → b_active st' !!! x = true →
            ∃ z, z < num_edges g ∧ b_active st !!! z = true ∧
                 write_edges (ρ cw) None D cw !!! x = cw !!! z) as Hkey.
  { intros x Hx Hax. destruct (Hnew x Hx Hax) as [(d' & Hd' & ->)|[Hax' Hnin]].
    - rewrite HD' in Hd'. apply list_elem_of_fmap in Hd' as (d & -> & Hd).
      cbn [set_new_edge_weight first_edge_index].
      rewrite (write_edges_first (ρ cw) None D cw d Hnd Hd).
      2:{ rewrite Hcw. by destruct (Hold d _ Hd (nn_edges_first d)). }
      destruct (Hpicks cw d) as (z & Hz & ->).
      destruct (Hold d z Hd Hz) as [Hzlt Hza]. by exists z.
    - exists x. split; [done|]. split; [done|].
      apply write_edges_other. by rewrite <-(nn_shape_bind D D' Hshape). }
  split; cbn [fuse fs_levels fs_count]; rewrite ?lookup_total_replicate_2 by done.
  - done.
  - intros y y' Hy Hyy' Hy'.
    destruct (decide (y' = fs_count fs)) as [->|Hne'].
    + rewrite (list_lookup_total_insert_eq _ (fs_count fs)) by lia.
      destruct (decide (y = fs_count fs)) as [->|Hne].
      * rewrite list_lookup_total_insert_eq by lia. lia.
      * rewrite list_lookup_total_insert_ne by lia. apply Hbelow; [done|lia|done|done].
    + rewrite !list_lookup_total_insert_ne by lia. apply Hsorted; lia.
  - intros y x Hy Hy' Hx Hax. destruct (Hkey x Hx Hax) as (z & Hz & Hza & ->).
    destruct (decide (y = fs_count fs)) as [->|Hne].
    + rewrite list_lookup_total_insert_eq by lia. by apply Hmin.
    + rewrite list_lookup_total_insert_ne by lia. apply Hbelow; [done|lia|done|done].
  - intros x Hx Hax. destruct (Hkey x Hx Hax) as (z & Hz & Hza & ->). by apply Hkeys.
  - intros y Hy Hy'. destruct (decide (y = fs_count fs)) as [->|Hne].
    + rewrite list_lookup_total_insert_eq by lia. by apply Hkeys.
    + rewrite list_lookup_total_insert_ne by lia. apply Hlev; lia.
Qed.

(** With a rule that keeps a table and picks the weight of an edge, the
    altitudes of the nodes made by the fusions are weights of the input,
    in the order of the creation of the nodes. *)
Lemma binary_partition_tree_table_rule ρ (pick : tie_rule) (g : ugraph) (w : list Z)
    (weight_function : weighter (list Z) Z) :
  graph_wf g → connected g → simple_graph g → length w = num_edges g →
  sets_weights_only weight_function → table_rule ρ weight_function →
  picks_edge_weight ρ →
  ∃ t alt,
    binary_partition_tree pick g w weight_function w = inr (NodeWeightedTree t alt) ∧
    tree_valid t ∧ num_vertices_tree t = num_vertices g * 2 - 1 ∧
    (∀ i, num_vertices g ≤ i → i < num_vertices_tree t → alt !!! i ∈ w) ∧
    (∀ i j, num_vertices g ≤ i → i ≤ j → j < num_vertices_tree t →
       (alt !!! i ≤ alt !!! j)%Z) ∧
    (∀ i, num_vertices g ≤ i → i < num_vertices_tree t →
       (alt !!! i ≤ alt !!! parent i t)%Z).
Proof.
  intros Hwf Hc Hs Hlen Hshape Hrule Hpicks. pose proof Hc as [Hn _].
  unfold binary_partition_tree.
  rewrite Hlen, Nat.eqb_refl. cbn [negb].
  destruct (Nat.eqb_spec (num_vertices g) 0) as [|_]; [lia|].
  destruct (bpt_init_heap g (copy_graph g) w) as [[act hp] handles] eqn:Hinit.
  cbv zeta.
  assert (ug_num_edges (copy_graph g) = num_edges g) as ->.
  { unfold ug_num_edges, copy_graph. simpl. by rewrite length_fmap. }
  change (ug_num_vertices (copy_graph g)) with (num_vertices g).
  destruct (linkage_inv_init g w act hp handles w Hwf Hs Hlen Hinit) as [Hinv0 Hlen0].
  destruct (bpt_loop_linkage_inv pick weight_function g w
              (λ fs _ cw st, table_inv g w fs cw st) Hwf Hshape)
    with (fuel := num_edges g) (fs := fusion_init g) (mw := w) (cw := w)
         (st := BptState (copy_graph g) (seq 0 (num_vertices g * 2 - 1))
                  (replicate (num_vertices g * 2 - 1) 0%Z)
                  (replicate (num_vertices g * 2 - 1) None) act hp handles w
                  (num_vertices g))
    as (fs & mw & cw & Hreach & Hinv & Htab & Hend).
  { intros fs mw cw st fs' mw' cw' e D D' Hreach Hinv Htab Hlt Hinfo.
    by apply (table_inv_fuse ρ weight_function g w fs mw cw st fs' mw' cw' _ e D D'). }
  { intros fs mw cw st st' Hact Hws [H1 H2 H3 H4 H5].
    split; [congruence|done| |  |done].
    - intros y e. rewrite Hact. apply H3.
    - intros e. rewrite Hact. apply H4. }
  { apply fusion_reach_init. }
  { done. }
  { split; cbn [b_weighter b_active fusion_init fs_levels fs_count]; try done.
    - intros y y'. lia.
    - intros y e. lia.
    - intros e He _. apply list_elem_of_lookup_total_2. lia.
    - intros y. lia. }
  { simpl. lia. }
  { done. }
  assert (fs_count fs = num_vertices g * 2 - 1) as Hfull.
  { destruct Hend as [Hempty|Hfull]; [|done].
    apply (fusion_reach_full g fs Hwf Hc Hreach).
    intros x Hx Hcr.
    destruct (gi_cover _ _ _ _ _ _ _ (li_edges _ _ _ _ _ _ Hinv) x Hx Hcr)
      as (e & He & Hae & _).
    destruct (hi_active _ _ _ _ _ (li_heap _ _ _ _ _ _ Hinv) e He Hae) as (h & _ & Hin).
    rewrite Hempty in Hin. by apply elem_of_nil in Hin. }
  rewrite (li_parents _ _ _ _ _ _ Hinv), (li_levels _ _ _ _ _ _ Hinv).
  destruct (fusion_reach_tree g fs Hwf Hn Hreach Hfull) as (Hvalid & HN & _ & _).
  rewrite (make_tree_valid _ Hvalid).
  eexists _, _. split; [reflexivity|].
  destruct Htab as [_ Hsorted _ _ Hlev].
  split; [done|]. split; [done|]. rewrite HN, <-Hfull.
  split; [done|]. split; [done|].
  intros i Hi1 Hi2. apply Hsorted; [done| |].
  - by apply valid_parent_ge; [|rewrite HN, <-Hfull].
  - rewrite Hfull, <-HN. apply valid_parent_lt; [done|]. by rewrite HN, <-Hfull.
Qed.

(** X13. On a connected graph without self-loops and parallel edges,
    whatever the edge weights and the tie rule of the heap, which may read
    the whole heap, [binary_partition_tree] with the minimum linkage or
    with the complete linkage, seeded with the edge weights, returns a
    valid tree in which the altitude of every node made by a fusion is one
    of the edge weights, these altitudes do not decrease in the order of
    the creation of the nodes, and so the altitude of such a node is at
    most the altitude of its parent. *)
Theorem X13_min_complete_linkage_altitudes (pick : tie_rule) (g : ugraph) (w : list Z)
    (weight_function : weighter (list Z) Z) :
  graph_wf g → connected g → simple_graph g → length w = num_edges g →
  weight_function = binary_partition_tree_min_linkage ∨
  weight_function = binary_partition_tree_complete_linkage →
  ∃ t alt,
    binary_partition_tree pick g w weight_function w = inr (NodeWeightedTree t alt) ∧
    tree_valid t ∧ num_vertices_tree t = num_vertices g * 2 - 1 ∧
    (∀ i, num_vertices g ≤ i → i < num_vertices_tree t → alt !!! i ∈ w) ∧
    (∀ i j, num_vertices g ≤ i → i ≤ j → j < num_vertices_tree t →
       (alt !!! i ≤ alt !!! j)%Z) ∧
    (∀ i, num_vertices g ≤ i → i < num_vertices_tree t →
       (alt !!! i ≤ alt !!! parent i t)%Z).
Proof.
  intros Hwf Hc Hs Hlen [-> | ->].
  - apply (binary_partition_tree_table_rule min_weight); try done.
    + apply min_linkage_sets_weights_only.
    + apply min_linkage_table_rule.
    + apply min_weight_picks.
  - apply (binary_partition_tree_table_rule max_weight); try done.
    + apply complete_linkage_sets_weights_only.
    + apply complete_linkage_table_rule.
    + apply max_weight_picks.
Qed.

(* ================================================================== *)
(** * bpt_canonical reads the weights through their order *)
(* ================================================================== *)

Lemma insert_sorted_ext {A} (lt lt' : A → A → bool) x l :
  (∀ y, y ∈ l → lt y x = lt' y x) →
  insert_sorted lt x l = insert_sorted lt' x l.
Proof.
  induction l as [|y l IH]; intros Hext; [done|]. simpl.
  rewrite <-(Hext y) by by left. destruct (lt y x); [|done].
  f_equal. apply IH. intros z Hz. apply Hext. by right.
Qed.

Lemma stable_sort_elem (w : list Z) l x : x ∈ stable_sort (weight_lt w) l ↔ x ∈ l.
Proof. by rewrite stable_sort_perm. Qed.

Lemma stable_sort_ext (w w' : list Z) l :
  (∀ x y, x ∈ l → y ∈ l → weight_lt w x y = weight_lt w' x y) →
  stable_sort (weight_lt w) l = stable_sort (weight_lt w') l.
Proof.
  induction l as [|x l IH]; intros Hext; [done|]. simpl.
  rewrite <-IH.
  2:{ intros y z Hy Hz. apply Hext; by right. }
  apply insert_sorted_ext. intros y Hy. apply stable_sort_elem in Hy.
  apply Hext; [by right|by left].
Qed.

Section IncreasingMap.
Context (f : Z → Z) (Hf : ∀ a b, (a < b)%Z → (f a < f b)%Z).

Lemma weight_lt_increasing (w : list Z) x y :
  x < length w → y < length w → weight_lt (f <$> w) x y = weight_lt w x y.
Proof.
  intros Hx Hy. unfold weight_lt.
  rewrite (list_lookup_total_fmap f w x), (list_lookup_total_fmap f w y) by done.
  generalize (w !!! x) (w !!! y). intros a b.
  destruct (Z.ltb_spec a b) as [Hlt|Hge].
  - apply Z.ltb_lt. by apply Hf.
  - apply Z.ltb_ge. destruct (decide (b = a)) as [->|Hne]; [lia|].
    pose proof (Hf b a ltac:(lia)). lia.
Qed.

Lemma sorted_edges_indices_increasing g (w : list Z) :
  length w = num_edges g →
  sorted_edges_indices g (f <$> w) = sorted_edges_indices g w.
Proof.
  intros Hlen. unfold sorted_edges_indices. apply stable_sort_ext.
  intros x y Hx Hy. apply elem_of_seq in Hx, Hy.
  apply weight_lt_increasing; lia.
Qed.

(** Two states of the Kruskal loop that differ by the altitudes of the
    nodes made so far, which are carried by [f]. *)
Record levels_rel (n : nat) (st st' : kruskal_state) : Prop := LevelsRel {
  lr_uf : k_uf st' = k_uf st;
  lr_roots : k_roots st' = k_roots st;
  lr_parents : k_parents st' = k_parents st;
  lr_mst : k_mst st' = k_mst st;
  lr_map : k_mst_edge_map st' = k_mst_edge_map st;
  lr_num_nodes : k_num_nodes st' = k_num_nodes st;
  lr_found : k_num_edge_found st' = k_num_edge_found st;
  lr_i : k_i st' = k_i st;
  lr_nodes : k_num_nodes st = n + k_num_edge_found st;
  lr_length : length (k_levels st) = n * 2 - 1;
  lr_length' : length (k_levels st') = n * 2 - 1;
  lr_made : ∀ i, n ≤ i → i < k_num_nodes st →
    k_levels st' !!! i = f (k_levels st !!! i);
  lr_rest : ∀ i, i < n ∨ k_num_nodes st ≤ i → k_levels st' !!! i = k_levels st !!! i
}.

Lemma levels_rel_step g (w : list Z) ei st st' :
  ei < length w → k_num_edge_found st < num_vertices g - 1 →
  levels_rel (num_vertices g) st st' →
  levels_rel (num_vertices g) (kruskal_step g w ei st) (kruskal_step g (f <$> w) ei st').
Proof.
  intros Hei Hlt [Huf Hroots Hpar Hmst Hmap Hnn Hfound Hi Hnodes Hlen Hlen' Hmade Hrest].
  pose proof (kruskal_step_cases g w ei st) as Hc. cbv zeta in Hc.
  pose proof (kruskal_step_cases g (f <$> w) ei st') as Hc'. cbv zeta in Hc'.
  rewrite Huf, Hroots, Hpar, Hmst, Hmap, Hnn, Hfound, Hi in Hc'.
  destruct Hc as [[Heq ->]|[Hne ->]]; destruct Hc' as [[Heq' ->]|[Hne' ->]];
    [|done|done|].
  { split; cbn [k_uf k_roots k_parents k_levels k_mst k_mst_edge_map k_num_nodes
                k_num_edge_found k_i]; try done; congruence. }
  split; cbn [k_uf k_roots k_parents k_levels k_mst k_mst_edge_map k_num_nodes
              k_num_edge_found k_i]; try done; try congruence.
  - lia.
  - by rewrite length_insert.
  - by rewrite length_insert.
  - intros i Hi1 Hi2.
    destruct (decide (i = k_num_nodes st)) as [->|Hne''].
    + rewrite !list_lookup_total_insert_eq by lia.
      by rewrite (list_lookup_total_fmap f w ei).
    + rewrite !list_lookup_total_insert_ne by done. apply Hmade; lia.
  - intros i Hi'. rewrite !list_lookup_total_insert_ne by lia. apply Hrest. lia.
Qed.

Lemma levels_rel_loop g (w : list Z) todo st st' :
  (∀ ei, ei ∈ todo → ei < length w) → levels_rel (num_vertices g) st st' →
  levels_rel (num_vertices g)
    (kruskal_loop g w (num_vertices g - 1) todo st)
    (kruskal_loop g (f <$> w) (num_vertices g - 1) todo st').
Proof.
  revert st st'. induction todo as [|ei todo IH]; intros st st' Htodo Hrel; [done|].
  cbn [kruskal_loop]. rewrite (lr_found _ _ _ Hrel).
  destruct (Nat.ltb_spec (k_num_edge_found st) (num_vertices g - 1)); [|done].
  apply IH.
  - intros x Hx. apply Htodo. by right.
  - apply levels_rel_step; [|done|done]. apply Htodo. by left.
Qed.

Lemma levels_rel_final g (w : list Z) :
  length w = num_edges g →
  levels_rel (num_vertices g) (kruskal_final g w) (kruskal_final g (f <$> w)).
Proof.
  intros Hlen. unfold kruskal_final. rewrite sorted_edges_indices_increasing by done.
  apply levels_rel_loop.
  - intros ei Hei. apply sorted_edges_indices_elem in Hei. lia.
  - split; cbn [kruskal_init k_num_nodes k_num_edge_found k_levels];
      try done; try lia; try apply length_replicate.
Qed.

End IncreasingMap.

(** X14. [bpt_canonical] reads the weights through their order only: when
    the weights go through a strictly increasing map, the result fails
    with the same error or has the same tree, the same minimum spanning
    tree and the same edge map, and the altitude of every node made by a
    fusion goes through the map, the altitude of a leaf staying 0. *)
Theorem X14_bpt_canonical_increasing_map (g : ugraph) (w : list Z) (f : Z → Z) :
  (∀ a b, (a < b)%Z → (f a < f b)%Z) →
  match bpt_canonical g w, bpt_canonical g (f <$> w) with
  | inr r, inr r' =>
      nwt_tree r' = nwt_tree r ∧ nwt_mst r' = nwt_mst r ∧
      nwt_mst_edge_map r' = nwt_mst_edge_map r ∧
      length (nwt_altitudes r') = length (nwt_altitudes r) ∧
      (∀ i, i < num_vertices g → nwt_altitudes r' !!! i = nwt_altitudes r !!! i) ∧
      (∀ i, num_vertices g ≤ i → i < num_vertices g * 2 - 1 →
         nwt_altitudes r' !!! i = f (nwt_altitudes r !!! i))
  | inl e, inl e' => e = e'
  | _, _ => False
  end.
Proof.
  intros Hf. unfold bpt_canonical. rewrite length_fmap.
  destruct (negb (length w =? num_edges g)) eqn:Hlen; [done|].
  destruct (num_vertices g =? 0) eqn:Hn; [done|].
  apply negb_false_iff, Nat.eqb_eq in Hlen. apply Nat.eqb_neq in Hn.
  change (kruskal_loop g w (num_vertices g - 1) (sorted_edges_indices g w) (kruskal_init g))
    with (kruskal_final g w).
  change (kruskal_loop g (f <$> w) (num_vertices g - 1)
            (sorted_edges_indices g (f <$> w)) (kruskal_init g))
    with (kruskal_final g (f <$> w)).
  pose proof (levels_rel_final f Hf g w Hlen)
    as [Huf Hroots Hpar Hmst Hmap Hnn Hfound Hi Hnodes Hll Hll' Hmade Hrest].
  rewrite Hfound.
  destruct (Nat.eqb_spec (k_num_edge_found (kruskal_final g w)) (num_vertices g - 1))
    as [Hfull|]; [|done].
  cbn [nwt_tree nwt_mst nwt_mst_edge_map nwt_altitudes].
  split; [by rewrite Hpar|]. split; [done|]. split; [done|].
  split; [by rewrite Hll, Hll'|]. split.
  - intros i Hi'. apply Hrest. by left.
  - intros i Hi1 Hi2. apply Hmade; [done|]. lia.
Qed.

(* ================================================================== *)
(** * simplify_tree reads the criterion at the inner nodes only *)
(* ================================================================== *)

Lemma foldl_ext_in {A B} (f g : A → B → A) (a : A) (l : list B) :
  (∀ a x, x ∈ l → f a x = g a x) → foldl f a l = foldl g a l.
Proof.
  revert a. induction l as [|x l IH]; intros a Hext; [done|]. simpl.
  rewrite (Hext a x) by by left. apply IH. intros a' y Hy. apply Hext. by right.
Qed.

Lemma simplify_tree_ext_inner (t : tree) (crit crit' : nat → bool) :
  (∀ i, i < num_vertices_tree t → is_leaf i t = false → i ≠ root t → crit i = crit' i) →
  simplify_tree t crit = simplify_tree t crit'.
Proof.
  intros Hagree. unfold simplify_tree.
  assert (foldl (simplify_mark t crit) (parents t, replicate (num_vertices_tree t) 0, 0)
            (root_to_leaves_iterator t leaves_exclude root_exclude) =
          foldl (simplify_mark t crit') (parents t, replicate (num_vertices_tree t) 0, 0)
            (root_to_leaves_iterator t leaves_exclude root_exclude)) as ->.
  { apply foldl_ext_in. intros [[cp dm] cnt] i Hi.
    unfold root_to_leaves_iterator in Hi. rewrite elem_of_reverse in Hi.
    apply list_elem_of_filter in Hi as [Hkeep Hi]. apply elem_of_seq in Hi.
    unfold keep_node in Hkeep. apply andb_true_iff in Hkeep as [Hl Hr].
    apply negb_true_iff in Hl, Hr. apply Nat.eqb_neq in Hr.
    unfold simplify_mark. rewrite (Hagree i) by (done || lia). done. }
  destruct (foldl (simplify_mark t crit') _ _) as [[cp dm] cnt].
  assert (∀ st,
            foldl (simplify_emit t crit cp ((λ d, cnt - d) <$> dm)) st
              (leaves_to_root_iterator t leaves_include root_exclude) =
            foldl (simplify_emit t crit' cp ((λ d, cnt - d) <$> dm)) st
              (leaves_to_root_iterator t leaves_include root_exclude)) as ->.
  { intros st. apply foldl_ext_in. intros [[np nm] c] i Hi.
    apply list_elem_of_filter in Hi as [Hkeep Hi]. apply elem_of_seq in Hi.
    unfold keep_node in Hkeep. cbn [andb] in Hkeep.
    apply negb_true_iff, Nat.eqb_neq in Hkeep.
    unfold simplify_emit. destruct (is_leaf i t) eqn:Hl; [done|].
    rewrite (Hagree i) by (done || lia). done. }
  done.
Qed.

(** X15. The result of [simplify_tree] depends on the criterion through
    its values at the nodes that are neither leaves nor the root: two
    criteria that agree there give the same tree and the same node map,
    whatever they say of the leaves and of the root. *)
Theorem X15_simplify_tree_criterion_inner (t : tree) (crit crit' : nat → bool) :
  (∀ i, i < num_vertices_tree t → is_leaf i t = false → i ≠ root t → crit i = crit' i) →
  simplify_tree t crit = simplify_tree t crit'.
Proof. apply simplify_tree_ext_inner. Qed.

(** X16. The quasi-flat zones hierarchy reads the weights through their
    order only: for a connected graph, when the weights go through a
    strictly increasing map the hierarchy keeps its tree, the altitude of
    every node but the leaves goes through the map, and the leaves stay at
    altitude 0. *)
Theorem X16_qfz_increasing_map (g : ugraph) (w : list Z) (f : Z → Z) :
  graph_wf g → connected g → length w = num_edges g →
  (∀ a b, (a < b)%Z → (f a < f b)%Z) →
  ∃ q q',
    quasi_flat_zones_hierarchy g w = inr q ∧
    quasi_flat_zones_hierarchy g (f <$> w) = inr q' ∧
    nw_tree q' = nw_tree q ∧
    (∀ j, j < num_vertices g → nw_altitudes q' !!! j = nw_altitudes q !!! j) ∧
    (∀ j, num_vertices g ≤ j → j < num_vertices_tree (nw_tree q) →
       nw_altitudes q' !!! j = f (nw_altitudes q !!! j)).
Proof.
  intros Hwf Hc Hw Hf. pose proof Hc as [Hn _].
  pose proof (bpt_canonical_unfold g w Hw Hn) as Hbpt.
  pose proof (bpt_canonical_unfold g (f <$> w) ltac:(by rewrite length_fmap) Hn) as Hbpt'.
  pose proof (proj2 (kruskal_final_connected g w Hwf Hn) Hc) as Hfull.
  pose proof (levels_rel_final f Hf g w Hw)
    as [_ _ Hpar _ _ _ Hfound _ Hnodes Hll Hll' Hmade Hrest].
  rewrite Hfound, Hfull, Nat.eqb_refl in Hbpt'. rewrite Hfull, Nat.eqb_refl in Hbpt.
  rewrite (quasi_flat_zones_hierarchy_unfold g w _ Hbpt).
  rewrite (quasi_flat_zones_hierarchy_unfold g (f <$> w) _ Hbpt'). cbv zeta.
  eexists _, _. split; [reflexivity|]. split; [reflexivity|].
  cbn [nwt_tree nwt_altitudes nw_tree nw_altitudes]. rewrite Hpar.
  destruct (kruskal_final_tree_inv g w Hwf Hn) as (P & HP & Hinv & Htree).
  destruct (kruskal_final_tree g w P Hn Hfull Hinv Htree) as (HN & Hvalid & Hleaf & Hparent).
  set (t := Tree (k_parents (kruskal_final g w))) in *.
  set (alt := k_levels (kruskal_final g w)) in *.
  set (alt' := k_levels (kruskal_final g (f <$> w))) in *.
  assert (∀ a b, (f a =? f b)%Z = (a =? b)%Z) as Hinj.
  { intros a b. destruct (Z.eqb_spec a b) as [->|Hne]; [apply Z.eqb_refl|].
    apply Z.eqb_neq. destruct (Z.lt_total a b) as [Hlt|[?|Hlt]]; [|done|].
    - pose proof (Hf a b Hlt). lia.
    - pose proof (Hf b a Hlt). lia. }
  assert (simplify_tree t (plateau_criterion alt' (propagate_parallel t alt')) =
          simplify_tree t (plateau_criterion alt (propagate_parallel t alt))) as ->.
  { apply simplify_tree_ext_inner. intros i Hi Hl Hr.
    assert (num_vertices g ≤ i) as Hin.
    { destruct (decide (i < num_vertices g)) as [Hlt|]; [|lia].
      apply Hleaf in Hlt; [congruence|done]. }
    pose proof (Hparent i Hi Hr) as Hpi.
    pose proof (valid_parent_lt t Hvalid i Hi) as Hplt.
    unfold plateau_criterion. rewrite !propagate_parallel_lookup by done.
    rewrite (Hmade i) by lia. rewrite (Hmade (parent i t)) by lia. apply Hinj. }
  set (crit := plateau_criterion alt (propagate_parallel t alt)).
  split; [done|].
  destruct (simplify_tree_spec t Hvalid crit) as (HN' & Hnm & _ & _ & _).
  destruct (simplify_tree_leaves_first t crit (num_vertices g) Hvalid Hn ltac:(lia) Hleaf)
    as [Hfix Hside].
  split.
  - intros j Hj. destruct (Hfix j Hj) as [Hlt Hm].
    rewrite !index_view_lookup by (rewrite Hnm, <-HN'; done).
    rewrite Hm. apply Hrest. by left.
  - intros j Hj1 Hj2.
    rewrite !index_view_lookup by (rewrite Hnm, <-HN'; done).
    destruct (simplify_tree_node_map t Hvalid crit j Hj2) as (Hi & _).
    apply Hmade; [|lia].
    destruct (decide (rt_node_map (simplify_tree t crit) !!! j < num_vertices g))
      as [Hlt|]; [|lia].
    apply (Hside j Hj2) in Hlt. lia.
Qed.

(* ================================================================== *)
(** * The minimum linkage with equal weights *)
(* ================================================================== *)

(** The forests reached by [k] fusions, each along an edge of least
    weight among the edges that join two regions, the new node taking
    the weight of the edge for altitude. *)
Inductive min_reach (g : ugraph) (w : list Z) : nat → fusion_state → Prop :=
| min_reach_init : min_reach g w 0 (fusion_init g)
| min_reach_fuse k fs e :
    min_reach g w k fs → e < num_edges g → crossing g (fs_comp fs) e →
    (∀ y, y < num_edges g → crossing g (fs_comp fs) y → (w !!! e ≤ w !!! y)%Z) →
    min_reach g w (S k) (fuse g w e fs).

Lemma min_reach_count g w k fs : min_reach g w k fs → fs_count fs = num_vertices g + k.
Proof.
  induction 1 as [|k fs e _ IH _ _ _]; [simpl; lia|]. cbn [fuse fs_count]. lia.
Qed.

(** Such a forest is the last state of a run. *)
Lemma min_reach_trace g w k fs :
  min_reach g w k fs →
  ∃ (F : nat → fusion_state) (fused : nat → nat),
    F 0 = fusion_init g ∧ F k = fs ∧
    (∀ i, i < k → F (S i) = fuse g w (fused i) (F i)) ∧
    (∀ i, i < k → fused i < num_edges g ∧ crossing g (fs_comp (F i)) (fused i)) ∧
    (∀ i e, i < k → e < num_edges g → crossing g (fs_comp (F i)) e →
       (w !!! fused i ≤ w !!! e)%Z).
Proof.
  induction 1 as [|k fs e _ (F & fused & H0 & Hk & HS & Hedge & Hmin) He Hcr Hle].
  { exists (λ _, fusion_init g), (λ _, 0). split; [done|]. split; [done|].
    split; [|split]; intros; lia. }
  exists (λ i, if decide (i ≤ k) then F i else fuse g w e fs),
         (λ i, if decide (i < k) then fused i else e).
  cbv beta. split; [|split; [|split; [|split]]].
  - rewrite decide_True by lia. done.
  - rewrite decide_False by lia. done.
  - intros i Hi. repeat case_decide; try lia.
    + by apply HS.
    + assert (i = k) as -> by lia. by rewrite Hk.
  - intros i Hi. repeat case_decide; try lia.
    + by apply Hedge.
    + assert (i = k) as -> by lia. by rewrite Hk.
  - intros i y Hi Hy. repeat case_decide; try lia.
    + by apply Hmin.
    + assert (i = k) as -> by lia. rewrite Hk. by apply Hle.
Qed.

(** Two edges between the same two regions give the same fusion. *)
Lemma fuse_same_pair g w w' e x fs :
  region_pair g (fs_comp fs) e = region_pair g (fs_comp fs) x →
  w !!! e = w' !!! x → fuse g w e fs = fuse g w' x fs.
Proof.
  intros Hp Hw. unfold region_pair in Hp. unfold fuse. rewrite Hw. f_equal.
  - by apply fuse_parents_eq.
  - rewrite !(fuse_comp_eq _ _ _ _ _ _ eq_refl). by apply fuse_comp_eq.
Qed.

Lemma write_edges_shape {A} (f : new_neighbour Z → A) (f2 : option A) D D' (l : list A) :
  (∀ d d', nn_shape d' = nn_shape d → f d' = f d) →
  nn_shape <$> D' = nn_shape <$> D →
  write_edges f f2 D' l = write_edges f f2 D l.
Proof.
  intros Hf. revert D' l. induction D as [|d D IH]; intros [|d' D'] l Heq; try done.
  rewrite !fmap_cons in Heq.
  assert (nn_shape d' = nn_shape d) as Hd by congruence.
  assert (nn_shape <$> D' = nn_shape <$> D) as HD by congruence.
  rewrite !write_edges_cons, (Hf d d' Hd).
  assert (first_edge_index d' = first_edge_index d ∧
          second_edge_index d' = second_edge_index d) as [-> ->].
  { unfold nn_shape in Hd. split; congruence. }
  by apply IH.
Qed.

Lemma min_weight_shape mw (d d' : new_neighbour Z) :
  nn_shape d' = nn_shape d → min_weight mw d' = min_weight mw d.
Proof. unfold nn_shape, min_weight. intros [= _ -> ->]. done. Qed.

(** With the minimum linkage the keys of the heap are the least weights
    of the input edges that the working edges cover, and every fusion is
    along an input edge of least weight among those that join two
    regions. *)
Record min_linkage_inv (g : ugraph) (w : list Z) (fs : fusion_state) (mw cw : list Z)
    (st : bpt_state (list Z)) : Prop := MinLinkageInv {
  ml_keys : mw = cw;
  ml_table : b_weighter st = cw;
  ml_reach : ∃ k, min_reach g w k fs
}.

Lemma min_linkage_inv_fuse g w fs mw cw st fs' mw' cw' st' e D D' :
  graph_wf g → length w = num_edges g →
  linkage_inv g w fs mw cw st → min_linkage_inv g w fs mw cw st →
  fusion_info binary_partition_tree_min_linkage g fs mw cw st fs' mw' cw' st' e D D' →
  min_linkage_inv g w fs' mw' cw' st'.
Proof.
  intros Hwf Hlen Hinv [<- Htab [k Hreach]]
         [He Hae Hmin -> Hnd Hshape Hold Hcall -> -> Hnew].
  pose proof (li_edges _ _ _ _ _ _ Hinv) as Hedges.
  assert (D' = (λ d, set_new_edge_weight (min_weight mw d) d) <$> D ∧
          b_weighter st' = write_edges (min_weight mw) None D mw) as [HD' Hws'].
  { destruct Hcall as [(-> & -> & ->)|(_ & G & r1 & r2 & Hcall)]; [done|].
    rewrite Htab, (min_linkage_table_rule mw G e (fs_count fs) r1 r2 D Hnd) in Hcall.
    by injection Hcall as <- <-. }
  assert (write_edges (min_weight mw) None D' mw = write_edges (min_weight mw) None D mw)
    as Hmw'.
  { apply write_edges_shape; [|done]. intros d d'. apply min_weight_shape. }
  assert (write_edges new_edge_weight None D' mw = write_edges (min_weight mw) None D mw)
    as Hcw'.
  { rewrite HD'. apply write_edges_set_weight. }
  split.
  - by rewrite Hmw', Hcw'.
  - by rewrite Hws', Hcw'.
  - destruct (gi_active _ _ _ _ _ _ _ Hedges e He Hae) as (a & b & Hug & Hab & Hp).
    destruct (gi_attained _ _ _ _ _ _ _ Hedges e He Hae) as (x & Hx & Hpx & Hwx).
    exists (S k).
    rewrite (fuse_same_pair g _ w e x fs); [|by rewrite Hpx|].
    2:{ rewrite lookup_total_replicate_2 by done. done. }
    apply min_reach_fuse; [done|done| |].
    + apply (crossing_pair g _ x a b); [by rewrite Hpx, <-Hp|done].
    + intros y Hy Hcy.
      destruct (gi_cover _ _ _ _ _ _ _ Hedges y Hy Hcy) as (e' & He' & Hae' & Hpe').
      pose proof (gi_minimal _ _ _ _ _ _ _ Hedges e' y He' Hae' Hy (eq_sym Hpe')) as Hle.
      pose proof (Hmin e' He' Hae'). lia.
Qed.

(** The lowest common ancestors of the vertices have the same altitudes
    in the tree of the minimum linkage and in the tree of
    [bpt_canonical]. *)
Lemma bpt_min_linkage_lca (pick : tie_rule) (g : ugraph) (w : list Z) :
  graph_wf g → connected g → simple_graph g → length w = num_edges g →
  ∃ t alt,
    bpt_min_linkage pick g w = inr (NodeWeightedTree t alt) ∧
    tree_valid t ∧
    ∀ u v, u < num_vertices g → v < num_vertices g →
      alt !!! lca t u v =
      k_levels (kruskal_final g w) !!! lca (Tree (k_parents (kruskal_final g w))) u v.
Proof.
  intros Hwf Hc Hs Hlen. pose proof Hc as [Hn _].
  unfold bpt_min_linkage, binary_partition_tree.
  rewrite Hlen, Nat.eqb_refl. cbn [negb].
  destruct (Nat.eqb_spec (num_vertices g) 0) as [|_]; [lia|].
  destruct (bpt_init_heap g (copy_graph g) w) as [[act hp] handles] eqn:Hinit.
  cbv zeta.
  assert (ug_num_edges (copy_graph g) = num_edges g) as ->.
  { unfold ug_num_edges, copy_graph. simpl. by rewrite length_fmap. }
  change (ug_num_vertices (copy_graph g)) with (num_vertices g).
  destruct (linkage_inv_init g w act hp handles w Hwf Hs Hlen Hinit) as [Hinv0 Hlen0].
  destruct (bpt_loop_linkage_inv pick binary_partition_tree_min_linkage g w
              (min_linkage_inv g w) Hwf min_linkage_sets_weights_only)
    with (fuel := num_edges g) (fs := fusion_init g) (mw := w) (cw := w)
         (st := BptState (copy_graph g) (seq 0 (num_vertices g * 2 - 1))
                  (replicate (num_vertices g * 2 - 1) 0%Z)
                  (replicate (num_vertices g * 2 - 1) None) act hp handles w
                  (num_vertices g))
    as (fs & mw & cw & Hreach & Hinv & Hmin & Hend).
  { intros fs mw cw st fs' mw' cw' e D D' Hreach Hinv HJ Hlt Hinfo.
    by apply (min_linkage_inv_fuse g w fs mw cw st fs' mw' cw' _ e D D'). }
  { intros fs mw cw st st' Hact Hws [H1 H2 H3]. split; [done|congruence|done]. }
  { apply fusion_reach_init. }
  { done. }
  { split; [done|done|]. exists 0. apply min_reach_init. }
  { simpl. lia. }
  { done. }
  assert (fs_count fs = num_vertices g * 2 - 1) as Hfull.
  { destruct Hend as [Hempty|Hfull]; [|done].
    apply (fusion_reach_full g fs Hwf Hc Hreach).
    intros x Hx Hcr.
    destruct (gi_cover _ _ _ _ _ _ _ (li_edges _ _ _ _ _ _ Hinv) x Hx Hcr)
      as (e & He & Hae & _).
    destruct (hi_active _ _ _ _ _ (li_heap _ _ _ _ _ _ Hinv) e He Hae) as (h & _ & Hin).
    rewrite Hempty in Hin. by apply elem_of_nil in Hin. }
  rewrite (li_parents _ _ _ _ _ _ Hinv), (li_levels _ _ _ _ _ _ Hinv).
  destruct (fusion_reach_tree g fs Hwf Hn Hreach Hfull) as (Hvalid & HN & _ & _).
  rewrite (make_tree_valid _ Hvalid).
  eexists _, _. split; [reflexivity|].
  split; [done|].
  destruct Hmin as [_ _ [k Hk]].
  pose proof (min_reach_count g w k fs Hk) as Hcount.
  assert (k = num_vertices g - 1) as -> by lia.
  destruct (min_reach_trace g w _ fs Hk) as (F & fused & H0 & HF & HS & Hedge & Hle).
  pose proof (fusion_reach_shape g fs Hwf Hn Hreach) as Hsh.
  destruct (kruskal_final_tree_inv g w Hwf Hn) as (P & HP & Hki & Hkt).
  pose proof (proj2 (kruskal_final_connected g w Hwf Hn) Hc) as Hf.
  destruct (kruskal_final_tree g w P Hn Hf Hki Hkt) as (HN' & Hvalid' & _ & _).
  intros u v Hu Hv.
  destruct (decide (u = v)) as [->|Huv].
  { rewrite (lca_unfold _ Hvalid) by (rewrite HN; lia).
    rewrite (lca_unfold _ Hvalid') by (rewrite HN'; lia).
    rewrite !Nat.eqb_refl.
    rewrite (si_leaf_levels _ _ Hsh) by done.
    by rewrite (kt_levels_leaf _ _ _ _ Hkt). }
  rewrite <-HF in Hvalid |- *.
  pose proof (run_lca_lambda g w Hwf Hn F fused H0 HS Hedge Hle Hvalid u v) as H1.
  pose proof (λ lam, kruskal_final_lca_lambda g w u v lam Hwf Hc Hu Hv Huv) as H2.
  apply Z.le_antisymm.
  - apply H1; [done..|]. apply H2. lia.
  - apply H2. apply H1; [done..|]. lia.
Qed.

(** X17. On a connected graph without self-loops and parallel edges,
    whatever the edge weights, equal or not, and whatever the tie rule of
    the heap, which may read the whole heap, the tree that
    [binary_partition_tree] returns with the minimum linkage gives to the
    lowest common ancestor of any two vertices the altitude that the tree
    of [bpt_canonical] gives it; the two hierarchies have the same
    saliency map. *)
Theorem X17_min_linkage_saliency (pick : tie_rule) (g : ugraph) (w : list Z) :
  graph_wf g → connected g → simple_graph g → length w = num_edges g →
  ∃ r t alt,
    bpt_canonical g w = inr r ∧
    bpt_min_linkage pick g w = inr (NodeWeightedTree t alt) ∧
    (∀ u v, u < num_vertices g → v < num_vertices g →
       alt !!! lca t u v = nwt_altitudes r !!! lca (nwt_tree r) u v) ∧
    saliency_map g t alt = saliency_map g (nwt_tree r) (nwt_altitudes r).
Proof.
  intros Hwf Hc Hs Hlen. pose proof Hc as [Hn _].
  rewrite (bpt_canonical_unfold g w Hlen Hn).
  pose proof (proj2 (kruskal_final_connected g w Hwf Hn) Hc) as Hf.
  rewrite Hf, Nat.eqb_refl.
  destruct (bpt_min_linkage_lca pick g w Hwf Hc Hs Hlen) as (t & alt & -> & Hvalid & Hlca).
  eexists _, t, alt. split; [reflexivity|]. split; [reflexivity|].
  cbn [nwt_tree nwt_altitudes]. split; [done|].
  apply (list_eq_same_length _ _ (num_edges g)); [apply saliency_map_length..|].
  intros ei x y Hei Hx Hy.
  apply list_lookup_total_correct in Hx, Hy. subst x y.
  rewrite !saliency_map_lookup by done.
  destruct (edge_from_index_wf g ei Hwf Hei) as [Hsrc Htgt]. by apply Hlca.
Qed.

(* ================================================================== *)
(** * The additional properties on concrete inputs *)
(* ================================================================== *)

Lemma X1_simplify_tree_survivors_witness :
  let r := simplify_tree tree_simplification (λ i, i =? 5) in
  tree_valid (rt_tree r) ∧
  length (rt_node_map r) = num_vertices_tree (rt_tree r) ∧
  (∀ i, i ∈ rt_node_map r ↔
        i < num_vertices_tree tree_simplification ∧
        (is_leaf i tree_simplification = true ∨ i = root tree_simplification ∨
         (i =? 5) = false)) ∧
  (∀ j j', j < j' → j' < length (rt_node_map r) →
           rt_node_map r !!! j < rt_node_map r !!! j').
Proof.
  apply (X1_simplify_tree_survivors tree_simplification (λ i, i =? 5)).
  apply tree_valid_b_correct. reflexivity.
Defined.

Lemma X2_simplify_tree_parent_witness :
  let r := simplify_tree tree_simplification (λ i, i =? 5) in
  ∃ k, 0 < k ∧
    rt_node_map r !!! parent 0 (rt_tree r) =
      ancestor tree_simplification k (rt_node_map r !!! 0) ∧
    ∀ k', 0 < k' → k' < k →
      ancestor tree_simplification k' (rt_node_map r !!! 0) ∉ rt_node_map r.
Proof.
  apply (X2_simplify_tree_parent tree_simplification (λ i, i =? 5)).
  - apply tree_valid_b_correct. reflexivity.
  - vm_compute. lia.
Defined.

Lemma X3_simplify_tree_leaves_witness :
  let r := simplify_tree tree_simplification (λ i, i =? 5) in
  is_leaf 5 (rt_tree r) = is_leaf (rt_node_map r !!! 5) tree_simplification.
Proof.
  apply (X3_simplify_tree_leaves tree_simplification (λ i, i =? 5)).
  - apply tree_valid_b_correct. reflexivity.
  - vm_compute. lia.
Defined.

Lemma X4_simplify_tree_lca_witness :
  let r := simplify_tree tree_simplification (λ i, i =? 5) in
  ∃ k,
    rt_node_map r !!! lca (rt_tree r) 0 1 =
      ancestor tree_simplification k
        (lca tree_simplification (rt_node_map r !!! 0) (rt_node_map r !!! 1)) ∧
    ∀ k', k' < k →
      ancestor tree_simplification k'
        (lca tree_simplification (rt_node_map r !!! 0) (rt_node_map r !!! 1))
        ∉ rt_node_map r.
Proof.
  apply (X4_simplify_tree_lca tree_simplification (λ i, i =? 5)).
  - apply tree_valid_b_correct. reflexivity.
  - vm_compute. lia.
  - vm_compute. lia.
Defined.

Lemma X5_qfz_strict_altitudes_witness :
  ∃ qfz, quasi_flat_zones_hierarchy grid_2x3 [1; 0; 2; 1; 1; 1; 2]%Z = inr qfz ∧
    let t := nw_tree qfz in
    let alt := nw_altitudes qfz in
    tree_valid t ∧ length alt = num_vertices_tree t ∧
    num_vertices grid_2x3 < num_vertices_tree t + 1 ∧
    (∀ j, j < num_vertices_tree t → is_leaf j t = true ↔ j < num_vertices grid_2x3) ∧
    (∀ j, j < num_vertices grid_2x3 → alt !!! j = 0%Z) ∧
    (∀ j, num_vertices grid_2x3 ≤ j → j < root t → (alt !!! j < alt !!! parent j t)%Z).
Proof.
  apply (X5_qfz_strict_altitudes grid_2x3 [1; 0; 2; 1; 1; 1; 2]%Z).
  - apply grid_2x3_wf.
  - apply grid_2x3_connected.
  - reflexivity.
Defined.

Lemma X6_bpt_canonical_binary_tree_witness :
  ∃ r, bpt_canonical grid_2x3 [1; 0; 2; 1; 1; 1; 2]%Z = inr r ∧
    let t := nwt_tree r in
    tree_valid t ∧ num_vertices_tree t = num_vertices grid_2x3 * 2 - 1 ∧
    (∀ i, i < num_vertices_tree t → is_leaf i t = true ↔ i < num_vertices grid_2x3) ∧
    (∀ y, num_vertices grid_2x3 ≤ y → y < num_vertices_tree t →
          length (children y t) = 2).
Proof.
  apply (X6_bpt_canonical_binary_tree grid_2x3 [1; 0; 2; 1; 1; 1; 2]%Z).
  - apply grid_2x3_wf.
  - apply grid_2x3_connected.
  - reflexivity.
Defined.

Lemma X7_bpt_canonical_selection_order_witness :
  ∃ r, bpt_canonical grid_2x3 [1; 0; 2; 1; 1; 1; 2]%Z = inr r ∧
    ∀ i j, i < j → j < num_vertices grid_2x3 - 1 →
      edge_before [1; 0; 2; 1; 1; 1; 2]%Z
        (nwt_mst_edge_map r !!! i) (nwt_mst_edge_map r !!! j).
Proof.
  apply (X7_bpt_canonical_selection_order grid_2x3 [1; 0; 2; 1; 1; 1; 2]%Z).
  - apply grid_2x3_wf.
  - apply grid_2x3_connected.
  - reflexivity.
Defined.

Lemma X8_binary_partition_tree_connected_witness :
  binary_partition_tree smallest_edge_id (Ugraph 4 [(0, 1); (2, 3)]) [1; 2]%Z
    binary_partition_tree_min_linkage [1; 2]%Z = inl InvalidTree.
Proof.
  assert (graph_wf (Ugraph 4 [(0, 1); (2, 3)])) as Hwf
    by (apply graph_wf_b_correct; reflexivity).
  assert (0 < num_vertices (Ugraph 4 [(0, 1); (2, 3)])) as Hn by (simpl; lia).
  apply (X8_binary_partition_tree_connected smallest_edge_id
           (Ugraph 4 [(0, 1); (2, 3)]) [1; 2]%Z); [exact Hwf|exact Hn| | | |].
  - apply simple_graph_b_correct. vm_compute. reflexivity.
  - reflexivity.
  - apply min_linkage_sets_weights_only.
  - intros Hc.
    apply (kruskal_final_connected (Ugraph 4 [(0, 1); (2, 3)]) [1; 2]%Z Hwf Hn) in Hc.
    vm_compute in Hc. discriminate Hc.
Defined.

Lemma X9_bpt_canonical_saliency_witness :
  ∃ r, bpt_canonical grid_2x3 [1; 0; 2; 1; 1; 1; 2]%Z = inr r ∧
    let sm := saliency_map grid_2x3 (nwt_tree r) (nwt_altitudes r) in
    (∀ e, e < num_edges grid_2x3 →
       source (edge_from_index e grid_2x3) ≠ target (edge_from_index e grid_2x3) →
       (sm !!! e ≤ [1; 0; 2; 1; 1; 1; 2]%Z !!! e)%Z) ∧
    (∀ k, k < num_vertices grid_2x3 - 1 →
       sm !!! (nwt_mst_edge_map r !!! k) =
       [1; 0; 2; 1; 1; 1; 2]%Z !!! (nwt_mst_edge_map r !!! k)) ∧
    (∀ e, e < num_edges grid_2x3 →
       source (edge_from_index e grid_2x3) = target (edge_from_index e grid_2x3) →
       sm !!! e = 0%Z).
Proof.
  apply (X9_bpt_canonical_saliency grid_2x3 [1; 0; 2; 1; 1; 1; 2]%Z).
  - apply grid_2x3_wf.
  - apply grid_2x3_connected.
  - reflexivity.
Defined.

Lemma X12_binary_partition_tree_any_linkage_witness :
  ∃ t alt,
    binary_partition_tree first_pushed grid_2x3 [1; 0; 2; 1; 1; 1; 2]%Z
      (binary_partition_tree_average_linkage (T := Z))
      (AverageLinkageTables [1; 0; 2; 1; 1; 1; 2]%Z [1; 1; 1; 1; 1; 1; 1]%Z) =
      inr (NodeWeightedTree t alt) ∧
    tree_valid t ∧ num_vertices_tree t = num_vertices grid_2x3 * 2 - 1 ∧
    (∀ i, i < num_vertices_tree t → is_leaf i t = true ↔ i < num_vertices grid_2x3) ∧
    (∀ y, num_vertices grid_2x3 ≤ y → y < num_vertices_tree t →
          length (children y t) = 2).
Proof.
  apply (X12_binary_partition_tree_any_linkage first_pushed grid_2x3
           [1; 0; 2; 1; 1; 1; 2]%Z).
  - apply grid_2x3_wf.
  - apply grid_2x3_connected.
  - apply simple_graph_b_correct. vm_compute. reflexivity.
  - reflexivity.
  - apply average_linkage_sets_weights_only.
Defined.

Lemma X13_min_complete_linkage_altitudes_witness :
  ∃ t alt,
    binary_partition_tree first_pushed grid_2x3 [1; 0; 2; 1; 1; 1; 2]%Z
      binary_partition_tree_complete_linkage [1; 0; 2; 1; 1; 1; 2]%Z =
      inr (NodeWeightedTree t alt) ∧
    tree_valid t ∧ num_vertices_tree t = num_vertices grid_2x3 * 2 - 1 ∧
    (∀ i, num_vertices grid_2x3 ≤ i → i < num_vertices_tree t →
       alt !!! i ∈ [1; 0; 2; 1; 1; 1; 2]%Z) ∧
    (∀ i j, num_vertices grid_2x3 ≤ i → i ≤ j → j < num_vertices_tree t →
       (alt !!! i ≤ alt !!! j)%Z) ∧
    (∀ i, num_vertices grid_2x3 ≤ i → i < num_vertices_tree t →
       (alt !!! i ≤ alt !!! parent i t)%Z).
Proof.
  apply (X13_min_complete_linkage_altitudes first_pushed grid_2x3 [1; 0; 2; 1; 1; 1; 2]%Z).
  - apply grid_2x3_wf.
  - apply grid_2x3_connected.
  - apply simple_graph_b_correct. vm_compute. reflexivity.
  - reflexivity.
  - right. reflexivity.
Defined.

Lemma X14_bpt_canonical_increasing_map_witness :
  match bpt_canonical grid_2x3 [1; 0; 2; 1; 1; 1; 2]%Z,
        bpt_canonical grid_2x3 ((λ x, 2 * x + 1)%Z <$> [1; 0; 2; 1; 1; 1; 2]%Z) with
  | inr r, inr r' =>
      nwt_tree r' = nwt_tree r ∧ nwt_mst r' = nwt_mst r ∧
      nwt_mst_edge_map r' = nwt_mst_edge_map r ∧
      length (nwt_altitudes r') = length (nwt_altitudes r) ∧
      (∀ i, i < num_vertices grid_2x3 → nwt_altitudes r' !!! i = nwt_altitudes r !!! i) ∧
      (∀ i, num_vertices grid_2x3 ≤ i → i < num_vertices grid_2x3 * 2 - 1 →
         nwt_altitudes r' !!! i = (2 * (nwt_altitudes r !!! i) + 1)%Z)
  | inl e, inl e' => e = e'
  | _, _ => False
  end.
Proof.
  apply (X14_bpt_canonical_increasing_map grid_2x3 [1; 0; 2; 1; 1; 1; 2]%Z
           (λ x, 2 * x + 1)%Z).
  intros a b Hab. lia.
Defined.

Lemma X15_simplify_tree_criterion_inner_witness :
  simplify_tree tree_simplification (λ i, i =? 5) =
  simplify_tree tree_simplification (λ i, (i =? 5) || (i <? 5) || (i =? 7)).
Proof.
  apply (X15_simplify_tree_criterion_inner tree_simplification
           (λ i, i =? 5) (λ i, (i =? 5) || (i <? 5) || (i =? 7))).
  intros i Hi Hl Hr.
  do 5 (destruct i as [|i]; [vm_compute in Hl; discriminate Hl|]).
  destruct i as [|i]; [reflexivity|].
  destruct i as [|i]; [reflexivity|].
  destruct i as [|i]; [exfalso; apply Hr; reflexivity|].
  unfold tree_simplification, num_vertices_tree in Hi. simpl in Hi. lia.
Defined.

Lemma X10_bpt_canonical_lambda_connected_witness :
  ∃ r, bpt_canonical grid_2x3 [1; 0; 2; 1; 1; 1; 2]%Z = inr r ∧
    ∀ u v (lam : Z), u < num_vertices grid_2x3 → v < num_vertices grid_2x3 → u ≠ v →
      (nwt_altitudes r !!! lca (nwt_tree r) u v ≤ lam)%Z ↔
      conn (edges_of grid_2x3
              (filter (λ e, ([1; 0; 2; 1; 1; 1; 2]%Z !!! e ≤ lam)%Z)
                      (seq 0 (num_edges grid_2x3)))) u v.
Proof.
  apply (X10_bpt_canonical_lambda_connected grid_2x3 [1; 0; 2; 1; 1; 1; 2]%Z).
  - apply grid_2x3_wf.
  - apply grid_2x3_connected.
  - reflexivity.
Defined.

Lemma X11_qfz_lambda_connected_witness :
  ∃ q, quasi_flat_zones_hierarchy grid_2x3 [1; 0; 2; 1; 1; 1; 2]%Z = inr q ∧
    ∀ u v (lam : Z), u < num_vertices grid_2x3 → v < num_vertices grid_2x3 → u ≠ v →
      (nw_altitudes q !!! lca (nw_tree q) u v ≤ lam)%Z ↔
      conn (edges_of grid_2x3
              (filter (λ e, ([1; 0; 2; 1; 1; 1; 2]%Z !!! e ≤ lam)%Z)
                      (seq 0 (num_edges grid_2x3)))) u v.
Proof.
  apply (X11_qfz_lambda_connected grid_2x3 [1; 0; 2; 1; 1; 1; 2]%Z).
  - apply grid_2x3_wf.
  - apply grid_2x3_connected.
  - reflexivity.
Defined.

Lemma X16_qfz_increasing_map_witness :
  ∃ q q',
    quasi_flat_zones_hierarchy grid_2x3 [1; 0; 2; 1; 1; 1; 2]%Z = inr q ∧
    quasi_flat_zones_hierarchy grid_2x3
      ((λ x, 2 * x + 1)%Z <$> [1; 0; 2; 1; 1; 1; 2]%Z) = inr q' ∧
    nw_tree q' = nw_tree q ∧
    (∀ j, j < num_vertices grid_2x3 → nw_altitudes q' !!! j = nw_altitudes q !!! j) ∧
    (∀ j, num_vertices grid_2x3 ≤ j → j < num_vertices_tree (nw_tree q) →
       nw_altitudes q' !!! j = (2 * (nw_altitudes q !!! j) + 1)%Z).
Proof.
  apply (X16_qfz_increasing_map grid_2x3 [1; 0; 2; 1; 1; 1; 2]%Z (λ x, 2 * x + 1)%Z).
  - apply grid_2x3_wf.
  - apply grid_2x3_connected.
  - reflexivity.
  - intros a b Hab. lia.
Defined.

Lemma X17_min_linkage_saliency_witness :
  ∃ r t alt,
    bpt_canonical two_chains [1; 1; 2; 2; 9]%Z = inr r ∧
    bpt_min_linkage first_pushed two_chains [1; 1; 2; 2; 9]%Z
      = inr (NodeWeightedTree t alt) ∧
    (∀ u v, u < num_vertices two_chains → v < num_vertices two_chains →
       alt !!! lca t u v = nwt_altitudes r !!! lca (nwt_tree r) u v) ∧
    saliency_map two_chains t alt =
    saliency_map two_chains (nwt_tree r) (nwt_altitudes r).
Proof.
  apply (X17_min_linkage_saliency first_pushed two_chains [1; 1; 2; 2; 9]%Z).
  - apply graph_wf_b_correct. reflexivity.
  - apply two_chains_connected.
  - apply simple_graph_b_correct. vm_compute. reflexivity.
  - reflexivity.
Defined.
